(** * Astra guardrails: a shallow embedding of the analysis and repair core

    Python sources embedded here (package [astra.tools]):
    [pointer.py], [fmt.py], [effects.py], [repair_suggest.py],
    [propcheck.py], [lsp_server.py] (pre-validation), [jsonpos.py]
    ([TextIndex]), [typecheck.py] and [sandbox_ast.py].

    Conventions.
    - A Python [str] is a [string]; a [dict] is an association list in
      insertion order (keys of a real dict are distinct); a [set] of
      strings is a [gset string].
    - A Python exception is a value of [PyExn]; a function that may
      raise returns [result A].
    - Recursion that Python bounds only by its stack takes a [fuel]
      argument; running out of fuel is [None], never a result. *)

From Stdlib Require Import ZArith List String Ascii Bool Lia DecimalString.
From stdpp Require Import base option list strings gmap.

Local Open Scope string_scope.
Local Open Scope list_scope.
Local Open Scope Z_scope.

(** ** JSON values, as [json.loads] builds them *)

Unset Elimination Schemes.
Inductive Json : Type :=
| JNull
| JBool (b : bool)
| JInt (n : Z)
| JFloat (repr : string)
| JStr (s : string)
| JList (xs : list Json)
| JDict (kvs : list (string * Json)).
Set Elimination Schemes.

(** Python exceptions that the embedded code raises or lets escape. *)
Inductive PyExn : Type :=
| PatchError (message : string)
| ValueError (message : string)
| KeyError (message : string)
| IndexError
| TypeError
| SandboxError (message : string)
| AssertionError (message : string)
| EffectError (message : string)
| UnicodeEncodeError.

Inductive result (A : Type) : Type :=
| Ok (a : A)
| Raise (e : PyExn).
Arguments Ok {A} a.
Arguments Raise {A} e.

Definition rbind {A B} (m : result A) (k : A -> result B) : result B :=
  match m with
  | Ok a => k a
  | Raise e => Raise e
  end.

Notation "'try!' x <- m ; k" := (rbind m (fun x => k))
  (at level 20, x pattern, m at level 100, k at level 200, only parsing).

(** ** Python built-ins used by the sources *)

Module Py.

(** [k in d] and [d.get(k)] for a dict. *)
Fixpoint dict_get {V} (k : string) (d : list (string * V)) : option V :=
  match d with
  | [] => None
  | (k', v) :: d' => if String.eqb k k' then Some v else dict_get k d'
  end.

Definition dict_has {V} (k : string) (d : list (string * V)) : bool :=
  match dict_get k d with Some _ => true | None => false end.

(** [d[k] = v]: an existing key keeps its place, a new key goes last. *)
Fixpoint dict_set {V} (k : string) (v : V) (d : list (string * V)) : list (string * V) :=
  match d with
  | [] => [(k, v)]
  | (k', v') :: d' =>
      if String.eqb k k' then (k, v) :: d' else (k', v') :: dict_set k v d'
  end.

(** [d.pop(k, None)]. *)
Fixpoint dict_pop {V} (k : string) (d : list (string * V)) : list (string * V) :=
  match d with
  | [] => []
  | (k', v') :: d' =>
      if String.eqb k k' then d' else (k', v') :: dict_pop k d'
  end.

Definition keys {V} (d : list (string * V)) : list string := map fst d.

(** [s.replace(c, new)] for a one-character pattern. *)
Fixpoint replace_char (c : ascii) (new : string) (s : string) : string :=
  match s with
  | EmptyString => EmptyString
  | String a r =>
      if Ascii.eqb a c then new +:+ replace_char c new r
      else String a (replace_char c new r)
  end.

(** [s.replace(c1 c2, new)] for a two-character pattern: matches are taken
    left to right and do not overlap. *)
Fixpoint replace_pair (c1 c2 : ascii) (new : string) (s : string) : string :=
  match s with
  | EmptyString => EmptyString
  | String a t =>
      match t with
      | EmptyString => String a EmptyString
      | String b r =>
          if Ascii.eqb a c1 && Ascii.eqb b c2 then new +:+ replace_pair c1 c2 new r
          else String a (replace_pair c1 c2 new t)
      end
  end.

(** [s.split(sep)] for a one-character separator: always at least one piece. *)
Fixpoint split_on (sep : ascii) (s : string) : list string :=
  match s with
  | EmptyString => [EmptyString]
  | String a r =>
      if Ascii.eqb a sep then EmptyString :: split_on sep r
      else match split_on sep r with
           | [] => [String a EmptyString]
           | p :: ps => String a p :: ps
           end
  end.

(** [sep.join(parts)]. *)
Fixpoint join_with (sep : string) (parts : list string) : string :=
  match parts with
  | [] => EmptyString
  | [p] => p
  | p :: ps => p +:+ sep +:+ join_with sep ps
  end.

Fixpoint lstrip_char (c : ascii) (s : string) : string :=
  match s with
  | String a r => if Ascii.eqb a c then lstrip_char c r else s
  | EmptyString => EmptyString
  end.

Definition rstrip_char (c : ascii) (s : string) : string :=
  String.rev (lstrip_char c (String.rev s)).

Definition strip_char (c : ascii) (s : string) : string :=
  rstrip_char c (lstrip_char c s).

Definition startswith_char (c : ascii) (s : string) : bool :=
  match s with
  | String a _ => Ascii.eqb a c
  | EmptyString => false
  end.

Definition is_digit (a : ascii) : bool :=
  let n := nat_of_ascii a in (48 <=? n)%nat && (n <=? 57)%nat.

Fixpoint all_digits (s : string) : bool :=
  match s with
  | EmptyString => true
  | String a r => is_digit a && all_digits r
  end.

(** [s.isdigit()] on ASCII text: non-empty and decimal digits only. *)
Definition isdigit (s : string) : bool :=
  match s with
  | EmptyString => false
  | _ => all_digits s
  end.

Fixpoint int_of_digits (acc : nat) (s : string) : nat :=
  match s with
  | EmptyString => acc
  | String a r => int_of_digits (10 * acc + (nat_of_ascii a - 48))%nat r
  end.

(** [int(s)] for a string that passed [isdigit]. *)
Definition int_of_str (s : string) : nat := int_of_digits 0%nat s.

(** [str(n)] for a non-negative and for any integer. *)
Definition str_of_nat (n : nat) : string := NilZero.string_of_uint (Nat.to_uint n).
Definition str_of_Z (z : Z) : string := NilZero.string_of_int (Z.to_int z).

(** [sorted(xs)] on strings: insertion sort by code unit order. *)
Fixpoint insert_sorted (x : string) (l : list string) : list string :=
  match l with
  | [] => [x]
  | y :: l' => if String.leb x y then x :: l else y :: insert_sorted x l'
  end.

Fixpoint sorted (l : list string) : list string :=
  match l with
  | [] => []
  | x :: l' => insert_sorted x (sorted l')
  end.

Definition mem (x : string) (l : list string) : bool :=
  existsb (String.eqb x) l.

(** [xs.insert(i, v)] for [i >= 0]: an index past the end appends. *)
Definition list_insert_at {A} (i : nat) (v : A) (xs : list A) : list A :=
  take i xs ++ v :: drop i xs.

(** [xs.pop(i)] for [i >= 0]. *)
Definition list_pop_at {A} (i : nat) (xs : list A) : result (list A) :=
  if (i <? length xs)%nat then Ok (take i xs ++ drop (S i) xs) else Raise IndexError.

(** [xs[i] = v] for [i >= 0]. *)
Definition list_assign {A} (i : nat) (v : A) (xs : list A) : result (list A) :=
  if (i <? length xs)%nat then Ok (<[i:=v]> xs) else Raise IndexError.

(** [xs[i]] for [i >= 0]. *)
Definition list_index {A} (i : nat) (xs : list A) : result A :=
  match xs !! i with
  | Some x => Ok x
  | None => Raise IndexError
  end.

End Py.

(** ** [pointer.py]: JSON Pointer (RFC 6901) and the JSON Patch subset *)

Module Pointer.

(** A pointer segment as the checkers build it: a key or a list index. *)
Inductive Seg : Type :=
| SegS (s : string)
| SegI (i : nat).

Definition seg_str (s : Seg) : string :=
  match s with
  | SegS s => s
  | SegI i => Py.str_of_nat i
  end.

Definition escape_segment (seg : string) : string :=
  Py.replace_char "/" "~1" (Py.replace_char "~" "~0" seg).

Definition unescape_segment (seg : string) : string :=
  Py.replace_pair "~" "0" "~" (Py.replace_pair "~" "1" "/" seg).

Definition split_pointer (pointer : string) : result (list string) :=
  if String.eqb pointer "" || String.eqb pointer "/" then Ok []
  else if negb (Py.startswith_char "/" pointer) then
    Raise (ValueError "Invalid JSON pointer (must start with '/')")
  else Ok (map unescape_segment (Py.split_on "/" (Py.lstrip_char "/" pointer))).

Definition join_pointer (segments : list Seg) : string :=
  match segments with
  | [] => ""
  | _ => "/" +:+ Py.join_with "/" (map (fun s => escape_segment (seg_str s)) segments)
  end.

(** The key [_coerce_index] returns: an [int] or the segment itself. *)
Inductive Key : Type :=
| KeyI (i : nat)
| KeyS (s : string).

Definition is_list (j : Json) : bool :=
  match j with JList _ => true | _ => false end.

Definition _coerce_index (seg : string) (cur : Json) : Key :=
  if is_list cur && negb (String.eqb seg "-") && Py.isdigit seg
  then KeyI (Py.int_of_str seg)
  else KeyS seg.

(** One step of [resolve]: the child of [cur] under the raw segment. *)
Definition resolve_step (cur : Json) (raw : string) : result Json :=
  match cur with
  | JList xs =>
      match _coerce_index raw cur with
      | KeyS s =>
          if String.eqb s "-" then Raise (KeyError "'-' is not valid for resolve")
          else Raise (KeyError "Expected list index")
      | KeyI i => Py.list_index i xs
      end
  | JDict kvs =>
      match Py.dict_get raw kvs with
      | Some v => Ok v
      | None => Raise (KeyError raw)
      end
  | _ => Raise (KeyError "Cannot traverse into non-container")
  end.

Fixpoint resolve_segs (cur : Json) (segs : list string) : result Json :=
  match segs with
  | [] => Ok cur
  | raw :: rest => try! child <- resolve_step cur raw; resolve_segs child rest
  end.

Definition resolve (doc : Json) (pointer : string) : result Json :=
  try! segs <- split_pointer pointer; resolve_segs doc segs.

(** The patch engine mutates the container that [resolve] returned, which is
    part of [doc]. Documents are trees (what [json.loads] and the deep copies
    of the callers produce), so the mutation is the functional update of the
    node at the path that [resolve] walked. *)
Fixpoint store (cur : Json) (segs : list string) (new : Json) : result Json :=
  match segs with
  | [] => Ok new
  | raw :: rest =>
      try! child <- resolve_step cur raw;
      try! child' <- store child rest new;
      match cur with
      | JList xs =>
          match _coerce_index raw cur with
          | KeyI i => try! xs' <- Py.list_assign i child' xs; Ok (JList xs')
          | KeyS _ => Raise (KeyError "Expected list index")
          end
      | JDict kvs => Ok (JDict (Py.dict_set raw child' kvs))
      | _ => Raise (KeyError "Cannot traverse into non-container")
      end
  end.

(** [_resolve_parent]: the parent container and the coerced last segment;
    the model also returns the path of the parent for [store]. *)
Definition _resolve_parent (doc : Json) (pointer : string)
  : result (list string * Json * Key) :=
  try! segs <- split_pointer pointer;
  match segs with
  | [] => Raise (ValueError "Pointer refers to document root; no parent")
  | _ =>
      let parent_ptr := join_pointer (map SegS (removelast segs)) in
      try! psegs <- split_pointer parent_ptr;
      try! parent <- resolve_segs doc psegs;
      let last_raw := List.last segs "" in
      Ok (psegs, parent, _coerce_index last_raw parent)
  end.

Definition is_patch_kind (kind : option Json) : bool :=
  match kind with
  | Some (JStr k) => String.eqb k "add" || String.eqb k "replace" || String.eqb k "remove"
  | _ => false
  end.

Definition key_is_dash (k : Key) : bool :=
  match k with KeyS s => String.eqb s "-" | KeyI _ => false end.

(** The body of the loop of [apply_patch] for one operation. *)
Definition apply_op (doc : Json) (op : Json) : result Json :=
  match op with
  | JDict o =>
      let kind := Py.dict_get "op" o in
      let path := Py.dict_get "path" o in
      if negb (is_patch_kind kind) then Raise (PatchError "Unsupported patch op")
      else
        match path with
        | Some (JStr path) =>
            if (match kind with Some (JStr k) => String.eqb k "remove" | _ => false end) then
              try! (psegs, parent, key) <- _resolve_parent doc path;
              match parent with
              | JList xs =>
                  match key with
                  | KeyS _ => Raise (PatchError "Invalid list index for remove")
                  | KeyI i => try! xs' <- Py.list_pop_at i xs; store doc psegs (JList xs')
                  end
              | JDict kvs =>
                  match key with
                  | KeyS s => store doc psegs (JDict (Py.dict_pop s kvs))
                  | KeyI _ => Raise (PatchError "Invalid object key for remove")
                  end
              | _ => Raise (PatchError "Parent is not container")
              end
            else
              match Py.dict_get "value" o with
              | None => Raise (PatchError "Patch op missing 'value'")
              | Some value =>
                  if String.eqb path "" || String.eqb path "/" then Ok value
                  else
                    try! (psegs, parent, key) <- _resolve_parent doc path;
                    match parent with
                    | JList xs =>
                        if key_is_dash key then store doc psegs (JList (xs ++ [value]))
                        else
                          match key with
                          | KeyS _ => Raise (PatchError "Invalid list index")
                          | KeyI i =>
                              if (match kind with Some (JStr k) => String.eqb k "add" | _ => false end)
                              then store doc psegs (JList (Py.list_insert_at i value xs))
                              else try! xs' <- Py.list_assign i value xs; store doc psegs (JList xs')
                          end
                    | JDict kvs =>
                        match key with
                        | KeyS s => store doc psegs (JDict (Py.dict_set s value kvs))
                        | KeyI _ => Raise (PatchError "Invalid object key")
                        end
                    | _ => Raise (PatchError "Parent is not container")
                    end
              end
        | _ => Raise (PatchError "Patch op missing string 'path'")
        end
  | _ => Raise (PatchError "Patch operation must be an object")
  end.

Fixpoint apply_patch (doc : Json) (patch : list Json) : result Json :=
  match patch with
  | [] => Ok doc
  | op :: rest => try! doc' <- apply_op doc op; apply_patch doc' rest
  end.

(** The three operations as the wire format writes them. *)
Definition op_add (path : string) (value : Json) : Json :=
  JDict [("op", JStr "add"); ("path", JStr path); ("value", value)].
Definition op_replace (path : string) (value : Json) : Json :=
  JDict [("op", JStr "replace"); ("path", JStr path); ("value", value)].
Definition op_remove (path : string) : Json :=
  JDict [("op", JStr "remove"); ("path", JStr path)].

End Pointer.

(** ** [fmt.py]: the canonical formatter *)

Module Fmt.

Definition MODULE_KEY_ORDER : list string :=
  ["module"; "version"; "imports"; "externs"; "functions"; "tests"; "properties"; "metadata"].

Definition FUNCTION_KEY_ORDER : list string :=
  ["name"; "doc"; "type_params"; "params"; "param_types"; "returns"; "effects";
   "requires"; "ensures"; "body"; "tests"; "properties"].

Definition TEST_KEY_ORDER : list string := ["name"; "fn"; "args"; "expect"].
Definition PROPERTY_KEY_ORDER : list string := ["name"; "fn"; "strategy"; "expect"].
Definition IF_KEY_ORDER : list string := ["cond"; "then"; "else"].
Definition LET_KEY_ORDER : list string := ["name"; "expr"].
Definition ASSERT_KEY_ORDER : list string := ["expr"; "message"].
Definition CALL_KEY_ORDER : list string := ["fn"; "args"].

Section Dict.
Context {V : Type}.

(** [{k: obj[k] for k in ks if k in obj}], in the order of [ks]. *)
Fixpoint pick (obj : list (string * V)) (ks : list string) : list (string * V) :=
  match ks with
  | [] => []
  | k :: ks' =>
      match Py.dict_get k obj with
      | Some v => (k, v) :: pick obj ks'
      | None => pick obj ks'
      end
  end.

Definition _ordered_dict (obj : list (string * V)) (preferred : list string)
  : list (string * V) :=
  let out := pick obj preferred in
  let rest := Py.sorted (List.filter (fun k => negb (Py.dict_has k out)) (Py.keys obj)) in
  out ++ pick obj rest.

(** [{k: obj[k] for k in sorted(obj.keys())}]. *)
Definition sorted_items (obj : list (string * V)) : list (string * V) :=
  pick obj (Py.sorted (Py.keys obj)).

End Dict.

Definition is_null (v : Json) : bool :=
  match v with JNull => true | _ => false end.

Definition is_dict (v : Json) : bool :=
  match v with JDict _ => true | _ => false end.

(** The comprehension filter [if v is not None]. *)
Definition drop_none (items : list (string * Json)) : list (string * Json) :=
  List.filter (fun kv => negb (is_null kv.2)) items.

Definition is_module_node (kvs : list (string * Json)) : bool :=
  Py.dict_has "module" kvs && Py.dict_has "functions" kvs.

Definition is_function_node (kvs : list (string * Json)) : bool :=
  forallb (fun k => Py.dict_has k kvs) ["name"; "params"; "effects"; "body"].

Definition is_test_node (kvs : list (string * Json)) : bool :=
  Py.dict_has "fn" kvs && Py.dict_has "args" kvs && Py.dict_has "expect" kvs
  && negb (Py.dict_has "strategy" kvs).

Definition is_property_node (kvs : list (string * Json)) : bool :=
  Py.dict_has "fn" kvs && Py.dict_has "strategy" kvs && Py.dict_has "expect" kvs.

Definition STMT_TAGS : list string := ["if"; "let"; "return"; "assert"; "expr"].
Definition EXPR_TAGS : list string := ["call"; "var"; "list"; "obj"].

(** The children are canonicalised where they stand and the items are put
    in order afterwards; the source orders first and canonicalises while it
    rebuilds. Ordering only moves items ([FmtFacts.ordered_map_values]) and
    a value is [None] exactly when its canonical form is
    ([FmtFacts.canonicalize_is_null]), so both give the same dict. *)
Fixpoint canonicalize (node : Json) : Json :=
  match node with
  | JList xs => JList (map canonicalize xs)
  | JDict kvs =>
      let items := map (fun kv => (kv.1, canonicalize kv.2)) kvs in
      if is_module_node kvs then JDict (_ordered_dict items MODULE_KEY_ORDER)
      else if is_function_node kvs then JDict (drop_none (_ordered_dict items FUNCTION_KEY_ORDER))
      else if is_test_node kvs then JDict (drop_none (_ordered_dict items TEST_KEY_ORDER))
      else if is_property_node kvs then JDict (drop_none (_ordered_dict items PROPERTY_KEY_ORDER))
      else
        match kvs with
        | [(tag, val)] =>
            if Py.mem tag STMT_TAGS then
              match val with
              | JDict inner =>
                  let inner_items := map (fun kv => (kv.1, canonicalize kv.2)) inner in
                  if String.eqb tag "if" then
                    JDict [(tag, JDict (drop_none (_ordered_dict inner_items IF_KEY_ORDER)))]
                  else if String.eqb tag "let" then
                    JDict [(tag, JDict (drop_none (_ordered_dict inner_items LET_KEY_ORDER)))]
                  else if String.eqb tag "assert" then
                    JDict [(tag, JDict (drop_none (_ordered_dict inner_items ASSERT_KEY_ORDER)))]
                  else JDict [(tag, canonicalize val)]
              | _ => JDict [(tag, canonicalize val)]
              end
            else if Py.mem tag EXPR_TAGS then
              match val with
              | JDict inner =>
                  let inner_items := map (fun kv => (kv.1, canonicalize kv.2)) inner in
                  if String.eqb tag "call" then
                    JDict [(tag, JDict (drop_none (_ordered_dict inner_items CALL_KEY_ORDER)))]
                  else if String.eqb tag "obj" then
                    JDict [(tag, JDict (sorted_items inner_items))]
                  else JDict [(tag, canonicalize val)]
              | _ => JDict [(tag, canonicalize val)]
              end
            else JDict (_ordered_dict items [])
        | _ => JDict (_ordered_dict items [])
        end
  | _ => node
  end.

(** *** [json.dumps(v, indent=2, ensure_ascii=False)] *)

Definition quote : string := String (ascii_of_nat 34) EmptyString.
Definition backslash : string := String (ascii_of_nat 92) EmptyString.
Definition newline : string := String (ascii_of_nat 10) EmptyString.

Definition hex_digit (n : nat) : ascii :=
  if (n <? 10)%nat then ascii_of_nat (48 + n) else ascii_of_nat (87 + n).

Definition escape_char (a : ascii) : string :=
  let n := nat_of_ascii a in
  if (n =? 34)%nat then backslash +:+ quote
  else if (n =? 92)%nat then backslash +:+ backslash
  else if (n =? 10)%nat then backslash +:+ "n"
  else if (n =? 13)%nat then backslash +:+ "r"
  else if (n =? 9)%nat then backslash +:+ "t"
  else if (n =? 8)%nat then backslash +:+ "b"
  else if (n =? 12)%nat then backslash +:+ "f"
  else if (n <? 32)%nat then
    backslash +:+ "u00" +:+ String (hex_digit (n / 16)) (String (hex_digit (n mod 16)) EmptyString)
  else String a EmptyString.

Fixpoint escape_string (s : string) : string :=
  match s with
  | EmptyString => EmptyString
  | String a r => escape_char a +:+ escape_string r
  end.

Definition dumps_str (s : string) : string := quote +:+ escape_string s +:+ quote.

Fixpoint spaces (n : nat) : string :=
  match n with
  | O => EmptyString
  | S n' => String " " (spaces n')
  end.

(** [level] counts the enclosing containers; each adds two spaces. *)
Fixpoint dumps_at (level : nat) (v : Json) : string :=
  match v with
  | JNull => "null"
  | JBool true => "true"
  | JBool false => "false"
  | JInt n => Py.str_of_Z n
  | JFloat repr => repr
  | JStr s => dumps_str s
  | JList [] => "[]"
  | JList xs =>
      let sep := "," +:+ newline +:+ spaces (2 * S level) in
      "[" +:+ newline +:+ spaces (2 * S level)
      +:+ Py.join_with sep (map (dumps_at (S level)) xs)
      +:+ newline +:+ spaces (2 * level) +:+ "]"
  | JDict [] => "{}"
  | JDict kvs =>
      let sep := "," +:+ newline +:+ spaces (2 * S level) in
      "{" +:+ newline +:+ spaces (2 * S level)
      +:+ Py.join_with sep
            (map (fun kv => dumps_str kv.1 +:+ ": " +:+ dumps_at (S level) kv.2) kvs)
      +:+ newline +:+ spaces (2 * level) +:+ "}"
  end.

Definition json_dumps (v : Json) : string := dumps_at 0 v.

(** Where [canonicalize] filters with [if v is not None] (function, test
    and property objects, and the inner objects of [if], [let], [assert]
    and [call]), no member is [None]; so in every node it reaches. *)
Fixpoint nothing_dropped (node : Json) : bool :=
  match node with
  | JList xs => forallb nothing_dropped xs
  | JDict kvs =>
      let all := forallb (fun kv => nothing_dropped kv.2) kvs in
      let kept := forallb (fun kv => negb (is_null kv.2) && nothing_dropped kv.2) in
      if is_module_node kvs then all
      else if is_function_node kvs then kept kvs
      else if is_test_node kvs then kept kvs
      else if is_property_node kvs then kept kvs
      else
        match kvs with
        | [(tag, val)] =>
            if Py.mem tag STMT_TAGS then
              match val with
              | JDict inner =>
                  if String.eqb tag "if" then kept inner
                  else if String.eqb tag "let" then kept inner
                  else if String.eqb tag "assert" then kept inner
                  else nothing_dropped val
              | _ => nothing_dropped val
              end
            else if Py.mem tag EXPR_TAGS then
              match val with
              | JDict inner =>
                  if String.eqb tag "call" then kept inner
                  else if String.eqb tag "obj" then
                    forallb (fun kv => nothing_dropped kv.2) inner
                  else nothing_dropped val
              | _ => nothing_dropped val
              end
            else all
        | _ => all
        end
  | _ => true
  end.

Definition dumps_canonical (ast : Json) : string :=
  json_dumps (canonicalize ast) +:+ newline.

End Fmt.

(** ** [effects.py]: the static effect checker *)

Module Effects.

(** [name.rsplit(".", 1)[-1]]: the text after the last dot. *)
Definition _qual_last (name : string) : string :=
  List.last (Py.split_on "." name) name.

(** name -> (arity, required effects) *)
Definition BUILTIN_EFFECTS : list (string * (nat * list string)) :=
  [ ("add", (2, ["pure"])); ("sub", (2, ["pure"])); ("mul", (2, ["pure"]));
    ("div", (2, ["pure"]));
    ("eq", (2, ["pure"])); ("neq", (2, ["pure"])); ("lt", (2, ["pure"]));
    ("lte", (2, ["pure"])); ("gt", (2, ["pure"])); ("gte", (2, ["pure"]));
    ("and", (2, ["pure"])); ("or", (2, ["pure"])); ("not", (1, ["pure"]));
    ("str_len", (1, ["pure"])); ("str_concat", (2, ["pure"]));
    ("str_contains", (2, ["pure"]));
    ("len", (1, ["pure"])); ("list_get", (2, ["pure"])); ("list_set", (3, ["pure"]));
    ("list_append", (2, ["pure"])); ("list_concat", (2, ["pure"]));
    ("list_slice", (3, ["pure"])); ("list_range", (1, ["pure"]));
    ("list_sum", (1, ["pure"])); ("list_mean", (1, ["pure"]));
    ("list_map", (2, ["pure"])); ("list_filter", (2, ["pure"]));
    ("list_reduce", (3, ["pure"]));
    ("obj_get", (2, ["pure"])); ("obj_get_or", (3, ["pure"])); ("obj_has", (2, ["pure"]));
    ("obj_set", (3, ["pure"])); ("obj_del", (2, ["pure"])); ("obj_keys", (1, ["pure"]));
    ("obj_merge", (2, ["pure"]));
    ("print", (1, ["io.print"])); ("http_get", (1, ["net.http"])) ]%nat.

Definition is_builtin (name : string) : bool := Py.dict_has name BUILTIN_EFFECTS.

Definition builtin_effects (name : string) : gset string :=
  match Py.dict_get name BUILTIN_EFFECTS with
  | Some (_, eff) => list_to_set eff
  | None => ∅
  end.

Record EffectIssue : Type := mkIssue {
  pointer : string;
  code : string;
  message : string;
  severity : string
}.

Definition to_dict (i : EffectIssue) : Json :=
  JDict [("pointer", JStr (pointer i)); ("code", JStr (code i));
         ("severity", JStr (severity i)); ("message", JStr (message i))].

Definition HIGHER_ORDER : list string := ["list_map"; "list_filter"; "list_reduce"].

(** What a [call] node yields before its members are walked. *)
Definition call_refs (node : list (string * Json)) (ptr : string) : list (string * string) :=
  match Py.dict_get "call" node with
  | Some (JDict call) =>
      match Py.dict_get "fn" call with
      | Some (JStr fn) =>
          let fn_last := _qual_last fn in
          (fn_last, ptr +:+ "/call/fn")
          :: (if Py.mem fn_last HIGHER_ORDER then
                match Py.dict_get "args" call with
                | Some (JList (JStr callee :: _)) =>
                    [(_qual_last callee, ptr +:+ "/call/args/0")]
                | _ => []
                end
              else [])
      | _ => []
      end
  | _ => []
  end.

(** [iter_calls]: the generator, as the list of what it yields. A child
    pointer is [ptr + "/" + key] whether or not [ptr] is empty. *)
Fixpoint iter_calls (node : Json) (ptr : string) : list (string * string) :=
  match node with
  | JDict kvs =>
      call_refs kvs ptr
      ++ (fix members (l : list (string * Json)) : list (string * string) :=
            match l with
            | [] => []
            | (k, v) :: l' => iter_calls v (ptr +:+ "/" +:+ k) ++ members l'
            end) kvs
  | JList xs =>
      (fix elements (i : nat) (l : list Json) : list (string * string) :=
         match l with
         | [] => []
         | v :: l' => iter_calls v (ptr +:+ "/" +:+ Py.str_of_nat i) ++ elements (S i) l'
         end) 0%nat xs
  | _ => []
  end.

(** A module is a JSON object, given by its items. Its [functions], a
    function's [effects] and its [body] are arrays as the schema has them
    ([None] or an absent member is the empty array); effect tags are
    strings. *)
Definition Module_ : Type := list (string * Json).

Definition array_or_empty (v : option Json) : list Json :=
  match v with
  | Some (JList xs) => xs
  | _ => []
  end.

Definition functions_of (module : Module_) : list Json :=
  array_or_empty (Py.dict_get "functions" module).

Fixpoint strings_of (xs : list Json) : list string :=
  match xs with
  | [] => []
  | JStr s :: xs' => s :: strings_of xs'
  | _ :: xs' => strings_of xs'
  end.

(** [set(fn.get("effects", []) or [])] *)
Definition effects_set (fn : list (string * Json)) : gset string :=
  list_to_set (strings_of (array_or_empty (Py.dict_get "effects" fn))).

(** [set(...) or {"pure"}] *)
Definition or_pure (s : gset string) : gset string :=
  if decide (s = ∅) then {["pure"]} else s.

Definition declared_effects (fn : list (string * Json)) : gset string :=
  or_pure (effects_set fn).

Definition body_of (fn : list (string * Json)) : list Json :=
  array_or_empty (Py.dict_get "body" fn).

Definition UserFuncs : Type := list (string * list (string * Json)).

Fixpoint index_from (i : nat) (fs : list Json) (acc : UserFuncs * list (string * nat))
  : UserFuncs * list (string * nat) :=
  match fs with
  | [] => acc
  | f :: fs' =>
      index_from (S i) fs'
        match f with
        | JDict fn =>
            match Py.dict_get "name" fn with
            | Some (JStr name) => (Py.dict_set name fn acc.1, Py.dict_set name i acc.2)
            | _ => acc
            end
        | _ => acc
        end
  end.

Definition _user_function_index (module : Module_) : UserFuncs * list (string * nat) :=
  index_from 0 (functions_of module) ([], []).

(** The calls of a body, statement by statement, with their pointers. *)
Fixpoint body_calls (fn_ptr : string) (i : nat) (body : list Json) : list (string * string) :=
  match body with
  | [] => []
  | stmt :: body' =>
      iter_calls stmt (fn_ptr +:+ "/" +:+ Py.str_of_nat i) ++ body_calls fn_ptr (S i) body'
  end.

(** The names that the body of a function calls or passes to a
    higher-order builtin. *)
Definition callees (fn : list (string * Json)) : list string :=
  map fst (body_calls "" 0 (body_of fn)).

Definition Memo : Type := list (string * gset string).
Definition State : Type := (Memo * list EffectIssue)%type.

Definition unknown_call (callee callee_ptr : string) : EffectIssue :=
  mkIssue callee_ptr "UnknownFunctionCall" ("Call to unknown function: " +:+ callee) "error".

Section Visit.
Variable user_funcs : UserFuncs.
Variable func_index : list (string * nat).

Definition known (callee : string) : bool :=
  is_builtin callee || Py.dict_has callee user_funcs.

(** The loop over the calls of a body: [required |= visit(callee)] for a
    known callee, an issue for an unknown one. [visit] is the recursive
    call. *)
Fixpoint visit_calls (visit : string -> State -> option (gset string * State))
    (calls : list (string * string)) (required : gset string) (st : State)
  : option (gset string * State) :=
  match calls with
  | [] => Some (required, st)
  | (callee, callee_ptr) :: calls' =>
      if known callee then
        match visit callee st with
        | Some (r, st') => visit_calls visit calls' (required ∪ r) st'
        | None => None
        end
      else visit_calls visit calls' required (st.1, st.2 ++ [unknown_call callee callee_ptr])
  end.

Definition body_pointer (fn_name : string) : string :=
  "/functions/" +:+ Py.str_of_nat (default 0%nat (Py.dict_get fn_name func_index)) +:+ "/body".

(** The inner function [visit] of [compute_transitive_effects]. [memo] and
    [issues] are the state it shares with its caller; [visiting] is
    restored on return, so it is passed down. A visit of a user function
    that is neither in [memo] nor being visited costs one unit of fuel. *)
Fixpoint visit (fuel : nat) (visiting : gset string) (fn_name : string) (st : State)
  : option (gset string * State) :=
  match Py.dict_get fn_name st.1 with
  | Some s => Some (s, st)
  | None =>
      if decide (fn_name ∈ visiting) then
        let s := or_pure (effects_set (default [] (Py.dict_get fn_name user_funcs))) in
        Some (s, (Py.dict_set fn_name s st.1, st.2))
      else if is_builtin fn_name then
        let s := builtin_effects fn_name in
        Some (s, (Py.dict_set fn_name s st.1, st.2))
      else
        match Py.dict_get fn_name user_funcs with
        | None => Some (∅, (Py.dict_set fn_name ∅ st.1, st.2))
        | Some fn =>
            match fuel with
            | O => None
            | S fuel' =>
                let calls := body_calls (body_pointer fn_name) 0 (body_of fn) in
                match visit_calls (visit fuel' (visiting ∪ {[fn_name]})) calls
                        (declared_effects fn) st with
                | Some (required, st') =>
                    Some (required, (Py.dict_set fn_name required st'.1, st'.2))
                | None => None
                end
            end
        end
  end.

Fixpoint visit_all (fuel : nat) (names : list string) (st : State) : option State :=
  match names with
  | [] => Some st
  | name :: names' =>
      match visit fuel ∅ name st with
      | Some (_, st') => visit_all fuel names' st'
      | None => None
      end
  end.

End Visit.

(** [(effects_map, issues)]. The depth of nested visits is at most the
    number of user functions, which is the fuel given. *)
Definition compute_transitive_effects (module : Module_) : option State :=
  let '(user_funcs, func_index) := _user_function_index module in
  visit_all user_funcs func_index (length user_funcs) (Py.keys user_funcs) ([], []).

(** [repr] of a list of plain strings, as an f-string prints it. *)
Definition repr_list (xs : list string) : string :=
  "[" +:+ Py.join_with ", " (map (fun s => "'" +:+ s +:+ "'") xs) +:+ "]".

Definition sorted_set (s : gset string) : list string := Py.sorted (elements s).

Definition missing_effect (idx : nat) (fn_name : string) (missing declared : gset string)
  : EffectIssue :=
  mkIssue ("/functions/" +:+ Py.str_of_nat idx +:+ "/effects") "MissingEffect"
    ("Function '" +:+ fn_name +:+ "' requires effects " +:+ repr_list (sorted_set missing)
     +:+ " but declares " +:+ repr_list (sorted_set declared) +:+ ".")
    "error".

Definition not_pure (idx : nat) (fn_name : string) (declared : gset string) : EffectIssue :=
  mkIssue ("/functions/" +:+ Py.str_of_nat idx +:+ "/effects") "NotPure"
    ("Function '" +:+ fn_name +:+ "' declares 'pure' but also "
     +:+ repr_list (sorted_set (declared ∖ {["pure"]})) +:+ ". Consider removing 'pure'.")
    "warning".

(** The issues that the loop of [check_effects] appends for one entry of
    the effects map. *)
Definition declaration_issues (user_funcs : UserFuncs) (func_index : list (string * nat))
    (entry : string * gset string) : list EffectIssue :=
  let '(fn_name, required) := entry in
  if is_builtin fn_name then []
  else
    match Py.dict_get fn_name user_funcs with
    | None => []
    | Some fn =>
        let idx := default 0%nat (Py.dict_get fn_name func_index) in
        let declared := declared_effects fn in
        let missing := required ∖ declared in
        (if decide (missing = ∅) then [] else [missing_effect idx fn_name missing declared])
        ++ (if bool_decide ("pure" ∈ declared) && (1 <? size declared)%nat
            then [not_pure idx fn_name declared] else [])
    end.

Definition check_effects (module : Module_) : option (list Json) :=
  let '(user_funcs, func_index) := _user_function_index module in
  match compute_transitive_effects module with
  | Some (effects_map, issues) =>
      Some (map to_dict
              (issues ++ concat (map (declaration_issues user_funcs func_index) effects_map)))
  | None => None
  end.

End Effects.

(** ** [repair_suggest.py]: deterministic patches from issue codes *)

Module RepairSuggest.
Import Effects.

(** [==] on JSON values whose dicts list their keys in the same order. *)
Fixpoint Json_eqb (a b : Json) : bool :=
  match a, b with
  | JNull, JNull => true
  | JBool x, JBool y => Bool.eqb x y
  | JInt x, JInt y => Z.eqb x y
  | JFloat x, JFloat y => String.eqb x y
  | JStr x, JStr y => String.eqb x y
  | JList xs, JList ys =>
      (fix all2 (xs ys : list Json) : bool :=
         match xs, ys with
         | [], [] => true
         | x :: xs', y :: ys' => Json_eqb x y && all2 xs' ys'
         | _, _ => false
         end) xs ys
  | JDict xs, JDict ys =>
      (fix all2 (xs ys : list (string * Json)) : bool :=
         match xs, ys with
         | [], [] => true
         | (k, x) :: xs', (k', y) :: ys' => String.eqb k k' && Json_eqb x y && all2 xs' ys'
         | _, _ => false
         end) xs ys
  | _, _ => false
  end.

(** [it.get(k)] on an issue, which is a dict. *)
Definition get (it : Json) (k : string) : option Json :=
  match it with
  | JDict kvs => Py.dict_get k kvs
  | _ => None
  end.

Definition has_code (c : string) (it : Json) : bool :=
  match get it "code" with
  | Some (JStr c') => String.eqb c' c
  | _ => false
  end.

(** [[p for p in ptr.strip("/").split("/") if p]] for [ptr = it.get("pointer", "")]. *)
Definition pointer_parts (it : Json) : list string :=
  let ptr := match get it "pointer" with Some (JStr p) => p | _ => "" end in
  List.filter (fun p => negb (String.eqb p "")) (Py.split_on "/" (Py.strip_char "/" ptr)).

(** [parts[0] == "functions" and parts[1].isdigit()], and the index. *)
Definition function_index (parts : list string) : option nat :=
  match parts with
  | p0 :: p1 :: _ =>
      if String.eqb p0 "functions" && Py.isdigit p1 then Some (Py.int_of_str p1) else None
  | _ => None
  end.

Definition effects_pointer_index (parts : list string) : option nat :=
  match parts with
  | _ :: _ :: p2 :: _ => if String.eqb p2 "effects" then function_index parts else None
  | _ => None
  end.

Definition missing_return_patch (it : Json) : list Json :=
  if has_code "MissingReturn" it then
    match function_index (pointer_parts it) with
    | Some fi =>
        [JDict [("op", JStr "add");
                ("path", JStr ("/functions/" +:+ Py.str_of_nat fi +:+ "/body/-"));
                ("value", JDict [("return", JNull)])]]
    | None => []
    end
  else [].

Fixpoint index_of (x : Json) (xs : list Json) : nat :=
  match xs with
  | [] => 0
  | y :: xs' => if Json_eqb y x then 0 else S (index_of x xs')
  end.

Definition contains (x : Json) (xs : list Json) : bool := existsb (fun y => Json_eqb y x) xs.

Definition not_pure_patch (module : Module_) (it : Json) : result (list Json) :=
  if has_code "NotPure" it then
    match effects_pointer_index (pointer_parts it) with
    | Some fi =>
        try! fn <- Py.list_index fi (functions_of module);
        let eff := match fn with JDict f => default (JList []) (Py.dict_get "effects" f)
                               | _ => JList [] end in
        match eff with
        | JList eff =>
            if contains (JStr "pure") eff && (1 <? length eff)%nat then
              Ok [JDict [("op", JStr "remove");
                         ("path", JStr ("/functions/" +:+ Py.str_of_nat fi +:+ "/effects/"
                                        +:+ Py.str_of_nat (index_of (JStr "pure") eff)))]]
            else Ok []
        | _ => Ok []
        end
    | None => Ok []
    end
  else Ok [].

(** [for m in sorted(missing): if m not in new_eff: new_eff.append(m)] *)
Fixpoint append_missing (new_eff : list Json) (missing : list string) : list Json :=
  match missing with
  | [] => new_eff
  | m :: missing' =>
      append_missing (if contains (JStr m) new_eff then new_eff else new_eff ++ [JStr m]) missing'
  end.

Definition missing_effect_patch (module : Module_) (effects_map : Memo) (it : Json)
  : result (list Json) :=
  if has_code "MissingEffect" it then
    match effects_pointer_index (pointer_parts it) with
    | Some fi =>
        try! fn <- Py.list_index fi (functions_of module);
        match fn with
        | JDict f =>
            match Py.dict_get "name" f with
            | Some (JStr name) =>
                let required := default ∅ (Py.dict_get name effects_map) in
                let declared_list :=
                  match Py.dict_get "effects" f with Some (JList l) => l | _ => [] end in
                let declared := match declared_list with [] => [JStr "pure"] | _ => declared_list end in
                let missing := required ∖ list_to_set (strings_of declared) in
                if decide (missing = ∅) then Ok []
                else
                  let new_eff := append_missing declared (sorted_set missing) in
                  let new_eff :=
                    if contains (JStr "pure") new_eff && (1 <? length new_eff)%nat
                    then List.filter (fun e => negb (Json_eqb e (JStr "pure"))) new_eff
                    else new_eff in
                  Ok [JDict [("op", JStr "replace");
                             ("path", JStr ("/functions/" +:+ Py.str_of_nat fi +:+ "/effects"));
                             ("value", JList new_eff)]]
            | _ => Ok []
            end
        | _ => Ok []
        end
    | None => Ok []
    end
  else Ok [].

(** The patches of one loop over the issues, concatenated. *)
Fixpoint collect (f : Json -> result (list Json)) (issues : list Json) : result (list Json) :=
  match issues with
  | [] => Ok []
  | it :: issues' => try! ps <- f it; try! rest <- collect f issues'; Ok (ps ++ rest)
  end.

(** Two patches have the same [json.dumps(p, sort_keys=True)] when they
    are equal; those built here list their keys in one order. *)
Fixpoint dedup (seen : list Json) (patches : list Json) : list Json :=
  match patches with
  | [] => []
  | p :: patches' =>
      if contains p seen then dedup seen patches' else p :: dedup (p :: seen) patches'
  end.

Definition suggest_patches (module : Module_) (issues : list Json) : result (list Json) :=
  let need_effects_map := existsb (has_code "MissingEffect") issues in
  let effects_map : Memo :=
    if need_effects_map then
      match compute_transitive_effects module with
      | Some (m, _) => m
      | None => []
      end
    else [] in
  let p1 := concat (map missing_return_patch issues) in
  try! p2 <- collect (not_pure_patch module) issues;
  try! p3 <- collect (missing_effect_patch module effects_map) issues;
  Ok (dedup [] (p1 ++ p2 ++ p3)).

Definition apply_suggestions (module : Module_) (issues : list Json) : result Json :=
  try! patches <- suggest_patches module issues;
  match patches with
  | [] => Ok (JDict module)
  | _ => Pointer.apply_patch (JDict module) patches
  end.

End RepairSuggest.

(** ** [typecheck.py]: types, unification and expression inference *)

Module Typecheck.
Import Pointer.

Unset Elimination Schemes.
Inductive Ty : Type :=
| AnyType
| Prim (name : string)
| Var (name : string)
| ListT (elem : Ty)
| RecordT (fields : list (string * Ty)).
Set Elimination Schemes.

(** [render], which [str] and the f-strings use. *)
Fixpoint render (t : Ty) : string :=
  match t with
  | AnyType => "Any"
  | Prim name => name
  | Var name => name
  | ListT elem => "List[" +:+ render elem +:+ "]"
  | RecordT [] => "Record{}"
  | RecordT fields =>
      let rendered := map (fun kv => (kv.1, kv.1 +:+ ":" +:+ render kv.2)) fields in
      "Record{" +:+ Py.join_with "," (map snd (Fmt.sorted_items rendered)) +:+ "}"
  end.

Definition Subst : Type := list (string * Ty).

(** [Some x for each, or None]: all the elements, unless one ran out of fuel. *)
Fixpoint all_some {A} (l : list (option A)) : option (list A) :=
  match l with
  | [] => Some []
  | Some x :: l' => match all_some l' with Some xs => Some (x :: xs) | None => None end
  | None :: _ => None
  end.

(** [_apply] follows the bindings of [subst]; a cyclic substitution makes
    the source recurse without end, hence the fuel. *)
Fixpoint _apply (fuel : nat) (ty : Ty) (subst : Subst) : option Ty :=
  match fuel with
  | O => None
  | S fuel' =>
      match ty with
      | Var name =>
          match Py.dict_get name subst with
          | Some bound => _apply fuel' bound subst
          | None => Some ty
          end
      | ListT elem =>
          match _apply fuel' elem subst with
          | Some elem' => Some (ListT elem')
          | None => None
          end
      | RecordT fields =>
          match all_some (map (fun kv => match _apply fuel' kv.2 subst with
                                         | Some v => Some (kv.1, v)
                                         | None => None
                                         end) fields) with
          | Some fields' => Some (RecordT fields')
          | None => None
          end
      | _ => Some ty
      end
  end.

Fixpoint any_true (l : list (option bool)) : option bool :=
  match l with
  | [] => Some false
  | Some true :: _ => Some true
  | Some false :: l' => any_true l'
  | None :: _ => None
  end.

Fixpoint _occurs (fuel : nat) (var : string) (ty : Ty) (subst : Subst) : option bool :=
  match fuel with
  | O => None
  | S fuel' =>
      match _apply fuel' ty subst with
      | None => None
      | Some (Var name) => Some (String.eqb name var)
      | Some (ListT elem) => _occurs fuel' var elem subst
      | Some (RecordT fields) =>
          any_true (map (fun kv => _occurs fuel' var kv.2 subst) fields)
      | Some _ => Some false
      end
  end.

Definition _num_join (a b : string) : option string :=
  if String.eqb a b then Some a
  else if (String.eqb a "Int" && String.eqb b "Float")
          || (String.eqb a "Float" && String.eqb b "Int") then Some "Float"
  else None.

(** The loop of [unify] over the fields of the expected record. *)
Fixpoint unify_fields (unify : Ty -> Ty -> Subst -> option (bool * Subst))
    (expected : list (string * Ty)) (actual : list (string * Ty)) (subst : Subst)
  : option (bool * Subst) :=
  match expected with
  | [] => Some (true, subst)
  | (k, texp) :: expected' =>
      match Py.dict_get k actual with
      | None => Some (false, subst)
      | Some tact =>
          match unify texp tact subst with
          | None => None
          | Some (false, subst') => Some (false, subst')
          | Some (true, subst') => unify_fields unify expected' actual subst'
          end
      end
  end.

(** [unify(expected, actual, subst)]: the answer and the substitution the
    call leaves behind. *)
Fixpoint unify (fuel : nat) (expected actual : Ty) (subst : Subst) : option (bool * Subst) :=
  match fuel with
  | O => None
  | S fuel' =>
      match _apply fuel' expected subst, _apply fuel' actual subst with
      | Some expected, Some actual =>
          match expected, actual with
          | AnyType, _ => Some (true, subst)
          | _, AnyType => Some (true, subst)
          | Var name, _ =>
              match Py.dict_get name subst with
              | Some bound => unify fuel' bound actual subst
              | None =>
                  match _occurs fuel' name actual subst with
                  | None => None
                  | Some true => Some (true, subst)
                  | Some false => Some (true, Py.dict_set name actual subst)
                  end
              end
          | _, Var name =>
              match Py.dict_get name subst with
              | Some bound => unify fuel' expected bound subst
              | None =>
                  match _occurs fuel' name expected subst with
                  | None => None
                  | Some true => Some (true, subst)
                  | Some false => Some (true, Py.dict_set name expected subst)
                  end
              end
          | Prim e, Prim a =>
              if String.eqb e a then Some (true, subst)
              else
                match _num_join e a with
                | Some j => Some (String.eqb j e, subst)
                | None => Some (false, subst)
                end
          | ListT e, ListT a => unify fuel' e a subst
          | RecordT e, RecordT a => unify_fields (unify fuel') e a subst
          | _, _ => Some (false, subst)
          end
      | _, _ => None
      end
  end.

Definition is_any (t : Ty) : bool := match t with AnyType => true | _ => false end.

(** [join]: the least upper bound used for branch results. The source
    walks [sorted(common)]; here the fields of the first record that the
    second has are joined where they stand and sorted afterwards. *)
Fixpoint join (t1 t2 : Ty) : Ty :=
  if is_any t1 || is_any t2 then AnyType
  else
    match t1, t2 with
    | Prim a, Prim b =>
        match _num_join a b with
        | Some j => Prim j
        | None => AnyType
        end
    | ListT e1, ListT e2 => ListT (join e1 e2)
    | RecordT f1, RecordT f2 =>
        RecordT (Fmt.sorted_items
                   ((fix shared (l : list (string * Ty)) : list (string * Ty) :=
                       match l with
                       | [] => []
                       | (k, v1) :: l' =>
                           match Py.dict_get k f2 with
                           | Some v2 => (k, join v1 v2) :: shared l'
                           | None => shared l'
                           end
                       end) f1))
    | Var _, _ => t2
    | _, Var _ => t1
    | _, _ => AnyType
    end.

(** [_join] of the checker. Its [_apply(a, {})] binds nothing, so the
    structure of the type is all that is walked. *)
Fixpoint _join (a b : Ty) : Ty :=
  if is_any a || is_any b then AnyType
  else
    match a, b with
    | Prim x, Prim y =>
        if String.eqb x y then a
        else if (String.eqb x "Int" && String.eqb y "Float")
                || (String.eqb x "Float" && String.eqb y "Int") then Prim "Float"
        else AnyType
    | ListT e1, ListT e2 => ListT (_join e1 e2)
    | RecordT f1, RecordT f2 =>
        RecordT (Fmt.sorted_items
                   ((fix shared (l : list (string * Ty)) : list (string * Ty) :=
                       match l with
                       | [] => []
                       | (k, v1) :: l' =>
                           match Py.dict_get k f2 with
                           | Some v2 => (k, _join v1 v2) :: shared l'
                           | None => shared l'
                           end
                       end) f1))
    | Var x, Var y => if String.eqb x y then a else AnyType
    | _, _ => AnyType
    end.

Record Issue : Type := mkIssue {
  pointer : string;
  code : string;
  message : string;
  severity : string
}.

Definition error (ptr : list Seg) (code message : string) : Issue :=
  mkIssue (join_pointer ptr) code message "error".

Record Sig : Type := mkSig {
  sig_name : string;
  type_params : list string;
  param_names : list string;
  param_types : list Ty;
  ret : Ty
}.

Definition Int := Prim "Int".
Definition Float := Prim "Float".
Definition Bool := Prim "Bool".
Definition String_ := Prim "String".
Definition Null := Prim "Null".
Definition T := Var "T".

Definition _builtin_sigs : list (string * Sig) :=
  map (fun sg => (sig_name sg, sg))
  [ mkSig "add" [] ["a"; "b"] [Int; Int] Int;
    mkSig "sub" [] ["a"; "b"] [Int; Int] Int;
    mkSig "mul" [] ["a"; "b"] [Int; Int] Int;
    mkSig "div" [] ["a"; "b"] [Int; Int] Float;
    mkSig "eq" [] ["a"; "b"] [AnyType; AnyType] Bool;
    mkSig "neq" [] ["a"; "b"] [AnyType; AnyType] Bool;
    mkSig "lt" [] ["a"; "b"] [Int; Int] Bool;
    mkSig "lte" [] ["a"; "b"] [Int; Int] Bool;
    mkSig "gt" [] ["a"; "b"] [Int; Int] Bool;
    mkSig "gte" [] ["a"; "b"] [Int; Int] Bool;
    mkSig "and" [] ["a"; "b"] [Bool; Bool] Bool;
    mkSig "or" [] ["a"; "b"] [Bool; Bool] Bool;
    mkSig "not" [] ["a"] [Bool] Bool;
    mkSig "str_len" [] ["s"] [String_] Int;
    mkSig "str_concat" [] ["a"; "b"] [String_; String_] String_;
    mkSig "str_contains" [] ["s"; "sub"] [String_; String_] Bool;
    mkSig "len" ["T"] ["xs"] [ListT T] Int;
    mkSig "list_get" ["T"] ["xs"; "i"] [ListT T; Int] T;
    mkSig "list_set" ["T"] ["xs"; "i"; "v"] [ListT T; Int; T] (ListT T);
    mkSig "list_append" ["T"] ["xs"; "v"] [ListT T; T] (ListT T);
    mkSig "list_concat" ["T"] ["a"; "b"] [ListT T; ListT T] (ListT T);
    mkSig "list_slice" ["T"] ["xs"; "start"; "end"] [ListT T; AnyType; AnyType] (ListT T);
    mkSig "list_range" [] ["n"] [Int] (ListT Int);
    mkSig "list_map" ["T"] ["fn"; "xs"] [String_; ListT T] (ListT AnyType);
    mkSig "list_filter" ["T"] ["fn"; "xs"] [String_; ListT T] (ListT T);
    mkSig "list_reduce" [] ["fn"; "init"; "xs"] [String_; AnyType; ListT AnyType] AnyType;
    mkSig "list_sum" [] ["xs"] [ListT AnyType] AnyType;
    mkSig "list_mean" [] ["xs"] [ListT AnyType] Float;
    mkSig "obj_get" [] ["obj"; "key"] [AnyType; String_] AnyType;
    mkSig "obj_get_or" [] ["obj"; "key"; "default"] [AnyType; String_; AnyType] AnyType;
    mkSig "obj_has" [] ["obj"; "key"] [AnyType; String_] Bool;
    mkSig "obj_set" [] ["obj"; "key"; "value"] [AnyType; String_; AnyType] AnyType;
    mkSig "obj_del" [] ["obj"; "key"] [AnyType; String_] AnyType;
    mkSig "obj_keys" [] ["obj"] [AnyType] (ListT String_);
    mkSig "obj_merge" [] ["a"; "b"] [AnyType; AnyType] AnyType;
    mkSig "print" [] ["x"] [AnyType] Null;
    mkSig "http_get" [] ["url"] [String_] String_ ].

(** The issues so far and the counter of fresh variables ([counter[0]]). *)
Definition St : Type := (list Issue * nat)%type.

Definition emit (i : Issue) (st : St) : St := (st.1 ++ [i], st.2).

(** The loop of [_freshen]: one fresh variable per type parameter. *)
Fixpoint fresh_subst (tps : list string) (subst : Subst) (counter : nat) : Subst * nat :=
  match tps with
  | [] => (subst, counter)
  | tp :: tps' =>
      fresh_subst tps' (Py.dict_set tp (Var (tp +:+ "#" +:+ Py.str_of_nat (S counter))) subst)
        (S counter)
  end.

Definition _freshen (fuel : nat) (sg : Sig) (counter : nat) : option (Sig * nat) :=
  let '(subst, counter') := fresh_subst (type_params sg) [] counter in
  match all_some (map (fun t => _apply fuel t subst) (param_types sg)),
        _apply fuel (ret sg) subst with
  | Some pts, Some r => Some (mkSig (sig_name sg) [] (param_names sg) pts r, counter')
  | _, _ => None
  end.

Definition _type_of_literal (v : Json) : Ty :=
  match v with
  | JNull => Null
  | JBool _ => Bool
  | JInt _ => Int
  | JFloat _ => Float
  | JStr _ => String_
  | _ => AnyType
  end.

Definition _qual_last (name : string) : string := Effects._qual_last name.

(** [sigs.get(callee_last) or sigs.get(fn_ref)]: a [Sig] is never falsy. *)
Definition find_sig (sigs : list (string * Sig)) (last full : string) : option Sig :=
  match Py.dict_get last sigs with
  | Some sg => Some sg
  | None => Py.dict_get full sigs
  end.

Definition numeric (t : Ty) : bool :=
  match t with
  | Prim n => String.eqb n "Int" || String.eqb n "Float"
  | _ => false
  end.

Definition any_or_var (t : Ty) : bool :=
  match t with AnyType | Var _ => true | _ => false end.

Definition arg_ptr (ptr : list Seg) (i : nat) : list Seg :=
  ptr ++ [SegS "call"; SegS "args"; SegI i].

Definition mismatch (ptr : list Seg) (i : nat) (message : string) : Issue :=
  error (arg_ptr ptr i) "TypeMismatch" message.

(** [list_sum] (with [dflt = None], answering the element type) and
    [list_mean] (answering [Float] throughout). *)
Definition infer_aggregate (fuel : nat) (fn_last : string) (mean : bool) (xs_t : Ty)
    (ptr : list Seg) (st : St) : option (Ty * St) :=
  let other := if mean then Float else AnyType in
  match xs_t with
  | ListT elem0 =>
      elem ← _apply fuel elem0 [];
      if numeric elem then Some (if mean then Float else elem, st)
      else if any_or_var elem then Some (other, st)
      else Some (other,
                 emit (mismatch ptr 0 (fn_last +:+ " expects List[Int] or List[Float], got "
                                       +:+ render xs_t)) st)
  | _ => Some (other,
               emit (mismatch ptr 0 (fn_last +:+ " expects a list, got " +:+ render xs_t)) st)
  end.

Definition infer_map_filter (fuel : nat) (fn_last : string) (fn_ref : Json) (xs_t : Ty)
    (ptr : list Seg) (sigs : list (string * Sig)) (st : St) : option (Ty * St) :=
  match fn_ref with
  | JStr fn_ref =>
      match xs_t with
      | ListT elem =>
          match find_sig sigs (_qual_last fn_ref) fn_ref with
          | None =>
              Some (ListT AnyType,
                    emit (error (arg_ptr ptr 0) "UnknownFunctionCall"
                            ("Unknown function: " +:+ fn_ref)) st)
          | Some callee_sig =>
              '(callee_inst, counter) ← _freshen fuel callee_sig st.2;
              let st := (st.1, counter) in
              match param_types callee_inst with
              | [p0] =>
                  '(ok, subs) ← unify fuel p0 elem [];
                  let st :=
                    if (ok : bool) then st
                    else emit (mismatch ptr 1 (fn_ref +:+ " expects " +:+ render p0
                                               +:+ " but list has " +:+ render elem)) st in
                  ret_t ← _apply fuel (ret callee_inst) subs;
                  if String.eqb fn_last "list_filter" then
                    '(ok2, _) ← unify fuel Bool ret_t [];
                    Some (xs_t,
                          if (ok2 : bool) then st
                          else emit (error (arg_ptr ptr 0) "TypeMismatch"
                                       (fn_ref +:+ " used in list_filter must return Bool, got "
                                        +:+ render ret_t)) st)
                  else Some (ListT ret_t, st)
              | pts =>
                  Some (ListT AnyType,
                        emit (error (arg_ptr ptr 0) "ArityMismatch"
                                (fn_last +:+ " expects '" +:+ fn_ref
                                 +:+ "' to take 1 arg, but it takes "
                                 +:+ Py.str_of_nat (length pts))) st)
              end
          end
      | _ =>
          Some (ListT AnyType,
                emit (mismatch ptr 1 (fn_last +:+ " expects a list as second arg, got "
                                      +:+ render xs_t)) st)
      end
  | _ =>
      Some (ListT AnyType,
            emit (error (arg_ptr ptr 0) "TypeError"
                    (fn_last +:+ " expects first arg to be a string function name")) st)
  end.

Definition infer_reduce (fuel : nat) (fn_ref : Json) (init_t xs_t : Ty)
    (ptr : list Seg) (sigs : list (string * Sig)) (st : St) : option (Ty * St) :=
  match fn_ref with
  | JStr fn_ref =>
      match xs_t with
      | ListT elem =>
          match find_sig sigs (_qual_last fn_ref) fn_ref with
          | None =>
              Some (init_t,
                    emit (error (arg_ptr ptr 0) "UnknownFunctionCall"
                            ("Unknown function: " +:+ fn_ref)) st)
          | Some callee_sig =>
              '(callee_inst, counter) ← _freshen fuel callee_sig st.2;
              let st := (st.1, counter) in
              match param_types callee_inst with
              | [p0; p1] =>
                  '(ok0, subs) ← unify fuel p0 init_t [];
                  let st :=
                    if (ok0 : bool) then st
                    else emit (mismatch ptr 1 (fn_ref +:+ " first param expects " +:+ render p0
                                               +:+ " but init is " +:+ render init_t)) st in
                  '(ok1, subs) ← unify fuel p1 elem subs;
                  let st :=
                    if (ok1 : bool) then st
                    else emit (mismatch ptr 2 (fn_ref +:+ " second param expects " +:+ render p1
                                               +:+ " but list has " +:+ render elem)) st in
                  ret_t ← _apply fuel (ret callee_inst) subs;
                  '(ok2, _) ← unify fuel init_t ret_t [];
                  Some (init_t,
                        if (ok2 : bool) then st
                        else emit (error (arg_ptr ptr 0) "TypeMismatch"
                                     (fn_ref
                                      +:+ " used in list_reduce must return a type compatible with init ("
                                      +:+ render init_t +:+ "), got " +:+ render ret_t)) st)
              | pts =>
                  Some (init_t,
                        emit (error (arg_ptr ptr 0) "ArityMismatch"
                                ("list_reduce expects '" +:+ fn_ref
                                 +:+ "' to take 2 args, but it takes "
                                 +:+ Py.str_of_nat (length pts))) st)
              end
          end
      | _ =>
          Some (init_t,
                emit (mismatch ptr 2 ("list_reduce expects a list as third arg, got "
                                      +:+ render xs_t)) st)
      end
  | _ =>
      Some (init_t,
            emit (error (arg_ptr ptr 0) "TypeError"
                    "list_reduce expects first arg to be a string function name") st)
  end.

Definition unknown_field (ptr : list Seg) (key : string) : Issue :=
  error (arg_ptr ptr 1) "UnknownField" ("Record has no field '" +:+ key +:+ "'").

(** [merged[k] = _join(merged[k], v) if k in merged else v], for each
    field of the second record. *)
Fixpoint merge_fields (merged : list (string * Ty)) (fields : list (string * Ty))
  : list (string * Ty) :=
  match fields with
  | [] => merged
  | (k, v) :: fields' =>
      merge_fields
        (Py.dict_set k (match Py.dict_get k merged with
                        | Some old => _join old v
                        | None => v
                        end) merged)
        fields'
  end.

(** The record helpers; [None] when the call is left to its signature. *)
Definition infer_obj (fn_last : string) (args_expr : list Json) (arg_types : list Ty)
    (ptr : list Seg) (st : St) : option Ty * St :=
  match arg_types, args_expr with
  | [RecordT fields; _], [_; JStr key] =>
      if String.eqb fn_last "obj_get" then
        match Py.dict_get key fields with
        | Some t => (Some t, st)
        | None => (Some AnyType, emit (unknown_field ptr key) st)
        end
      else if String.eqb fn_last "obj_del" then (Some (RecordT (Py.dict_pop key fields)), st)
      else if String.eqb fn_last "obj_merge" then
        match arg_types with
        | [_; RecordT fields_b] => (Some (RecordT (merge_fields fields fields_b)), st)
        | _ => (None, st)
        end
      else (None, st)
  | [RecordT fields; _; t2], [_; JStr key; _] =>
      if String.eqb fn_last "obj_get_or" then
        match Py.dict_get key fields with
        | Some t => (Some (_join t t2), st)
        | None => (Some (_join AnyType t2), emit (unknown_field ptr key) st)
        end
      else if String.eqb fn_last "obj_set" then
        (Some (RecordT (Py.dict_set key (match Py.dict_get key fields with
                                         | Some old => _join old t2
                                         | None => t2
                                         end) fields)), st)
      else (None, st)
  | [RecordT fields; RecordT fields_b], _ =>
      if String.eqb fn_last "obj_merge"
      then (Some (RecordT (merge_fields fields fields_b)), st)
      else (None, st)
  | _, _ => (None, st)
  end.

Definition _infer_special_call (fuel : nat) (fn_last fn_full : string) (args_expr : list Json)
    (arg_types : list Ty) (ptr : list Seg) (sigs : list (string * Sig)) (st : St)
  : option (option Ty * St) :=
  let special (r : option (Ty * St)) : option (option Ty * St) :=
    '(t, st') ← r; Some (Some t, st') in
  match arg_types, args_expr with
  | [xs_t], _ =>
      if String.eqb fn_last "list_sum" then special (infer_aggregate fuel fn_last false xs_t ptr st)
      else if String.eqb fn_last "list_mean" then
        special (infer_aggregate fuel fn_last true xs_t ptr st)
      else Some (None, st)
  | [_; xs_t], fn_ref :: _ =>
      if Py.mem fn_last ["list_map"; "list_filter"] then
        special (infer_map_filter fuel fn_last fn_ref xs_t ptr sigs st)
      else Some (infer_obj fn_last args_expr arg_types ptr st)
  | [_; init_t; xs_t], fn_ref :: _ =>
      if String.eqb fn_last "list_reduce" then
        special (infer_reduce fuel fn_ref init_t xs_t ptr sigs st)
      else Some (infer_obj fn_last args_expr arg_types ptr st)
  | _, _ => Some (None, st)
  end.

(** The loop that unifies each parameter with its argument. *)
Fixpoint unify_params (fuel : nat) (fn : string) (ptr : list Seg) (i : nat)
    (expected actual : list Ty) (subs : Subst) (st : St) : option (Subst * St) :=
  match expected, actual with
  | e :: expected', a :: actual' =>
      '(ok, subs') ← unify fuel e a subs;
      unify_params fuel fn ptr (S i) expected' actual' subs'
        (if (ok : bool) then st
         else emit (mismatch ptr i ("Arg " +:+ Py.str_of_nat i +:+ " to " +:+ fn +:+ " expected "
                                    +:+ render e +:+ " but got " +:+ render a)) st)
  | _, _ => Some (subs, st)
  end.

(** The [call] branch of [_infer_expr] once the arguments are inferred. *)
Definition infer_call (fuel : nat) (fn : string) (args : list Json) (arg_types : list Ty)
    (ptr : list Seg) (sigs : list (string * Sig)) (st : St) : option (Ty * St) :=
  let fn_last := _qual_last fn in
  '(special, st) ← _infer_special_call fuel fn_last fn args arg_types ptr sigs st;
  match special with
  | Some t => Some (t, st)
  | None =>
      match find_sig sigs fn_last fn with
      | None =>
          Some (AnyType,
                emit (error (ptr ++ [SegS "call"; SegS "fn"]) "UnknownFunctionCall"
                        ("Unknown function: " +:+ fn)) st)
      | Some sg =>
          '(inst, counter) ← _freshen fuel sg st.2;
          let st := (st.1, counter) in
          if negb (length arg_types =? length (param_types inst))%nat then
            Some (AnyType,
                  emit (error (ptr ++ [SegS "call"]) "ArityMismatch"
                          (fn +:+ " expects " +:+ Py.str_of_nat (length (param_types inst))
                           +:+ " args but got " +:+ Py.str_of_nat (length arg_types))) st)
          else
            '(subs, st) ← unify_params fuel fn ptr 0 (param_types inst) arg_types [] st;
            t ← _apply fuel (ret inst) subs;
            Some (t, st)
      end
  end.

Definition Env : Type := list (string * Ty).

(** [_infer_expr(expr, env, ptr, issues, sigs, counter)]: the type, and the
    issues and the counter after the call. Each level of nesting of the
    expression costs one unit of fuel, and [fuel] also bounds [_apply] and
    [unify]. *)
Fixpoint _infer_expr (fuel : nat) (expr : Json) (env : Env) (ptr : list Seg)
    (sigs : list (string * Sig)) (st : St) : option (Ty * St) :=
  match fuel with
  | O => None
  | S fuel' =>
  match expr with
  | JNull | JBool _ | JInt _ | JFloat _ | JStr _ => Some (_type_of_literal expr, st)
  | JList _ =>
      Some (AnyType, emit (error ptr "TypeError" "Expression must be literal or object") st)
  | JDict kvs =>
      if Py.dict_has "var" kvs then
        match Py.dict_get "var" kvs with
        | Some (JStr name) =>
            match Py.dict_get name env with
            | Some t => Some (t, st)
            | None =>
                Some (AnyType,
                      emit (error (ptr ++ [SegS "var"]) "UndefinedVariable"
                              ("Undefined variable: " +:+ name)) st)
            end
        | _ =>
            Some (AnyType, emit (error (ptr ++ [SegS "var"]) "TypeError" "var must be a string") st)
        end
      else if Py.dict_has "list" kvs then
        match Py.dict_get "list" kvs with
        | Some (JList arr) =>
            match arr with
            | [] => Some (ListT AnyType, st)
            | first :: others =>
                '(t0, st0) ← _infer_expr fuel' first env (ptr ++ [SegS "list"; SegI 0]) sigs st;
                '(t, st') ←
                  (fix rest (i : nat) (l : list Json) (t : Ty) (st : St) : option (Ty * St) :=
                     match l with
                     | [] => Some (t, st)
                     | x :: l' =>
                         '(ti, st') ← _infer_expr fuel' x env (ptr ++ [SegS "list"; SegI i]) sigs st;
                         rest (S i) l' (_join t ti) st'
                     end) 1%nat others t0 st0;
                Some (ListT t, st')
            end
        | _ =>
            Some (AnyType, emit (error (ptr ++ [SegS "list"]) "TypeError" "list must be an array") st)
        end
      else if Py.dict_has "obj" kvs then
        match Py.dict_get "obj" kvs with
        | Some (JDict obj) =>
            '(fields, st') ←
              (fix members (l : list (string * Json)) (fields : list (string * Ty)) (st : St)
                 : option (list (string * Ty) * St) :=
                 match l with
                 | [] => Some (fields, st)
                 | (k, v) :: l' =>
                     '(t, st') ← _infer_expr fuel' v env (ptr ++ [SegS "obj"; SegS k]) sigs st;
                     members l' (Py.dict_set k t fields) st'
                 end) obj [] st;
            Some (RecordT fields, st')
        | _ =>
            Some (AnyType, emit (error (ptr ++ [SegS "obj"]) "TypeError" "obj must be an object") st)
        end
      else if Py.dict_has "call" kvs then
        match Py.dict_get "call" kvs with
        | Some (JDict call) =>
            match Py.dict_get "fn" call with
            | Some (JStr fn) =>
                match default (JList []) (Py.dict_get "args" call) with
                | JList args =>
                    '(arg_types, st') ←
                      (fix each (i : nat) (l : list Json) (st : St) : option (list Ty * St) :=
                         match l with
                         | [] => Some ([], st)
                         | a :: l' =>
                             '(t, st') ← _infer_expr fuel' a env (arg_ptr ptr i) sigs st;
                             '(ts, st'') ← each (S i) l' st';
                             Some (t :: ts, st'')
                         end) 0%nat args st;
                    infer_call fuel fn args arg_types ptr sigs st'
                | _ =>
                    Some (AnyType,
                          emit (error (ptr ++ [SegS "call"; SegS "args"]) "TypeError"
                                  "call.args must be an array") st)
                end
            | _ =>
                Some (AnyType,
                      emit (error (ptr ++ [SegS "call"; SegS "fn"]) "TypeError"
                              "call.fn must be a string") st)
            end
        | _ =>
            Some (AnyType, emit (error (ptr ++ [SegS "call"]) "TypeError" "call must be an object") st)
        end
      else
        Some (AnyType,
              emit (error ptr "TypeError"
                      ("Unknown expr form: " +:+ Effects.repr_list (Py.keys kvs))) st)
  end
  end.

End Typecheck.

(** ** [sandbox_ast.py]: the AST interpreter *)

Module Sandbox.

(** Python truthiness of a JSON value ([not ok], [if cond]). *)
Definition truthy (v : Json) : bool :=
  match v with
  | JNull => false
  | JBool b => b
  | JInt n => negb (n =? 0)
  | JFloat r => negb (String.eqb r "0.0" || String.eqb r "-0.0")
  | JStr s => negb (String.eqb s "")
  | JList xs => match xs with [] => false | _ => true end
  | JDict kvs => match kvs with [] => false | _ => true end
  end.

Definition Env : Type := list (string * Json).
Definition Fns : Type := list (string * list (string * Json)).

(** How a statement ends: it falls through with the environment it leaves,
    it raises [ReturnSignal(value)], or it raises another exception. *)
Inductive Exec : Type :=
| Continue (env : Env)
| ReturnSignal (value : Json)
| Fault (e : PyExn).

(** A list comprehension over evaluations: the first exception wins. *)
Fixpoint eval_all (eval : Json -> option (result Json)) (xs : list Json)
  : option (result (list Json)) :=
  match xs with
  | [] => Some (Ok [])
  | x :: xs' =>
      match eval x with
      | None => None
      | Some (Raise e) => Some (Raise e)
      | Some (Ok v) =>
          match eval_all eval xs' with
          | None => None
          | Some (Raise e) => Some (Raise e)
          | Some (Ok vs) => Some (Ok (v :: vs))
          end
      end
  end.

Fixpoint eval_members (eval : Json -> option (result Json)) (kvs : list (string * Json))
    (acc : list (string * Json)) : option (result (list (string * Json))) :=
  match kvs with
  | [] => Some (Ok acc)
  | (k, x) :: kvs' =>
      match eval x with
      | None => None
      | Some (Raise e) => Some (Raise e)
      | Some (Ok v) => eval_members eval kvs' (Py.dict_set k v acc)
      end
  end.

(** [for s in stmts: exec_stmt(s, env, fns)]: the loop of [exec_block], and
    of the branch of an [if]. An exception, [ReturnSignal] included, ends
    the loop where it is raised. *)
Fixpoint exec_stmts (exec_stmt : Json -> Env -> option Exec) (stmts : list Json) (env : Env)
  : option Exec :=
  match stmts with
  | [] => Some (Continue env)
  | s :: stmts' =>
      match exec_stmt s env with
      | Some (Continue env') => exec_stmts exec_stmt stmts' env'
      | other => other
      end
  end.

(** [{p: a for p, a in zip(params, args)}] *)
Fixpoint bind_params (params : list string) (args : list Json) (env : Env) : Env :=
  match params, args with
  | p :: params', a :: args' => bind_params params' args' (Py.dict_set p a env)
  | _, _ => env
  end.

Section Interpreter.

(** [runtime_guarded]: the table of builtins and [call_builtin], which
    checks the allow-list and, for the higher-order builtins, calls back
    through the installed dispatcher. *)
Variable BUILTINS : string -> bool.
Variable call_builtin :
  (string -> list Json -> option (result Json)) -> string -> list Json -> option (result Json).
Variable fns : Fns.

(** One unit of fuel for each nested evaluation, statement or call. Names
    of variables and parameters are strings, [list] holds an array, [obj]
    and [call] hold objects, as the schema has them; any other shape is
    reported as [TypeError]. *)
Fixpoint eval_expr (fuel : nat) (expr : Json) (env : Env) : option (result Json) :=
  match fuel with
  | O => None
  | S fuel' =>
      match expr with
      | JNull | JBool _ | JInt _ | JFloat _ | JStr _ => Some (Ok expr)
      | JList _ => Some (Raise (SandboxError "Invalid expr node"))
      | JDict kvs =>
          if Py.dict_has "var" kvs then
            match Py.dict_get "var" kvs with
            | Some (JStr name) =>
                match Py.dict_get name env with
                | Some v => Some (Ok v)
                | None => Some (Raise (SandboxError ("Undefined variable: " +:+ name)))
                end
            | _ => Some (Raise TypeError)
            end
          else if Py.dict_has "list" kvs then
            match Py.dict_get "list" kvs with
            | Some (JList xs) =>
                match eval_all (fun x => eval_expr fuel' x env) xs with
                | None => None
                | Some (Raise e) => Some (Raise e)
                | Some (Ok vs) => Some (Ok (JList vs))
                end
            | _ => Some (Raise TypeError)
            end
          else if Py.dict_has "obj" kvs then
            match Py.dict_get "obj" kvs with
            | Some (JDict members) =>
                match eval_members (fun x => eval_expr fuel' x env) members [] with
                | None => None
                | Some (Raise e) => Some (Raise e)
                | Some (Ok vs) => Some (Ok (JDict vs))
                end
            | _ => Some (Raise TypeError)
            end
          else if Py.dict_has "call" kvs then
            match Py.dict_get "call" kvs with
            | Some (JDict call) =>
                match Py.dict_get "fn" call with
                | Some (JStr fn) =>
                    let fn := Effects._qual_last fn in
                    match default (JList []) (Py.dict_get "args" call) with
                    | JList args =>
                        match eval_all (fun x => eval_expr fuel' x env) args with
                        | None => None
                        | Some (Raise e) => Some (Raise e)
                        | Some (Ok args) =>
                            if BUILTINS fn then call_builtin (dispatch fuel') fn args
                            else if negb (Py.dict_has fn fns) then
                              Some (Raise (SandboxError ("Unknown function: " +:+ fn)))
                            else call_user fuel' fn args
                        end
                    | _ => Some (Raise TypeError)
                    end
                | Some _ => Some (Raise TypeError)
                | None => Some (Raise (KeyError "fn"))
                end
            | _ => Some (Raise TypeError)
            end
          else Some (Raise (SandboxError "Unknown expr form"))
      end
  end

with exec_stmt (fuel : nat) (stmt : Json) (env : Env) : option Exec :=
  match fuel with
  | O => None
  | S fuel' =>
      let eval (e : option Json) (k : Json -> option Exec) : option Exec :=
        match eval_expr fuel' (default JNull e) env with
        | None => None
        | Some (Raise e) => Some (Fault e)
        | Some (Ok v) => k v
        end in
      match stmt with
      | JDict [(tag, body)] =>
          if String.eqb tag "let" then
            match body with
            | JDict spec =>
                match Py.dict_get "name" spec with
                | Some (JStr name) =>
                    eval (Py.dict_get "expr" spec)
                      (fun v => Some (Continue (Py.dict_set name v env)))
                | Some _ => Some (Fault TypeError)
                | None => Some (Fault (KeyError "name"))
                end
            | _ => Some (Fault TypeError)
            end
          else if String.eqb tag "expr" then
            eval (Some body) (fun _ => Some (Continue env))
          else if String.eqb tag "assert" then
            match body with
            | JDict spec =>
                eval (Py.dict_get "expr" spec)
                  (fun ok =>
                     if truthy ok then Some (Continue env)
                     else
                       Some (Fault (AssertionError
                                      match Py.dict_get "message" spec with
                                      | Some (JStr msg) =>
                                          if String.eqb msg "" then "assert failed" else msg
                                      | _ => "assert failed"
                                      end)))
            | _ => Some (Fault TypeError)
            end
          else if String.eqb tag "return" then
            eval (Some body) (fun v => Some (ReturnSignal v))
          else if String.eqb tag "if" then
            match body with
            | JDict spec =>
                eval (Py.dict_get "cond" spec)
                  (fun cond =>
                     match default (JList [])
                             (Py.dict_get (if truthy cond then "then" else "else") spec) with
                     | JList block => exec_stmts (exec_stmt fuel') block env
                     | _ => Some (Fault TypeError)
                     end)
            | _ => Some (Fault TypeError)
            end
          else Some (Fault (SandboxError ("Unknown stmt: " +:+ tag)))
      | _ => Some (Fault (SandboxError "Invalid stmt shape"))
      end
  end

with call_user (fuel : nat) (fn_name : string) (args : list Json) : option (result Json) :=
  match fuel with
  | O => None
  | S fuel' =>
      match Py.dict_get fn_name fns with
      | None => Some (Raise (KeyError fn_name))
      | Some fn =>
          let params := Effects.strings_of (Effects.array_or_empty (Py.dict_get "params" fn)) in
          if negb (length params =? length args)%nat then
            Some (Raise (SandboxError ("Arity mismatch calling " +:+ fn_name)))
          else
            let env := bind_params params args [] in
            match exec_stmts (exec_stmt fuel') (Effects.body_of fn) env with
            | None => None
            | Some (ReturnSignal value) => Some (Ok value)
            | Some (Fault e) => Some (Raise e)
            | Some (Continue _) => Some (Ok JNull)
            end
      end
  end

with dispatch (fuel : nat) (fn_name : string) (dargs : list Json) : option (result Json) :=
  match fuel with
  | O => None
  | S fuel' =>
      let name := Effects._qual_last fn_name in
      if BUILTINS name then call_builtin (dispatch fuel') name dargs
      else if negb (Py.dict_has name fns) then
        Some (Raise (SandboxError ("Unknown function: " +:+ fn_name)))
      else call_user fuel' name dargs
  end.

Definition exec_block (fuel : nat) (stmts : list Json) (env : Env) : option Exec :=
  exec_stmts (exec_stmt fuel) stmts env.

End Interpreter.

(** [run_module]: [call_builtin] is given the allow-list that
    [set_allowed_effects] installs. *)
Definition run_module (BUILTINS : string -> bool)
    (call_builtin : list string -> (string -> list Json -> option (result Json)) ->
                    string -> list Json -> option (result Json))
    (fuel : nat) (module : Effects.Module_) (fn : string) (args : list Json)
    (allowed_effects : list string) : option (result Json) :=
  let fns := (Effects._user_function_index module).1 in
  let fn_last := Effects._qual_last fn in
  if negb (Py.dict_has fn_last fns) && negb (BUILTINS fn_last) then
    Some (Raise (SandboxError ("Unknown function: " +:+ fn)))
  else if BUILTINS fn_last then
    call_builtin allowed_effects (dispatch BUILTINS (call_builtin allowed_effects) fns fuel)
      fn_last args
  else call_user BUILTINS (call_builtin allowed_effects) fns fuel fn_last args.

End Sandbox.

(** ** [propcheck.py]: shrinking a failing case *)

Module Propcheck.
Import Typecheck.

(** The [while cur != 0] loop of [shrink_int]: [cur = int(cur / 2)]
    truncates toward zero. The absolute value of [cur] bounds the number of
    rounds. *)
Fixpoint halves (rounds : nat) (cur : Z) : list Z :=
  match rounds with
  | O => []
  | S rounds' =>
      let cur' := Z.quot cur 2 in
      if cur' =? 0 then [] else cur' :: halves rounds' cur'
  end.

Definition shrink_int (n : Z) : list Z :=
  if n =? 0 then [] else [0; 1; -1] ++ halves (Z.abs_nat n) n.

Definition shrink_list {A} (xs : list A) : list (list A) :=
  let n := length xs in
  (match xs with [] => [] | _ => [[]] end)
  ++ (if (2 <=? n)%nat then [take (n / 2) xs; drop (n / 2) xs] else [])
  ++ map (fun i => take i xs ++ drop (S i) xs) (seq 0 n).

(** [name.split("#")[0]] *)
Definition before_hash (name : string) : string :=
  match Py.split_on "#" name with
  | p :: _ => p
  | [] => name
  end.

Fixpoint _subst_typevars (t : Ty) (mapping : list (string * Ty)) : Ty :=
  match t with
  | Var name => default (Prim "Int") (Py.dict_get (before_hash name) mapping)
  | ListT elem => ListT (_subst_typevars elem mapping)
  | RecordT fields => RecordT (map (fun kv => (kv.1, _subst_typevars kv.2 mapping)) fields)
  | _ => t
  end.

(** [isinstance(v, int)]: a [bool] is an [int] too. *)
Definition as_int (v : Json) : option Z :=
  match v with
  | JInt n => Some n
  | JBool b => Some (if b then 1 else 0)
  | _ => None
  end.

Definition shrink_as_int (v : Json) : list Json :=
  match as_int v with
  | Some n => map JInt (shrink_int n)
  | None => []
  end.

Definition half_string (s : string) : string :=
  String.substring 0 (String.length s / 2) s.

(** The candidates of [shrink_value], in the order the generator yields
    them. A type variable left by the substitution is looked up again,
    which costs fuel, as does each level of the type. *)
Fixpoint shrink_value (fuel : nat) (t : Ty) (v : Json) (typevar_defaults : list (string * Ty))
  : option (list Json) :=
  match fuel with
  | O => None
  | S fuel' =>
      match _subst_typevars t typevar_defaults with
      | AnyType => Some (shrink_as_int v)
      | Prim name =>
          Some ((if String.eqb name "Int" then shrink_as_int v else [])
                ++ (if String.eqb name "Bool" then
                      match v with JBool true => [JBool false] | _ => [] end
                    else [])
                ++ (if String.eqb name "String" then
                      match v with
                      | JStr s => if String.eqb s "" then [] else [JStr ""; JStr (half_string s)]
                      | _ => []
                      end
                    else []))
      | ListT elem =>
          match v with
          | JList xs =>
              match
                (fix each (before after : list Json) : option (list Json) :=
                   match after with
                   | [] => Some []
                   | x :: after' =>
                       cands ← shrink_value fuel' elem x typevar_defaults;
                       others ← each (before ++ [x]) after';
                       Some (map (fun cand => JList (before ++ cand :: after')) cands ++ others)
                   end) [] xs
              with
              | Some by_element => Some (map JList (shrink_list xs) ++ by_element)
              | None => None
              end
          | _ => Some []
          end
      | RecordT fields =>
          match v with
          | JDict kvs =>
              (fix each (fields : list (string * Ty)) : option (list Json) :=
                 match fields with
                 | [] => Some []
                 | (k, ft) :: fields' =>
                     match Py.dict_get k kvs with
                     | None => each fields'
                     | Some x =>
                         cands ← shrink_value fuel' ft x typevar_defaults;
                         others ← each fields';
                         Some (map (fun cand => JDict (Py.dict_set k cand kvs)) cands ++ others)
                     end
                 end) fields
          | _ => Some []
          end
      | Var name =>
          shrink_value fuel' (default (Prim "Int") (Py.dict_get name typevar_defaults)) v
            typevar_defaults
      end
  end.

(** How far the loop of [minimize_failure] got. *)
Inductive Outcome : Type :=
| Minimized (args : list Json)
| StillRunning (cur : list Json)
| ShrinkOutOfFuel.

Section Minimize.

(** The inner function [fails]: run the target on the candidate and
    evaluate the postcondition; any exception counts as a failure. *)
Variable fails : list Json -> bool.
Variable param_types : list Ty.
Variable typevar_defaults : list (string * Ty).
Variable shrink_fuel : nat.

(** [for cand in shrink_value(...)]: the first candidate that still fails. *)
Fixpoint first_failing (cur : list Json) (i : nat) (cands : list Json) : option (list Json) :=
  match cands with
  | [] => None
  | cand :: cands' =>
      let trial := <[i := cand]> cur in
      if fails trial then Some trial else first_failing cur i cands'
  end.

(** [for i in range(len(cur))], from index [i] on, for [todo] more
    arguments: the arguments and the flag [changed] after the pass. *)
Fixpoint pass (todo : nat) (i : nat) (cur : list Json) (changed : bool)
  : option (list Json * bool) :=
  match todo with
  | O => Some (cur, changed)
  | S todo' =>
      let t := default AnyType (param_types !! i) in
      match shrink_value shrink_fuel t (default JNull (cur !! i)) typevar_defaults with
      | None => None
      | Some cands =>
          match first_failing cur i cands with
          | Some trial => pass todo' (S i) trial true
          | None => pass todo' (S i) cur changed
          end
      end
  end.

(** [while changed]: each round of the loop costs one unit of [rounds]. *)
Fixpoint minimize_loop (rounds : nat) (cur : list Json) : Outcome :=
  match rounds with
  | O => StillRunning cur
  | S rounds' =>
      match pass (length cur) 0 cur false with
      | None => ShrinkOutOfFuel
      | Some (cur', true) => minimize_loop rounds' cur'
      | Some (cur', false) => Minimized cur'
      end
  end.

Definition minimize_failure (rounds : nat) (args : list Json) : Outcome :=
  minimize_loop rounds args.

End Minimize.

End Propcheck.

(** ** [lsp_server.py]: pre-validation of proposed edits *)

Module Lsp.

(** Issues keyed by [(code, pointer)]. *)
Record IssueSummary : Type := mkSummary {
  errors : gset (string * string);
  warnings : gset (string * string)
}.

Definition _no_regression (base new : IssueSummary) : bool :=
  if negb (bool_decide (errors new ⊆ errors base)) then false
  else if (size (errors new) =? size (errors base))%nat
          && negb (bool_decide (warnings new ⊆ warnings base)) then false
  else if bool_decide (errors new = errors base)
          && bool_decide (warnings new = warnings base) then false
  else true.

Section Server.

(** The passes that pre-validation calls: the in-memory application of the
    text edits, [json.loads], [fmt.validate] against the bundled schema, the
    three checkers ([semantic.check_module(mod) + typecheck.check_module(mod)
    + effects.check_effects(mod)]) and Python's [str]. Each may raise. *)
Variable Edits : Type.
Variable _apply_text_edits_in_memory : string -> Edits -> result string.
Variable json_loads : string -> result Json.
Variable validate : Json -> result (list Json).
Variable check_all : Json -> result (list Json).
Variable py_str : Json -> string.

Definition as_str (v : Json) : string :=
  match v with
  | JStr s => s
  | _ => py_str v
  end.

(** The loop of [_summarize_non_schema] over the issues. *)
Fixpoint summarize (issues : list Json) (acc : IssueSummary) : IssueSummary :=
  match issues with
  | [] => acc
  | JDict iss :: issues' =>
      let sev := default (JStr "error") (Py.dict_get "severity" iss) in
      let code := as_str (default (JStr "Issue") (Py.dict_get "code" iss)) in
      let ptr :=
        match Py.dict_get "pointer" iss with
        | Some p => if Sandbox.truthy p then as_str p else ""
        | None => ""
        end in
      let key := (code, ptr) in
      summarize issues'
        (if RepairSuggest.Json_eqb sev (JStr "warning")
         then mkSummary (errors acc) (warnings acc ∪ {[key]})
         else mkSummary (errors acc ∪ {[key]}) (warnings acc))
  | _ :: issues' => summarize issues' acc
  end.

Definition _summarize_non_schema (mod_ : Json) : result IssueSummary :=
  try! issues <- check_all mod_; Ok (summarize issues (mkSummary ∅ ∅)).

Definition in_summary (target : string * string) (s : IssueSummary) : bool :=
  bool_decide (target ∈ errors s) || bool_decide (target ∈ warnings s).

(** The body of the [try] of [_edits_pass_prevalidation]. *)
Definition prevalidate (text : string) (edits : Edits) (baseline : option IssueSummary)
    (target : option (string * string)) (expected_canonical : option string) : result bool :=
  try! new_text <- _apply_text_edits_in_memory text edits;
  try! value <- json_loads new_text;
  match value with
  | JDict _ =>
      try! schema_errors <- validate value;
      if negb (length schema_errors =? 0)%nat then Ok false
      else if match expected_canonical with
              | Some expected => negb (String.eqb (Fmt.dumps_canonical value) expected)
              | None => false
              end then Ok false
      else
        match baseline with
        | None => Ok true
        | Some baseline =>
            try! new_sum <- _summarize_non_schema value;
            if match target with
               | Some target => in_summary target baseline && in_summary target new_sum
               | None => false
               end then Ok false
            else Ok (_no_regression baseline new_sum)
        end
  | _ => Ok false
  end.

(** [except Exception: return False] *)
Definition _edits_pass_prevalidation (text : string) (edits : Edits)
    (baseline : option IssueSummary) (target : option (string * string))
    (expected_canonical : option string) : bool :=
  match prevalidate text edits baseline target expected_canonical with
  | Ok b => b
  | Raise _ => false
  end.

End Server.

End Lsp.

(** ** [jsonpos.py]: [TextIndex], offsets and editor positions *)

Module TextIndex.

(** A text is the sequence of its code points. *)
Definition Text : Type := list Z.

Definition NEWLINE : Z := 10.

(** [len(ch.encode("utf-16-le")) // 2]: one code unit in the basic plane,
    two above it; the codec refuses a surrogate code point. *)
Definition is_surrogate (ch : Z) : bool := (55296 <=? ch) && (ch <=? 57343).

Definition utf16_units (ch : Z) : result nat :=
  if is_surrogate ch then Raise UnicodeEncodeError
  else if ch <? 65536 then Ok 1%nat else Ok 2%nat.

(** [len(s.encode("utf-16-le")) // 2] *)
Fixpoint utf16_len (s : Text) : result nat :=
  match s with
  | [] => Ok 0%nat
  | ch :: s' =>
      try! u <- utf16_units ch;
      try! n <- utf16_len s';
      Ok (u + n)%nat
  end.

(** [self.starts.append(i + 1)] for each newline at [i]. *)
Fixpoint newline_starts (i : nat) (text : Text) : list nat :=
  match text with
  | [] => []
  | ch :: text' =>
      if ch =? NEWLINE then S i :: newline_starts (S i) text'
      else newline_starts (S i) text'
  end.

(** [text.find("\n", s)] within [text[s:]], as an offset from [s]. *)
Fixpoint find_newline (text : Text) : option nat :=
  match text with
  | [] => None
  | ch :: text' =>
      if ch =? NEWLINE then Some 0%nat
      else match find_newline text' with
           | Some k => Some (S k)
           | None => None
           end
  end.

Definition line_end (text : Text) (s : nat) : nat :=
  match find_newline (drop s text) with
  | Some k => (s + k)%nat
  | None => length text
  end.

Record Index : Type := mkIndex {
  text : Text;
  starts : list nat;
  ends : list nat
}.

(** [TextIndex(text)] *)
Definition make (text : Text) : Index :=
  let starts := 0%nat :: newline_starts 0 text in
  mkIndex text starts (map (line_end text) starts).

(** The [while lo + 1 < hi] loop of [_find_line]. The distance from [lo]
    to [hi] shrinks in every round, so [len(starts)] rounds are enough. *)
Fixpoint find_line_loop (rounds : nat) (starts : list nat) (index lo hi : nat) : option nat :=
  if (lo + 1 <? hi)%nat then
    match rounds with
    | O => None
    | S rounds' =>
        let mid := ((lo + hi) / 2)%nat in
        if (nth mid starts 0 <=? index)%nat
        then find_line_loop rounds' starts index mid hi
        else find_line_loop rounds' starts index lo mid
    end
  else Some lo.

Definition _find_line (idx : Index) (index : nat) : option nat :=
  find_line_loop (length (starts idx)) (starts idx) index 0 (length (starts idx)).

(** [s[a:b]] for [0 <= a]. *)
Definition slice {A} (a b : nat) (s : list A) : list A := take (b - a) (drop a s).

Definition line_text (idx : Index) (line : nat) : Text :=
  slice (nth line (starts idx) 0%nat) (nth line (ends idx) 0%nat) (text idx).

(** [position(index)]: [(line, character)]. *)
Definition position (idx : Index) (index : Z) : option (result (nat * nat)) :=
  let index := if index <? 0 then 0 else index in
  let index := if Z.of_nat (length (text idx)) <? index then Z.of_nat (length (text idx)) else index in
  let index := Z.to_nat index in
  match _find_line idx index with
  | None => None
  | Some line =>
      let col_cp := (index - nth line (starts idx) 0)%nat in
      let prefix := take col_cp (line_text idx line) in
      Some (try! char_utf16 <- utf16_len prefix; Ok (line, char_utf16))
  end.

(** The [for ch in line_text] loop of [offset]: the number of code points
    passed when the next one would go beyond [character_utf16]. *)
Fixpoint offset_loop (chars : Text) (units cp : nat) (character_utf16 : nat) : result nat :=
  match chars with
  | [] => Ok cp
  | ch :: chars' =>
      try! u <- utf16_units ch;
      if (character_utf16 <? units + u)%nat then Ok cp
      else offset_loop chars' (units + u) (S cp) character_utf16
  end.

(** [offset(line, character_utf16)] *)
Definition offset (idx : Index) (line character_utf16 : Z) : result nat :=
  let line := if line <? 0 then 0 else line in
  let line :=
    if Z.of_nat (length (starts idx)) <=? line then Z.of_nat (length (starts idx)) - 1 else line in
  let character_utf16 := if character_utf16 <? 0 then 0 else character_utf16 in
  let line := Z.to_nat line in
  let line_start := nth line (starts idx) 0%nat in
  try! cp <- offset_loop (line_text idx line) 0 0 (Z.to_nat character_utf16);
  Ok (line_start + cp)%nat.

(** [offset(position(i))], as [position] hands its answer to [offset]. *)
Definition round_trip (idx : Index) (i : Z) : option (result nat) :=
  match position idx i with
  | None => None
  | Some (Raise e) => Some (Raise e)
  | Some (Ok (line, character)) => Some (offset idx (Z.of_nat line) (Z.of_nat character))
  end.

End TextIndex.


(** ** [semantic.py]: definite assignment, missing returns, unreachable code *)

Module Semantic.
Import Pointer.

Definition _qual_last (name : string) : string := Effects._qual_last name.

(** Builtin arities. *)
Definition BUILTIN_ARITY : list (string * nat) :=
  [ ("add", 2); ("sub", 2); ("mul", 2); ("div", 2);
    ("eq", 2); ("neq", 2); ("lt", 2); ("lte", 2); ("gt", 2); ("gte", 2);
    ("and", 2); ("or", 2); ("not", 1);
    ("str_len", 1); ("str_concat", 2); ("str_contains", 2);
    ("len", 1); ("list_get", 2); ("list_set", 3); ("list_append", 2);
    ("list_concat", 2); ("list_slice", 3); ("list_range", 1); ("list_sum", 1);
    ("list_mean", 1); ("list_map", 2); ("list_filter", 2); ("list_reduce", 3);
    ("obj_get", 2); ("obj_get_or", 3); ("obj_has", 2); ("obj_set", 3);
    ("obj_del", 2); ("obj_keys", 1); ("obj_merge", 2);
    ("print", 1); ("http_get", 1) ]%nat.

Definition RESERVED_NAMES : list string := ["result"].

Record Issue : Type := mkIssue {
  pointer : string;
  code : string;
  message : string;
  severity : string
}.

Definition to_dict (i : Issue) : Json :=
  JDict [("pointer", JStr (pointer i)); ("code", JStr (code i));
         ("severity", JStr (severity i)); ("message", JStr (message i))].

(** [Issue(join_pointer(ptr), code, message)] and the same with
    [severity="warning"]. *)
Definition error (ptr : list Seg) (code message : string) : Issue :=
  mkIssue (join_pointer ptr) code message "error".

Definition warning (ptr : list Seg) (code message : string) : Issue :=
  mkIssue (join_pointer ptr) code message "warning".

(** The variables defined on every path and on some path. *)
Record Flow : Type := mkFlow {
  definite : gset string;
  maybe : gset string
}.

Definition Arities : Type := list (string * nat).

(** [fn.get("params", []) or []] when it is a list: [None] stands for a
    value that is neither falsy nor a list. *)
Definition params_of (fn : list (string * Json)) : option (list Json) :=
  match Py.dict_get "params" fn with
  | None => Some []
  | Some (JList params) => Some params
  | Some v => if Sandbox.truthy v then None else Some []
  end.

(** [len([p for p in params if isinstance(p, str)])] *)
Definition count_strings (params : list Json) : nat :=
  length (Effects.strings_of params).

Fixpoint collect_arities (fns : list Json) (out : Arities) : Arities :=
  match fns with
  | [] => out
  | JDict fn :: fns' =>
      match Py.dict_get "name" fn, params_of fn with
      | Some (JStr name), Some params =>
          collect_arities fns' (Py.dict_set name (count_strings params) out)
      | _, _ => collect_arities fns' out
      end
  | _ :: fns' => collect_arities fns' out
  end.

Definition _collect_user_arities (module : Effects.Module_) : Arities :=
  collect_arities (Effects.functions_of module) [].

Definition HIGHER_ORDER : list string := ["list_map"; "list_filter"; "list_reduce"].

(** The name and arity checks of a call, before its arguments are
    analysed. *)
Definition call_issues (ptr : list Seg) (fn : string) (args : list Json)
    (known_arities : Arities) (issues : list Issue) : list Issue :=
  let fn_last := _qual_last fn in
  let issues :=
    match Py.dict_get fn_last known_arities with
    | None =>
        issues ++ [error (ptr ++ [SegS "call"; SegS "fn"]) "UnknownFunctionCall"
                     ("Unknown function: " +:+ fn)]
    | Some expected =>
        if (expected =? length args)%nat then issues
        else issues ++ [error (ptr ++ [SegS "call"]) "ArityMismatch"
                          (fn +:+ " expects " +:+ Py.str_of_nat expected +:+ " args but got "
                           +:+ Py.str_of_nat (length args))]
    end in
  if Py.mem fn_last HIGHER_ORDER then
    match args with
    | [] => issues
    | JStr ref :: _ =>
        let ref_last := _qual_last ref in
        match Py.dict_get ref_last known_arities with
        | None =>
            issues ++ [error (ptr ++ [SegS "call"; SegS "args"; SegI 0]) "UnknownFunctionRef"
                         ("Unknown function reference: " +:+ ref)]
        | Some got =>
            let want := if Py.mem fn_last ["list_map"; "list_filter"] then 1%nat else 2%nat in
            if (got =? want)%nat then issues
            else issues ++ [error (ptr ++ [SegS "call"; SegS "args"; SegI 0]) "ArityMismatch"
                              (fn_last +:+ " expects '" +:+ ref +:+ "' to have arity "
                               +:+ Py.str_of_nat want +:+ " but it has " +:+ Py.str_of_nat got)]
        end
    | _ :: _ =>
        issues ++ [error (ptr ++ [SegS "call"; SegS "args"; SegI 0]) "InvalidFunctionRef"
                     (fn_last +:+ " expects first arg to be a string function name")]
    end
  else issues.

(** [for i, a in enumerate(xs): analyze(a, base + [i])] *)
Fixpoint each_element (analyze : Json -> list Seg -> list Issue -> option (list Issue))
    (base : list Seg) (i : nat) (xs : list Json) (issues : list Issue)
  : option (list Issue) :=
  match xs with
  | [] => Some issues
  | a :: xs' =>
      match analyze a (base ++ [SegI i]) issues with
      | Some issues' => each_element analyze base (S i) xs' issues'
      | None => None
      end
  end.

(** [for k, v in obj.items(): analyze(v, base + [k])] *)
Fixpoint each_member (analyze : Json -> list Seg -> list Issue -> option (list Issue))
    (base : list Seg) (kvs : list (string * Json)) (issues : list Issue)
  : option (list Issue) :=
  match kvs with
  | [] => Some issues
  | (k, v) :: kvs' =>
      match analyze v (base ++ [SegS k]) issues with
      | Some issues' => each_member analyze base kvs' issues'
      | None => None
      end
  end.

(** [_analyze_expr] appends to [issues]; the model returns the list after
    the call. Each nested expression costs one unit of fuel. *)
Fixpoint _analyze_expr (fuel : nat) (expr : Json) (ptr : list Seg) (flow : Flow)
    (issues : list Issue) (known_arities : Arities) : option (list Issue) :=
  match fuel with
  | O => None
  | S fuel' =>
      let analyze (a : Json) (p : list Seg) (iss : list Issue) :=
        _analyze_expr fuel' a p flow iss known_arities in
      match expr with
      | JNull | JBool _ | JInt _ | JFloat _ | JStr _ => Some issues
      | JList _ =>
          Some (issues ++ [error ptr "InvalidExpr"
                             "Expression must be literal or object, got list"])
      | JDict kvs =>
          if Py.dict_has "var" kvs then
            match Py.dict_get "var" kvs with
            | Some (JStr name) =>
                if bool_decide (name ∈ definite flow) then Some issues
                else Some (issues ++ [error (ptr ++ [SegS "var"]) "UndefinedVariable"
                                        ("Undefined variable: " +:+ name)])
            | _ =>
                Some (issues ++ [error (ptr ++ [SegS "var"]) "InvalidVarRef"
                                   "var must be a string"])
            end
          else if Py.dict_has "call" kvs then
            match Py.dict_get "call" kvs with
            | Some (JDict call) =>
                match Py.dict_get "fn" call with
                | Some (JStr fn) =>
                    match default (JList []) (Py.dict_get "args" call) with
                    | JList args =>
                        each_element analyze (ptr ++ [SegS "call"; SegS "args"]) 0 args
                          (call_issues ptr fn args known_arities issues)
                    | _ =>
                        Some (issues ++ [error (ptr ++ [SegS "call"; SegS "args"]) "InvalidCall"
                                           "call.args must be an array"])
                    end
                | _ =>
                    Some (issues ++ [error (ptr ++ [SegS "call"; SegS "fn"]) "InvalidCall"
                                       "call.fn must be a string"])
                end
            | _ =>
                Some (issues ++ [error (ptr ++ [SegS "call"]) "InvalidCall"
                                   "call must be an object"])
            end
          else if Py.dict_has "list" kvs then
            match Py.dict_get "list" kvs with
            | Some (JList arr) => each_element analyze (ptr ++ [SegS "list"]) 0 arr issues
            | _ =>
                Some (issues ++ [error (ptr ++ [SegS "list"]) "InvalidList"
                                   "list must be an array"])
            end
          else if Py.dict_has "obj" kvs then
            match Py.dict_get "obj" kvs with
            | Some (JDict obj) => each_member analyze (ptr ++ [SegS "obj"]) obj issues
            | _ =>
                Some (issues ++ [error (ptr ++ [SegS "obj"]) "InvalidObj"
                                   "obj must be an object"])
            end
          else
            Some (issues ++ [error ptr "UnknownExpr"
                               ("Unknown expr form: " +:+ Effects.repr_list (Py.keys kvs))])
      end
  end.

(** What a statement or a block gives back: the flow after it, whether it
    always returns, and the issues so far. *)
Definition Analysis : Type := (Flow * bool * list Issue)%type.

(** The loop of [_analyze_block], from statement [i] on. *)
Fixpoint analyze_stmts
    (analyze_stmt : Json -> list Seg -> Flow -> list Issue -> option Analysis)
    (ptr : list Seg) (i : nat) (stmts : list Json) (flow : Flow) (terminated : bool)
    (issues : list Issue) : option Analysis :=
  match stmts with
  | [] => Some (flow, terminated, issues)
  | stmt :: stmts' =>
      let stmt_ptr := ptr ++ [SegI i] in
      if terminated then
        analyze_stmts analyze_stmt ptr (S i) stmts' flow terminated
          (issues ++ [warning stmt_ptr "UnreachableStatement"
                        "Statement is unreachable (previous statement always returns)."])
      else
        match analyze_stmt stmt stmt_ptr flow issues with
        | Some (flow', always_returns, issues') =>
            analyze_stmts analyze_stmt ptr (S i) stmts' flow' always_returns issues'
        | None => None
        end
  end.

Fixpoint _analyze_stmt (fuel : nat) (stmt : Json) (ptr : list Seg) (flow_in : Flow)
    (issues : list Issue) (known_arities : Arities) : option Analysis :=
  match fuel with
  | O => None
  | S fuel' =>
      let expr (e : option Json) (p : list Seg) (iss : list Issue) :=
        _analyze_expr fuel' (default JNull e) p flow_in iss known_arities in
      let block (stmts : list Json) (p : list Seg) (iss : list Issue) :=
        analyze_stmts (fun s sp f i => _analyze_stmt fuel' s sp f i known_arities)
          p 0 stmts flow_in false iss in
      match stmt with
      | JDict [(tag, body)] =>
          if String.eqb tag "let" then
            match body with
            | JDict spec =>
                match Py.dict_get "name" spec with
                | Some (JStr name) =>
                    let issues :=
                      if Py.mem name RESERVED_NAMES then
                        issues ++ [error (ptr ++ [SegS "let"; SegS "name"]) "ReservedName"
                                     ("'" +:+ name +:+ "' is reserved")]
                      else issues in
                    let issues :=
                      if bool_decide (name ∈ maybe flow_in) then
                        issues ++ [error (ptr ++ [SegS "let"; SegS "name"]) "Rebind"
                                     ("'" +:+ name +:+ "' is already defined on some path")]
                      else issues in
                    match expr (Py.dict_get "expr" spec) (ptr ++ [SegS "let"; SegS "expr"])
                            issues with
                    | Some issues' =>
                        Some (mkFlow (definite flow_in ∪ {[name]}) (maybe flow_in ∪ {[name]}),
                              false, issues')
                    | None => None
                    end
                | _ =>
                    Some (flow_in, false,
                          issues ++ [error (ptr ++ [SegS "let"; SegS "name"]) "InvalidLetName"
                                       "let.name must be a string"])
                end
            | _ =>
                Some (flow_in, false,
                      issues ++ [error (ptr ++ [SegS "let"]) "InvalidLet" "let must be an object"])
            end
          else if String.eqb tag "expr" then
            match expr (Some body) (ptr ++ [SegS "expr"]) issues with
            | Some issues' => Some (flow_in, false, issues')
            | None => None
            end
          else if String.eqb tag "assert" then
            match body with
            | JDict spec =>
                match expr (Py.dict_get "expr" spec) (ptr ++ [SegS "assert"; SegS "expr"])
                        issues with
                | Some issues' => Some (flow_in, false, issues')
                | None => None
                end
            | _ =>
                Some (flow_in, false,
                      issues ++ [error (ptr ++ [SegS "assert"]) "InvalidAssert"
                                   "assert must be an object"])
            end
          else if String.eqb tag "return" then
            match expr (Some body) (ptr ++ [SegS "return"]) issues with
            | Some issues' => Some (flow_in, true, issues')
            | None => None
            end
          else if String.eqb tag "if" then
            match body with
            | JDict spec =>
                match expr (Py.dict_get "cond" spec) (ptr ++ [SegS "if"; SegS "cond"])
                        issues with
                | Some issues1 =>
                    match default (JList []) (Py.dict_get "then" spec),
                          default (JList []) (Py.dict_get "else" spec) with
                    | JList then_, JList els =>
                        match block then_ (ptr ++ [SegS "if"; SegS "then"]) issues1 with
                        | Some (flow_then, ret_then, issues2) =>
                            match block els (ptr ++ [SegS "if"; SegS "else"]) issues2 with
                            | Some (flow_else, ret_else, issues3) =>
                                Some (mkFlow (definite flow_then ∩ definite flow_else)
                                             (maybe flow_then ∪ maybe flow_else),
                                      ret_then && ret_else, issues3)
                            | None => None
                            end
                        | None => None
                        end
                    | _, _ =>
                        Some (flow_in, false,
                              issues1 ++ [error (ptr ++ [SegS "if"]) "InvalidIf"
                                            "if.then and if.else must be arrays"])
                    end
                | None => None
                end
            | _ =>
                Some (flow_in, false,
                      issues ++ [error (ptr ++ [SegS "if"]) "InvalidIf" "if must be an object"])
            end
          else
            Some (flow_in, false,
                  issues ++ [error ptr "UnknownStmt" ("Unknown statement form: " +:+ tag)])
      | _ =>
          Some (flow_in, false,
                issues ++ [error ptr "InvalidStmt"
                             "Statement must be an object with exactly one key"])
      end
  end.

Definition _analyze_block (fuel : nat) (stmts : list Json) (ptr : list Seg) (flow_in : Flow)
    (issues : list Issue) (known_arities : Arities) : option Analysis :=
  analyze_stmts (fun s sp f i => _analyze_stmt fuel s sp f i known_arities)
    ptr 0 stmts flow_in false issues.

(** [for pi, p in enumerate(params): if p in RESERVED_NAMES: ...]. Looking
    up a list or a dict in the set raises [TypeError] (unhashable). *)
Fixpoint reserved_params (fi : nat) (pi : nat) (params : list Json) (issues : list Issue)
  : result (list Issue) :=
  match params with
  | [] => Ok issues
  | p :: params' =>
      match p with
      | JList _ | JDict _ => Raise TypeError
      | JStr name =>
          reserved_params fi (S pi) params'
            (if Py.mem name RESERVED_NAMES then
               issues ++ [error [SegS "functions"; SegI fi; SegS "params"; SegI pi]
                            "ReservedName" ("'" +:+ name +:+ "' is reserved")]
             else issues)
      | _ => reserved_params fi (S pi) params' issues
      end
  end.

(** [fn.get("body", []) or []]: [None] stands for a value that is neither
    falsy nor a list. *)
Definition body_of (fn : list (string * Json)) : option (list Json) :=
  match Py.dict_get "body" fn with
  | None => Some []
  | Some (JList body) => Some body
  | Some v => if Sandbox.truthy v then None else Some []
  end.

(** The body of the loop of [check_module] for the function at index
    [fi]. *)
Definition check_function (fuel : nat) (known_arities : Arities) (fi : nat) (fn : Json)
    (issues : list Issue) : option (result (list Issue)) :=
  match fn with
  | JDict f =>
      match Py.dict_get "name" f, params_of f with
      | Some (JStr name), Some params =>
          match reserved_params fi 0 params issues with
          | Raise e => Some (Raise e)
          | Ok issues =>
              let names : gset string := list_to_set (Effects.strings_of params) in
              let flow0 := mkFlow names names in
              match body_of f with
              | None =>
                  Some (Ok (issues ++ [error [SegS "functions"; SegI fi; SegS "body"]
                                         "InvalidBody" "body must be an array"]))
              | Some body =>
                  match _analyze_block fuel body [SegS "functions"; SegI fi; SegS "body"]
                          flow0 issues known_arities with
                  | None => None
                  | Some (_, always_returns, issues') =>
                      Some (Ok (if always_returns then issues'
                                else issues' ++ [error [SegS "functions"; SegI fi] "MissingReturn"
                                                   ("Function '" +:+ name
                                                    +:+ "' may fall through without returning")]))
                  end
              end
          end
      | _, _ => Some (Ok issues)
      end
  | _ => Some (Ok issues)
  end.

Fixpoint check_functions (fuel : nat) (known_arities : Arities) (fi : nat) (fns : list Json)
    (issues : list Issue) : option (result (list Issue)) :=
  match fns with
  | [] => Some (Ok issues)
  | fn :: fns' =>
      match check_function fuel known_arities fi fn issues with
      | Some (Ok issues') => check_functions fuel known_arities (S fi) fns' issues'
      | other => other
      end
  end.

(** [known_arities = dict(BUILTIN_ARITY); known_arities.update(user_arities)] *)
Definition known_arities_of (module : Effects.Module_) : Arities :=
  fold_left (fun acc kv => Py.dict_set kv.1 kv.2 acc) (_collect_user_arities module)
    BUILTIN_ARITY.

Definition check_module (fuel : nat) (module : Effects.Module_)
  : option (result (list Json)) :=
  match check_functions fuel (known_arities_of module) 0 (Effects.functions_of module) [] with
  | Some (Ok issues) => Some (Ok (map to_dict issues))
  | Some (Raise e) => Some (Raise e)
  | None => None
  end.

End Semantic.

(** ** [resolve.py]: merging the functions of an imported module *)

Module Resolve.

(** What [merge_functions] raises: [ResolveError], or a [TypeError]: of
    a function name that cannot be put in a set (a list or a dict), or of
    a [functions] member of [src] that cannot be iterated. *)
Inductive Failure : Type :=
| ResolveError (message : string)
| UnhashableName
| NotIterable.

(** [{f.get("name") for f in dst_funcs if isinstance(f, dict)}], as the
    list of the names ([None] for a dict without one). *)
Fixpoint existing_names (fns : list Json) : option (list Json) :=
  match fns with
  | [] => Some []
  | JDict f :: fns' =>
      match default JNull (Py.dict_get "name" f) with
      | JList _ | JDict _ => None
      | name =>
          match existing_names fns' with
          | Some rest => Some (name :: rest)
          | None => None
          end
      end
  | _ :: fns' => existing_names fns'
  end.

Definition has_name (name : string) (existing : list Json) : bool :=
  existsb (fun n => match n with JStr s => String.eqb s name | _ => false end) existing.

(** What [for f in src.get("functions", []) or []] goes through: nothing
    for an absent or falsy member, the elements of a list, the characters
    of a string, the keys of a dict; nothing else can be iterated. *)
Definition src_functions (src : Effects.Module_) : option (list Json) :=
  match Py.dict_get "functions" src with
  | None => Some []
  | Some v =>
      if negb (Sandbox.truthy v) then Some []
      else match v with
           | JList xs => Some xs
           | JStr s => Some (map (fun c => JStr (String c EmptyString)) (list_ascii_of_string s))
           | JDict kvs => Some (map (fun kv => JStr kv.1) kvs)
           | _ => None
           end
  end.

(** The loop over the functions of [src]. [dst_funcs] is appended to in
    place, so the functions merged before a conflict stay merged: the
    model returns the list as the loop leaves it, and the exception if
    there is one. *)
Fixpoint merge_loop (src_label : string) (src_fns : list Json) (dst_funcs : list Json)
    (existing : list Json) : list Json * option Failure :=
  match src_fns with
  | [] => (dst_funcs, None)
  | JDict f :: src_fns' =>
      match Py.dict_get "name" f with
      | Some (JStr name) =>
          if has_name name existing
          then (dst_funcs,
                Some (ResolveError ("Function name conflict while merging " +:+ src_label
                                    +:+ ": " +:+ name)))
          else merge_loop src_label src_fns' (dst_funcs ++ [JDict f]) (JStr name :: existing)
      | _ => merge_loop src_label src_fns' dst_funcs existing
      end
  | _ :: src_fns' => merge_loop src_label src_fns' dst_funcs existing
  end.

(** [merge_functions(dst, src, src_label=...)]: [dst] after the call and
    the exception, if any. [setdefault] adds the member [functions] to a
    [dst] that has none. *)
Definition merge_functions (dst src : Effects.Module_) (src_label : string)
  : Effects.Module_ * option Failure :=
  let dst := if Py.dict_has "functions" dst then dst
             else Py.dict_set "functions" (JList []) dst in
  match Py.dict_get "functions" dst with
  | Some (JList dst_funcs) =>
      match existing_names dst_funcs with
      | None => (dst, Some UnhashableName)
      | Some existing =>
          match src_functions src with
          | None => (dst, Some NotIterable)
          | Some src_fns =>
              let '(merged, failure) := merge_loop src_label src_fns dst_funcs existing in
              (Py.dict_set "functions" (JList merged) dst, failure)
          end
      end
  | _ => (dst, Some (ResolveError "module.functions must be a list"))
  end.

End Resolve.

(** * Proofs *)

(** ** Induction over JSON values and facts about the Python built-ins *)

Module PyFacts.
Import Py.

(** Structural induction on [Json] with the hypothesis for every element
    of a list and every member of a dict. *)
Lemma Json_ind' (P : Json -> Prop) :
  P JNull ->
  (forall b, P (JBool b)) ->
  (forall n, P (JInt n)) ->
  (forall r, P (JFloat r)) ->
  (forall s, P (JStr s)) ->
  (forall xs, Forall P xs -> P (JList xs)) ->
  (forall kvs, Forall (fun kv => P kv.2) kvs -> P (JDict kvs)) ->
  forall j, P j.
Proof.
  intros Hnull Hbool Hint Hfloat Hstr Hlist Hdict.
  fix IH 1. intros [ | b | n | r | s | xs | kvs ].
  - exact Hnull.
  - apply Hbool.
  - apply Hint.
  - apply Hfloat.
  - apply Hstr.
  - apply Hlist. induction xs as [ | x xs IHxs ]; constructor; [ apply IH | exact IHxs ].
  - apply Hdict. induction kvs as [ | [k v] kvs IHkvs ]; constructor; [ apply IH | exact IHkvs ].
Qed.

Lemma mem_true_iff (x : string) (l : list string) : mem x l = true <-> In x l.
Proof.
  unfold mem. rewrite existsb_exists. split.
  - intros (y & Hy & Heq). apply String.eqb_eq in Heq. now subst.
  - intros H. exists x. split; [ exact H | apply String.eqb_refl ].
Qed.

Lemma mem_false_iff (x : string) (l : list string) : mem x l = false <-> ~ In x l.
Proof.
  rewrite <- mem_true_iff. destruct (mem x l); split; intros; congruence.
Qed.

Section DictFacts.
Context {V : Type}.
Implicit Types (d : list (string * V)) (k : string).

Lemma dict_get_app k d1 d2 :
  dict_get k (d1 ++ d2) =
  match dict_get k d1 with Some v => Some v | None => dict_get k d2 end.
Proof.
  induction d1 as [ | [k' v'] d1 IH ]; simpl; [ reflexivity | ].
  destruct (String.eqb k k'); [ reflexivity | exact IH ].
Qed.

Lemma dict_has_keys k d : dict_has k d = mem k (keys d).
Proof.
  unfold dict_has, keys, mem. induction d as [ | [k' v'] d IH ]; simpl; [ reflexivity | ].
  destruct (String.eqb k k'); [ reflexivity | exact IH ].
Qed.

Lemma dict_get_In k v d : dict_get k d = Some v -> In (k, v) d.
Proof.
  induction d as [ | [k' v'] d IH ]; simpl; [ discriminate | ].
  destruct (String.eqb k k') eqn:E.
  - intros [= ->]. apply String.eqb_eq in E. subst. now left.
  - intros H. right. now apply IH.
Qed.

Lemma dict_get_None_keys k d : dict_get k d = None <-> ~ In k (keys d).
Proof.
  rewrite <- mem_false_iff, <- dict_has_keys. unfold dict_has.
  destruct (dict_get k d); split; intros; congruence.
Qed.

End DictFacts.

(** *** [sorted] *)

Lemma leb_total (x y : string) : String.leb x y = false -> String.leb y x = true.
Proof.
  unfold String.leb. rewrite (String.compare_antisym x y).
  destruct (String.compare y x); simpl; congruence.
Qed.

Inductive ascending : list string -> Prop :=
| asc_nil : ascending []
| asc_one x : ascending [x]
| asc_cons x y l : String.leb x y = true -> ascending (y :: l) -> ascending (x :: y :: l).

Lemma insert_sorted_ascending x l : ascending l -> ascending (insert_sorted x l).
Proof.
  induction 1 as [ | y | y z l Hyz Hl IH ]; simpl.
  - constructor.
  - destruct (String.leb x y) eqn:E; repeat constructor; auto using leb_total.
  - destruct (String.leb x y) eqn:E.
    + repeat constructor; auto.
    + simpl in IH. destruct (String.leb x z) eqn:E'.
      * constructor; [ now apply leb_total | exact IH ].
      * constructor; [ exact Hyz | exact IH ].
Qed.

Lemma sorted_ascending l : ascending (sorted l).
Proof.
  induction l as [ | x l IH ]; simpl; [ constructor | now apply insert_sorted_ascending ].
Qed.

Lemma sorted_of_ascending l : ascending l -> sorted l = l.
Proof.
  induction 1 as [ | y | y z l Hyz Hl IH ]; simpl; try reflexivity.
  simpl in IH. rewrite IH. simpl. now rewrite Hyz.
Qed.

Lemma sorted_sorted l : sorted (sorted l) = sorted l.
Proof. apply sorted_of_ascending, sorted_ascending. Qed.

Lemma In_insert_sorted x y l : In y (insert_sorted x l) <-> y = x \/ In y l.
Proof.
  induction l as [ | z l IH ]; simpl.
  - intuition.
  - destruct (String.leb x z); simpl; rewrite ?IH; intuition.
Qed.

Lemma In_sorted y l : In y (sorted l) <-> In y l.
Proof.
  induction l as [ | x l IH ]; simpl; [ reflexivity | ].
  rewrite In_insert_sorted, IH. intuition.
Qed.

Lemma length_insert_sorted x l : length (insert_sorted x l) = S (length l).
Proof.
  induction l as [ | z l IH ]; simpl; [ reflexivity | ].
  destruct (String.leb x z); simpl; [ reflexivity | now rewrite IH ].
Qed.

Lemma length_sorted l : length (sorted l) = length l.
Proof.
  induction l as [ | x l IH ]; simpl; [ reflexivity | ].
  now rewrite length_insert_sorted, IH.
Qed.

End PyFacts.


(** ** [pointer.py]: list indices past the end *)

Module PointerFacts.
Import Py Pointer.

(** On a list, [replace] and [remove] with an index past the end raise
    ([IndexError] from the list itself). *)
Lemma replace_past_end_raises (xs : list Json) (v : Json) (i : nat) :
  (length xs <= i)%nat -> list_assign i v xs = Raise IndexError.
Proof.
  intros H. unfold list_assign.
  destruct (Nat.ltb_spec i (length xs)); [ lia | reflexivity ].
Qed.

Lemma remove_past_end_raises (xs : list Json) (i : nat) :
  (length xs <= i)%nat -> list_pop_at i xs = Raise IndexError.
Proof.
  intros H. unfold list_pop_at.
  destruct (Nat.ltb_spec i (length xs)); [ lia | reflexivity ].
Qed.

Example replace_index_5_of_2 (a b v : Json) :
  apply_patch (JList [a; b]) [op_replace "/5" v] = Raise IndexError.
Proof. reflexivity. Qed.

Example remove_index_5_of_2 (a b : Json) :
  apply_patch (JList [a; b]) [op_remove "/5"] = Raise IndexError.
Proof. reflexivity. Qed.

(** [list.insert] clamps its index: past the end it appends. *)
Lemma insert_past_end_appends (xs : list Json) (v : Json) (i : nat) :
  (length xs <= i)%nat -> list_insert_at i v xs = xs ++ [v].
Proof.
  intros H. unfold list_insert_at.
  now rewrite take_ge, drop_ge by lia.
Qed.

(** C4, the code at the failing input: [add] at index 5 of a list of two
    elements does not raise; the value is appended and the patch succeeds,
    at the root and below it. *)
Theorem add_past_end_succeeds (a b v : Json) :
  apply_patch (JList [a; b]) [op_add "/5" v] = Ok (JList [a; b; v]) /\
  apply_patch (JDict [("body", JList [a; b])]) [op_add "/body/5" v]
    = Ok (JDict [("body", JList [a; b; v])]).
Proof. split; reflexivity. Qed.

End PointerFacts.


(** ** [fmt.py]: ordering a dict twice changes nothing *)

Module OrderedDictFacts.
Import Py PyFacts Fmt.

Lemma filter_none {A} (f : A -> bool) (l : list A) :
  (forall x, In x l -> f x = false) -> List.filter f l = [].
Proof.
  induction l as [ | x l IH ]; simpl; intros H; [ reflexivity | ].
  rewrite (H x) by now left. apply IH. intros y Hy. apply H. now right.
Qed.

Lemma filter_all {A} (f : A -> bool) (l : list A) :
  (forall x, In x l -> f x = true) -> List.filter f l = l.
Proof.
  induction l as [ | x l IH ]; simpl; intros H; [ reflexivity | ].
  rewrite (H x) by now left. f_equal. apply IH. intros y Hy. apply H. now right.
Qed.

Section Generic.
Context {V : Type}.
Implicit Types (d : list (string * V)) (k : string) (P ks : list string).

Lemma dict_get_pick k d ks :
  dict_get k (pick d ks) = if mem k ks then dict_get k d else None.
Proof.
  induction ks as [ | k' ks IH ]; [ reflexivity | ].
  change (mem k (k' :: ks)) with (String.eqb k k' || mem k ks). simpl.
  destruct (String.eqb k k') eqn:E.
  - apply String.eqb_eq in E. subst k'. simpl.
    destruct (dict_get k d) eqn:G; simpl.
    + now rewrite String.eqb_refl.
    + rewrite IH. now destruct (mem k ks).
  - simpl. destruct (dict_get k' d); simpl; [ rewrite E | ]; exact IH.
Qed.

Lemma In_pick kv d ks : In kv (pick d ks) -> In kv d.
Proof.
  induction ks as [ | k' ks IH ]; simpl; [ tauto | ].
  destruct (dict_get k' d) eqn:G; [ | exact IH ].
  intros [ <- | H ]; [ now apply dict_get_In | now apply IH ].
Qed.

Lemma keys_pick d ks : keys (pick d ks) = List.filter (fun k => dict_has k d) ks.
Proof.
  induction ks as [ | k' ks IH ]; [ reflexivity | ].
  simpl. unfold dict_has at 1. destruct (dict_get k' d); simpl; now rewrite IH.
Qed.

Lemma pick_ext d1 d2 ks :
  (forall k, In k ks -> dict_get k d1 = dict_get k d2) -> pick d1 ks = pick d2 ks.
Proof.
  induction ks as [ | k' ks IH ]; intros H; [ reflexivity | ].
  simpl. rewrite (H k') by now left.
  rewrite IH; [ reflexivity | ]. intros k Hk. apply H. now right.
Qed.

(** The keys that follow the preferred ones. *)
Definition rest d P : list string :=
  sorted (List.filter (fun k => negb (dict_has k (pick d P))) (keys d)).

Lemma ordered_dict_unfold d P : _ordered_dict d P = pick d P ++ pick d (rest d P).
Proof. reflexivity. Qed.

Lemma dict_has_pick k d P : dict_has k (pick d P) = mem k P && dict_has k d.
Proof.
  unfold dict_has. rewrite dict_get_pick. now destruct (mem k P), (dict_get k d).
Qed.

Lemma In_rest k d P : In k (rest d P) <-> In k (keys d) /\ ~ In k P.
Proof.
  unfold rest. rewrite In_sorted, filter_In, dict_has_pick, negb_true_iff, andb_false_iff.
  rewrite mem_false_iff, dict_has_keys, mem_false_iff. tauto.
Qed.

Lemma dict_get_ordered k d P : dict_get k (_ordered_dict d P) = dict_get k d.
Proof.
  rewrite ordered_dict_unfold, dict_get_app, !dict_get_pick.
  destruct (mem k P) eqn:HP; destruct (dict_get k d) eqn:G; try reflexivity.
  - now destruct (mem k (rest d P)).
  - assert (mem k (rest d P) = true) as ->; [ | reflexivity ].
    apply mem_true_iff, In_rest. split.
    + destruct (dict_get_None_keys k d) as [_ H].
      destruct (in_dec string_dec k (keys d)) as [ Hin | Hout ]; [ exact Hin | ].
      rewrite (H Hout) in G. discriminate.
    + now apply mem_false_iff.
  - now destruct (mem k (rest d P)).
Qed.

Lemma dict_has_ordered k d P : dict_has k (_ordered_dict d P) = dict_has k d.
Proof. unfold dict_has. now rewrite dict_get_ordered. Qed.

Lemma In_ordered kv d P : In kv (_ordered_dict d P) -> In kv d.
Proof.
  rewrite ordered_dict_unfold, in_app_iff. intros [ H | H ]; eapply In_pick; exact H.
Qed.

Lemma keys_ordered d P :
  keys (_ordered_dict d P) = List.filter (fun k => dict_has k d) P ++ rest d P.
Proof.
  rewrite ordered_dict_unfold. unfold keys at 1. rewrite map_app.
  change (map fst (pick d P)) with (keys (pick d P)).
  change (map fst (pick d (rest d P))) with (keys (pick d (rest d P))).
  rewrite !keys_pick. f_equal. apply filter_all.
  intros k Hk. apply In_rest in Hk as [Hk _].
  rewrite dict_has_keys. now apply mem_true_iff.
Qed.

Lemma rest_ordered d P : rest (_ordered_dict d P) P = rest d P.
Proof.
  unfold rest at 1.
  rewrite (pick_ext (_ordered_dict d P) d P) by (intros; apply dict_get_ordered).
  rewrite keys_ordered, List.filter_app.
  rewrite filter_none, filter_all; simpl.
  - apply sorted_sorted.
  - intros k Hk. apply In_rest in Hk as [_ Hk].
    rewrite dict_has_pick. apply mem_false_iff in Hk. now rewrite Hk.
  - intros k Hk. apply filter_In in Hk as [Hk Hd].
    rewrite dict_has_pick, Hd. apply mem_true_iff in Hk. now rewrite Hk.
Qed.

(** [_ordered_dict] is idempotent for every preferred order. *)
Lemma ordered_dict_idempotent d P :
  _ordered_dict (_ordered_dict d P) P = _ordered_dict d P.
Proof.
  rewrite (ordered_dict_unfold (_ordered_dict d P)), rest_ordered.
  rewrite !(pick_ext (_ordered_dict d P) d) by (intros; apply dict_get_ordered).
  reflexivity.
Qed.

Lemma length_ordered_nil d : length (_ordered_dict d []) = length d.
Proof.
  rewrite ordered_dict_unfold. simpl.
  rewrite <- (length_map fst (pick d _)).
  change (map fst (pick d (rest d []))) with (keys (pick d (rest d []))).
  rewrite keys_pick, filter_all.
  - unfold rest. simpl. rewrite length_sorted, filter_all by reflexivity.
    unfold keys. now rewrite length_map.
  - intros k Hk. apply In_rest in Hk as [Hk _].
    rewrite dict_has_keys. now apply mem_true_iff.
Qed.

Lemma sorted_items_ordered d : sorted_items d = _ordered_dict d [].
Proof.
  rewrite ordered_dict_unfold. unfold sorted_items, rest. simpl.
  now rewrite filter_all by reflexivity.
Qed.

End Generic.
End OrderedDictFacts.


(** ** [fmt.py]: when is [canonicalize] idempotent *)

Module FmtFacts.
Import Py PyFacts Fmt OrderedDictFacts.

Definition map_values (f : Json -> Json) (d : list (string * Json)) : list (string * Json) :=
  map (fun kv => (kv.1, f kv.2)) d.

(** The [dict] branch of [canonicalize], with the recursive calls as [c]. *)
Definition canon_dict (c : Json -> Json) (kvs : list (string * Json)) : Json :=
  let items := map_values c kvs in
  if is_module_node kvs then JDict (_ordered_dict items MODULE_KEY_ORDER)
  else if is_function_node kvs then JDict (drop_none (_ordered_dict items FUNCTION_KEY_ORDER))
  else if is_test_node kvs then JDict (drop_none (_ordered_dict items TEST_KEY_ORDER))
  else if is_property_node kvs then JDict (drop_none (_ordered_dict items PROPERTY_KEY_ORDER))
  else
    match kvs with
    | [(tag, val)] =>
        if Py.mem tag STMT_TAGS then
          match val with
          | JDict inner =>
              let inner_items := map_values c inner in
              if String.eqb tag "if" then
                JDict [(tag, JDict (drop_none (_ordered_dict inner_items IF_KEY_ORDER)))]
              else if String.eqb tag "let" then
                JDict [(tag, JDict (drop_none (_ordered_dict inner_items LET_KEY_ORDER)))]
              else if String.eqb tag "assert" then
                JDict [(tag, JDict (drop_none (_ordered_dict inner_items ASSERT_KEY_ORDER)))]
              else JDict [(tag, c val)]
          | _ => JDict [(tag, c val)]
          end
        else if Py.mem tag EXPR_TAGS then
          match val with
          | JDict inner =>
              let inner_items := map_values c inner in
              if String.eqb tag "call" then
                JDict [(tag, JDict (drop_none (_ordered_dict inner_items CALL_KEY_ORDER)))]
              else if String.eqb tag "obj" then
                JDict [(tag, JDict (sorted_items inner_items))]
              else JDict [(tag, c val)]
          | _ => JDict [(tag, c val)]
          end
        else JDict (_ordered_dict items [])
    | _ => JDict (_ordered_dict items [])
    end.

Lemma canonicalize_JDict kvs : canonicalize (JDict kvs) = canon_dict canonicalize kvs.
Proof. reflexivity. Qed.

Lemma canon_dict_is_dict c kvs : exists d, canon_dict c kvs = JDict d.
Proof. unfold canon_dict. repeat case_match; eauto. Qed.

Lemma canonicalize_is_null v : is_null (canonicalize v) = is_null v.
Proof.
  destruct v; try reflexivity.
  rewrite canonicalize_JDict. now destruct (canon_dict_is_dict canonicalize kvs) as [d ->].
Qed.

Lemma canonicalize_is_dict v : is_dict (canonicalize v) = is_dict v.
Proof.
  destruct v; try reflexivity.
  rewrite canonicalize_JDict. now destruct (canon_dict_is_dict canonicalize kvs) as [d ->].
Qed.

(** *** Mapping the values of a dict commutes with ordering it *)

Lemma dict_get_map_values k f d :
  dict_get k (map_values f d) = option_map f (dict_get k d).
Proof.
  induction d as [ | [k' v'] d IH ]; simpl; [ reflexivity | ].
  destruct (String.eqb k k'); [ reflexivity | exact IH ].
Qed.

Lemma dict_has_map_values k f d : dict_has k (map_values f d) = dict_has k d.
Proof. unfold dict_has. rewrite dict_get_map_values. now destruct (dict_get k d). Qed.

Lemma keys_map_values f d : keys (map_values f d) = keys d.
Proof. unfold keys, map_values. rewrite map_map. reflexivity. Qed.

Lemma pick_map_values f d ks : pick (map_values f d) ks = map_values f (pick d ks).
Proof.
  induction ks as [ | k ks IH ]; simpl; [ reflexivity | ].
  rewrite dict_get_map_values. destruct (dict_get k d); simpl; now rewrite IH.
Qed.

Lemma map_values_app f d1 d2 :
  map_values f (d1 ++ d2) = map_values f d1 ++ map_values f d2.
Proof. unfold map_values. apply map_app. Qed.

Lemma ordered_map_values f d P :
  _ordered_dict (map_values f d) P = map_values f (_ordered_dict d P).
Proof.
  rewrite !ordered_dict_unfold, map_values_app.
  rewrite <- !pick_map_values. f_equal. f_equal.
  unfold rest. rewrite keys_map_values. f_equal.
  apply List.filter_ext. intros k.
  now rewrite !dict_has_pick, dict_has_map_values.
Qed.

(** *** Dicts whose values are already canonical *)

Definition fixed (d : list (string * Json)) : Prop :=
  Forall (fun kv => canonicalize kv.2 = kv.2) d.

Definition nonnull (d : list (string * Json)) : Prop :=
  Forall (fun kv => is_null kv.2 = false) d.

Lemma map_values_fixed d : fixed d -> map_values canonicalize d = d.
Proof.
  induction 1 as [ | [k v] d Hv _ IH ]; simpl; [ reflexivity | ].
  simpl in Hv. now rewrite Hv, IH.
Qed.

Lemma fixed_ordered d P : fixed d -> fixed (_ordered_dict d P).
Proof.
  unfold fixed. rewrite !Forall_forall. intros H kv Hkv. apply H.
  apply list_elem_of_In. apply list_elem_of_In in Hkv. eapply In_ordered; exact Hkv.
Qed.

Lemma nonnull_ordered d P : nonnull d -> nonnull (_ordered_dict d P).
Proof.
  unfold nonnull. rewrite !Forall_forall. intros H kv Hkv. apply H.
  apply list_elem_of_In. apply list_elem_of_In in Hkv. eapply In_ordered; exact Hkv.
Qed.

Lemma drop_none_nonnull d : nonnull d -> drop_none d = d.
Proof.
  unfold nonnull, drop_none. rewrite Forall_forall. intros H. apply filter_all.
  intros kv Hkv. apply list_elem_of_In in Hkv. now rewrite (H kv Hkv).
Qed.

Lemma heuristics_ext (d1 d2 : list (string * Json)) :
  (forall k, dict_has k d1 = dict_has k d2) ->
  is_module_node d1 = is_module_node d2 /\
  is_function_node d1 = is_function_node d2 /\
  is_test_node d1 = is_test_node d2 /\
  is_property_node d1 = is_property_node d2.
Proof.
  intros H. unfold is_module_node, is_function_node, is_test_node, is_property_node.
  simpl. now rewrite !H.
Qed.

Lemma heuristics_ordered (d : list (string * Json)) P :
  is_module_node (_ordered_dict d P) = is_module_node d /\
  is_function_node (_ordered_dict d P) = is_function_node d /\
  is_test_node (_ordered_dict d P) = is_test_node d /\
  is_property_node (_ordered_dict d P) = is_property_node d.
Proof. apply heuristics_ext. intros k. apply dict_has_ordered. Qed.

Lemma heuristics_map_values f (d : list (string * Json)) :
  is_module_node (map_values f d) = is_module_node d /\
  is_function_node (map_values f d) = is_function_node d /\
  is_test_node (map_values f d) = is_test_node d /\
  is_property_node (map_values f d) = is_property_node d.
Proof. apply heuristics_ext. intros k. apply dict_has_map_values. Qed.

Lemma heuristics_single tag (v1 v2 : Json) :
  is_module_node [(tag, v1)] = is_module_node [(tag, v2)] /\
  is_function_node [(tag, v1)] = is_function_node [(tag, v2)] /\
  is_test_node [(tag, v1)] = is_test_node [(tag, v2)] /\
  is_property_node [(tag, v1)] = is_property_node [(tag, v2)].
Proof. apply heuristics_ext. intros k. unfold dict_has. simpl. now destruct (String.eqb k tag). Qed.

(** *** The second pass *)

(** The [dict] branch of [nothing_dropped], with the recursive calls as [c]. *)
Definition nd_dict (c : Json -> bool) (kvs : list (string * Json)) : bool :=
  let all := forallb (fun kv => c kv.2) kvs in
  let kept := forallb (fun kv => negb (is_null kv.2) && c kv.2) in
  if is_module_node kvs then all
  else if is_function_node kvs then kept kvs
  else if is_test_node kvs then kept kvs
  else if is_property_node kvs then kept kvs
  else
    match kvs with
    | [(tag, val)] =>
        if Py.mem tag STMT_TAGS then
          match val with
          | JDict inner =>
              if String.eqb tag "if" then kept inner
              else if String.eqb tag "let" then kept inner
              else if String.eqb tag "assert" then kept inner
              else c val
          | _ => c val
          end
        else if Py.mem tag EXPR_TAGS then
          match val with
          | JDict inner =>
              if String.eqb tag "call" then kept inner
              else if String.eqb tag "obj" then forallb (fun kv => c kv.2) inner
              else c val
          | _ => c val
          end
        else all
    | _ => all
    end.

Lemma nothing_dropped_JDict kvs : nothing_dropped (JDict kvs) = nd_dict nothing_dropped kvs.
Proof. reflexivity. Qed.

Definition idem (v : Json) : Prop :=
  nothing_dropped v = true -> canonicalize (canonicalize v) = canonicalize v.

Lemma fixed_items kvs :
  Forall (fun kv => idem kv.2) kvs ->
  forallb (fun kv => nothing_dropped kv.2) kvs = true ->
  fixed (map_values canonicalize kvs).
Proof.
  unfold fixed. induction 1 as [ | [k v] kvs Hv _ IH ]; simpl; [ constructor | ].
  rewrite andb_true_iff. intros [Hnd Hall]. constructor; [ now apply Hv | now apply IH ].
Qed.

Lemma kept_split kvs :
  forallb (fun kv => negb (is_null kv.2) && nothing_dropped kv.2) kvs = true ->
  forallb (fun kv => nothing_dropped kv.2) kvs = true /\
  nonnull (map_values canonicalize kvs).
Proof.
  unfold nonnull. induction kvs as [ | [k v] kvs IH ]; simpl; [ now split | ].
  rewrite !andb_true_iff, negb_true_iff. intros [[Hn Hv] Hall].
  destruct (IH Hall) as [IH1 IH2]. split; [ now split | ].
  constructor; [ simpl; now rewrite canonicalize_is_null | exact IH2 ].
Qed.

(** A dict that is the ordered form of canonical items is left as it is. *)
Lemma second_pass_ordered (filtered : bool) d P :
  fixed d -> (filtered = true -> nonnull d) ->
  let O := _ordered_dict d P in
  (if filtered then drop_none O else O) = O /\
  (if filtered then drop_none (_ordered_dict (map_values canonicalize O) P)
   else _ordered_dict (map_values canonicalize O) P) = O.
Proof.
  intros Hfix Hnn O.
  assert ((if filtered then drop_none O else O) = O) as HO.
  { destruct filtered; [ | reflexivity ].
    apply drop_none_nonnull, nonnull_ordered, Hnn. reflexivity. }
  split; [ exact HO | ].
  rewrite (map_values_fixed O) by now apply fixed_ordered.
  unfold O at 1 2. rewrite ordered_dict_idempotent. exact HO.
Qed.

Definition children_idem (v : Json) : Prop :=
  match v with
  | JDict kvs => Forall (fun kv => idem kv.2) kvs
  | _ => True
  end.

Ltac same_heuristics E :=
  let E1 := fresh in let E2 := fresh in let E3 := fresh in let E4 := fresh in
  destruct E as (E1 & E2 & E3 & E4); rewrite ?E1, ?E2, ?E3, ?E4; clear E1 E2 E3 E4.

(** The four shapes that are recognised by their keys. *)
Lemma idem_by_keys (filtered : bool) kvs P :
  fixed (map_values canonicalize kvs) ->
  (filtered = true -> nonnull (map_values canonicalize kvs)) ->
  let O := _ordered_dict (map_values canonicalize kvs) P in
  canon_dict canonicalize kvs = JDict (if filtered then drop_none O else O) ->
  canon_dict canonicalize O =
    JDict (let O' := _ordered_dict (map_values canonicalize O) P in
           if filtered then drop_none O' else O') ->
  canonicalize (canon_dict canonicalize kvs) = canon_dict canonicalize kvs.
Proof.
  intros Hfix Hnn O Hout Hsame.
  destruct (second_pass_ordered filtered _ P Hfix Hnn) as [H1 H2]. fold O in H1, H2.
  rewrite Hout, H1, canonicalize_JDict, Hsame.
  simpl. destruct filtered; now rewrite H2.
Qed.

Lemma ordered_single {V} tag (v : V) : _ordered_dict [(tag, v)] [] = [(tag, v)].
Proof.
  rewrite ordered_dict_unfold. unfold rest. simpl. now rewrite String.eqb_refl.
Qed.

Lemma heuristics_canonical kvs P :
  let O := _ordered_dict (map_values canonicalize kvs) P in
  is_module_node O = is_module_node kvs /\
  is_function_node O = is_function_node kvs /\
  is_test_node O = is_test_node kvs /\
  is_property_node O = is_property_node kvs.
Proof.
  apply heuristics_ext. intros k. now rewrite dict_has_ordered, dict_has_map_values.
Qed.

(** A dict with no single recognised tag: the alphabetical fallback. *)
Lemma idem_fallback kvs :
  is_module_node kvs = false -> is_function_node kvs = false ->
  is_test_node kvs = false -> is_property_node kvs = false ->
  match kvs with
  | [(tag, _)] => mem tag STMT_TAGS = false /\ mem tag EXPR_TAGS = false
  | _ => True
  end ->
  fixed (map_values canonicalize kvs) ->
  canonicalize (canon_dict canonicalize kvs) = canon_dict canonicalize kvs.
Proof.
  intros Hm Hf Ht Hp Hshape Hfix.
  apply (idem_by_keys false kvs []); [ exact Hfix | discriminate | | ].
  - unfold canon_dict. rewrite Hm, Hf, Ht, Hp.
    destruct kvs as [ | [tag val] [ | kv2 kvs ] ]; try reflexivity.
    destruct Hshape as [-> ->]. reflexivity.
  - unfold canon_dict at 1. same_heuristics (heuristics_canonical kvs []).
    rewrite Hm, Hf, Ht, Hp.
    destruct kvs as [ | [tag val] [ | kv2 kvs ] ].
    + reflexivity.
    + destruct Hshape as [H1 H2]. simpl map_values at 1. rewrite ordered_single, H1, H2.
      reflexivity.
    + pose proof (length_ordered_nil (map_values canonicalize ((tag, val) :: kv2 :: kvs))) as Hlen.
      destruct (_ordered_dict (map_values canonicalize ((tag, val) :: kv2 :: kvs)) [])
        as [ | [t1 v1] [ | kv2' O ] ]; try reflexivity.
      simpl in Hlen. discriminate.
Qed.

(** A wrapper whose inner object is ordered and filtered. *)
Lemma idem_inner tag inner P :
  (forall X, canon_dict canonicalize [(tag, JDict X)] =
     JDict [(tag, JDict (drop_none (_ordered_dict (map_values canonicalize X) P)))]) ->
  fixed (map_values canonicalize inner) -> nonnull (map_values canonicalize inner) ->
  canonicalize (canon_dict canonicalize [(tag, JDict inner)]) =
  canon_dict canonicalize [(tag, JDict inner)].
Proof.
  intros Hform Hfix Hnn.
  destruct (second_pass_ordered true _ P Hfix (fun _ => Hnn)) as [H1 H2].
  simpl in H1, H2.
  now rewrite (Hform inner), H1, canonicalize_JDict, Hform, H2.
Qed.

(** The [obj] wrapper: the inner object is sorted, nothing is filtered. *)
Lemma idem_obj tag inner :
  (forall X, canon_dict canonicalize [(tag, JDict X)] =
     JDict [(tag, JDict (sorted_items (map_values canonicalize X)))]) ->
  fixed (map_values canonicalize inner) ->
  canonicalize (canon_dict canonicalize [(tag, JDict inner)]) =
  canon_dict canonicalize [(tag, JDict inner)].
Proof.
  intros Hform Hfix.
  destruct (second_pass_ordered false _ [] Hfix) as [_ H2]; [ discriminate | ].
  simpl in H2.
  rewrite (Hform inner), canonicalize_JDict, Hform, !sorted_items_ordered.
  now rewrite H2.
Qed.

(** A wrapper whose value is canonicalised as a node of its own. *)
Lemma idem_plain tag val :
  (forall v, is_dict v = is_dict val ->
     canon_dict canonicalize [(tag, v)] = JDict [(tag, canonicalize v)]) ->
  canonicalize (canonicalize val) = canonicalize val ->
  canonicalize (canon_dict canonicalize [(tag, val)]) = canon_dict canonicalize [(tag, val)].
Proof.
  intros Hform Hval.
  rewrite (Hform val) by reflexivity.
  rewrite canonicalize_JDict, Hform by apply canonicalize_is_dict.
  now rewrite Hval.
Qed.

Ltac wrapper_form tag Hm Hf Ht Hp :=
  unfold canon_dict;
  match goal with
  | |- context [ is_module_node [(tag, ?v)] ] =>
      match type of Hm with
      | is_module_node [(tag, ?w)] = _ => same_heuristics (heuristics_single tag v w)
      end
  end;
  rewrite Hm, Hf, Ht, Hp.

Lemma idem_dict kvs :
  Forall (fun kv => idem kv.2 /\ children_idem kv.2) kvs -> idem (JDict kvs).
Proof.
  intros IH Hnd.
  assert (Forall (fun kv => idem kv.2) kvs) as IH1.
  { eapply List.Forall_impl; [ | exact IH ]. simpl. tauto. }
  rewrite nothing_dropped_JDict in Hnd. rewrite (canonicalize_JDict kvs).
  unfold nd_dict in Hnd.
  destruct (is_module_node kvs) eqn:Hm.
  { apply (idem_by_keys false kvs MODULE_KEY_ORDER);
      [ now apply fixed_items | discriminate | | ].
    - unfold canon_dict. now rewrite Hm.
    - unfold canon_dict at 1. same_heuristics (heuristics_canonical kvs MODULE_KEY_ORDER).
      now rewrite Hm. }
  destruct (is_function_node kvs) eqn:Hf.
  { apply kept_split in Hnd as [Hall Hnn].
    apply (idem_by_keys true kvs FUNCTION_KEY_ORDER);
      [ now apply fixed_items | now intros _ | | ].
    - unfold canon_dict. now rewrite Hm, Hf.
    - unfold canon_dict at 1. same_heuristics (heuristics_canonical kvs FUNCTION_KEY_ORDER).
      now rewrite Hm, Hf. }
  destruct (is_test_node kvs) eqn:Ht.
  { apply kept_split in Hnd as [Hall Hnn].
    apply (idem_by_keys true kvs TEST_KEY_ORDER);
      [ now apply fixed_items | now intros _ | | ].
    - unfold canon_dict. now rewrite Hm, Hf, Ht.
    - unfold canon_dict at 1. same_heuristics (heuristics_canonical kvs TEST_KEY_ORDER).
      now rewrite Hm, Hf, Ht. }
  destruct (is_property_node kvs) eqn:Hp.
  { apply kept_split in Hnd as [Hall Hnn].
    apply (idem_by_keys true kvs PROPERTY_KEY_ORDER);
      [ now apply fixed_items | now intros _ | | ].
    - unfold canon_dict. now rewrite Hm, Hf, Ht, Hp.
    - unfold canon_dict at 1. same_heuristics (heuristics_canonical kvs PROPERTY_KEY_ORDER).
      now rewrite Hm, Hf, Ht, Hp. }
  destruct kvs as [ | [tag val] [ | kv2 kvs ] ].
  - apply idem_fallback; auto. constructor.
  - apply Forall_cons in IH as [[Hval Hchildren] _]. simpl in Hval, Hchildren.
    destruct (mem tag STMT_TAGS) eqn:Hs.
    { destruct val as [ | b | n | r | s | xs | inner ];
        try (apply idem_plain; [ | now apply Hval ];
             intros v Hv; wrapper_form tag Hm Hf Ht Hp; rewrite Hs;
             destruct v; try discriminate; reflexivity).
      destruct (String.eqb tag "if") eqn:E1;
        [ apply kept_split in Hnd as [Hall Hnn];
          apply (idem_inner tag inner IF_KEY_ORDER); [ | now apply fixed_items | exact Hnn ];
          intros X; wrapper_form tag Hm Hf Ht Hp; now rewrite Hs, E1 | ].
      destruct (String.eqb tag "let") eqn:E2;
        [ apply kept_split in Hnd as [Hall Hnn];
          apply (idem_inner tag inner LET_KEY_ORDER); [ | now apply fixed_items | exact Hnn ];
          intros X; wrapper_form tag Hm Hf Ht Hp; now rewrite Hs, E1, E2 | ].
      destruct (String.eqb tag "assert") eqn:E3;
        [ apply kept_split in Hnd as [Hall Hnn];
          apply (idem_inner tag inner ASSERT_KEY_ORDER); [ | now apply fixed_items | exact Hnn ];
          intros X; wrapper_form tag Hm Hf Ht Hp; now rewrite Hs, E1, E2, E3 | ].
      apply idem_plain; [ | now apply Hval ].
      intros v Hv; wrapper_form tag Hm Hf Ht Hp; rewrite Hs.
      destruct v; try discriminate. now rewrite E1, E2, E3. }
    destruct (mem tag EXPR_TAGS) eqn:He.
    { destruct val as [ | b | n | r | s | xs | inner ];
        try (apply idem_plain; [ | now apply Hval ];
             intros v Hv; wrapper_form tag Hm Hf Ht Hp; rewrite Hs, He;
             destruct v; try discriminate; reflexivity).
      destruct (String.eqb tag "call") eqn:E1;
        [ apply kept_split in Hnd as [Hall Hnn];
          apply (idem_inner tag inner CALL_KEY_ORDER); [ | now apply fixed_items | exact Hnn ];
          intros X; wrapper_form tag Hm Hf Ht Hp; now rewrite Hs, He, E1 | ].
      destruct (String.eqb tag "obj") eqn:E2;
        [ apply (idem_obj tag inner); [ | now apply fixed_items ];
          intros X; wrapper_form tag Hm Hf Ht Hp; now rewrite Hs, He, E1, E2 | ].
      apply idem_plain; [ | now apply Hval ].
      intros v Hv; wrapper_form tag Hm Hf Ht Hp; rewrite Hs, He.
      destruct v; try discriminate. now rewrite E1, E2. }
    apply idem_fallback; auto. now apply fixed_items.
  - apply idem_fallback; auto. now apply fixed_items.
Qed.

Lemma idem_all (M : Json) : idem M /\ children_idem M.
Proof.
  induction M as [ | b | n | r | s | xs IH | kvs IH ] using Json_ind';
    try (split; [ intros _; reflexivity | exact I ]).
  - split; [ | exact I ]. intros Hnd. simpl in Hnd. simpl. f_equal.
    rewrite map_map. apply map_ext_in. intros x Hx.
    rewrite List.Forall_forall in IH. rewrite forallb_forall in Hnd.
    now apply (IH x Hx), Hnd.
  - split; [ now apply idem_dict | ].
    simpl. eapply List.Forall_impl; [ | exact IH ]. simpl. tauto.
Qed.

(** A test case that expects [null]: [{"name": "t", "fn": "f", "args": [],
    "expect": null}]. *)
Definition test_expecting_null : Json :=
  JDict [("name", JStr "t"); ("fn", JStr "f"); ("args", JList []); ("expect", JNull)].

(** A module in canonical shape that loses nothing: one function [g] that
    prints and returns [null], and one test. *)
Definition sample_module : Json :=
  JDict [("version", JStr "1.0"); ("module", JStr "m");
         ("functions",
          JList [JDict [("body",
                         JList [JDict [("expr", JDict [("call",
                                   JDict [("args", JList [JStr "hi"]); ("fn", JStr "print")])])];
                                JDict [("return", JNull)]]);
                        ("effects", JList [JStr "io.print"]);
                        ("params", JList []);
                        ("name", JStr "g")]]);
         ("tests",
          JList [JDict [("expect", JInt 0); ("args", JList []); ("fn", JStr "g")]])].




End FmtFacts.


(** ** [effects.py]: the closure computed by [visit] *)

Module EffectsFacts.
Import Py PyFacts Effects.

Lemma dict_get_set {V} (k k' : string) (v : V) (d : list (string * V)) :
  dict_get k (dict_set k' v d) = if String.eqb k k' then Some v else dict_get k d.
Proof.
  induction d as [ | [k0 v0] d IH ]; simpl.
  - now destruct (String.eqb k k').
  - destruct (String.eqb k' k0) eqn:E0; simpl.
    + apply String.eqb_eq in E0. subst k0. now destruct (String.eqb k k').
    + rewrite IH. destruct (String.eqb k k0) eqn:E1; [ | reflexivity ].
      apply String.eqb_eq in E1. subst k0. rewrite String.eqb_sym in E0. now rewrite E0.
Qed.

(** *** The names that [iter_calls] yields do not depend on the pointer *)

Lemma call_refs_names kvs p q : map fst (call_refs kvs p) = map fst (call_refs kvs q).
Proof. unfold call_refs. repeat case_match; reflexivity. Qed.

Lemma iter_calls_names v : forall p q, map fst (iter_calls v p) = map fst (iter_calls v q).
Proof.
  induction v as [ | b | n | r | s | xs IH | kvs IH ] using Json_ind'; intros p q;
    try reflexivity.
  - simpl. generalize 0%nat.
    induction IH as [ | x xs Hx _ IHxs ]; intros i; [ reflexivity | ].
    rewrite !map_app. f_equal; [ apply Hx | apply IHxs ].
  - simpl. rewrite !map_app. f_equal; [ apply call_refs_names | ].
    induction IH as [ | [k x] kvs' Hx _ IHkvs ]; [ reflexivity | ].
    rewrite !map_app. f_equal; [ apply Hx | apply IHkvs ].
Qed.

Lemma body_calls_names body : forall p q i,
  map fst (body_calls p i body) = map fst (body_calls q i body).
Proof.
  induction body as [ | stmt body IH ]; intros p q i; [ reflexivity | ].
  simpl. rewrite !map_app. f_equal; [ apply iter_calls_names | apply IH ].
Qed.

Section Closure.
Variable user_funcs : UserFuncs.
Variable func_index : list (string * nat).

#[local] Abbreviation known := (known user_funcs).
#[local] Abbreviation visit := (visit user_funcs func_index).

(** What a callee contributes at the least: the fixed set of a builtin,
    the declared set of a user function. *)
Definition lower (g : string) : gset string :=
  if is_builtin g then builtin_effects g
  else match dict_get g user_funcs with
       | Some fn => declared_effects fn
       | None => ∅
       end.

Definition entry_ok (visiting : gset string) (n : string) (s : gset string) : Prop :=
  if is_builtin n then s = builtin_effects n
  else forall fn, dict_get n user_funcs = Some fn ->
         declared_effects fn ⊆ s /\
         (n ∉ visiting ->
          forall g, In g (callees fn) -> known g = true -> lower g ⊆ s).

Definition Inv (visiting : gset string) (memo : Memo) : Prop :=
  forall n s, dict_get n memo = Some s -> entry_ok visiting n s.

Definition grows (memo memo' : Memo) : Prop :=
  forall n, is_Some (dict_get n memo) -> is_Some (dict_get n memo').

Lemma entry_ok_weaken visiting visiting' n s :
  (n ∉ visiting' -> n ∉ visiting) -> entry_ok visiting n s -> entry_ok visiting' n s.
Proof.
  unfold entry_ok. destruct (is_builtin n); [ auto | ].
  intros Hsub H fn Hfn. destruct (H fn Hfn) as [H1 H2]. split; auto.
Qed.

Lemma Inv_weaken visiting name memo : Inv visiting memo -> Inv (visiting ∪ {[name]}) memo.
Proof.
  intros H n s Hn. eapply entry_ok_weaken; [ | now apply H ]. set_solver.
Qed.

Lemma grows_set memo n s : grows memo (dict_set n s memo).
Proof.
  intros k Hk. rewrite dict_get_set. now destruct (String.eqb k n).
Qed.

Lemma lower_in_entry visiting n s : entry_ok visiting n s -> lower n ⊆ s.
Proof.
  unfold entry_ok, lower. destruct (is_builtin n).
  - now intros ->.
  - intros H. destruct (dict_get n user_funcs) as [ fn | ]; [ | set_solver ].
    now destruct (H fn eq_refl).
Qed.

Definition visit_ok (visiting : gset string)
    (rec : string -> State -> option (gset string * State)) : Prop :=
  forall callee st r st',
    known callee = true -> rec callee st = Some (r, st') -> Inv visiting st.1 ->
    Inv visiting st'.1 /\ lower callee ⊆ r /\ dict_get callee st'.1 = Some r
    /\ grows st.1 st'.1.

Ltac split4 := split; [ | split; [ | split ] ].

Lemma visit_calls_spec visiting rec :
  visit_ok visiting rec ->
  forall calls required st required' st',
    visit_calls user_funcs rec calls required st = Some (required', st') ->
    Inv visiting st.1 ->
    Inv visiting st'.1 /\ required ⊆ required' /\ grows st.1 st'.1 /\
    (forall g, In g (map fst calls) -> known g = true -> lower g ⊆ required').
Proof.
  intros Hrec. induction calls as [ | [callee ptr] calls IH ]; intros required st required' st'.
  - simpl. intros [= <- <-] HI. split; [ exact HI | ]. split; [ reflexivity | ].
    split; [ now intros n Hn | intros g [] ].
  - simpl. destruct (known callee) eqn:Hk.
    + destruct (rec callee st) as [ [r st1] | ] eqn:Hv; [ | discriminate ].
      intros Hloop HI.
      destruct (Hrec callee st r st1 Hk Hv HI) as (HI1 & Hlow & _ & Hg1).
      destruct (IH _ _ _ _ Hloop HI1) as (HI2 & Hreq & Hg2 & Hall).
      split4.
      * exact HI2.
      * etransitivity; [ | exact Hreq ]. apply union_subseteq_l.
      * intros n Hn. auto.
      * intros g [ <- | Hg ] Hkg; [ | now apply Hall ].
        simpl. etransitivity; [ exact Hlow | ].
        etransitivity; [ | exact Hreq ]. apply union_subseteq_r.
    + intros Hloop HI.
      destruct (IH _ _ _ _ Hloop HI) as (HI2 & Hreq & Hg2 & Hall).
      split4; auto.
      intros g [ <- | Hg ] Hkg; [ simpl in Hkg; congruence | now apply Hall ].
Qed.

Definition no_builtin (visiting : gset string) : Prop :=
  forall n, n ∈ visiting -> is_builtin n = false.

Lemma visit_spec fuel : forall visiting,
  no_builtin visiting -> visit_ok visiting (visit fuel visiting).
Proof.
  induction fuel as [ | fuel IH ]; intros visiting Hnb name st r st' Hknown Hvisit HI.
  all: simpl in Hvisit.
  all: destruct (dict_get name st.1) as [ s | ] eqn:Hmemo;
    [ injection Hvisit as <- <-; split4;
      [ exact HI | eapply lower_in_entry; now apply HI | exact Hmemo | now intros n Hn ] | ].
  all: destruct (decide (name ∈ visiting)) as [ Hin | Hout ];
    [ injection Hvisit as <- <-; simpl;
      assert (entry_ok visiting name
                (or_pure (effects_set (default [] (dict_get name user_funcs))))) as Hentry;
      [ unfold entry_ok; rewrite (Hnb name Hin); intros fn Hfn; rewrite Hfn; simpl;
        split; [ reflexivity | contradiction ] | ];
      split4;
      [ intros n s; rewrite dict_get_set; destruct (String.eqb n name) eqn:E;
        [ intros [= <-]; apply String.eqb_eq in E; now subst n | apply HI ]
      | eapply lower_in_entry; exact Hentry
      | now rewrite dict_get_set, String.eqb_refl
      | apply grows_set ] | ].
  all: destruct (is_builtin name) eqn:Hb;
    [ injection Hvisit as <- <-; simpl;
      assert (entry_ok visiting name (builtin_effects name)) as Hentry
        by (unfold entry_ok; now rewrite Hb);
      split4;
      [ intros n s; rewrite dict_get_set; destruct (String.eqb n name) eqn:E;
        [ intros [= <-]; apply String.eqb_eq in E; now subst n | apply HI ]
      | eapply lower_in_entry; exact Hentry
      | now rewrite dict_get_set, String.eqb_refl
      | apply grows_set ] | ].
  all: destruct (dict_get name user_funcs) as [ fn | ] eqn:Hfn;
    [ | unfold Effects.known, dict_has in Hknown; rewrite Hb, Hfn in Hknown; discriminate ].
  - discriminate.
  - destruct (visit_calls _ _ _ _ _) as [ [required st1] | ] eqn:Hloop; [ | discriminate ].
    injection Hvisit as <- <-. simpl.
    assert (no_builtin (visiting ∪ {[name]})) as Hnb'.
    { intros n Hn. apply elem_of_union in Hn as [ Hn | Hn ]; [ now apply Hnb | ].
      apply elem_of_singleton in Hn. now subst n. }
    destruct (visit_calls_spec _ _ (IH _ Hnb') _ _ _ _ _ Hloop (Inv_weaken _ name _ HI))
      as (HI1 & Hreq & Hg & Hall).
    assert (entry_ok visiting name required) as Hentry.
    { unfold entry_ok. rewrite Hb. intros fn' Hfn'. rewrite Hfn in Hfn'.
      injection Hfn' as <-. split; [ exact Hreq | ].
      intros _ g Hg' Hkg. apply Hall; [ | exact Hkg ].
      unfold callees in Hg'. now rewrite (body_calls_names _ _ "" 0%nat). }
    split4.
    + intros n s. rewrite dict_get_set. destruct (String.eqb n name) eqn:E.
      * intros [= <-]. apply String.eqb_eq in E. now subst n.
      * intros Hn. eapply entry_ok_weaken; [ | now apply (HI1 n s) ].
        apply String.eqb_neq in E. set_solver.
    + eapply lower_in_entry; exact Hentry.
    + now rewrite dict_get_set, String.eqb_refl.
    + intros n Hn. apply grows_set. now apply Hg.
Qed.

Lemma visit_all_spec fuel : forall names st st',
  visit_all user_funcs func_index fuel names st = Some st' ->
  (forall n, In n names -> known n = true) ->
  Inv ∅ st.1 ->
  Inv ∅ st'.1 /\ grows st.1 st'.1 /\ (forall n, In n names -> is_Some (dict_get n st'.1)).
Proof.
  induction names as [ | name names IH ]; intros st st'.
  - simpl. intros [= <-] _ HI. split; [ exact HI | ]. split; [ now intros n Hn | intros n [] ].
  - simpl. destruct (visit fuel ∅ name st) as [ [r st1] | ] eqn:Hv; [ | discriminate ].
    intros Hall Hk HI.
    assert (no_builtin ∅) as Hnb by (intros n Hn; set_solver).
    destruct (visit_spec fuel ∅ Hnb name st r st1 (Hk name (or_introl eq_refl)) Hv HI)
      as (HI1 & _ & Hname & Hg1).
    destruct (IH _ _ Hall (fun n Hn => Hk n (or_intror Hn)) HI1) as (HI2 & Hg2 & Hin).
    split; [ exact HI2 | ]. split.
    + intros n Hn. auto.
    + intros n [ <- | Hn ]; [ | now apply Hin ]. apply Hg2. now rewrite Hname.
Qed.

(** *** The fuel is enough *)

Definition user_names : gset string := list_to_set (keys user_funcs).

Lemma visit_calls_total rec :
  (forall callee st, is_Some (rec callee st)) ->
  forall calls required st, is_Some (visit_calls user_funcs rec calls required st).
Proof.
  intros Hrec. induction calls as [ | [callee ptr] calls IH ]; intros required st; simpl.
  - eauto.
  - destruct (known callee); [ | apply IH ].
    destruct (Hrec callee st) as [ [r st1] -> ]. apply IH.
Qed.

Lemma visit_total fuel : forall visiting name st,
  (size (user_names ∖ visiting) <= fuel)%nat -> is_Some (visit fuel visiting name st).
Proof.
  induction fuel as [ | fuel IH ]; intros visiting name st Hsize; simpl.
  all: destruct (dict_get name st.1); [ eauto | ].
  all: destruct (decide (name ∈ visiting)); [ eauto | ].
  all: destruct (is_builtin name); [ eauto | ].
  all: destruct (dict_get name user_funcs) as [ fn | ] eqn:Hfn; [ | eauto ].
  all: assert (name ∈ user_names ∖ visiting) as Hname
    by (apply elem_of_difference; split; [ | assumption ];
        apply elem_of_list_to_set, list_elem_of_In;
        apply dict_get_In in Hfn; now apply (in_map fst) in Hfn).
  - assert (size (user_names ∖ visiting) = 0%nat) as Hzero by lia.
    apply size_empty_inv in Hzero. set_solver.
  - destruct (visit_calls_total (visit fuel (visiting ∪ {[name]}))) with
      (calls := body_calls (body_pointer func_index name) 0 (body_of fn))
      (required := declared_effects fn) (st := st) as [ [required st1] -> ]; [ | eauto ].
    intros callee st0. apply IH.
    assert (user_names ∖ (visiting ∪ {[name]}) ⊂ user_names ∖ visiting) as Hsub by set_solver.
    apply subset_size in Hsub. lia.
Qed.

Lemma size_list_to_set_le (l : list string) :
  (size (list_to_set l : gset string) <= length l)%nat.
Proof.
  induction l as [ | x l IH ].
  - rewrite list_to_set_nil, size_empty. simpl. lia.
  - rewrite list_to_set_cons, size_union_alt, size_singleton. simpl.
    assert (size (list_to_set l ∖ {[x]} : gset string) <= size (list_to_set l : gset string))%nat
      by (apply subseteq_size; set_solver).
    lia.
Qed.

Lemma visit_all_total fuel names : forall st,
  (size user_names <= fuel)%nat ->
  is_Some (visit_all user_funcs func_index fuel names st).
Proof.
  induction names as [ | name names IH ]; intros st Hsize; simpl; [ eauto | ].
  destruct (visit_total fuel ∅ name st) as [ [r st1] -> ]; [ | now apply IH ].
  assert (size (user_names ∖ ∅) <= size user_names)%nat by (apply subseteq_size; set_solver).
  lia.
Qed.

End Closure.

Lemma Inv_nil user_funcs : Inv user_funcs ∅ [].
Proof. intros n s. discriminate. Qed.

Lemma keys_known user_funcs n : In n (keys user_funcs) -> known user_funcs n = true.
Proof.
  intros Hn. unfold known. rewrite dict_has_keys.
  apply mem_true_iff in Hn. rewrite Hn. apply orb_true_r.
Qed.

(** [compute_transitive_effects] returns for every module: the fuel it is
    given is never used up. *)
Lemma compute_transitive_effects_total (module : Module_) :
  is_Some (compute_transitive_effects module).
Proof.
  unfold compute_transitive_effects.
  destruct (_user_function_index module) as [user_funcs func_index].
  apply visit_all_total. unfold user_names.
  etransitivity; [ apply size_list_to_set_le | ].
  unfold keys. now rewrite length_map.
Qed.

(** *** Two modules *)

Definition call (fn : string) (args : list Json) : Json :=
  JDict [("call", JDict [("fn", JStr fn); ("args", JList args)])].

Definition function (name : string) (effects : list string) (body : list Json)
  : list (string * Json) :=
  [("name", JStr name); ("params", JList []); ("effects", JList (map JStr effects));
   ("body", JList body)].

(** [f] calls [g] and [print]; [g] calls [f]; both declare [["pure"]]. *)
Definition f_prints : list (string * Json) :=
  function "f" ["pure"] [JDict [("expr", call "g" [])]; JDict [("expr", call "print" [JStr "hi"])]].
Definition g_calls_f : list (string * Json) :=
  function "g" ["pure"] [JDict [("return", call "f" [])]].
Definition mutual_module : Module_ :=
  [("module", JStr "m"); ("version", JStr "1.0");
   ("functions", JList [JDict f_prints; JDict g_calls_f])].


(** A user function named like a builtin is given the builtin's set and
    its body is not walked: here the user's [add] calls [print], and the
    map has [{pure}] for [add] and [{io.print}] for [print]. *)
Definition shadowing_module : Module_ :=
  [("module", JStr "m"); ("version", JStr "1.0");
   ("functions",
    JList [JDict (function "add" ["pure"] [JDict [("expr", call "print" [JStr "hi"])]]);
           JDict (function "h" ["io.print"] [JDict [("expr", call "print" [JStr "hi"])]])])].

Example builtin_name_hides_body :
  compute_transitive_effects shadowing_module =
  Some ([("add", {["pure"]}); ("print", {["io.print"]}); ("h", {["io.print"]})], []).
Proof. vm_compute. reflexivity. Qed.


(** [top] declares [io.print] and calls [helper], which prints. *)
Definition helper_prints : list (string * Json) :=
  function "helper" ["io.print"] [JDict [("expr", call "print" [JStr "hi"])]].
Definition top_calls_helper : list (string * Json) :=
  function "top" ["io.print"] [JDict [("return", call "helper" [])]].
Definition layered_module : Module_ :=
  [("module", JStr "m"); ("version", JStr "1.0");
   ("functions", JList [JDict top_calls_helper; JDict helper_prints])].


(** *** Scenario E2 *)

(** The module of the scenario: its single function [g] declares
    [effects] and calls [print] on a string. *)
Definition e2_module (module_name version : string) (params : Json) (text : string)
    (effects : list string) : Module_ :=
  [("module", JStr module_name); ("version", JStr version);
   ("functions",
    JList [JDict [("name", JStr "g"); ("params", params);
                  ("effects", JList (map JStr effects));
                  ("body", JList [JDict [("expr", call "print" [JStr text])]])]])].

Definition e2_issue : Json :=
  JDict [("pointer", JStr "/functions/0/effects"); ("code", JStr "MissingEffect");
         ("severity", JStr "error");
         ("message",
          JStr "Function 'g' requires effects ['io.print'] but declares ['pure'].")].

Definition e2_patch : Json :=
  Pointer.op_replace "/functions/0/effects" (JList [JStr "io.print"]).


End EffectsFacts.


(** ** [typecheck.py]: numeric widening and the empty list literal *)

Module TypecheckFacts.
Import Py Typecheck.

(** With the empty substitution a primitive type is its own image. *)
Lemma apply_prim (fuel : nat) (name : string) (subst : Subst) :
  _apply (S fuel) (Prim name) subst = Some (Prim name).
Proof. reflexivity. Qed.

Lemma unify_prims (fuel : nat) (e a : string) (subst : Subst) :
  unify (S (S fuel)) (Prim e) (Prim a) subst =
  Some (String.eqb e a
        || match _num_join e a with Some j => String.eqb j e | None => false end, subst).
Proof.
  simpl. destruct (String.eqb e a); [ reflexivity | ].
  now destruct (_num_join e a).
Qed.

(** An [Int] is accepted where a [Float] is expected, whatever else the
    substitution binds. *)
Lemma int_satisfies_float (fuel : nat) (subst : Subst) :
  unify (S (S fuel)) Float Int subst = Some (true, subst).
Proof. apply unify_prims. Qed.

Lemma float_does_not_satisfy_int (fuel : nat) (subst : Subst) :
  unify (S (S fuel)) Int Float subst = Some (false, subst).
Proof. apply unify_prims. Qed.

(** C8: with the empty substitution (and any fuel that lets [unify] look
    at both types) [unify(Float, Int)] is [True] and [unify(Int, Float)] is
    [False], both leaving the substitution empty; [_num_join], [join] and
    the checker's [_join] send Int and Float, in either order, to Float. *)
Theorem numeric_widening_asymmetric (fuel : nat) :
  unify (S (S fuel)) (Prim "Float") (Prim "Int") [] = Some (true, []) /\
  unify (S (S fuel)) (Prim "Int") (Prim "Float") [] = Some (false, []) /\
  _num_join "Int" "Float" = Some "Float" /\
  _num_join "Float" "Int" = Some "Float" /\
  join (Prim "Int") (Prim "Float") = Prim "Float" /\
  join (Prim "Float") (Prim "Int") = Prim "Float" /\
  _join (Prim "Int") (Prim "Float") = Prim "Float" /\
  _join (Prim "Float") (Prim "Int") = Prim "Float".
Proof.
  split; [ apply int_satisfies_float | ].
  split; [ apply float_does_not_satisfy_int | ].
  repeat split; reflexivity.
Qed.

(** The expression [{"list": []}]. *)
Definition empty_list_expr : Json := JDict [("list", JList [])].

(** C10: in every type environment, at every pointer, with any signatures
    and whatever issues and counter the checker has so far,
    [_infer_expr] answers [List[Any]] for [{"list": []}] and leaves the
    issues and the counter as they were. *)
Theorem empty_list_is_list_of_any (fuel : nat) (env : Env) (ptr : list Pointer.Seg)
    (sigs : list (string * Sig)) (st : St) :
  _infer_expr (S fuel) empty_list_expr env ptr sigs st = Some (ListT AnyType, st).
Proof. reflexivity. Qed.

(** One element more and the join starts: [[1, 2.5]] is a [List[Float]]. *)
Example int_and_float_list (env : Env) (st : St) :
  _infer_expr 3 (JDict [("list", JList [JInt 1; JFloat "2.5"])]) env [] _builtin_sigs st
  = Some (ListT (Prim "Float"), st).
Proof. reflexivity. Qed.

Example map_inc_over_ints :
  let inc := mkSig "inc" [] ["x"] [Int] Int in
  _infer_expr 5
    (JDict [("call", JDict [("fn", JStr "list_map");
                            ("args", JList [JStr "inc";
                                            JDict [("list", JList [JInt 1; JInt 2; JInt 3])]])])])
    [] [] (("inc", inc) :: _builtin_sigs) ([], 0%nat)
  = Some (ListT Int, ([], 0%nat)).
Proof. reflexivity. Qed.

End TypecheckFacts.


(** ** [sandbox_ast.py]: what a call of a user function returns *)

Module SandboxFacts.
Import Py Effects Sandbox.

Section Calls.
Variable BUILTINS : string -> bool.
Variable call_builtin :
  (string -> list Json -> option (result Json)) -> string -> list Json -> option (result Json).
Variable fns : Fns.

#[local] Abbreviation eval_expr := (eval_expr BUILTINS call_builtin fns).
#[local] Abbreviation exec_stmt := (exec_stmt BUILTINS call_builtin fns).
#[local] Abbreviation exec_block := (exec_block BUILTINS call_builtin fns).
#[local] Abbreviation call_user := (call_user BUILTINS call_builtin fns).

(** The loop stops at the first statement that does not fall through. *)
Lemma exec_stmts_app (step : Json -> Env -> option Exec) pre rest env env1 :
  exec_stmts step pre env = Some (Continue env1) ->
  exec_stmts step (pre ++ rest) env = exec_stmts step rest env1.
Proof.
  revert env. induction pre as [ | s pre IH ]; intros env; simpl.
  - now intros [= ->].
  - destruct (step s env) as [ [ env' | v | e ] | ]; try discriminate. apply IH.
Qed.

Lemma exec_stmts_stop (step : Json -> Env -> option Exec) s rest env out :
  step s env = Some out ->
  (forall env', out <> Continue env') ->
  exec_stmts step (s :: rest) env = Some out.
Proof.
  intros Hs Hout. simpl. rewrite Hs. destruct out; [ now destruct (Hout env0) | | ]; reflexivity.
Qed.

(** A [return] statement raises [ReturnSignal] with the value of its
    expression. *)
Lemma return_raises_signal fuel e env value :
  eval_expr fuel e env = Some (Ok value) ->
  exec_stmt (S fuel) (JDict [("return", e)]) env = Some (ReturnSignal value).
Proof. intros H. simpl. now rewrite H. Qed.

(** The statements after a [return] are not executed. *)
Lemma return_aborts_block fuel pre e rest env env1 value :
  exec_block (S fuel) pre env = Some (Continue env1) ->
  eval_expr fuel e env1 = Some (Ok value) ->
  exec_block (S fuel) (pre ++ JDict [("return", e)] :: rest) env = Some (ReturnSignal value).
Proof.
  unfold Sandbox.exec_block. intros Hpre He.
  rewrite (exec_stmts_app _ _ _ _ _ Hpre).
  apply exec_stmts_stop; [ now apply return_raises_signal | discriminate ].
Qed.

(** An [if] hands on the signal of the branch it runs. *)
Lemma if_propagates_signal fuel spec env cond block value :
  eval_expr fuel (default JNull (dict_get "cond" spec)) env = Some (Ok cond) ->
  dict_get (if truthy cond then "then" else "else") spec = Some (JList block) ->
  exec_block fuel block env = Some (ReturnSignal value) ->
  exec_stmt (S fuel) (JDict [("if", JDict spec)]) env = Some (ReturnSignal value).
Proof.
  intros Hcond Hblock Hrun. simpl. rewrite Hcond, Hblock. exact Hrun.
Qed.

Lemma call_user_unfold fuel fn_name args fn :
  dict_get fn_name fns = Some fn ->
  length (strings_of (array_or_empty (dict_get "params" fn))) = length args ->
  call_user (S fuel) fn_name args =
  match exec_block fuel (body_of fn)
          (bind_params (strings_of (array_or_empty (dict_get "params" fn))) args []) with
  | None => None
  | Some (ReturnSignal value) => Some (Ok value)
  | Some (Fault e) => Some (Raise e)
  | Some (Continue _) => Some (Ok JNull)
  end.
Proof.
  intros Hfn Harity. simpl. rewrite Hfn, Harity, Nat.eqb_refl. reflexivity.
Qed.


End Calls.

(** *** A run *)

Definition no_builtins (name : string) : bool := false.

Definition no_call (dispatch : string -> list Json -> option (result Json))
    (name : string) (args : list Json) : option (result Json) :=
  Some (Raise (SandboxError "no builtins")).

(** [first(x, y)]: [let z = x; return z; return y]. *)
Definition first_fn : list (string * Json) :=
  [("name", JStr "first"); ("params", JList [JStr "x"; JStr "y"]);
   ("body", JList [JDict [("let", JDict [("name", JStr "z"); ("expr", JDict [("var", JStr "x")])])];
                   JDict [("return", JDict [("var", JStr "z")])];
                   JDict [("return", JDict [("var", JStr "y")])]])].

(** [quiet(x)]: [let z = x] and nothing else. *)
Definition quiet_fn : list (string * Json) :=
  [("name", JStr "quiet"); ("params", JList [JStr "x"]);
   ("body", JList [JDict [("let", JDict [("name", JStr "z"); ("expr", JDict [("var", JStr "x")])])]])].

Definition sample_fns : Fns := [("first", first_fn); ("quiet", quiet_fn)].

Example first_returns_first :
  call_user no_builtins no_call sample_fns 3 "first" [JInt 7; JInt 9] = Some (Ok (JInt 7)).
Proof. reflexivity. Qed.

Example quiet_returns_null :
  call_user no_builtins no_call sample_fns 3 "quiet" [JInt 7] = Some (Ok JNull).
Proof. reflexivity. Qed.


End SandboxFacts.


(** ** [propcheck.py]: the greedy shrinker *)

Module PropcheckFacts.
Import Py Typecheck Propcheck.

(** The rounds given to [halves] are enough: more change nothing. *)
Lemma abs_quot_2_lt (cur : Z) : cur <> 0 -> (Z.abs_nat (Z.quot cur 2) < Z.abs_nat cur)%nat.
Proof.
  intros Hcur. apply Nat2Z.inj_lt. rewrite !Zabs2Nat.id_abs.
  rewrite <- (Z.quot_abs cur 2) by lia. change (Z.abs 2) with 2.
  apply Z.quot_lt; lia.
Qed.

Lemma halves_enough (rounds : nat) : forall cur rounds',
  (Z.abs_nat cur <= rounds)%nat -> (Z.abs_nat cur <= rounds')%nat ->
  halves rounds cur = halves rounds' cur.
Proof.
  induction rounds as [ | rounds IH ]; intros cur rounds' H H'.
  - assert (cur = 0) as -> by lia. now destruct rounds'.
  - destruct rounds' as [ | rounds' ].
    + assert (cur = 0) as -> by lia. reflexivity.
    + simpl. destruct (Z.eqb_spec (Z.quot cur 2) 0) as [ | Hq ]; [ reflexivity | ].
      assert (cur <> 0) as Hcur by (intros ->; now apply Hq).
      pose proof (abs_quot_2_lt cur Hcur). f_equal. apply IH; lia.
Qed.

(** [shrink_int] offers [1] to [1] and [-1] to [-1]: a candidate that is
    the value itself. *)
Lemma shrink_int_1 : shrink_int 1 = [0; 1; -1].
Proof. reflexivity. Qed.

Lemma shrink_int_minus_1 : shrink_int (-1) = [0; 1; -1].
Proof. reflexivity. Qed.

Section Stuck.
Variable fails : list Json -> bool.
Variable param_types : list Ty.
Variable typevar_defaults : list (string * Ty).
Variable shrink_fuel : nat.

(** A pass that adopts a candidate and ends where it began is repeated
    for ever. *)
Lemma stuck_state (cur : list Json) :
  pass fails param_types typevar_defaults shrink_fuel (length cur) 0 cur false
    = Some (cur, true) ->
  forall rounds,
    minimize_failure fails param_types typevar_defaults shrink_fuel rounds cur
      = StillRunning cur.
Proof.
  intros Hpass. unfold minimize_failure.
  induction rounds as [ | rounds IH ]; simpl; [ reflexivity | ].
  rewrite Hpass. exact IH.
Qed.

End Stuck.

(** The target is the identity [f(x) = x] with postcondition
    [eq(x, 0)]: a case fails unless its argument is [0]. *)
Definition fails_unless_zero (args : list Json) : bool :=
  match args with
  | [JInt 0] => false
  | _ => true
  end.

Fixpoint list_sum (xs : list Json) : Z :=
  match xs with
  | JInt n :: xs' => n + list_sum xs'
  | _ => 0
  end.

(** Scenario E5: [sum_is_nonneg(xs)] with postcondition [result == true];
    a case fails when the sum is negative. *)
Definition fails_on_negative_sum (args : list Json) : bool :=
  match args with
  | [JList xs] => list_sum xs <? 0
  | _ => true
  end.

(** C3, the code at the failing input: from the failing argument [1] of
    type Int the first candidate [0] passes and the second candidate is
    [1] itself, which still fails and is adopted with [changed = True]; the
    loop is back in the state it started from and never returns, however
    many rounds it is given. The same happens in scenario E5 at the list
    [[-1]]. *)
Theorem shrinker_does_not_terminate (rounds : nat) :
  minimize_failure fails_unless_zero [Prim "Int"] [] 1 rounds [JInt 1]
    = StillRunning [JInt 1] /\
  minimize_failure fails_on_negative_sum [ListT (Prim "Int")] [] 2 rounds [JList [JInt (-1)]]
    = StillRunning [JList [JInt (-1)]].
Proof. split; apply stuck_state; reflexivity. Qed.

(** From [5] the loop first reaches [1], and then stays there. *)
Example from_five (rounds : nat) :
  minimize_failure fails_unless_zero [Prim "Int"] [] 1 (S rounds) [JInt 5]
    = StillRunning [JInt 1].
Proof.
  unfold minimize_failure. simpl.
  apply (stuck_state fails_unless_zero [Prim "Int"] [] 1%nat [JInt 1]). reflexivity.
Qed.

(** When the failure does not depend on the argument, [0] is adopted and
    the loop returns at the next round. *)
Example always_failing :
  minimize_failure (fun _ => true) [Prim "Int"] [] 1 2 [JInt 5] = Minimized [JInt 0].
Proof. reflexivity. Qed.

End PropcheckFacts.


(** ** [lsp_server.py]: what pre-validation refuses *)

Module LspFacts.
Import Py Lsp.

(** A new error, a new warning with the errors unchanged, or nothing
    changed at all: [_no_regression] answers [False]. *)
Lemma no_regression_rejects (base new : IssueSummary) :
  ~ errors new ⊆ errors base \/
  (errors new = errors base /\ ~ warnings new ⊆ warnings base) \/
  (errors new = errors base /\ warnings new = warnings base) ->
  _no_regression base new = false.
Proof.
  unfold _no_regression. intros H.
  destruct (decide (errors new ⊆ errors base)) as [ Hsub | Hsub ].
  - rewrite (bool_decide_eq_true_2 _ Hsub). simpl.
    destruct H as [ H | [ [He Hw] | [He Hw] ] ]; [ contradiction | | ].
    + rewrite He, Nat.eqb_refl, (bool_decide_eq_false_2 _ Hw). reflexivity.
    + rewrite He, Hw, Nat.eqb_refl.
      rewrite (bool_decide_eq_true_2 (warnings base ⊆ warnings base)) by reflexivity.
      rewrite !bool_decide_eq_true_2 by reflexivity. reflexivity.
  - now rewrite (bool_decide_eq_false_2 _ Hsub).
Qed.

(** When [_no_regression] accepts, the errors are among the old ones and
    something changed. *)
Lemma no_regression_accepts (base new : IssueSummary) :
  _no_regression base new = true ->
  errors new ⊆ errors base /\
  (errors new = errors base -> warnings new ⊆ warnings base /\ warnings new <> warnings base).
Proof.
  unfold _no_regression.
  destruct (decide (errors new ⊆ errors base)) as [ Hsub | Hsub ];
    [ rewrite (bool_decide_eq_true_2 _ Hsub) | now rewrite (bool_decide_eq_false_2 _ Hsub) ].
  simpl. intros H. split; [ exact Hsub | ]. intros He. rewrite He, Nat.eqb_refl in H.
  rewrite (bool_decide_eq_true_2 (errors base = errors base)) in H by reflexivity. simpl in H.
  destruct (decide (warnings new ⊆ warnings base)) as [ Hw | Hw ];
    [ | now rewrite (bool_decide_eq_false_2 _ Hw) in H ].
  split; [ exact Hw | ]. intros Heq.
  rewrite (bool_decide_eq_true_2 _ Hw), (bool_decide_eq_true_2 _ Heq) in H. discriminate.
Qed.

Lemma in_summary_true (target : string * string) (s : IssueSummary) :
  target ∈ errors s \/ target ∈ warnings s -> in_summary target s = true.
Proof.
  unfold in_summary. intros [ H | H ]; rewrite (bool_decide_eq_true_2 _ H);
    [ reflexivity | apply orb_true_r ].
Qed.

Section Server.
Variable Edits : Type.
Variable _apply_text_edits_in_memory : string -> Edits -> result string.
Variable json_loads : string -> result Json.
Variable validate : Json -> result (list Json).
Variable check_all : Json -> result (list Json).
Variable py_str : Json -> string.

(** C6: let the simulated edit give the text [new_text], let it parse to
    [value], and let the checkers report [issues] on it, summarised as
    [new_sum]. With a baseline and a targeted diagnostic,
    [_edits_pass_prevalidation] returns [False] whenever [new_sum] holds
    an error that the baseline does not, or has the baseline's errors and
    a warning that the baseline does not, or still holds the targeted
    diagnostic (the baseline has it, and so does [new_sum]), or is the
    baseline itself. *)
Theorem prevalidation_rejects (text new_text : string) (edits : Edits) (value : Json)
    (issues : list Json) (baseline : IssueSummary) (target : string * string)
    (expected_canonical : option string) :
  let new_sum := summarize py_str issues (mkSummary ∅ ∅) in
  _apply_text_edits_in_memory text edits = Ok new_text ->
  json_loads new_text = Ok value ->
  check_all value = Ok issues ->
  ~ errors new_sum ⊆ errors baseline \/
  (errors new_sum = errors baseline /\ ~ warnings new_sum ⊆ warnings baseline) \/
  ((target ∈ errors baseline \/ target ∈ warnings baseline) /\
   (target ∈ errors new_sum \/ target ∈ warnings new_sum)) \/
  (errors new_sum = errors baseline /\ warnings new_sum = warnings baseline) ->
  _edits_pass_prevalidation Edits _apply_text_edits_in_memory json_loads validate check_all
    py_str text edits (Some baseline) (Some target) expected_canonical = false.
Proof.
  intros new_sum Hedit Hparse Hcheck Hcases.
  unfold _edits_pass_prevalidation, prevalidate. rewrite Hedit. simpl. rewrite Hparse. simpl.
  destruct value; try reflexivity.
  destruct (validate (JDict kvs)) as [ schema_errors | e ]; [ simpl | reflexivity ].
  destruct (negb (length schema_errors =? 0)%nat); [ reflexivity | ].
  destruct (match expected_canonical with
            | Some expected => negb (String.eqb (Fmt.dumps_canonical (JDict kvs)) expected)
            | None => false
            end); [ reflexivity | ].
  unfold _summarize_non_schema. rewrite Hcheck. simpl. fold new_sum.
  destruct (in_summary target baseline && in_summary target new_sum) eqn:Htarget;
    [ reflexivity | ].
  destruct Hcases as [ H | [ H | [ [Hbase Hnew] | H ] ] ].
  - apply no_regression_rejects. now left.
  - apply no_regression_rejects. right. now left.
  - rewrite (in_summary_true _ _ Hbase), (in_summary_true _ _ Hnew) in Htarget. discriminate.
  - apply no_regression_rejects. right. now right.
Qed.

End Server.

(** *** A quick fix that changes nothing *)

Definition missing_return_issue : Json :=
  JDict [("pointer", JStr "/functions/0"); ("code", JStr "MissingReturn");
         ("severity", JStr "error"); ("message", JStr "Missing return")].

Definition missing_return_key : string * string := ("MissingReturn", "/functions/0").

Definition one_error : IssueSummary := mkSummary {[ missing_return_key ]} ∅.

Definition keep_text (text : string) (edits : unit) : result string := Ok text.
Definition parse_to_module (text : string) : result Json :=
  Ok (JDict [("module", JStr "m"); ("version", JStr "1.0"); ("functions", JList [])]).
Definition schema_ok (value : Json) : result (list Json) := Ok [].
Definition same_issue (value : Json) : result (list Json) := Ok [missing_return_issue].
Definition no_str (value : Json) : string := "".

Lemma prevalidation_rejects_witness :
  keep_text "{}" tt = Ok "{}" /\
  parse_to_module "{}" = Ok (JDict [("module", JStr "m"); ("version", JStr "1.0");
                                    ("functions", JList [])]) /\
  same_issue (JDict [("module", JStr "m"); ("version", JStr "1.0"); ("functions", JList [])])
    = Ok [missing_return_issue] /\
  _edits_pass_prevalidation unit keep_text parse_to_module schema_ok same_issue no_str
    "{}" tt (Some one_error) (Some missing_return_key) None = false.
Proof.
  split; [ reflexivity | ]. split; [ reflexivity | ]. split; [ reflexivity | ].
  apply (prevalidation_rejects unit keep_text parse_to_module schema_ok same_issue no_str
           "{}" "{}" tt
           (JDict [("module", JStr "m"); ("version", JStr "1.0"); ("functions", JList [])])
           [missing_return_issue] one_error missing_return_key None);
    [ reflexivity | reflexivity | reflexivity | ].
  right. right. right. split; vm_compute; reflexivity.
Defined.

End LspFacts.


(** ** [jsonpos.py]: from an offset to a position and back *)

Module TextIndexFacts.
Import TextIndex.

Local Open Scope nat_scope.

(** *** The line starts are increasing *)

Definition increasing (l : list nat) : Prop :=
  forall a b, a < b -> b < length l -> nth a l 0 < nth b l 0.

Lemma increasing_cons (x : nat) (l : list nat) :
  (forall y, In y l -> x < y) -> increasing l -> increasing (x :: l).
Proof.
  intros Hx Hl a b Hab Hb. destruct b as [ | b ]; [ lia | ]. simpl in Hb.
  destruct a as [ | a ]; simpl.
  - apply Hx, nth_In. lia.
  - apply Hl; lia.
Qed.

Lemma increasing_le (l : list nat) (a b : nat) :
  increasing l -> a <= b -> b < length l -> nth a l 0 <= nth b l 0.
Proof.
  intros Hl Hab Hb. destruct (Nat.eq_dec a b) as [ -> | Hne ]; [ lia | ].
  apply Nat.lt_le_incl, Hl; lia.
Qed.

Lemma newline_starts_bounds (text : Text) : forall i s,
  In s (newline_starts i text) -> i < s <= i + length text.
Proof.
  induction text as [ | ch text IH ]; intros i s; simpl; [ tauto | ].
  destruct (ch =? NEWLINE)%Z.
  - intros [ <- | Hs ]; [ lia | ]. apply IH in Hs. lia.
  - intros Hs. apply IH in Hs. lia.
Qed.

Lemma newline_starts_increasing (text : Text) : forall i, increasing (newline_starts i text).
Proof.
  induction text as [ | ch text IH ]; intros i; simpl.
  - intros a b Hab Hb. simpl in Hb. lia.
  - destruct (ch =? NEWLINE)%Z; [ | apply IH ].
    apply increasing_cons; [ | apply IH ].
    intros y Hy. apply newline_starts_bounds in Hy. lia.
Qed.

Lemma starts_increasing (text : Text) : increasing (starts (make text)).
Proof.
  simpl. apply increasing_cons; [ | apply newline_starts_increasing ].
  intros y Hy. apply newline_starts_bounds in Hy. lia.
Qed.

(** Every newline is followed by a line start. *)
Lemma newline_starts_after (text : Text) : forall i p,
  p < length text -> nth p text 0%Z = NEWLINE -> In (i + p + 1) (newline_starts i text).
Proof.
  induction text as [ | ch text IH ]; intros i p Hp Hnl; simpl in *; [ lia | ].
  destruct p as [ | p ].
  - subst ch. rewrite Z.eqb_refl. left. lia.
  - assert (In (S i + p + 1) (newline_starts (S i) text)) as Hin by (apply IH; [ lia | exact Hnl ]).
    replace (i + S p + 1) with (S i + p + 1) by lia.
    destruct (ch =? NEWLINE)%Z; [ now right | exact Hin ].
Qed.

Lemma find_newline_spec (text : Text) : forall k,
  find_newline text = Some k -> k < length text /\ nth k text 0%Z = NEWLINE.
Proof.
  induction text as [ | ch text IH ]; intros k; simpl; [ discriminate | ].
  destruct (Z.eqb_spec ch NEWLINE) as [ -> | Hne ].
  - intros [= <-]. split; [ lia | reflexivity ].
  - destruct (find_newline text) as [ k' | ]; [ | discriminate ].
    intros [= <-]. destruct (IH k' eq_refl). split; [ lia | assumption ].
Qed.

(** *** The binary search finds the last start that is not after [index] *)

Lemma mid_between (lo hi : nat) : lo + 1 < hi -> lo < (lo + hi) / 2 < hi.
Proof.
  intros H. pose proof (Nat.div_mod_eq (lo + hi) 2).
  pose proof (Nat.mod_upper_bound (lo + hi) 2). lia.
Qed.

Lemma find_line_loop_eq (rounds : nat) (l : list nat) (index lo hi : nat) :
  find_line_loop rounds l index lo hi =
  if lo + 1 <? hi then
    match rounds with
    | O => None
    | S rounds' =>
        if nth ((lo + hi) / 2) l 0 <=? index
        then find_line_loop rounds' l index ((lo + hi) / 2) hi
        else find_line_loop rounds' l index lo ((lo + hi) / 2)
    end
  else Some lo.
Proof. destruct rounds; reflexivity. Qed.

Lemma find_line_loop_spec (l : list nat) (index : nat) : increasing l ->
  forall rounds lo hi,
    lo < hi <= length l -> hi - lo <= rounds ->
    nth lo l 0 <= index ->
    (hi < length l -> index < nth hi l 0) ->
    exists line,
      find_line_loop rounds l index lo hi = Some line /\
      line < length l /\ nth line l 0 <= index /\
      (forall k, line < k -> k < length l -> index < nth k l 0).
Proof.
  intros Hinc. induction rounds as [ | rounds IH ]; intros lo hi Hrange Hrounds Hlo Hhi;
    rewrite find_line_loop_eq; destruct (Nat.ltb_spec (lo + 1) hi) as [ Hgap | Hgap ];
    try lia.
  - pose proof (mid_between lo hi Hgap) as Hmid.
    destruct (Nat.leb_spec (nth ((lo + hi) / 2) l 0) index) as [ Hle | Hgt ].
    + apply IH; lia.
    + apply IH; lia.
  - exists lo. split; [ reflexivity | ]. split; [ lia | ]. split; [ exact Hlo | ].
    intros k Hk Hlen. assert (hi <= k) as Hhk by lia.
    pose proof (increasing_le l hi k Hinc Hhk Hlen). specialize (Hhi ltac:(lia)). lia.
Qed.

Lemma find_line_spec (text : Text) (index : nat) :
  exists line,
    _find_line (make text) index = Some line /\
    line < length (starts (make text)) /\
    nth line (starts (make text)) 0 <= index /\
    (forall k, line < k -> k < length (starts (make text)) ->
               index < nth k (starts (make text)) 0).
Proof.
  unfold _find_line. apply find_line_loop_spec.
  - apply starts_increasing.
  - simpl. lia.
  - lia.
  - simpl. lia.
  - lia.
Qed.

(** *** The offset lies on the line that was found *)

Lemma line_end_le (text : Text) (s : nat) : s <= length text -> s <= line_end text s <= length text.
Proof.
  intros Hs. unfold line_end. destruct (find_newline (drop s text)) as [ k | ] eqn:Hfind; [ | lia ].
  apply find_newline_spec in Hfind as [Hk _]. rewrite length_drop in Hk. lia.
Qed.

Lemma starts_le_length (text : Text) (k : nat) :
  k < length (starts (make text)) -> nth k (starts (make text)) 0 <= length text.
Proof.
  intros Hk. pose proof (nth_In (starts (make text)) 0 Hk) as Hin.
  remember (nth k (starts (make text)) 0) as s eqn:Hs. clear Hs.
  destruct Hin as [ Hzero | Hin ]; [ lia | ].
  apply newline_starts_bounds in Hin. lia.
Qed.

Lemma nth_map_nat (f : nat -> nat) (l : list nat) (k : nat) :
  k < length l -> nth k (map f l) 0 = f (nth k l 0).
Proof.
  intros Hk. rewrite (nth_indep _ 0 (f 0)) by (now rewrite length_map). apply map_nth.
Qed.

Lemma ends_nth (text : Text) (k : nat) :
  k < length (starts (make text)) ->
  nth k (ends (make text)) 0 = line_end text (nth k (starts (make text)) 0).
Proof.
  intros Hk. exact (nth_map_nat (line_end text) (starts (make text)) k Hk).
Qed.

Lemma index_on_line (text : Text) (index line : nat) :
  index <= length text ->
  line < length (starts (make text)) ->
  nth line (starts (make text)) 0 <= index ->
  (forall k, line < k -> k < length (starts (make text)) ->
             index < nth k (starts (make text)) 0) ->
  index <= line_end text (nth line (starts (make text)) 0).
Proof.
  intros Hindex Hline Hle Hlast. set (s := nth line (starts (make text)) 0) in *.
  unfold line_end. destruct (find_newline (drop s text)) as [ k | ] eqn:Hfind; [ | exact Hindex ].
  apply find_newline_spec in Hfind as [Hk Hnl]. rewrite length_drop in Hk.
  destruct (Nat.le_gt_cases index (s + k)) as [ | Hafter ]; [ assumption | exfalso ].
  assert (In (s + k + 1) (starts (make text))) as Hin.
  { simpl. right. apply (newline_starts_after text 0 (s + k)); [ lia | ].
    rewrite <- Hnl. symmetry. apply nth_skipn. }
  apply (In_nth _ _ 0) in Hin as (k' & Hk' & Hnth).
  destruct (Nat.le_gt_cases k' line) as [ Hbefore | Hlater ].
  - pose proof (increasing_le _ k' line (starts_increasing text) Hbefore Hline). fold s in H. lia.
  - specialize (Hlast k' Hlater Hk'). lia.
Qed.

(** *** Counting code units forth and back *)

(** A text that [str.encode] accepts: no surrogate code point. *)
Definition encodable (s : Text) : Prop := Forall (fun ch => is_surrogate ch = false) s.

Lemma utf16_units_ok (ch : Z) :
  is_surrogate ch = false -> exists u, utf16_units ch = Ok u /\ 1 <= u.
Proof.
  intros H. unfold utf16_units. rewrite H.
  destruct (ch <? 65536)%Z; eexists; split; try reflexivity; lia.
Qed.

Lemma utf16_len_ok (s : Text) : encodable s -> exists c, utf16_len s = Ok c.
Proof.
  induction 1 as [ | ch s Hch _ [c IH] ]; simpl; [ now exists 0 | ].
  destruct (utf16_units_ok ch Hch) as (u & -> & _). rewrite IH. simpl. eauto.
Qed.

(** The loop of [offset] stops after exactly the code points whose code
    units [position] counted. *)
Lemma offset_loop_prefix (chars : Text) : encodable chars ->
  forall n units cp c,
    n <= length chars -> utf16_len (take n chars) = Ok c ->
    offset_loop chars units cp (units + c) = Ok (cp + n).
Proof.
  induction 1 as [ | ch chars Hch _ IH ]; intros n units cp c Hn Hlen.
  - simpl in Hn. assert (n = 0) as -> by lia. simpl. f_equal. lia.
  - destruct (utf16_units_ok ch Hch) as (u & Hu & Hpos).
    destruct n as [ | n ]; simpl in *.
    + injection Hlen as <-. rewrite Hu. simpl.
      destruct (Nat.ltb_spec (units + 0) (units + u)); [ | lia ]. f_equal. lia.
    + rewrite Hu in *. simpl in *.
      destruct (utf16_len (take n chars)) as [ c' | ] eqn:Hrest; [ | discriminate ].
      simpl in Hlen. injection Hlen as <-.
      destruct (Nat.ltb_spec (units + (u + c')) (units + u)); [ lia | ].
      replace (units + (u + c')) with (units + u + c') by lia.
      rewrite (IH n (units + u) (S cp) c') by (lia || assumption). f_equal. lia.
Qed.

Lemma encodable_line (text : Text) (a b : nat) : encodable text -> encodable (slice a b text).
Proof. intros H. unfold slice. now apply Forall_take, Forall_drop. Qed.

Lemma round_trip_nat (text : Text) (index : nat) :
  encodable text -> index <= length text ->
  round_trip (make text) (Z.of_nat index) = Some (Ok index).
Proof.
  intros Henc Hindex. unfold round_trip, position.
  destruct (Z.ltb_spec (Z.of_nat index) 0) as [ | _ ]; [ lia | ].
  change (TextIndex.text (make text)) with text.
  destruct (Z.ltb_spec (Z.of_nat (length text)) (Z.of_nat index)) as [ | _ ]; [ lia | ].
  rewrite Nat2Z.id.
  destruct (find_line_spec text index) as (line & Hfind & Hline & Hle & Hlast).
  rewrite Hfind.
  pose proof (index_on_line text index line Hindex Hline Hle Hlast) as Hon.
  pose proof (starts_le_length text line Hline) as Hstart.
  pose proof (line_end_le text _ Hstart) as Hend.
  assert (line_text (make text) line
          = slice (nth line (starts (make text)) 0)
                  (line_end text (nth line (starts (make text)) 0)) text) as Htext
    by (unfold line_text; now rewrite ends_nth).
  remember (nth line (starts (make text)) 0) as s eqn:Hs.
  remember (line_text (make text) line) as chars eqn:Hchars.
  assert (encodable chars) as Hchars_ok by (rewrite Htext; now apply encodable_line).
  assert (index - s <= length chars) as Hcol.
  { rewrite Htext. unfold slice. rewrite length_take, length_drop. lia. }
  destruct (utf16_len_ok (take (index - s) chars)) as [c Hc]; [ now apply Forall_take | ].
  rewrite Hc. simpl.
  unfold offset.
  destruct (Z.ltb_spec (Z.of_nat line) 0) as [ | _ ]; [ lia | ].
  destruct (Z.leb_spec (Z.of_nat (length (starts (make text)))) (Z.of_nat line)) as [ | _ ];
    [ lia | ].
  destruct (Z.ltb_spec (Z.of_nat c) 0) as [ | _ ]; [ lia | ].
  rewrite !Nat2Z.id, <- Hs, <- Hchars.
  pose proof (offset_loop_prefix chars Hchars_ok (index - s) 0 0 c Hcol Hc) as Hloop.
  simpl in Hloop. rewrite Hloop. simpl. do 2 f_equal. lia.
Qed.

(** A lone high surrogate, [U+D800]. *)
Definition lone_surrogate : Text := [55296%Z].

(** C7, as the claim states it, fails on a text with a surrogate code
    point: the offset [1] lies in [0 <= i <= len(text)], and [position(1)]
    raises [UnicodeEncodeError] when it encodes the prefix, so there is no
    position to convert back. *)
Lemma position_raises_on_surrogate :
  position (make lone_surrogate) 1 = Some (Raise UnicodeEncodeError) /\
  round_trip (make lone_surrogate) 1 <> Some (Ok 1).
Proof. split; [ reflexivity | discriminate ]. Qed.

(** C7 (amended): for every text without surrogate code points and every
    offset [i] with [0 <= i <= len(text)] (the end points of the recorded
    spans among them), [position(i)] returns a position and [offset]
    takes it back to [i]. *)
Theorem offset_of_position (text : Text) (i : Z) :
  encodable text ->
  (0 <= i <= Z.of_nat (length text))%Z ->
  round_trip (make text) i = Some (Ok (Z.to_nat i)).
Proof.
  intros Henc Hi. rewrite <- (Z2Nat.id i) at 1 by lia.
  apply round_trip_nat; [ exact Henc | lia ].
Qed.

(** Two lines, the second with a code point outside the basic plane:
    [a], newline, [U+1F600], [b], newline, newline, [c]. *)
Definition sample_text : Text := [97; 10; 128512; 98; 10; 10; 99]%Z.

Lemma offset_of_position_witness :
  encodable sample_text /\
  (0 <= 4 <= Z.of_nat (length sample_text))%Z /\
  round_trip (make sample_text) 4 = Some (Ok 4).
Proof.
  assert (encodable sample_text) as Henc by (repeat constructor).
  split; [ exact Henc | ]. split; [ simpl; lia | ].
  apply (offset_of_position sample_text 4 Henc). simpl. lia.
Defined.

End TextIndexFacts.


(** ** [pointer.py]: escaping, splitting and joining, reading what a patch wrote *)

Module PointerLaws.
Import Py PyFacts Pointer.

(** *** Escaping, one character at a time *)

Definition escape_char (a : ascii) : string :=
  if Ascii.eqb a "~" then "~0" else if Ascii.eqb a "/" then "~1" else String a "".

Lemma escape_segment_cons a s :
  escape_segment (String a s) = escape_char a +:+ escape_segment s.
Proof.
  unfold escape_segment, escape_char. simpl.
  destruct (Ascii.eqb_spec a "~") as [ -> | Ha ]; simpl.
  - reflexivity.
  - destruct (Ascii.eqb_spec a "/") as [ -> | Hb ]; reflexivity.
Qed.

Lemma escape_segment_nil : escape_segment "" = "".
Proof. reflexivity. Qed.

(** [s.replace(c1 c2, new)] leaves a character other than [c1] alone. *)
Lemma replace_pair_other c1 c2 new a t :
  a <> c1 -> replace_pair c1 c2 new (String a t) = String a (replace_pair c1 c2 new t).
Proof.
  intros Ha. simpl. destruct t as [ | b r ]; [ reflexivity | ].
  destruct (Ascii.eqb_spec a c1); [ contradiction | reflexivity ].
Qed.

Lemma replace_pair_skip c1 c2 new b r :
  b <> c2 ->
  replace_pair c1 c2 new (String c1 (String b r))
  = String c1 (replace_pair c1 c2 new (String b r)).
Proof.
  intros Hb. cbn [replace_pair].
  destruct (Ascii.eqb_spec b c2); [ contradiction | ].
  now rewrite andb_false_r.
Qed.

Lemma replace_pair_hit c1 c2 new r :
  replace_pair c1 c2 new (String c1 (String c2 r)) = new +:+ replace_pair c1 c2 new r.
Proof. cbn [replace_pair]. now rewrite !Ascii.eqb_refl. Qed.

(** After the first pass of [unescape_segment] every ["~1"] is a slash
    again and every tilde of the segment is still written ["~0"]. *)
Definition half_escaped_char (a : ascii) : string :=
  if Ascii.eqb a "~" then "~0" else String a "".

Fixpoint half_escaped (s : string) : string :=
  match s with
  | EmptyString => EmptyString
  | String a r => half_escaped_char a +:+ half_escaped r
  end.

Lemma unescape_first_pass s :
  replace_pair "~" "1" "/" (escape_segment s) = half_escaped s.
Proof.
  induction s as [ | a s IH ]; [ reflexivity | ].
  rewrite escape_segment_cons. unfold escape_char, half_escaped. fold half_escaped.
  unfold half_escaped_char.
  destruct (Ascii.eqb_spec a "~") as [ -> | Ha ].
  - change ("~0" +:+ escape_segment s) with (String "~" (String "0" (escape_segment s))).
    rewrite replace_pair_skip by discriminate.
    rewrite replace_pair_other by discriminate.
    now rewrite IH.
  - destruct (Ascii.eqb_spec a "/") as [ -> | Hb ].
    + change ("~1" +:+ escape_segment s) with (String "~" (String "1" (escape_segment s))).
      rewrite replace_pair_hit. now rewrite IH.
    + change (String a "" +:+ escape_segment s) with (String a (escape_segment s)).
      rewrite replace_pair_other by exact Ha.
      now rewrite IH.
Qed.

Lemma unescape_second_pass s : replace_pair "~" "0" "~" (half_escaped s) = s.
Proof.
  induction s as [ | a s IH ]; [ reflexivity | ].
  cbn [half_escaped]. unfold half_escaped_char.
  destruct (Ascii.eqb_spec a "~") as [ -> | Ha ].
  - change ("~0" +:+ half_escaped s) with (String "~" (String "0" (half_escaped s))).
    rewrite replace_pair_hit. now rewrite IH.
  - change (String a "" +:+ half_escaped s) with (String a (half_escaped s)).
    rewrite replace_pair_other by exact Ha.
    now rewrite IH.
Qed.

Lemma unescape_escape s : unescape_segment (escape_segment s) = s.
Proof.
  unfold unescape_segment. rewrite unescape_first_pass. apply unescape_second_pass.
Qed.

(** *** Splitting what [join_pointer] joined *)

Fixpoint has_char (c : ascii) (s : string) : bool :=
  match s with
  | EmptyString => false
  | String a r => Ascii.eqb a c || has_char c r
  end.

Lemma has_char_app c s t : has_char c (s +:+ t) = has_char c s || has_char c t.
Proof.
  induction s as [ | a s IH ]; simpl; [ reflexivity | ].
  rewrite IH. now rewrite orb_assoc.
Qed.

Lemma escape_segment_no_slash s : has_char "/" (escape_segment s) = false.
Proof.
  induction s as [ | a s IH ]; [ reflexivity | ].
  rewrite escape_segment_cons, has_char_app, IH, orb_false_r.
  unfold escape_char.
  destruct (Ascii.eqb_spec a "~") as [ -> | Ha ]; [ reflexivity | ].
  destruct (Ascii.eqb_spec a "/") as [ -> | Hb ]; [ reflexivity | ].
  simpl. rewrite orb_false_r. now apply Ascii.eqb_neq.
Qed.

Lemma escape_segment_nonempty s : s <> "" -> escape_segment s <> "".
Proof.
  destruct s as [ | a s ]; [ congruence | ]. intros _.
  rewrite escape_segment_cons. unfold escape_char.
  destruct (Ascii.eqb a "~"); [ discriminate | ].
  destruct (Ascii.eqb a "/"); discriminate.
Qed.

Lemma split_on_whole sep s : has_char sep s = false -> split_on sep s = [s].
Proof.
  induction s as [ | a s IH ]; simpl; [ reflexivity | ].
  intros H. apply orb_false_iff in H as [Ha Hs].
  rewrite Ha, (IH Hs). reflexivity.
Qed.

(** X1: [unescape_segment] undoes [escape_segment] on every segment,
    whatever tildes, slashes and digits it holds; and an escaped segment
    holds no slash, so it is one segment of the pointer it is put in. *)
Theorem unescape_escape_segment (seg : string) :
  unescape_segment (escape_segment seg) = seg /\
  split_on "/" (escape_segment seg) = [escape_segment seg].
Proof.
  split; [ apply unescape_escape | ].
  apply split_on_whole, escape_segment_no_slash.
Qed.

Lemma split_on_piece sep p rest :
  has_char sep p = false ->
  split_on sep (p +:+ String sep rest) = p :: split_on sep rest.
Proof.
  induction p as [ | a p IH ]; simpl.
  - intros _. now rewrite Ascii.eqb_refl.
  - intros H. apply orb_false_iff in H as [Ha Hp].
    rewrite Ha, (IH Hp). reflexivity.
Qed.

Lemma split_on_join sep ps :
  ps <> [] -> Forall (fun p => has_char sep p = false) ps ->
  split_on sep (join_with (String sep "") ps) = ps.
Proof.
  intros Hne Hall. induction Hall as [ | p ps Hp Hps IH ]; [ congruence | ].
  destruct ps as [ | q ps ].
  - simpl. now apply split_on_whole.
  - change (join_with (String sep "") (p :: q :: ps))
      with (p +:+ String sep "" +:+ join_with (String sep "") (q :: ps)).
    change (String sep "" +:+ join_with (String sep "") (q :: ps))
      with (String sep (join_with (String sep "") (q :: ps))).
    rewrite split_on_piece by exact Hp.
    rewrite IH by congruence. reflexivity.
Qed.

Lemma lstrip_char_other c s : startswith_char c s = false -> lstrip_char c s = s.
Proof. destruct s as [ | a s ]; simpl; [ reflexivity | ]. now intros ->. Qed.

Lemma startswith_no_char c s : has_char c s = false -> startswith_char c s = false.
Proof.
  destruct s as [ | a s ]; simpl; [ reflexivity | ].
  intros H. now apply orb_false_iff in H as [-> _].
Qed.

Lemma has_char_join_head c p ps :
  has_char c p = false -> p <> "" ->
  startswith_char c (join_with (String c "") (p :: ps)) = false /\
  join_with (String c "") (p :: ps) <> "".
Proof.
  intros Hp Hne. destruct p as [ | a p ]; [ congruence | ].
  simpl in Hp. apply orb_false_iff in Hp as [Ha _].
  destruct ps as [ | q ps ]; simpl; split; try exact Ha; discriminate.
Qed.

Lemma split_pointer_slash j :
  j <> "" -> startswith_char "/" j = false ->
  split_pointer (String "/" j) = Ok (map unescape_segment (split_on "/" j)).
Proof.
  destruct j as [ | a j ]; [ congruence | ]. intros _ H.
  unfold split_pointer. simpl in H.
  change (String.eqb (String "/" (String a j)) "") with false.
  change (String.eqb (String "/" (String a j)) "/") with false.
  change (startswith_char "/" (String "/" (String a j))) with true.
  change (lstrip_char "/" (String "/" (String a j)))
    with (if Ascii.eqb a "/" then lstrip_char "/" j else String a j).
  now rewrite H.
Qed.

(** A pointer written from escaped segments splits into those segments,
    provided the first one is not the empty string. *)
Lemma split_pointer_escaped (p : string) (ps : list string) :
  p <> "" ->
  split_pointer ("/" +:+ join_with "/" (map escape_segment (p :: ps))) = Ok (p :: ps).
Proof.
  intros Hne.
  remember (map escape_segment (p :: ps)) as es eqn:Ees.
  assert (Hall : Forall (fun p => has_char "/" p = false) es).
  { subst es. apply List.Forall_forall. intros q Hq.
    apply in_map_iff in Hq as (x & <- & _). apply escape_segment_no_slash. }
  assert (Hhead : startswith_char "/" (join_with "/" es) = false /\ join_with "/" es <> "").
  { subst es. apply has_char_join_head.
    - apply escape_segment_no_slash.
    - now apply escape_segment_nonempty. }
  destruct Hhead as [Hsw Hnn].
  assert (Hsplit : split_on "/" (join_with "/" es) = es).
  { apply split_on_join; [ subst es; discriminate | exact Hall ]. }
  change ("/" +:+ join_with "/" es) with (String "/" (join_with "/" es)).
  rewrite split_pointer_slash by assumption.
  rewrite Hsplit. f_equal. subst es. rewrite map_map.
  rewrite <- (map_id (p :: ps)) at 2.
  apply map_ext. intros x. apply unescape_escape.
Qed.

(** The pointers whose segments [split_pointer] gives back: the empty list
    of segments, and the lists whose first segment is not the empty
    string. *)
Definition head_nonempty (segments : list Seg) : Prop :=
  match segments with
  | [] => True
  | s :: _ => seg_str s <> ""
  end.

(** X2: [split_pointer] undoes [join_pointer] on every list of segments
    that is empty or starts with a segment other than the empty string;
    the segments may hold slashes and tildes. *)
Theorem split_join_pointer (segments : list Seg) :
  head_nonempty segments ->
  split_pointer (join_pointer segments) = Ok (map seg_str segments).
Proof.
  destruct segments as [ | s segs ]; [ reflexivity | ].
  intros Hne. simpl in Hne.
  unfold join_pointer.
  replace (map (fun s => escape_segment (seg_str s)) (s :: segs))
    with (map escape_segment (seg_str s :: map seg_str segs))
    by (simpl; now rewrite map_map).
  now rewrite split_pointer_escaped.
Qed.

Lemma split_join_pointer_witness :
  head_nonempty [SegS "a/b"; SegI 0; SegS "~"; SegS ""] /\
  split_pointer (join_pointer [SegS "a/b"; SegI 0; SegS "~"; SegS ""])
  = Ok ["a/b"; "0"; "~"; ""].
Proof.
  split; [ discriminate | ].
  apply (split_join_pointer [SegS "a/b"; SegI 0; SegS "~"; SegS ""]). discriminate.
Defined.

(** A leading empty segment is lost: ["//a"] splits to [["a"]]. *)
Example leading_empty_segment_lost :
  join_pointer [SegS ""; SegS "a"] = "//a" /\
  split_pointer "//a" = Ok ["a"].
Proof. split; reflexivity. Qed.

(** *** Reading what a patch wrote *)

Lemma replace_pair_nonempty c1 c2 new s :
  new <> "" -> s <> "" -> replace_pair c1 c2 new s <> "".
Proof.
  intros Hn Hs. destruct s as [ | a [ | b r ] ]; simpl; try congruence.
  destruct (Ascii.eqb a c1 && Ascii.eqb b c2); [ | discriminate ].
  destruct new; [ congruence | discriminate ].
Qed.

Lemma unescape_nonempty s : s <> "" -> unescape_segment s <> "".
Proof.
  intros H. unfold unescape_segment.
  apply replace_pair_nonempty; [ discriminate | ].
  apply replace_pair_nonempty; [ discriminate | exact H ].
Qed.

Lemma lstrip_char_not_start c s : startswith_char c (lstrip_char c s) = false.
Proof.
  induction s as [ | a s IH ]; simpl; [ reflexivity | ].
  destruct (Ascii.eqb a c) eqn:E; [ exact IH | simpl; exact E ].
Qed.

Lemma split_on_head sep s :
  startswith_char sep s = false -> s <> "" ->
  exists h t, split_on sep s = h :: t /\ h <> "".
Proof.
  destruct s as [ | a r ]; [ congruence | ]. simpl. intros -> _.
  destruct (split_on sep r); eexists _, _; split; try reflexivity; discriminate.
Qed.

(** What [split_pointer] returns: no segment, the one empty segment of a
    pointer made of slashes, or segments of which the first is not
    empty. *)
Lemma split_pointer_segments p segs :
  split_pointer p = Ok segs ->
  segs = [] \/ segs = [""] \/ exists h t, segs = h :: t /\ h <> "".
Proof.
  unfold split_pointer.
  destruct (String.eqb p "" || String.eqb p "/"); [ intros [= <-]; now left | ].
  destruct (negb (startswith_char "/" p)); [ discriminate | ].
  intros [= <-]. right.
  pose proof (lstrip_char_not_start "/" p) as Hsw.
  destruct (lstrip_char "/" p) as [ | a r ] eqn:El.
  - left. reflexivity.
  - right. destruct (split_on_head "/" (String a r) Hsw) as (h & t & -> & Hh);
      [ discriminate | ].
    simpl. eexists _, _. split; [ reflexivity | ]. now apply unescape_nonempty.
Qed.

Lemma escape_of_keys (l : list string) :
  map (fun s => escape_segment (seg_str s)) (map SegS l) = map escape_segment l.
Proof. rewrite map_map. reflexivity. Qed.

(** [_resolve_parent] joins all segments but the last and splits them
    again: it gets the same segments back. *)
Lemma parent_segments p segs :
  split_pointer p = Ok segs ->
  split_pointer (join_pointer (map SegS (removelast segs))) = Ok (removelast segs).
Proof.
  intros H. apply split_pointer_segments in H as [ -> | [ -> | (h & t & -> & Hh) ] ];
    try reflexivity.
  destruct t as [ | t0 t ]; [ reflexivity | ].
  change (removelast (h :: t0 :: t)) with (h :: removelast (t0 :: t)).
  unfold join_pointer. cbn [map].
  change (escape_segment (seg_str (SegS h))
          :: map (fun s => escape_segment (seg_str s)) (map SegS (removelast (t0 :: t))))
    with (map (fun s => escape_segment (seg_str s)) (map SegS (h :: removelast (t0 :: t)))).
  rewrite escape_of_keys. now apply split_pointer_escaped.
Qed.

Lemma resolve_segs_app doc a b :
  resolve_segs doc (a ++ b) = try! x <- resolve_segs doc a; resolve_segs x b.
Proof.
  revert doc. induction a as [ | raw a IH ]; intros doc; simpl; [ reflexivity | ].
  destruct (resolve_step doc raw); simpl; [ apply IH | reflexivity ].
Qed.

Lemma resolve_parent_of doc p psegs key parent :
  split_pointer p = Ok (psegs ++ [key]) ->
  resolve_segs doc psegs = Ok parent ->
  _resolve_parent doc p = Ok (psegs, parent, _coerce_index key parent).
Proof.
  intros Hs Hp. unfold _resolve_parent. rewrite Hs. cbn [rbind].
  pose proof (parent_segments p _ Hs) as Hpar.
  rewrite removelast_last in Hpar.
  destruct (psegs ++ [key]) as [ | s0 segs0 ] eqn:Esegs.
  { now destruct psegs. }
  rewrite <- Esegs, removelast_last, last_last, Hpar. cbn [rbind].
  rewrite Hp. reflexivity.
Qed.

Lemma resolve_step_list xs raw child :
  resolve_step (JList xs) raw = Ok child ->
  exists i, (forall ys, _coerce_index raw (JList ys) = KeyI i) /\ xs !! i = Some child.
Proof.
  unfold resolve_step, _coerce_index. simpl.
  destruct (negb (String.eqb raw "-") && isdigit raw).
  - unfold list_index. destruct (xs !! int_of_str raw) eqn:E; [ | discriminate ].
    intros [= <-]. exists (int_of_str raw). split; [ reflexivity | exact E ].
  - destruct (String.eqb raw "-"); discriminate.
Qed.

Lemma resolve_step_dict kvs raw child :
  resolve_step (JDict kvs) raw = Ok child -> dict_get raw kvs = Some child.
Proof.
  unfold resolve_step. destruct (dict_get raw kvs); [ | discriminate ].
  now intros [= <-].
Qed.

Lemma dict_get_after_set {V} k (v : V) d : dict_get k (dict_set k v d) = Some v.
Proof.
  induction d as [ | [k' v'] d IH ]; simpl.
  - now rewrite String.eqb_refl.
  - destruct (String.eqb k k') eqn:E; simpl; rewrite ?String.eqb_refl, ?E; auto.
Qed.

Lemma resolve_step_assigned xs i raw v :
  (forall ys, _coerce_index raw (JList ys) = KeyI i) -> (i < length xs)%nat ->
  resolve_step (JList (<[i:=v]> xs)) raw = Ok v.
Proof.
  intros Hk Hi. unfold resolve_step. rewrite Hk. unfold list_index.
  now rewrite list_lookup_insert_eq by exact Hi.
Qed.

Lemma resolve_step_set kvs raw v :
  resolve_step (JDict (dict_set raw v kvs)) raw = Ok v.
Proof. unfold resolve_step. now rewrite dict_get_after_set. Qed.

(** [store] writes at the path that [resolve] walks: where the path
    resolves, the write succeeds and the path resolves to what was
    written. *)
Lemma store_resolve psegs : forall doc parent new,
  resolve_segs doc psegs = Ok parent ->
  exists doc', store doc psegs new = Ok doc' /\ resolve_segs doc' psegs = Ok new.
Proof.
  induction psegs as [ | raw rest IH ]; intros doc parent new H.
  - exists new. split; reflexivity.
  - simpl in H. destruct (resolve_step doc raw) as [ child | ] eqn:Es; [ | discriminate ].
    simpl in H. destruct (IH child parent new H) as (child' & Hst & Hres).
    simpl. rewrite Es. simpl. rewrite Hst. simpl.
    destruct doc as [ | | | | | xs | kvs ]; try discriminate.
    + destruct (resolve_step_list _ _ _ Es) as (i & Hk & Hi).
      rewrite Hk. unfold list_assign.
      assert (Hlt : (i < length xs)%nat) by (eapply lookup_lt_Some; exact Hi).
      destruct (Nat.ltb_spec i (length xs)); [ | lia ].
      cbn [rbind]. eexists. split; [ reflexivity | ].
      cbn [resolve_segs]. rewrite resolve_step_assigned by assumption. exact Hres.
    + eexists. split; [ reflexivity | ].
      cbn [resolve_segs]. rewrite resolve_step_set. exact Hres.
Qed.

(** The body of [apply_patch] for an [add] or a [replace]. *)
Lemma apply_op_write doc kind p v :
  kind = "add" \/ kind = "replace" ->
  apply_op doc (JDict [("op", JStr kind); ("path", JStr p); ("value", v)])
  = if String.eqb p "" || String.eqb p "/" then Ok v
    else
      try! (psegs, parent, key) <- _resolve_parent doc p;
      match parent with
      | JList xs =>
          if key_is_dash key then store doc psegs (JList (xs ++ [v]))
          else
            match key with
            | KeyS _ => Raise (PatchError "Invalid list index")
            | KeyI i =>
                if String.eqb kind "add"
                then store doc psegs (JList (list_insert_at i v xs))
                else try! xs' <- list_assign i v xs; store doc psegs (JList xs')
            end
      | JDict kvs =>
          match key with
          | KeyS s => store doc psegs (JDict (dict_set s v kvs))
          | KeyI _ => Raise (PatchError "Invalid object key")
          end
      | _ => Raise (PatchError "Parent is not container")
      end.
Proof. intros [ -> | -> ]; reflexivity. Qed.

Lemma split_pointer_root p :
  String.eqb p "" || String.eqb p "/" = true -> split_pointer p = Ok [].
Proof. unfold split_pointer. now intros ->. Qed.

Lemma split_pointer_below p segs :
  String.eqb p "" || String.eqb p "/" = false -> split_pointer p = Ok segs ->
  exists psegs key, segs = psegs ++ [key].
Proof.
  unfold split_pointer. intros ->.
  destruct (negb (startswith_char "/" p)); [ discriminate | ].
  intros [= <-].
  assert (Hne : map unescape_segment (split_on "/" (lstrip_char "/" p)) <> []).
  { destruct (lstrip_char "/" p) as [ | a r ]; simpl; [ discriminate | ].
    destruct (Ascii.eqb a "/"); [ discriminate | ].
    destruct (split_on "/" r); discriminate. }
  exists (removelast (map unescape_segment (split_on "/" (lstrip_char "/" p)))),
         (List.last (map unescape_segment (split_on "/" (lstrip_char "/" p))) "").
  now apply app_removelast_last.
Qed.

(** X3: a [replace] at a pointer that resolves succeeds, and afterwards
    the pointer resolves to the new value; so for the root, for a member
    of an object and for an element of a list, at any depth. *)
Theorem replace_then_resolve (doc : Json) (pointer : string) (old value : Json) :
  resolve doc pointer = Ok old ->
  exists doc',
    apply_patch doc [op_replace pointer value] = Ok doc' /\
    resolve doc' pointer = Ok value.
Proof.
  intros H. unfold resolve in H.
  destruct (split_pointer pointer) as [ segs | ] eqn:Es; [ | discriminate ].
  cbn [rbind] in H. unfold apply_patch, op_replace.
  rewrite apply_op_write by now right.
  destruct (String.eqb pointer "" || String.eqb pointer "/") eqn:Eroot.
  - exists value. split; [ reflexivity | ].
    unfold resolve. now rewrite split_pointer_root.
  - destruct (split_pointer_below _ _ Eroot Es) as (psegs & key & ->).
    rewrite resolve_segs_app in H.
    destruct (resolve_segs doc psegs) as [ parent | ] eqn:Ep; [ | discriminate ].
    cbn [rbind resolve_segs] in H.
    destruct (resolve_step parent key) as [ child | ] eqn:Estep; [ | discriminate ].
    rewrite (resolve_parent_of doc pointer psegs key parent Es Ep). cbn [rbind].
    unfold resolve. rewrite Es. cbn [rbind].
    destruct parent as [ | | | | | xs | kvs ]; try discriminate.
    + destruct (resolve_step_list _ _ _ Estep) as (i & Hk & Hi).
      rewrite Hk. cbn [key_is_dash].
      assert (Hlt : (i < length xs)%nat) by (eapply lookup_lt_Some; exact Hi).
      change (String.eqb "replace" "add") with false. cbv iota.
      unfold list_assign. destruct (Nat.ltb_spec i (length xs)); [ | lia ]. cbn [rbind].
      destruct (store_resolve psegs doc (JList xs) (JList (<[i:=value]> xs)) Ep)
        as (doc' & Hst & Hres).
      exists doc'. split; [ now rewrite Hst | ].
      rewrite resolve_segs_app, Hres. cbn [rbind resolve_segs].
      now rewrite resolve_step_assigned.
    + unfold _coerce_index. cbn [is_list andb].
      destruct (store_resolve psegs doc (JDict kvs) (JDict (dict_set key value kvs)) Ep)
        as (doc' & Hst & Hres).
      exists doc'. split; [ now rewrite Hst | ].
      rewrite resolve_segs_app, Hres. cbn [rbind resolve_segs].
      now rewrite resolve_step_set.
Qed.

Definition sample_document : Json :=
  JDict [("functions",
          JList [JDict [("name", JStr "f"); ("effects", JList [JStr "pure"])]])].

Lemma replace_then_resolve_witness :
  resolve sample_document "/functions/0/effects" = Ok (JList [JStr "pure"]) /\
  exists doc',
    apply_patch sample_document
      [op_replace "/functions/0/effects" (JList [JStr "io.print"])] = Ok doc' /\
    resolve doc' "/functions/0/effects" = Ok (JList [JStr "io.print"]).
Proof.
  split; [ reflexivity | ].
  apply (replace_then_resolve sample_document "/functions/0/effects"
           (JList [JStr "pure"]) (JList [JStr "io.print"])).
  reflexivity.
Defined.

(** X4: an [add] at a pointer whose segments but the last resolve to an
    object succeeds, whether or not the object has the member already, and
    afterwards the pointer resolves to the added value. *)
Theorem add_member_then_resolve (doc : Json) (pointer : string) (psegs : list string)
    (key : string) (members : list (string * Json)) (value : Json) :
  split_pointer pointer = Ok (psegs ++ [key]) ->
  resolve_segs doc psegs = Ok (JDict members) ->
  exists doc',
    apply_patch doc [op_add pointer value] = Ok doc' /\
    resolve doc' pointer = Ok value.
Proof.
  intros Es Ep. unfold apply_patch, op_add.
  rewrite apply_op_write by now left.
  destruct (String.eqb pointer "" || String.eqb pointer "/") eqn:Eroot.
  - rewrite split_pointer_root in Es by exact Eroot. now destruct psegs.
  - rewrite (resolve_parent_of doc pointer psegs key _ Es Ep). cbn [rbind].
    unfold _coerce_index. cbn [is_list andb].
    destruct (store_resolve psegs doc (JDict members)
                (JDict (dict_set key value members)) Ep)
      as (doc' & Hst & Hres).
    exists doc'. split; [ now rewrite Hst | ].
    unfold resolve. rewrite Es. cbn [rbind].
    rewrite resolve_segs_app, Hres. cbn [rbind resolve_segs].
    now rewrite resolve_step_set.
Qed.

Lemma add_member_then_resolve_witness :
  exists doc',
    apply_patch sample_document [op_add "/functions/0/returns" (JStr "Int")] = Ok doc' /\
    resolve doc' "/functions/0/returns" = Ok (JStr "Int").
Proof.
  apply (add_member_then_resolve sample_document "/functions/0/returns"
           ["functions"; "0"] "returns"
           [("name", JStr "f"); ("effects", JList [JStr "pure"])] (JStr "Int")).
  - reflexivity.
  - reflexivity.
Defined.

End PointerLaws.


(** ** [fmt.py]: the canonical form does not depend on the order of the members *)

Module FmtOrder.
Import Py PyFacts Fmt OrderedDictFacts FmtFacts.

(** *** [sorted] gives one answer for all orders of the same keys *)

Lemma ascii_compare_trans_le a b c :
  Ascii.compare a b <> Gt -> Ascii.compare b c <> Gt ->
  Ascii.compare a c <> Gt /\
  (Ascii.compare a c = Eq -> Ascii.compare a b = Eq /\ Ascii.compare b c = Eq).
Proof.
  unfold Ascii.compare.
  destruct (N.compare_spec (N_of_ascii a) (N_of_ascii b)) as [ Hab | Hab | Hab ];
    destruct (N.compare_spec (N_of_ascii b) (N_of_ascii c)) as [ Hbc | Hbc | Hbc ];
    destruct (N.compare_spec (N_of_ascii a) (N_of_ascii c)) as [ Hac | Hac | Hac ];
    intros H1 H2; split; try congruence; try (intros; split; congruence); lia.
Qed.

Lemma string_leb_trans x : forall y z,
  String.leb x y = true -> String.leb y z = true -> String.leb x z = true.
Proof.
  unfold String.leb.
  induction x as [ | a x IH ]; intros y z Hxy Hyz.
  - now destruct z.
  - destruct y as [ | b y ]; [ discriminate | ].
    destruct z as [ | c z ]; [ discriminate | ].
    simpl in *.
    destruct (ascii_compare_trans_le a b c) as [Hle Heq].
    + destruct (Ascii.compare a b); congruence.
    + destruct (Ascii.compare b c); congruence.
    + destruct (Ascii.compare a c) eqn:Eac; [ | reflexivity | congruence ].
      destruct (Heq eq_refl) as [Eab Ebc]. rewrite Eab in Hxy. rewrite Ebc in Hyz.
      apply (IH y z Hxy Hyz).
Qed.

Lemma insert_sorted_comm x y l :
  insert_sorted x (insert_sorted y l) = insert_sorted y (insert_sorted x l).
Proof.
  induction l as [ | c l IH ]; simpl.
  - destruct (String.leb x y) eqn:Exy, (String.leb y x) eqn:Eyx; try reflexivity.
    + now rewrite (String.leb_antisym x y Exy Eyx).
    + apply leb_total in Exy. congruence.
  - destruct (String.leb y c) eqn:Eyc, (String.leb x c) eqn:Exc; simpl.
    + destruct (String.leb x y) eqn:Exy, (String.leb y x) eqn:Eyx; rewrite ?Eyc, ?Exc;
        try reflexivity.
      * now rewrite (String.leb_antisym x y Exy Eyx).
      * apply leb_total in Exy. congruence.
    + destruct (String.leb x y) eqn:Exy.
      * rewrite (string_leb_trans x y c Exy Eyc) in Exc. discriminate.
      * now rewrite Exc, Eyc.
    + destruct (String.leb y x) eqn:Eyx.
      * rewrite (string_leb_trans y x c Eyx Exc) in Eyc. discriminate.
      * now rewrite Exc, Eyc.
    + now rewrite Exc, Eyc, IH.
Qed.

Lemma sorted_Permutation l1 l2 : Permutation l1 l2 -> sorted l1 = sorted l2.
Proof.
  induction 1 as [ | x l1 l2 _ IH | x y l | l1 l2 l3 _ IH1 _ IH2 ]; simpl.
  - reflexivity.
  - now rewrite IH.
  - apply insert_sorted_comm.
  - congruence.
Qed.

Lemma filter_Permutation' {A} (f : A -> bool) l1 l2 :
  Permutation l1 l2 -> Permutation (List.filter f l1) (List.filter f l2).
Proof.
  induction 1 as [ | x l1 l2 _ IH | x y l | l1 l2 l3 _ IH1 _ IH2 ]; simpl.
  - constructor.
  - destruct (f x); [ now constructor | exact IH ].
  - destruct (f x), (f y); try reflexivity. constructor.
  - etransitivity; eassumption.
Qed.

(** [_ordered_dict] depends on what a dict maps its keys to, not on the
    order it lists them in. *)
Lemma ordered_ext {V} (d1 d2 : list (string * V)) P :
  (forall k, dict_get k d1 = dict_get k d2) ->
  Permutation (keys d1) (keys d2) ->
  _ordered_dict d1 P = _ordered_dict d2 P.
Proof.
  intros Hget Hperm. rewrite !ordered_dict_unfold.
  assert (Hrest : rest d1 P = rest d2 P).
  { unfold rest. apply sorted_Permutation.
    rewrite (List.filter_ext (fun k => negb (dict_has k (pick d1 P)))
               (fun k => negb (dict_has k (pick d2 P)))).
    - now apply filter_Permutation'.
    - intros k. rewrite !dict_has_pick. unfold dict_has. now rewrite Hget. }
  rewrite Hrest. f_equal; apply pick_ext; intros; apply Hget.
Qed.

(** *** Values that are equal but for the order of their members *)

(** The keys of every dict in the value are distinct, as in a dict that
    [json.loads] built. *)
Fixpoint distinct_keys (v : Json) : bool :=
  match v with
  | JList xs => forallb distinct_keys xs
  | JDict d => bool_decide (NoDup (keys d)) && forallb (fun kv => distinct_keys kv.2) d
  | _ => true
  end.

(** Equality of two values as Python compares lists and dicts: element by
    element, and member by member whatever the insertion order. *)
Fixpoint equal_up_to_order (a b : Json) : bool :=
  match a, b with
  | JNull, JNull => true
  | JBool x, JBool y => Bool.eqb x y
  | JInt x, JInt y => Z.eqb x y
  | JFloat x, JFloat y => String.eqb x y
  | JStr x, JStr y => String.eqb x y
  | JList xs, JList ys =>
      (fix all2 (xs ys : list Json) : bool :=
         match xs, ys with
         | [], [] => true
         | x :: xs', y :: ys' => equal_up_to_order x y && all2 xs' ys'
         | _, _ => false
         end) xs ys
  | JDict d1, JDict d2 =>
      Nat.eqb (length d1) (length d2)
      && (fix members (l : list (string * Json)) : bool :=
            match l with
            | [] => true
            | (k, v) :: l' =>
                match dict_get k d2 with
                | Some w => equal_up_to_order v w
                | None => false
                end && members l'
            end) d1
  | _, _ => false
  end.

Definition members_agree (d1 d2 : list (string * Json)) : bool :=
  forallb (fun kv => match dict_get kv.1 d2 with
                     | Some w => equal_up_to_order kv.2 w
                     | None => false
                     end) d1.

Lemma equal_dicts d1 d2 :
  equal_up_to_order (JDict d1) (JDict d2)
  = Nat.eqb (length d1) (length d2) && members_agree d1 d2.
Proof.
  unfold members_agree. simpl. f_equal.
  induction d1 as [ | [k v] d1 IH ]; simpl; [ reflexivity | ]. now rewrite IH.
Qed.

Lemma distinct_dict d :
  distinct_keys (JDict d) = true ->
  NoDup (keys d) /\ forall k v, In (k, v) d -> distinct_keys v = true.
Proof.
  simpl. intros H. apply andb_true_iff in H as [Hn Hv].
  split; [ now apply bool_decide_eq_true in Hn | ].
  intros k v Hin. rewrite forallb_forall in Hv. apply (Hv (k, v) Hin).
Qed.

Lemma keys_In {V} k (v : V) d : In (k, v) d -> In k (keys d).
Proof. intros H. unfold keys. apply in_map_iff. now exists (k, v). Qed.

Lemma dict_get_of_In {V} k (v : V) d : NoDup (keys d) -> In (k, v) d -> dict_get k d = Some v.
Proof.
  induction d as [ | [k' v'] d IH ]; simpl; [ tauto | ].
  intros Hn. apply NoDup_cons in Hn as [Hk Hn].
  intros [ [= -> ->] | Hin ].
  - now rewrite String.eqb_refl.
  - destruct (String.eqb_spec k k') as [ -> | Hne ]; [ | now apply IH ].
    exfalso. apply Hk. apply list_elem_of_In. eapply keys_In; exact Hin.
Qed.

Section Agreement.
Variables d1 d2 : list (string * Json).
Hypothesis Hd1 : distinct_keys (JDict d1) = true.
Hypothesis Hd2 : distinct_keys (JDict d2) = true.
Hypothesis Heq : equal_up_to_order (JDict d1) (JDict d2) = true.

Lemma equal_length : length d1 = length d2.
Proof.
  rewrite equal_dicts in Heq. apply andb_true_iff in Heq as [Hl _].
  now apply Nat.eqb_eq in Hl.
Qed.

Lemma equal_member k a :
  dict_get k d1 = Some a ->
  exists b, dict_get k d2 = Some b /\ equal_up_to_order a b = true.
Proof.
  intros Hg. apply dict_get_In in Hg.
  rewrite equal_dicts in Heq. apply andb_true_iff in Heq as [_ Hm].
  unfold members_agree in Hm. rewrite forallb_forall in Hm.
  specialize (Hm (k, a) Hg). simpl in Hm.
  destruct (dict_get k d2) as [ b | ]; [ | discriminate ]. now exists b.
Qed.

Lemma equal_keys : Permutation (keys d1) (keys d2).
Proof.
  destruct (distinct_dict d1 Hd1) as [Hn1 _].
  apply submseteq_length_Permutation;
    [ apply NoDup_submseteq; [ exact Hn1 | ]
    | unfold keys; rewrite !length_map; now rewrite equal_length ].
  intros k Hk. apply list_elem_of_In. apply list_elem_of_In in Hk.
  destruct (dict_get k d1) as [ a | ] eqn:Hg.
  - destruct (equal_member k a Hg) as (b & Hb & _).
    apply dict_get_In in Hb. eapply keys_In; exact Hb.
  - apply dict_get_None_keys in Hg. contradiction.
Qed.

Lemma equal_has k : dict_has k d1 = dict_has k d2.
Proof.
  rewrite !dict_has_keys.
  destruct (mem k (keys d1)) eqn:E1; symmetry.
  - apply mem_true_iff. apply mem_true_iff in E1.
    eapply Permutation_in; [ exact equal_keys | exact E1 ].
  - apply mem_false_iff. apply mem_false_iff in E1. intros H. apply E1.
    eapply Permutation_in; [ symmetry; exact equal_keys | exact H ].
Qed.

End Agreement.

(** The statement proved by induction on the first value. *)
Definition agree (v : Json) : Prop :=
  forall b, distinct_keys v = true -> distinct_keys b = true ->
            equal_up_to_order v b = true -> canonicalize v = canonicalize b.

Definition members_canonical (v : Json) : Prop :=
  forall inner, v = JDict inner -> Forall (fun kv => agree kv.2) inner.

Lemma items_agree d1 d2 :
  Forall (fun kv => agree kv.2) d1 ->
  distinct_keys (JDict d1) = true -> distinct_keys (JDict d2) = true ->
  equal_up_to_order (JDict d1) (JDict d2) = true ->
  forall k, dict_get k (map_values canonicalize d1) = dict_get k (map_values canonicalize d2).
Proof.
  intros IH Hd1 Hd2 Heq k. rewrite !dict_get_map_values.
  destruct (dict_get k d1) as [ a | ] eqn:Hg.
  - destruct (equal_member d1 d2 Heq k a Hg) as (b & Hb & Hab). rewrite Hb. simpl.
    f_equal. rewrite List.Forall_forall in IH.
    apply (IH (k, a)).
    + now apply dict_get_In.
    + destruct (distinct_dict d1 Hd1) as [_ H]. apply (H k a). now apply dict_get_In.
    + destruct (distinct_dict d2 Hd2) as [_ H]. apply (H k b). now apply dict_get_In.
    + exact Hab.
  - pose proof (equal_has d1 d2 Hd1 Heq k) as Hh. unfold dict_has in Hh.
    rewrite Hg in Hh. now destruct (dict_get k d2).
Qed.

Lemma ordered_items_agree d1 d2 P :
  Forall (fun kv => agree kv.2) d1 ->
  distinct_keys (JDict d1) = true -> distinct_keys (JDict d2) = true ->
  equal_up_to_order (JDict d1) (JDict d2) = true ->
  _ordered_dict (map_values canonicalize d1) P = _ordered_dict (map_values canonicalize d2) P.
Proof.
  intros IH Hd1 Hd2 Heq. apply ordered_ext.
  - now apply items_agree.
  - rewrite !keys_map_values. now apply equal_keys.
Qed.

Lemma equal_dict_inv d1 b :
  equal_up_to_order (JDict d1) b = true -> exists d2, b = JDict d2.
Proof. destruct b; try discriminate. eauto. Qed.

Lemma equal_not_dict a b :
  equal_up_to_order a b = true -> is_dict a = false -> is_dict b = false.
Proof. destruct a, b; try discriminate; reflexivity. Qed.

Lemma dict_agree d1 :
  Forall (fun kv => agree kv.2 /\ members_canonical kv.2) d1 -> agree (JDict d1).
Proof.
  intros IH b Hd1 Hdb Heq.
  destruct (equal_dict_inv d1 b Heq) as [d2 ->].
  assert (IHa : Forall (fun kv => agree kv.2) d1).
  { eapply List.Forall_impl; [ | exact IH ]. now intros kv [H _]. }
  pose proof (fun P => ordered_items_agree d1 d2 P IHa Hd1 Hdb Heq) as Hord.
  pose proof (equal_length d1 d2 Heq) as Hlen.
  rewrite !canonicalize_JDict. unfold canon_dict.
  destruct (heuristics_ext d1 d2 (equal_has d1 d2 Hd1 Heq)) as (-> & -> & -> & ->).
  destruct (is_module_node d2); [ now rewrite Hord | ].
  destruct (is_function_node d2); [ now rewrite Hord | ].
  destruct (is_test_node d2); [ now rewrite Hord | ].
  destruct (is_property_node d2); [ now rewrite Hord | ].
  destruct d1 as [ | [tag v1] [ | kv1 d1 ] ];
    destruct d2 as [ | [tag2 v2] [ | kv2 d2 ] ]; try discriminate Hlen;
    cbv beta match; try reflexivity; try (now rewrite Hord).
  (* both have one member *)
  destruct (equal_member _ _ Heq tag v1) as (w & Hw & Hv).
  { simpl. now rewrite String.eqb_refl. }
  simpl in Hw. destruct (String.eqb_spec tag tag2) as [ <- | ]; [ | discriminate ].
  injection Hw as <-.
  apply Forall_inv in IH as [Hagree Hinner]. simpl in Hagree, Hinner.
  assert (Hw1 : distinct_keys v1 = true).
  { destruct (distinct_dict _ Hd1) as [_ H]. apply (H tag v1). now left. }
  assert (Hw2 : distinct_keys v2 = true).
  { destruct (distinct_dict _ Hdb) as [_ H]. apply (H tag v2). now left. }
  pose proof (Hagree v2 Hw1 Hw2 Hv) as Hcanon.
  destruct v1 as [ | | | | | xs1 | inner1 ]; destruct v2 as [ | | | | | xs2 | inner2 ];
    try discriminate Hv; cbv beta match; rewrite ?Hcanon, ?Hord; try reflexivity.
  pose proof (fun P => ordered_items_agree inner1 inner2 P (Hinner inner1 eq_refl) Hw1 Hw2 Hv)
    as Hinn.
  rewrite !sorted_items_ordered, !Hinn. reflexivity.
Qed.

Lemma list_agree xs : Forall agree xs -> agree (JList xs).
Proof.
  intros IH b Hd Hdb Heq. destruct b as [ | | | | | ys | ]; try discriminate.
  simpl. f_equal. simpl in Hd, Hdb, Heq.
  revert ys Hdb Heq. induction IH as [ | x xs Hx _ IHxs ]; intros [ | y ys ] Hdb Heq;
    try discriminate; [ reflexivity | ].
  simpl in Hd, Hdb. apply andb_true_iff in Hd as [Hdx Hdxs].
  apply andb_true_iff in Hdb as [Hdy Hdys]. apply andb_true_iff in Heq as [Hxy Hrest].
  simpl. f_equal; [ now apply Hx | now apply IHxs ].
Qed.

Lemma agree_all v : agree v /\ members_canonical v.
Proof.
  induction v as [ | b | n | r | s | xs IH | kvs IH ] using Json_ind'.
  1-5: split; [ intros b' _ _ Heq; destruct b'; try discriminate; simpl in Heq
              | intros inner [=] ].
  - reflexivity.
  - now apply Bool.eqb_prop in Heq as ->.
  - now apply Z.eqb_eq in Heq as ->.
  - now apply String.eqb_eq in Heq as ->.
  - now apply String.eqb_eq in Heq as ->.
  - split; [ | intros inner [=] ]. apply list_agree.
    eapply List.Forall_impl; [ | exact IH ]. now intros x [H _].
  - split; [ now apply dict_agree | ].
    intros inner [= <-]. eapply List.Forall_impl; [ | exact IH ]. now intros kv [H _].
Qed.

(** X5: two values that are equal but for the order in which their
    objects list their members have the same canonical form, and
    [dumps_canonical] prints the same text for both. *)
Theorem canonical_form_ignores_member_order (a b : Json) :
  distinct_keys a = true -> distinct_keys b = true ->
  equal_up_to_order a b = true ->
  canonicalize a = canonicalize b /\ dumps_canonical a = dumps_canonical b.
Proof.
  intros Ha Hb Hab.
  assert (H : canonicalize a = canonicalize b) by now apply (proj1 (agree_all a)).
  split; [ exact H | ]. unfold dumps_canonical. now rewrite H.
Qed.

Definition function_one_order : Json :=
  JDict [("body", JList [JDict [("return", JDict [("var", JStr "x")])]]);
         ("effects", JList [JStr "pure"]);
         ("params", JList [JStr "x"]);
         ("name", JStr "id")].

Definition function_other_order : Json :=
  JDict [("name", JStr "id");
         ("params", JList [JStr "x"]);
         ("body", JList [JDict [("return", JDict [("var", JStr "x")])]]);
         ("effects", JList [JStr "pure"])].

Lemma canonical_form_ignores_member_order_witness :
  canonicalize function_one_order = canonicalize function_other_order /\
  dumps_canonical function_one_order = dumps_canonical function_other_order.
Proof.
  apply (canonical_form_ignores_member_order function_one_order function_other_order);
    vm_compute; reflexivity.
Defined.

Lemma NoDup_list_filter {A} (f : A -> bool) l : NoDup l -> NoDup (List.filter f l).
Proof.
  induction 1 as [ | x l Hx Hl IH ]; simpl; [ constructor | ].
  destruct (f x); [ | exact IH ]. constructor; [ | exact IH ].
  rewrite list_elem_of_In, filter_In. rewrite list_elem_of_In in Hx. tauto.
Qed.

(** X6: [_ordered_dict] loses and changes nothing: every key maps to the
    value it had, the result has as many items as the dict, and its keys
    are the preferred keys that the dict has, in the preferred order,
    followed by the other keys in ascending order. *)
Theorem ordered_dict_keeps_members {V} (obj : list (string * V)) (preferred : list string) :
  NoDup preferred ->
  (forall k, dict_get k (_ordered_dict obj preferred) = dict_get k obj) /\
  keys (_ordered_dict obj preferred)
  = List.filter (fun k => dict_has k obj) preferred
    ++ sorted (List.filter (fun k => negb (mem k preferred)) (keys obj)) /\
  (NoDup (keys obj) -> length (_ordered_dict obj preferred) = length obj).
Proof.
  intros Hp.
  assert (Hrest : rest obj preferred
                  = sorted (List.filter (fun k => negb (mem k preferred)) (keys obj))).
  { unfold rest. f_equal. apply filter_ext_in. intros k Hk.
    rewrite dict_has_pick. assert (dict_has k obj = true) as ->.
    { rewrite dict_has_keys. now apply mem_true_iff. }
    now rewrite andb_true_r. }
  split; [ intros k; apply dict_get_ordered | ].
  split; [ now rewrite keys_ordered, Hrest | ].
  intros Hn.
  rewrite <- (length_map fst (_ordered_dict obj preferred)).
  change (map fst (_ordered_dict obj preferred)) with (keys (_ordered_dict obj preferred)).
  rewrite keys_ordered, Hrest, length_app, length_sorted.
  rewrite <- (length_map fst obj). change (map fst obj) with (keys obj).
  rewrite <- (List.filter_length (fun k => mem k preferred) (keys obj)).
  f_equal.
  apply Permutation_length, NoDup_Permutation.
  - apply NoDup_list_filter. exact Hp.
  - apply NoDup_list_filter. exact Hn.
  - intros k. rewrite !list_elem_of_In, !filter_In, dict_has_keys, !mem_true_iff. tauto.
Qed.

Lemma ordered_dict_keeps_members_witness :
  (forall k, dict_get k (_ordered_dict [("z", 1); ("name", 2); ("a", 3)] FUNCTION_KEY_ORDER)
             = dict_get k [("z", 1); ("name", 2); ("a", 3)]) /\
  keys (_ordered_dict [("z", 1); ("name", 2); ("a", 3)] FUNCTION_KEY_ORDER)
  = ["name"; "a"; "z"] /\
  (NoDup (keys [("z", 1); ("name", 2); ("a", 3)]) ->
   length (_ordered_dict [("z", 1); ("name", 2); ("a", 3)] FUNCTION_KEY_ORDER) = 3%nat).
Proof.
  apply (ordered_dict_keeps_members [("z", 1); ("name", 2); ("a", 3)] FUNCTION_KEY_ORDER).
  apply (bool_decide_unpack _). vm_compute. exact I.
Defined.

End FmtOrder.


(** ** [semantic.py]: what the flow analysis guarantees *)

Module SemanticFacts.
Import Py PyFacts Pointer Semantic.

(** *** The loop of [_analyze_block] *)

Section Blocks.
Variable A : Json -> list Seg -> Flow -> list Issue -> option Analysis.

Definition unreachable (ptr : list Seg) (i : nat) : Issue :=
  warning (ptr ++ [SegI i]) "UnreachableStatement"
    "Statement is unreachable (previous statement always returns).".

(** Once the block has returned, the rest is only reported. *)
Lemma analyze_stmts_terminated ptr stmts : forall i flow issues,
  analyze_stmts A ptr i stmts flow true issues
  = Some (flow, true, issues ++ map (fun k => unreachable ptr (i + k)) (seq 0 (length stmts))).
Proof.
  induction stmts as [ | s stmts IH ]; intros i flow issues; simpl.
  - now rewrite app_nil_r.
  - rewrite IH. rewrite <- app_assoc. simpl. rewrite Nat.add_0_r.
    do 3 f_equal. f_equal. rewrite <- seq_shift, map_map.
    apply map_ext. intros k. f_equal. lia.
Qed.

Lemma analyze_stmts_app ptr pre post : forall i flow t issues,
  analyze_stmts A ptr i (pre ++ post) flow t issues
  = match analyze_stmts A ptr i pre flow t issues with
    | Some (flow1, t1, issues1) => analyze_stmts A ptr (i + length pre) post flow1 t1 issues1
    | None => None
    end.
Proof.
  induction pre as [ | s pre IH ]; intros i flow t issues; simpl.
  - now rewrite Nat.add_0_r.
  - destruct t.
    + rewrite IH. now replace (i + S (length pre))%nat with (S i + length pre)%nat by lia.
    + destruct (A s (ptr ++ [SegI i]) flow issues) as [ [ [flow1 t1] issues1 ] | ];
        [ | reflexivity ].
      rewrite IH. now replace (i + S (length pre))%nat with (S i + length pre)%nat by lia.
Qed.

End Blocks.

(** *** A block that the checker says always returns never falls through *)

Section Returns.
Variable BUILTINS : string -> bool.
Variable call_builtin :
  (string -> list Json -> option (result Json)) -> string -> list Json -> option (result Json).
Variable fns : Sandbox.Fns.

#[local] Abbreviation eval_expr := (Sandbox.eval_expr BUILTINS call_builtin fns).
#[local] Abbreviation exec_stmt := (Sandbox.exec_stmt BUILTINS call_builtin fns).
#[local] Abbreviation exec_block := (Sandbox.exec_block BUILTINS call_builtin fns).

Definition never_falls_through (r : option Sandbox.Exec) : Prop :=
  forall env', r <> Some (Sandbox.Continue env').

Lemma block_never_falls_through
    (A : Json -> list Seg -> Flow -> list Issue -> option Analysis)
    (exec : Json -> Sandbox.Env -> option Sandbox.Exec) :
  (forall stmt p f i f' i' env,
      A stmt p f i = Some (f', true, i') -> never_falls_through (exec stmt env)) ->
  forall stmts ptr i flow issues flow' issues' env,
    analyze_stmts A ptr i stmts flow false issues = Some (flow', true, issues') ->
    never_falls_through (Sandbox.exec_stmts exec stmts env).
Proof.
  intros HA. induction stmts as [ | s stmts IH ];
    intros ptr i flow issues flow' issues' env H env'.
  - simpl in H. discriminate.
  - simpl in H.
    destruct (A s (ptr ++ [SegI i]) flow issues) as [ [ [f1 ar] i1 ] | ] eqn:EA;
      [ | discriminate ].
    simpl. destruct (exec s env) as [ [ env1 | v | e ] | ] eqn:Ee; try discriminate.
    destruct ar.
    + exfalso. apply (HA _ _ _ _ _ _ env EA env1). exact Ee.
    + eapply IH. exact H.
Qed.

Lemma stmt_never_falls_through sfuel :
  forall afuel stmt ptr flow issues known flow' issues' env,
    _analyze_stmt afuel stmt ptr flow issues known = Some (flow', true, issues') ->
    never_falls_through (exec_stmt sfuel stmt env).
Proof.
  induction sfuel as [ | sfuel IH ];
    intros afuel stmt ptr flow issues known flow' issues' env H env'.
  - discriminate.
  - destruct afuel as [ | afuel ]; [ discriminate | ].
    cbn [_analyze_stmt] in H.
    destruct stmt as [ | | | | | | [ | [tag body] [ | ] ] ]; try discriminate H.
    simpl.
    destruct (String.eqb tag "let"); [ exfalso; repeat case_match; discriminate H | ].
    destruct (String.eqb tag "expr"); [ exfalso; repeat case_match; discriminate H | ].
    destruct (String.eqb tag "assert"); [ exfalso; repeat case_match; discriminate H | ].
    destruct (String.eqb tag "return").
    { intros Hc. clear H. repeat case_match; congruence. }
    destruct (String.eqb tag "if"); [ | discriminate ].
    destruct body as [ | | | | | | spec ]; try discriminate H.
    destruct (_analyze_expr afuel (default JNull (dict_get "cond" spec))
                (ptr ++ [SegS "if"; SegS "cond"]) flow issues known) as [ issues1 | ];
      [ | discriminate ].
    destruct (default (JList []) (dict_get "then" spec)) as [ | | | | | then_ | ] eqn:Ethen;
      try discriminate H.
    destruct (default (JList []) (dict_get "else" spec)) as [ | | | | | els | ] eqn:Eelse;
      try discriminate H.
    destruct (analyze_stmts _ (ptr ++ [SegS "if"; SegS "then"]) 0 then_ flow false issues1)
      as [ [ [flow_then ret_then] issues2 ] | ] eqn:Hthen; [ | discriminate ].
    destruct (analyze_stmts _ (ptr ++ [SegS "if"; SegS "else"]) 0 els flow false issues2)
      as [ [ [flow_else ret_else] issues3 ] | ] eqn:Helse; [ | discriminate ].
    injection H as _ Hret _. apply andb_true_iff in Hret as [-> ->].
    destruct (Sandbox.eval_expr BUILTINS call_builtin fns sfuel
                (default JNull (dict_get "cond" spec)) env) as [ [ cond | e ] | ];
      try discriminate.
    destruct (Sandbox.truthy cond); cbv beta match.
    + rewrite Ethen.
      eapply (block_never_falls_through _ _ (fun s p f i f' i' env0 => IH afuel s p f i known f' i' env0)).
      exact Hthen.
    + rewrite Eelse.
      eapply (block_never_falls_through _ _ (fun s p f i f' i' env0 => IH afuel s p f i known f' i' env0)).
      exact Helse.
Qed.

(** What [_analyze_block] says about returning. *)
Definition always_returns (r : option Analysis) : bool :=
  match r with
  | Some (_, true, _) => true
  | _ => false
  end.

(** X7: a block for which [_analyze_block] answers that it always returns
    is never left by falling through when the sandbox runs it: whatever
    the environment, the functions, the builtins and the fuel, running it
    ends in a [ReturnSignal] or in another exception. *)
Theorem always_returns_sound (afuel sfuel : nat) (stmts : list Json) (ptr : list Seg)
    (flow : Flow) (issues : list Issue) (known : Arities) (env : Sandbox.Env) :
  always_returns (_analyze_block afuel stmts ptr flow issues known) = true ->
  forall env', exec_block sfuel stmts env <> Some (Sandbox.Continue env').
Proof.
  unfold always_returns, _analyze_block, Sandbox.exec_block.
  destruct (analyze_stmts _ ptr 0 stmts flow false issues)
    as [ [ [flow' [ | ] ] issues' ] | ] eqn:H; try discriminate.
  intros _.
  eapply (block_never_falls_through _ _
            (fun s p f i f' i' env0 =>
               stmt_never_falls_through sfuel afuel s p f i known f' i' env0)).
  exact H.
Qed.

End Returns.

Definition no_flow : Flow := mkFlow ∅ ∅.

Definition branching_block : list Json :=
  [JDict [("if", JDict [("cond", JBool true);
                        ("then", JList [JDict [("return", JInt 1)]]);
                        ("else", JList [JDict [("return", JInt 2)]])])]].

Lemma always_returns_sound_witness :
  always_returns (_analyze_block 5 branching_block [] no_flow [] BUILTIN_ARITY) = true /\
  forall env',
    Sandbox.exec_block (fun _ => false) (fun _ _ _ => Some (Ok JNull)) [] 5 branching_block []
    <> Some (Sandbox.Continue env').
Proof.
  split; [ vm_compute; reflexivity | ].
  apply (always_returns_sound (fun _ => false) (fun _ _ _ => Some (Ok JNull)) []
           5 5 branching_block [] no_flow [] BUILTIN_ARITY []).
  vm_compute. reflexivity.
Defined.

(** *** The analysis only adds: to the issues and to the flow *)

Definition extends (issues issues' : list Issue) : Prop :=
  exists new, issues' = issues ++ new.

Lemma extends_refl issues : extends issues issues.
Proof. exists []. now rewrite app_nil_r. Qed.

Lemma extends_trans a b c : extends a b -> extends b c -> extends a c.
Proof. intros [x ->] [y ->]. exists (x ++ y). now rewrite app_assoc. Qed.

Lemma extends_app issues new : extends issues (issues ++ new).
Proof. now exists new. Qed.

Lemma each_element_extends analyze base xs :
  (forall a p iss iss', analyze a p iss = Some iss' -> extends iss iss') ->
  forall i issues issues',
    each_element analyze base i xs issues = Some issues' -> extends issues issues'.
Proof.
  intros HA. induction xs as [ | a xs IH ]; intros i issues issues'; simpl.
  - intros [= <-]. apply extends_refl.
  - destruct (analyze a (base ++ [SegI i]) issues) as [ iss1 | ] eqn:E; [ | discriminate ].
    intros H. eapply extends_trans; [ eapply HA; exact E | eapply IH; exact H ].
Qed.

Lemma each_member_extends analyze base kvs :
  (forall a p iss iss', analyze a p iss = Some iss' -> extends iss iss') ->
  forall issues issues',
    each_member analyze base kvs issues = Some issues' -> extends issues issues'.
Proof.
  intros HA. induction kvs as [ | [k v] kvs IH ]; intros issues issues'; simpl.
  - intros [= <-]. apply extends_refl.
  - destruct (analyze v (base ++ [SegS k]) issues) as [ iss1 | ] eqn:E; [ | discriminate ].
    intros H. eapply extends_trans; [ eapply HA; exact E | eapply IH; exact H ].
Qed.

Lemma call_issues_extends ptr fn args known issues :
  extends issues (call_issues ptr fn args known issues).
Proof.
  unfold call_issues.
  repeat case_match; eauto using extends_refl, extends_app, extends_trans.
Qed.

Lemma analyze_expr_extends fuel : forall e ptr flow issues known issues',
  _analyze_expr fuel e ptr flow issues known = Some issues' -> extends issues issues'.
Proof.
  induction fuel as [ | fuel IH ]; intros e ptr flow issues known issues' H; [ discriminate | ].
  cbn [_analyze_expr] in H.
  assert (HA : forall a p iss iss',
             _analyze_expr fuel a p flow iss known = Some iss' -> extends iss iss')
    by (intros; eapply IH; eassumption).
  repeat case_match; try discriminate; simplify_eq;
    eauto using extends_refl, extends_app.
  - apply (each_element_extends _ _ _ HA) in H.
    exact (extends_trans _ _ _ (call_issues_extends _ _ _ _ _) H).
  - exact (each_element_extends _ _ _ HA _ _ _ H).
  - exact (each_member_extends _ _ _ HA _ _ H).
Qed.

(** The flow after a statement holds every variable of the flow before. *)
Definition flow_le (f g : Flow) : Prop :=
  definite f ⊆ definite g /\ maybe f ⊆ maybe g.

(** A variable defined on every path is defined on some path. *)
Definition consistent (f : Flow) : Prop := definite f ⊆ maybe f.

Definition grows (flow : Flow) (issues : list Issue) (r : Analysis) : Prop :=
  flow_le flow r.1.1 /\ (consistent flow -> consistent r.1.1) /\ extends issues r.2.

Lemma grows_trans flow issues r r' :
  grows flow issues r -> grows r.1.1 r.2 r' -> grows flow issues r'.
Proof.
  intros ([Hd Hm] & Hc & He) ([Hd' Hm'] & Hc' & He').
  repeat split; try (etransitivity; eassumption); auto.
  all: try (eapply extends_trans; eassumption).
Qed.

Lemma analyze_stmts_grows A ptr stmts :
  (forall s p f i r, A s p f i = Some r -> grows f i r) ->
  forall i flow t issues r,
    analyze_stmts A ptr i stmts flow t issues = Some r -> grows flow issues r.
Proof.
  intros HA. induction stmts as [ | s stmts IH ]; intros i flow t issues r; simpl.
  - intros [= <-]. repeat split; auto using extends_refl.
  - destruct t.
    + intros H. apply IH in H. destruct H as (Hf & Hc & He).
      repeat split; try apply Hf; auto.
      eapply extends_trans; [ apply extends_app | exact He ].
    + destruct (A s (ptr ++ [SegI i]) flow issues) as [ [ [f1 t1] i1 ] | ] eqn:E;
        [ | discriminate ].
      intros H. eapply grows_trans; [ eapply HA; exact E | eapply IH; exact H ].
Qed.

Ltac solve_extends :=
  unfold extends in *;
  repeat match goal with
         | H : exists _, _ = _ |- _ => destruct H as [? ->]
         end;
  rewrite <- ?app_assoc; eexists; reflexivity.

Lemma analyze_stmt_grows fuel : forall stmt ptr flow issues known r,
  _analyze_stmt fuel stmt ptr flow issues known = Some r -> grows flow issues r.
Proof.
  induction fuel as [ | fuel IH ]; intros stmt ptr flow issues known r H; [ discriminate | ].
  cbn [_analyze_stmt] in H.
  assert (HB : forall stmts p iss r0,
             analyze_stmts (fun s sp f i => _analyze_stmt fuel s sp f i known)
               p 0 stmts flow false iss = Some r0 -> grows flow iss r0).
  { intros stmts p iss r0. apply analyze_stmts_grows.
    intros s sp f i r1. apply IH. }
  clear IH.
  repeat case_match; try discriminate; simplify_eq;
    repeat match goal with
           | H : _analyze_expr _ _ _ _ _ _ = Some _ |- _ => apply analyze_expr_extends in H
           | H : analyze_stmts _ _ _ _ _ _ _ = Some _ |- _ =>
               apply HB in H; destruct H as ([? ?] & ? & ?)
           end;
    clear HB; unfold grows, flow_le, consistent in *; simpl in *;
    (split; [ split; set_solver | split; [ | solve_extends ] ]);
    intros Hc; repeat match goal with
                      | H : _ -> _ |- _ => specialize (H Hc)
                      end; set_solver.
Qed.

(** X8: [_analyze_block] only adds. The flow it returns holds every
    variable of the flow it was given; if the variables defined on every
    path were among those defined on some path, they still are; and the
    issues reported before the block are kept, in order, in front of the
    new ones. *)
Theorem analyze_block_only_adds (fuel : nat) (stmts : list Json) (ptr : list Seg)
    (flow_in : Flow) (issues : list Issue) (known : Arities)
    (flow_out : Flow) (returns : bool) (issues' : list Issue) :
  _analyze_block fuel stmts ptr flow_in issues known = Some (flow_out, returns, issues') ->
  definite flow_in ⊆ definite flow_out /\
  maybe flow_in ⊆ maybe flow_out /\
  (definite flow_in ⊆ maybe flow_in -> definite flow_out ⊆ maybe flow_out) /\
  exists new, issues' = issues ++ new.
Proof.
  unfold _analyze_block. intros H.
  apply (analyze_stmts_grows _ _ _ (fun s p f i r => analyze_stmt_grows fuel s p f i known r))
    in H.
  destruct H as ([Hd Hm] & Hc & He). auto.
Qed.

Definition let_then_use : list Json :=
  [JDict [("let", JDict [("name", JStr "y"); ("expr", JInt 1)])];
   JDict [("return", JDict [("var", JStr "z")])]].

Lemma analyze_block_only_adds_witness :
  exists flow_out returns issues',
    _analyze_block 4 let_then_use [] no_flow [] BUILTIN_ARITY
    = Some (flow_out, returns, issues') /\
    definite no_flow ⊆ definite flow_out /\
    maybe no_flow ⊆ maybe flow_out /\
    (definite no_flow ⊆ maybe no_flow -> definite flow_out ⊆ maybe flow_out) /\
    exists new, issues' = [] ++ new.
Proof.
  eexists _, _, _. split; [ vm_compute; reflexivity | ].
  eapply (analyze_block_only_adds 4 let_then_use [] no_flow [] BUILTIN_ARITY).
  vm_compute. reflexivity.
Defined.

(** *** Enough fuel: the nesting depth of the value *)

Fixpoint depth (v : Json) : nat :=
  match v with
  | JList xs => S (fold_right (fun x acc => Nat.max (depth x) acc) 0%nat xs)
  | JDict kvs => S (fold_right (fun kv acc => Nat.max (depth kv.2) acc) 0%nat kvs)
  | _ => 1
  end.

Lemma depth_element x xs : In x xs -> (depth x < depth (JList xs))%nat.
Proof.
  simpl. induction xs as [ | y xs IH ]; simpl; [ tauto | ].
  intros [ -> | H ]; [ lia | ]. specialize (IH H). lia.
Qed.

Lemma depth_member k v kvs : In (k, v) kvs -> (depth v < depth (JDict kvs))%nat.
Proof.
  simpl. induction kvs as [ | [k' v'] kvs IH ]; simpl; [ tauto | ].
  intros [ [= -> ->] | H ]; [ lia | ]. specialize (IH H). lia.
Qed.

Lemma depth_get k v kvs : dict_get k kvs = Some v -> (depth v < depth (JDict kvs))%nat.
Proof. intros H. eapply depth_member, dict_get_In, H. Qed.

Lemma depth_default k kvs :
  (depth (default (JList []) (dict_get k kvs)) <= depth (JDict kvs))%nat.
Proof.
  destruct (dict_get k kvs) as [ v | ] eqn:E; simpl default.
  - apply depth_get in E. lia.
  - simpl. lia.
Qed.

Lemma depth_default_null k kvs :
  (depth (default JNull (dict_get k kvs)) <= depth (JDict kvs))%nat.
Proof.
  destruct (dict_get k kvs) as [ v | ] eqn:E; simpl default.
  - apply depth_get in E. lia.
  - simpl. lia.
Qed.

Lemma each_element_total analyze base xs :
  (forall a, In a xs -> forall p iss, exists r, analyze a p iss = Some r) ->
  forall i issues, exists r, each_element analyze base i xs issues = Some r.
Proof.
  induction xs as [ | a xs IH ]; intros HA i issues; simpl; [ eauto | ].
  destruct (HA a (or_introl eq_refl) (base ++ [SegI i]) issues) as [r ->].
  apply IH. intros b Hb. apply HA. now right.
Qed.

Lemma each_member_total analyze base kvs :
  (forall k v, In (k, v) kvs -> forall p iss, exists r, analyze v p iss = Some r) ->
  forall issues, exists r, each_member analyze base kvs issues = Some r.
Proof.
  induction kvs as [ | [k v] kvs IH ]; intros HA issues; simpl; [ eauto | ].
  destruct (HA k v (or_introl eq_refl) (base ++ [SegS k]) issues) as [r ->].
  apply IH. intros k' v' Hb. eapply HA. right. exact Hb.
Qed.

Lemma analyze_expr_total fuel : forall e ptr flow issues known,
  (depth e <= fuel)%nat -> exists r, _analyze_expr fuel e ptr flow issues known = Some r.
Proof.
  induction fuel as [ | fuel IH ]; intros e ptr flow issues known Hd.
  - destruct e; simpl in Hd; lia.
  - cbn [_analyze_expr].
    destruct e as [ | | | | | xs | kvs ]; eauto.
    repeat case_match; eauto.
    + apply each_element_total. intros a Ha p iss. apply IH.
      match goal with
      | H1 : dict_get "call" kvs = Some (JDict ?c),
        H2 : default (JList []) (dict_get "args" ?c) = JList ?args |- _ =>
          apply depth_get in H1; pose proof (depth_default "args" c) as Hargs;
          rewrite H2 in Hargs; apply depth_element in Ha; lia
      end.
    + apply each_element_total. intros a Ha p iss. apply IH.
      match goal with
      | H1 : dict_get "list" kvs = Some (JList ?arr) |- _ =>
          apply depth_get in H1; apply depth_element in Ha; lia
      end.
    + apply each_member_total. intros k v Hv p iss. apply IH.
      match goal with
      | H1 : dict_get "obj" kvs = Some (JDict ?obj) |- _ =>
          apply depth_get in H1; apply depth_member in Hv; lia
      end.
Qed.

Lemma analyze_stmts_total A ptr stmts :
  (forall s, In s stmts -> forall p f i, exists r, A s p f i = Some r) ->
  forall i flow t issues, exists r, analyze_stmts A ptr i stmts flow t issues = Some r.
Proof.
  induction stmts as [ | s stmts IH ]; intros HA i flow t issues; simpl; [ eauto | ].
  destruct t.
  - apply IH. intros s' Hs'. apply HA. now right.
  - destruct (HA s (or_introl eq_refl) (ptr ++ [SegI i]) flow issues) as [ [ [f1 t1] i1 ] -> ].
    apply IH. intros s' Hs'. apply HA. now right.
Qed.

Lemma analyze_stmt_total fuel : forall stmt ptr flow issues known,
  (depth stmt <= fuel)%nat -> exists r, _analyze_stmt fuel stmt ptr flow issues known = Some r.
Proof.
  induction fuel as [ | fuel IH ]; intros stmt ptr flow issues known Hd.
  - destruct stmt; simpl in Hd; lia.
  - cbn [_analyze_stmt].
    destruct stmt as [ | | | | | | [ | [tag body] [ | ] ] ]; eauto.
    assert (Hbody : (depth body <= fuel)%nat) by (simpl in Hd; lia).
    assert (Hexpr : forall k spec p iss, body = JDict spec ->
               exists r, _analyze_expr fuel (default JNull (dict_get k spec)) p flow iss known
                         = Some r).
    { intros k spec p iss ->. apply analyze_expr_total.
      pose proof (depth_default_null k spec). lia. }
    assert (Hblock : forall k spec stmts p f iss, body = JDict spec ->
               default (JList []) (dict_get k spec) = JList stmts ->
               exists r, analyze_stmts (fun s sp f i => _analyze_stmt fuel s sp f i known)
                           p 0 stmts f false iss = Some r).
    { intros k spec stmts p f iss -> Hk. apply analyze_stmts_total.
      intros s Hs sp f0 i0. apply IH.
      pose proof (depth_default k spec) as Hlist. rewrite Hk in Hlist.
      apply depth_element in Hs. lia. }
    destruct (String.eqb tag "let").
    { destruct body as [ | | | | | | spec ]; eauto.
      destruct (dict_get "name" spec) as [ [ | | | | name | | ] | ]; eauto.
      match goal with
      | |- context [ _analyze_expr fuel ?e ?p ?f ?i ?k ] =>
          destruct (Hexpr "expr" spec p i eq_refl) as [r Hr]
      end.
      simpl default in Hr |- *. rewrite Hr. eauto. }
    destruct (String.eqb tag "expr").
    { destruct (analyze_expr_total fuel body (ptr ++ [SegS "expr"]) flow issues known Hbody)
        as [r Hr].
      simpl default. rewrite Hr. eauto. }
    destruct (String.eqb tag "assert").
    { destruct body as [ | | | | | | spec ]; eauto.
      destruct (Hexpr "expr" spec (ptr ++ [SegS "assert"; SegS "expr"]) issues eq_refl)
        as [r Hr].
      rewrite Hr. eauto. }
    destruct (String.eqb tag "return").
    { destruct (analyze_expr_total fuel body (ptr ++ [SegS "return"]) flow issues known Hbody)
        as [r Hr].
      simpl default. rewrite Hr. eauto. }
    destruct (String.eqb tag "if"); eauto.
    destruct body as [ | | | | | | spec ]; eauto.
    destruct (Hexpr "cond" spec (ptr ++ [SegS "if"; SegS "cond"]) issues eq_refl) as [r Hr].
    rewrite Hr.
    destruct (default (JList []) (dict_get "then" spec)) as [ | | | | | then_ | ] eqn:Et; eauto;
      destruct (default (JList []) (dict_get "else" spec)) as [ | | | | | els | ] eqn:Ee; eauto.
    destruct (Hblock "then" spec then_ (ptr ++ [SegS "if"; SegS "then"]) flow r eq_refl Et)
      as [ [ [ft rt] it ] Ht ].
    rewrite Ht.
    destruct (Hblock "else" spec els (ptr ++ [SegS "if"; SegS "else"]) flow it eq_refl Ee)
      as [ [ [fe re] ie ] He ].
    rewrite He. eauto.
Qed.

(** With fuel for the nesting depth of its statements, [_analyze_block]
    returns. *)
Lemma analyze_block_total fuel stmts ptr flow issues known :
  (depth (JList stmts) <= S fuel)%nat ->
  exists r, _analyze_block fuel stmts ptr flow issues known = Some r.
Proof.
  intros Hd. apply analyze_stmts_total. intros s Hs p f i.
  apply analyze_stmt_total. apply depth_element in Hs. lia.
Qed.

(** *** A block that ends in a [return] *)

Definition return_stmt (e : Json) : Json := JDict [("return", e)].

Lemma analyze_return fuel e ptr flow issues known r :
  _analyze_stmt fuel (return_stmt e) ptr flow issues known = Some r -> r.1.2 = true.
Proof.
  destruct fuel as [ | fuel ]; [ discriminate | ]. simpl.
  destruct (_analyze_expr fuel e (ptr ++ [SegS "return"]) flow issues known); [ | discriminate ].
  now intros [= <-].
Qed.

(** X9: a block whose last statement is a [return] always returns for the
    checker, whatever the statements before it: with fuel for the nesting
    depth of the block, [_analyze_block] returns, and it answers that the
    block always returns, so [check_module] reports no [MissingReturn] for
    a function with this body. This is the state that the repair for
    [MissingReturn] (append [{"return": null}] to the body) produces. *)
Theorem block_ending_in_return_always_returns (fuel : nat) (stmts : list Json) (e : Json)
    (ptr : list Seg) (flow : Flow) (issues : list Issue) (known : Arities) :
  (depth (JList (stmts ++ [return_stmt e])) <= S fuel)%nat ->
  exists flow' issues',
    _analyze_block fuel (stmts ++ [return_stmt e]) ptr flow issues known
    = Some (flow', true, issues').
Proof.
  intros Hd.
  destruct (analyze_block_total fuel _ ptr flow issues known Hd) as [ [ [flow' t] issues' ] H ].
  exists flow', issues'. rewrite H. do 2 f_equal. f_equal.
  unfold _analyze_block in H. rewrite analyze_stmts_app in H.
  destruct (analyze_stmts _ ptr 0 stmts flow false issues) as [ [ [f1 t1] i1 ] | ];
    [ | discriminate ].
  destruct t1.
  - rewrite analyze_stmts_terminated in H. now injection H as _ <- _.
  - cbn [analyze_stmts] in H.
    destruct (_analyze_stmt fuel (return_stmt e) (ptr ++ [SegI (0 + length stmts)]) f1 i1 known)
      as [ [ [f2 t2] i2 ] | ] eqn:E; [ | discriminate ].
    apply analyze_return in E. simpl in E. subst t2. now injection H as _ <- _.
Qed.

Lemma block_ending_in_return_always_returns_witness :
  exists flow' issues',
    _analyze_block 4 (let_then_use ++ [return_stmt JNull]) [] no_flow [] BUILTIN_ARITY
    = Some (flow', true, issues').
Proof.
  apply (block_ending_in_return_always_returns 4 let_then_use JNull [] no_flow []
           BUILTIN_ARITY).
  vm_compute. lia.
Defined.

(** X10: the statements after one that always returns are reported and
    not analysed. When a block [pre] always returns, [pre ++ post] gives
    the flow of [pre], the issues of [pre], and after them one
    [UnreachableStatement] warning for each statement of [post], at its
    pointer; nothing that [post] holds is looked at. *)
Theorem unreachable_statements_only_reported (fuel : nat) (pre post : list Json)
    (ptr : list Seg) (flow : Flow) (issues : list Issue) (known : Arities)
    (flow' : Flow) (issues' : list Issue) :
  _analyze_block fuel pre ptr flow issues known = Some (flow', true, issues') ->
  _analyze_block fuel (pre ++ post) ptr flow issues known
  = Some (flow', true,
          issues' ++ map (fun k => warning (ptr ++ [SegI (length pre + k)])
                                     "UnreachableStatement"
                                     "Statement is unreachable (previous statement always returns).")
                       (seq 0 (length post))).
Proof.
  unfold _analyze_block. intros H.
  rewrite analyze_stmts_app, H, analyze_stmts_terminated. reflexivity.
Qed.

Lemma unreachable_statements_only_reported_witness :
  exists flow' issues',
    _analyze_block 4 (branching_block ++ [JStr "not a statement"]) [] no_flow [] BUILTIN_ARITY
    = Some (flow', true,
            issues' ++ [warning [SegI 1] "UnreachableStatement"
                          "Statement is unreachable (previous statement always returns)."]).
Proof.
  eexists _, _.
  apply (unreachable_statements_only_reported 4 branching_block [JStr "not a statement"]
           [] no_flow [] BUILTIN_ARITY).
  vm_compute. reflexivity.
Defined.

End SemanticFacts.


(** ** [semantic.py] and [sandbox_ast.py]: no undefined variable at run time *)

Module DefiniteAssignment.
Import Py PyFacts Pointer Semantic SemanticFacts.

(** The exception that [eval_expr] raises for a variable that is not in
    the environment. *)
Definition undefined_variable (e : PyExn) : Prop :=
  exists name, e = SandboxError ("Undefined variable: " +:+ name).

Definition raises_undefined {A} (r : option (result A)) : Prop :=
  exists e, r = Some (Raise e) /\ undefined_variable e.

Definition faults_undefined (r : option Sandbox.Exec) : Prop :=
  exists e, r = Some (Sandbox.Fault e) /\ undefined_variable e.

(** No issue of the list has the code [UndefinedVariable] or [InvalidIf]
    (an [if] whose [then] or [else] is not an array is reported and its
    branches are not analysed, while the interpreter still runs the branch
    that is one). *)
Definition quiet_issue (i : Issue) : bool :=
  negb (String.eqb (code i) "UndefinedVariable" || String.eqb (code i) "InvalidIf").

Definition no_undefined (issues : list Issue) : bool := forallb quiet_issue issues.

(** No object of the value is both a [call] and a [list] or an [obj]:
    the checker looks for [call] first, the interpreter for [list] and
    [obj]. *)
Fixpoint unambiguous (v : Json) : bool :=
  match v with
  | JList xs => forallb unambiguous xs
  | JDict kvs =>
      negb (dict_has "call" kvs && (dict_has "list" kvs || dict_has "obj" kvs))
      && forallb (fun kv => unambiguous kv.2) kvs
  | _ => true
  end.

(** Every variable that the flow has as defined on every path is in the
    environment. *)
Definition covers (flow : Flow) (env : Sandbox.Env) : Prop :=
  forall x, x ∈ definite flow -> dict_has x env = true.

Lemma no_undefined_app a b : no_undefined (a ++ b) = no_undefined a && no_undefined b.
Proof. apply forallb_app. Qed.

Lemma no_undefined_extends a b : extends a b -> no_undefined b = true -> no_undefined a = true.
Proof. intros [new ->]. rewrite no_undefined_app. now intros [H _]%andb_true_iff. Qed.

Lemma unambiguous_get k v kvs :
  unambiguous (JDict kvs) = true -> dict_get k kvs = Some v -> unambiguous v = true.
Proof.
  simpl. intros [_ H]%andb_true_iff Hg. rewrite forallb_forall in H.
  apply (H (k, v)). now apply dict_get_In.
Qed.

Lemma unambiguous_default k kvs :
  unambiguous (JDict kvs) = true -> unambiguous (default (JList []) (dict_get k kvs)) = true.
Proof.
  intros H. destruct (dict_get k kvs) as [ v | ] eqn:E; [ | reflexivity ].
  simpl. eapply unambiguous_get; eassumption.
Qed.

Lemma unambiguous_default_null k kvs :
  unambiguous (JDict kvs) = true -> unambiguous (default JNull (dict_get k kvs)) = true.
Proof.
  intros H. destruct (dict_get k kvs) as [ v | ] eqn:E; [ | reflexivity ].
  simpl. eapply unambiguous_get; eassumption.
Qed.

Lemma unambiguous_element x xs :
  unambiguous (JList xs) = true -> In x xs -> unambiguous x = true.
Proof. simpl. rewrite forallb_forall. auto. Qed.

Lemma unambiguous_member k v kvs :
  unambiguous (JDict kvs) = true -> In (k, v) kvs -> unambiguous v = true.
Proof.
  simpl. intros [_ H]%andb_true_iff Hin. rewrite forallb_forall in H. apply (H (k, v) Hin).
Qed.

Lemma unambiguous_call kvs :
  unambiguous (JDict kvs) = true -> dict_has "call" kvs = true ->
  dict_has "list" kvs = false /\ dict_has "obj" kvs = false.
Proof.
  simpl. intros [H _]%andb_true_iff Hc. rewrite Hc in H. simpl in H.
  now apply negb_true_iff, orb_false_iff in H.
Qed.

(** *** Lists of expressions *)

Lemma each_element_parts analyze base xs :
  (forall a p iss iss', analyze a p iss = Some iss' -> extends iss iss') ->
  forall i issues issues',
    each_element analyze base i xs issues = Some issues' ->
    no_undefined issues' = true ->
    forall a, In a xs ->
      exists p iss iss', analyze a p iss = Some iss' /\ no_undefined iss' = true.
Proof.
  intros HA. induction xs as [ | x xs IH ]; intros i issues issues' H Hn a Ha;
    [ destruct Ha | ].
  simpl in H.
  destruct (analyze x (base ++ [SegI i]) issues) as [ iss1 | ] eqn:E; [ | discriminate ].
  destruct Ha as [ <- | Ha ].
  - exists (base ++ [SegI i]), issues, iss1. split; [ exact E | ].
    eapply no_undefined_extends; [ | exact Hn ].
    eapply each_element_extends; eassumption.
  - eapply IH; eassumption.
Qed.

Lemma each_member_parts analyze base kvs :
  (forall a p iss iss', analyze a p iss = Some iss' -> extends iss iss') ->
  forall issues issues',
    each_member analyze base kvs issues = Some issues' ->
    no_undefined issues' = true ->
    forall k v, In (k, v) kvs ->
      exists p iss iss', analyze v p iss = Some iss' /\ no_undefined iss' = true.
Proof.
  intros HA. induction kvs as [ | [k0 v0] kvs IH ]; intros issues issues' H Hn k v Hv;
    [ destruct Hv | ].
  simpl in H.
  destruct (analyze v0 (base ++ [SegS k0]) issues) as [ iss1 | ] eqn:E; [ | discriminate ].
  destruct Hv as [ [= <- <-] | Hv ].
  - exists (base ++ [SegS k0]), issues, iss1. split; [ exact E | ].
    eapply no_undefined_extends; [ | exact Hn ].
    eapply each_member_extends; eassumption.
  - eapply IH; eassumption.
Qed.

Lemma eval_all_undefined eval xs :
  raises_undefined (Sandbox.eval_all eval xs) ->
  exists x, In x xs /\ raises_undefined (eval x).
Proof.
  induction xs as [ | x xs IH ]; simpl; intros (e & H & He); [ discriminate | ].
  destruct (eval x) as [ [ v | e' ] | ] eqn:E; try discriminate.
  - destruct (Sandbox.eval_all eval xs) as [ [ vs | e' ] | ] eqn:E'; try discriminate.
    destruct IH as (y & Hy & Hr); [ exists e; split; [ exact H | exact He ] | ].
    exists y. split; [ now right | exact Hr ].
  - exists x. split; [ now left | ]. exists e. split; [ congruence | exact He ].
Qed.

Lemma eval_members_undefined eval kvs : forall acc,
  raises_undefined (Sandbox.eval_members eval kvs acc) ->
  exists k v, In (k, v) kvs /\ raises_undefined (eval v).
Proof.
  induction kvs as [ | [k v] kvs IH ]; simpl; intros acc (e & H & He); [ discriminate | ].
  destruct (eval v) as [ [ w | e' ] | ] eqn:E; try discriminate.
  - destruct (IH (dict_set k w acc)) as (k' & v' & Hin & Hr);
      [ exists e; split; [ exact H | exact He ] | ].
    exists k', v'. split; [ now right | exact Hr ].
  - exists k, v. split; [ now left | ]. exists e. split; [ congruence | exact He ].
Qed.

Lemma dict_has_set {V} x k (v : V) d :
  dict_has x (dict_set k v d) = String.eqb x k || dict_has x d.
Proof.
  unfold dict_has. induction d as [ | [k' v'] d IH ]; simpl.
  - now destruct (String.eqb x k).
  - destruct (String.eqb k k') eqn:E; simpl.
    + apply String.eqb_eq in E. subst k'. now destruct (String.eqb x k).
    + destruct (String.eqb x k') eqn:E'; [ now rewrite orb_true_r | exact IH ].
Qed.

Lemma covers_let flow env name v :
  covers flow env ->
  covers (mkFlow (definite flow ∪ {[name]}) (maybe flow ∪ {[name]})) (dict_set name v env).
Proof.
  intros Hc x Hx. simpl in Hx. rewrite dict_has_set.
  apply elem_of_union in Hx as [ Hx | Hx ].
  - rewrite (Hc x Hx). apply orb_true_r.
  - apply elem_of_singleton in Hx. subst x. now rewrite String.eqb_refl.
Qed.

Lemma bind_params_has params : forall args env x,
  length params = length args ->
  In x params \/ dict_has x env = true ->
  dict_has x (Sandbox.bind_params params args env) = true.
Proof.
  induction params as [ | p params IH ]; intros args env x Hlen Hx.
  - destruct Hx as [ [] | Hx ]. now destruct args.
  - destruct args as [ | a args ]; [ discriminate | ]. simpl.
    apply IH; [ simpl in Hlen; lia | ].
    rewrite dict_has_set.
    destruct Hx as [ [ -> | Hx ] | Hx ].
    + right. now rewrite String.eqb_refl.
    + now left.
    + right. rewrite Hx. apply orb_true_r.
Qed.

Section Table.
Variable BUILTINS : string -> bool.
Variable call_builtin :
  (string -> list Json -> option (result Json)) -> string -> list Json -> option (result Json).
Variable fns : Sandbox.Fns.

#[local] Abbreviation eval_expr := (Sandbox.eval_expr BUILTINS call_builtin fns).
#[local] Abbreviation exec_stmt := (Sandbox.exec_stmt BUILTINS call_builtin fns).
#[local] Abbreviation call_user := (Sandbox.call_user BUILTINS call_builtin fns).
#[local] Abbreviation dispatch := (Sandbox.dispatch BUILTINS call_builtin fns).

(** A builtin raises the exception only when the function that it calls
    back does. *)
Hypothesis Hbuiltin : forall dispatch name args,
  raises_undefined (call_builtin dispatch name args) ->
  exists n a, raises_undefined (dispatch n a).

(** The flow that [check_module] starts the body of a function with. *)
Definition flow_of_params (fn : list (string * Json)) : Flow :=
  let names : gset string :=
    list_to_set (Effects.strings_of (Effects.array_or_empty (dict_get "params" fn))) in
  mkFlow names names.

(** The body of the function was analysed, from the flow of its
    parameters, and nothing of the kind was reported. *)
Definition checked (fn : list (string * Json)) : Prop :=
  unambiguous (JList (Effects.body_of fn)) = true /\
  exists afuel ptr known issues0 r,
    _analyze_block afuel (Effects.body_of fn) ptr (flow_of_params fn) issues0 known = Some r /\
    no_undefined r.2 = true.

Hypothesis Hfns : forall name fn, dict_get name fns = Some fn -> checked fn.

Definition expr_ok (n : nat) : Prop :=
  forall afuel e ptr flow issues known issues' env,
    unambiguous e = true ->
    _analyze_expr afuel e ptr flow issues known = Some issues' ->
    no_undefined issues' = true -> covers flow env ->
    ~ raises_undefined (eval_expr n e env).

Definition stmt_ok (n : nat) : Prop :=
  forall afuel stmt ptr flow issues known flow' t issues' env,
    unambiguous stmt = true ->
    _analyze_stmt afuel stmt ptr flow issues known = Some (flow', t, issues') ->
    no_undefined issues' = true -> covers flow env ->
    ~ faults_undefined (exec_stmt n stmt env) /\
    forall env', exec_stmt n stmt env = Some (Sandbox.Continue env') -> covers flow' env'.

Definition call_ok (n : nat) : Prop :=
  forall f args, ~ raises_undefined (call_user n f args).

Definition dispatch_ok (n : nat) : Prop :=
  forall f args, ~ raises_undefined (dispatch n f args).

Lemma raised_undefined (A : Type) (r : option (result A)) name :
  r = Some (Raise (SandboxError ("Undefined variable: " +:+ name))) -> raises_undefined r.
Proof. intros ->. eexists. split; [ reflexivity | ]. now exists name. Qed.

Lemma expr_step n : expr_ok n -> call_ok n -> dispatch_ok n -> expr_ok (S n).
Proof.
  intros HE HC HD afuel e ptr flow issues known issues' env Hu Ha Hn Hc (err & Hr & x & ->).
  destruct afuel as [ | afuel ]; [ discriminate | ].
  cbn [_analyze_expr] in Ha. simpl in Hr.
  assert (HX : forall a p iss iss',
             _analyze_expr afuel a p flow iss known = Some iss' -> extends iss iss')
    by (intros; eapply analyze_expr_extends; eassumption).
  destruct e as [ | | | | | xs | kvs ]; try discriminate Hr.
  destruct (dict_has "var" kvs) eqn:Hvar.
  { destruct (dict_get "var" kvs) as [ [ | | | | name | | ] | ]; try discriminate Hr.
    destruct (bool_decide (name ∈ definite flow)) eqn:Hdef.
    - apply bool_decide_eq_true in Hdef. specialize (Hc name Hdef). unfold dict_has in Hc.
      destruct (dict_get name env); [ discriminate Hr | discriminate Hc ].
    - injection Ha as <-. rewrite no_undefined_app in Hn. simpl in Hn.
      rewrite andb_false_r in Hn. discriminate Hn. }
  destruct (dict_has "list" kvs) eqn:Hlist.
  { assert (Hcall : dict_has "call" kvs = false).
    { destruct (dict_has "call" kvs) eqn:E; [ | reflexivity ].
      destruct (unambiguous_call kvs Hu E). congruence. }
    rewrite Hcall in Ha.
    destruct (dict_get "list" kvs) as [ [ | | | | | xs | ] | ] eqn:Hg; try discriminate Hr.
    assert (Hra : raises_undefined (Sandbox.eval_all (fun a => eval_expr n a env) xs)).
    { destruct (Sandbox.eval_all (fun a => eval_expr n a env) xs) as [ [ vs | e ] | ];
        try discriminate Hr.
      injection Hr as ->. now apply raised_undefined with (name := x). }
    apply eval_all_undefined in Hra as (a & Hin & Hra).
    destruct (each_element_parts _ _ _ HX _ _ _ Ha Hn a Hin) as (p & iss & iss' & Hp & Hn').
    eapply HE; [ | exact Hp | exact Hn' | exact Hc | exact Hra ].
    eapply unambiguous_element; [ eapply unambiguous_get; eassumption | exact Hin ]. }
  destruct (dict_has "obj" kvs) eqn:Hobj.
  { assert (Hcall : dict_has "call" kvs = false).
    { destruct (dict_has "call" kvs) eqn:E; [ | reflexivity ].
      destruct (unambiguous_call kvs Hu E). congruence. }
    rewrite Hcall in Ha.
    destruct (dict_get "obj" kvs) as [ [ | | | | | | members ] | ] eqn:Hg; try discriminate Hr.
    assert (Hra : raises_undefined
                    (Sandbox.eval_members (fun a => eval_expr n a env) members [])).
    { destruct (Sandbox.eval_members (fun a => eval_expr n a env) members [])
        as [ [ vs | e ] | ]; try discriminate Hr.
      injection Hr as ->. now apply raised_undefined with (name := x). }
    apply eval_members_undefined in Hra as (k & v & Hin & Hra).
    destruct (each_member_parts _ _ _ HX _ _ Ha Hn k v Hin) as (p & iss & iss' & Hp & Hn').
    eapply HE; [ | exact Hp | exact Hn' | exact Hc | exact Hra ].
    eapply unambiguous_member; [ eapply unambiguous_get; eassumption | exact Hin ]. }
  destruct (dict_has "call" kvs) eqn:Hcall; [ | discriminate Hr ].
  destruct (dict_get "call" kvs) as [ [ | | | | | | call ] | ] eqn:Hg; try discriminate Hr.
  destruct (dict_get "fn" call) as [ [ | | | | fn | | ] | ]; try discriminate Hr.
  pose proof (unambiguous_default "args" call (unambiguous_get _ _ _ Hu Hg)) as Huargs.
  destruct (default (JList []) (dict_get "args" call)) as [ | | | | | args | ] eqn:Hargs;
    try discriminate Hr.
  destruct (Sandbox.eval_all (fun a => eval_expr n a env) args) as [ [ vs | e ] | ] eqn:Hev;
    try discriminate Hr.
  - destruct (BUILTINS (Effects._qual_last fn)).
    + destruct (Hbuiltin _ _ _ (raised_undefined _ _ _ Hr)) as (n' & a & Hd).
      exact (HD _ _ Hd).
    + destruct (negb (dict_has (Effects._qual_last fn) fns)); [ discriminate Hr | ].
      exact (HC _ _ (raised_undefined _ _ _ Hr)).
  - injection Hr as ->.
    assert (Hra : raises_undefined (Sandbox.eval_all (fun a => eval_expr n a env) args)).
    { rewrite Hev. now apply raised_undefined with (name := x). }
    apply eval_all_undefined in Hra as (a & Hin & Hra).
    destruct (each_element_parts _ _ _ HX _ _ _ Ha Hn a Hin) as (p & iss & iss' & Hp & Hn').
    eapply HE; [ | exact Hp | exact Hn' | exact Hc | exact Hra ].
    eapply unambiguous_element; [ exact Huargs | exact Hin ].
Qed.

Lemma covers_meet flow1 flow2 maybe_ env :
  covers flow1 env \/ covers flow2 env ->
  covers (mkFlow (definite flow1 ∩ definite flow2) maybe_) env.
Proof.
  intros H x Hx. simpl in Hx. apply elem_of_intersection in Hx as [H1 H2].
  destruct H as [ H | H ]; now apply H.
Qed.

(** The loop over the statements of a block. *)
Lemma block_step n afuel known stmts :
  stmt_ok n ->
  forall ptr i flow issues flow' t issues' env,
    forallb unambiguous stmts = true ->
    analyze_stmts (fun s sp f i => _analyze_stmt afuel s sp f i known)
      ptr i stmts flow false issues = Some (flow', t, issues') ->
    no_undefined issues' = true -> covers flow env ->
    ~ faults_undefined (Sandbox.exec_stmts (exec_stmt n) stmts env) /\
    forall env', Sandbox.exec_stmts (exec_stmt n) stmts env = Some (Sandbox.Continue env') ->
                 covers flow' env'.
Proof.
  intros HS. induction stmts as [ | s stmts IH ];
    intros ptr i flow issues flow' t issues' env Hu Ha Hn Hc.
  - simpl in *. injection Ha as <- _ _. split.
    + intros (e & He & _). discriminate He.
    + now intros env' [= <-].
  - simpl in Hu. apply andb_true_iff in Hu as [Hus Hu].
    cbn [analyze_stmts] in Ha.
    destruct (_analyze_stmt afuel s (ptr ++ [SegI i]) flow issues known)
      as [ [ [f1 t1] i1 ] | ] eqn:Es; [ | discriminate ].
    assert (Hn1 : no_undefined i1 = true).
    { eapply no_undefined_extends; [ | exact Hn ].
      apply (analyze_stmts_grows _ _ _
               (fun s0 p f i0 r => analyze_stmt_grows afuel s0 p f i0 known r)) in Ha.
      apply Ha. }
    destruct (HS afuel s _ flow issues known f1 t1 i1 env Hus Es Hn1 Hc) as [Hfault Hcont].
    simpl.
    destruct (exec_stmt n s env) as [ [ env1 | v | e ] | ] eqn:Ee.
    + destruct t1.
      * exfalso.
        apply (stmt_never_falls_through BUILTINS call_builtin fns n afuel s _ flow issues
                 known f1 i1 env Es env1 Ee).
      * apply (IH ptr (S i) f1 i1 flow' t issues' env1 Hu Ha Hn). now apply Hcont.
    + split; [ intros (e & He & _); discriminate He | discriminate ].
    + split; [ exact Hfault | discriminate ].
    + split; [ intros (e & He & _); discriminate He | discriminate ].
Qed.

Lemma faulted_undefined (r : option Sandbox.Exec) name :
  r = Some (Sandbox.Fault (SandboxError ("Undefined variable: " +:+ name))) ->
  faults_undefined r.
Proof. intros ->. eexists. split; [ reflexivity | ]. now exists name. Qed.

Lemma stmt_step n : expr_ok n -> stmt_ok n -> stmt_ok (S n).
Proof.
  intros HE HS afuel stmt ptr flow issues known flow' t issues' env Hu Ha Hn Hc.
  destruct afuel as [ | afuel ]; [ discriminate | ].
  cbn [_analyze_stmt] in Ha.
  assert (Hshape : forall r : option Sandbox.Exec,
             r = Some (Sandbox.Fault (SandboxError "Invalid stmt shape")) ->
             ~ faults_undefined r /\
             forall env', r = Some (Sandbox.Continue env') -> covers flow' env').
  { intros r ->. split; [ intros (e & [= <-] & x & Hx); discriminate Hx | discriminate ]. }
  (* what evaluating an expression of the statement can do *)
  assert (Heval : forall e p iss iss' (k : Json -> option Sandbox.Exec),
             unambiguous e = true ->
             _analyze_expr afuel e p flow iss known = Some iss' ->
             no_undefined iss' = true ->
             (forall v, ~ faults_undefined (k v)) ->
             ~ faults_undefined
                 match eval_expr n e env with
                 | None => None
                 | Some (Raise e0) => Some (Sandbox.Fault e0)
                 | Some (Ok v) => k v
                 end).
  { intros e p iss iss' k Hue He Hne Hk (err & Hr & x & ->).
    destruct (eval_expr n e env) as [ [ v | e0 ] | ] eqn:Ev; try discriminate Hr.
    - apply (Hk v). rewrite Hr. now apply faulted_undefined with (name := x).
    - injection Hr as ->.
      apply (HE afuel e p flow iss known iss' env Hue He Hne Hc).
      rewrite Ev. now apply raised_undefined with (name := x). }
  destruct stmt as [ | | | | | | [ | [tag body] [ | ] ] ]; try (apply Hshape; reflexivity).
  clear Hshape.
  assert (Hub : unambiguous body = true).
  { eapply unambiguous_member; [ exact Hu | now left ]. }
  simpl.
  destruct (String.eqb tag "let").
  { destruct body as [ | | | | | | spec ];
      try (split; [ intros (e & [= <-] & x & Hx); discriminate Hx | discriminate ]).
    destruct (dict_get "name" spec) as [ [ | | | | name | | ] | ];
      try (split; [ intros (e & [= <-] & x & Hx); discriminate Hx | discriminate ]).
    match type of Ha with
    | match _analyze_expr _ ?e ?p _ ?iss _ with _ => _ end = _ =>
        destruct (_analyze_expr afuel e p flow iss known) as [ iss' | ] eqn:He;
        [ | discriminate ]
    end.
    injection Ha as <- <- <-.
    split.
    - eapply Heval; [ | exact He | exact Hn | ].
      + now apply unambiguous_default_null.
      + intros v (e & [=] & _).
    - intros env' Hr.
      destruct (eval_expr n (default JNull (dict_get "expr" spec)) env) as [ [ v | e0 ] | ];
        try discriminate Hr.
      injection Hr as <-. now apply covers_let. }
  destruct (String.eqb tag "expr").
  { destruct (_analyze_expr afuel (default JNull (Some body)) (ptr ++ [SegS "expr"]) flow
                issues known) as [ iss' | ] eqn:He; [ | discriminate ].
    injection Ha as <- <- <-. simpl default in He.
    split.
    - eapply Heval; [ exact Hub | exact He | exact Hn | ].
      intros v (e & [=] & _).
    - intros env' Hr.
      destruct (eval_expr n body env) as [ [ v | e0 ] | ]; try discriminate Hr.
      now injection Hr as <-. }
  destruct (String.eqb tag "assert").
  { destruct body as [ | | | | | | spec ];
      try (split; [ intros (e & [= <-] & x & Hx); discriminate Hx | discriminate ]).
    destruct (_analyze_expr afuel (default JNull (dict_get "expr" spec))
                (ptr ++ [SegS "assert"; SegS "expr"]) flow issues known)
      as [ iss' | ] eqn:He; [ | discriminate ].
    injection Ha as <- <- <-.
    split.
    - eapply Heval; [ | exact He | exact Hn | ].
      + now apply unambiguous_default_null.
      + intros v (e & Hr & x & ->). destruct (Sandbox.truthy v); discriminate Hr.
    - intros env' Hr.
      destruct (eval_expr n (default JNull (dict_get "expr" spec)) env) as [ [ v | e0 ] | ];
        try discriminate Hr.
      destruct (Sandbox.truthy v); [ | discriminate Hr ]. now injection Hr as <-. }
  destruct (String.eqb tag "return").
  { destruct (_analyze_expr afuel (default JNull (Some body)) (ptr ++ [SegS "return"]) flow
                issues known) as [ iss' | ] eqn:He; [ | discriminate ].
    injection Ha as <- <- <-. simpl default in He.
    split.
    - eapply Heval; [ exact Hub | exact He | exact Hn | ].
      intros v (e & [=] & _).
    - intros env' Hr.
      destruct (eval_expr n body env) as [ [ v | e0 ] | ]; discriminate Hr. }
  destruct (String.eqb tag "if").
  2: { split; [ intros (e & [= <-] & x & Hx); discriminate Hx | discriminate ]. }
  destruct body as [ | | | | | | spec ];
    try (split; [ intros (e & [= <-] & x & Hx); discriminate Hx | discriminate ]).
  destruct (_analyze_expr afuel (default JNull (dict_get "cond" spec))
              (ptr ++ [SegS "if"; SegS "cond"]) flow issues known)
    as [ issues1 | ] eqn:Hcond; [ | discriminate ].
  pose proof (unambiguous_default "then" spec Hub) as Huthen.
  pose proof (unambiguous_default "else" spec Hub) as Huelse.
  assert (Hlists : exists then_ els,
             default (JList []) (dict_get "then" spec) = JList then_ /\
             default (JList []) (dict_get "else" spec) = JList els).
  { destruct (default (JList []) (dict_get "then" spec)) as [ | | | | | then_ | ];
      destruct (default (JList []) (dict_get "else" spec)) as [ | | | | | els | ];
      try (injection Ha as <- <- <-; rewrite no_undefined_app in Hn; simpl in Hn;
           rewrite andb_false_r in Hn; discriminate Hn).
    now exists then_, els. }
  destruct Hlists as (then_ & els & Ethen & Eelse).
  rewrite Ethen, Eelse in Ha. rewrite Ethen in Huthen. rewrite Eelse in Huelse.
  destruct (analyze_stmts _ (ptr ++ [SegS "if"; SegS "then"]) 0 then_ flow false issues1)
    as [ [ [flow_then ret_then] issues2 ] | ] eqn:Hthen; [ | discriminate ].
  destruct (analyze_stmts _ (ptr ++ [SegS "if"; SegS "else"]) 0 els flow false issues2)
    as [ [ [flow_else ret_else] issues3 ] | ] eqn:Helse; [ | discriminate ].
  injection Ha as <- <- <-.
  assert (Hn2 : no_undefined issues2 = true).
  { eapply no_undefined_extends; [ | exact Hn ].
    apply (analyze_stmts_grows _ _ _
             (fun s0 p f i0 r => analyze_stmt_grows afuel s0 p f i0 known r)) in Helse.
    apply Helse. }
  assert (Hn1 : no_undefined issues1 = true).
  { eapply no_undefined_extends; [ | exact Hn2 ].
    apply (analyze_stmts_grows _ _ _
             (fun s0 p f i0 r => analyze_stmt_grows afuel s0 p f i0 known r)) in Hthen.
    apply Hthen. }
  destruct (block_step n afuel known then_ HS _ _ _ _ _ _ _ env Huthen Hthen Hn2 Hc)
    as [Hft Hct].
  destruct (block_step n afuel known els HS _ _ _ _ _ _ _ env Huelse Helse Hn Hc)
    as [Hfe Hce].
  split.
  - eapply Heval; [ | exact Hcond | exact Hn1 | ].
    + now apply unambiguous_default_null.
    + intros v. destruct (Sandbox.truthy v); cbv beta match.
      * rewrite Ethen. exact Hft.
      * rewrite Eelse. exact Hfe.
  - intros env' Hr.
    destruct (eval_expr n (default JNull (dict_get "cond" spec)) env) as [ [ v | e0 ] | ];
      try discriminate Hr.
    destruct (Sandbox.truthy v); cbv beta match in Hr.
    + rewrite Ethen in Hr. apply covers_meet. left. now apply Hct.
    + rewrite Eelse in Hr. apply covers_meet. right. now apply Hce.
Qed.

Lemma call_step n : stmt_ok n -> call_ok (S n).
Proof.
  intros HS f args (err & Hr & x & ->). simpl in Hr.
  destruct (dict_get f fns) as [ fn | ] eqn:Hf; [ | discriminate Hr ].
  destruct (negb (length (Effects.strings_of (Effects.array_or_empty (dict_get "params" fn)))
                  =? length args)%nat) eqn:Hlen; [ discriminate Hr | ].
  apply negb_false_iff, Nat.eqb_eq in Hlen.
  destruct (Hfns f fn Hf) as (Hu & afuel & ptr & known & issues0 & [ [flow' t] issues' ] & Ha & Hn).
  unfold _analyze_block in Ha. simpl in Hn, Hu.
  destruct (block_step n afuel known (Effects.body_of fn) HS ptr 0 (flow_of_params fn) issues0
              flow' t issues'
              (Sandbox.bind_params
                 (Effects.strings_of (Effects.array_or_empty (dict_get "params" fn))) args [])
              Hu Ha Hn) as [Hfault _].
  { intros y Hy. simpl in Hy. apply bind_params_has; [ exact Hlen | ].
    left. apply elem_of_list_to_set in Hy. now apply list_elem_of_In. }
  apply Hfault.
  destruct (Sandbox.exec_stmts _ (Effects.body_of fn) _) as [ [ env1 | v | e ] | ];
    try discriminate Hr.
  injection Hr as ->. now apply faulted_undefined with (name := x).
Qed.

Lemma dispatch_step n : call_ok n -> dispatch_ok n -> dispatch_ok (S n).
Proof.
  intros HC HD f args Hr. simpl in Hr.
  destruct (BUILTINS (Effects._qual_last f)).
  - destruct (Hbuiltin _ _ _ Hr) as (n' & a & Hd). exact (HD _ _ Hd).
  - destruct (negb (dict_has (Effects._qual_last f) fns)).
    + destruct Hr as (err & [= <-] & x & Hx). discriminate Hx.
    + exact (HC _ _ Hr).
Qed.

Lemma all_ok n : expr_ok n /\ stmt_ok n /\ call_ok n /\ dispatch_ok n.
Proof.
  induction n as [ | n (HE & HS & HC & HD) ].
  - refine (conj _ (conj _ (conj _ _))).
    + intros afuel e ptr flow issues known issues' env _ _ _ _ (err & Hr & _). discriminate Hr.
    + intros afuel stmt ptr flow issues known flow' t issues' env _ _ _ _.
      split; [ intros (err & Hr & _); discriminate Hr | discriminate ].
    + intros f args (err & Hr & _). discriminate Hr.
    + intros f args (err & Hr & _). discriminate Hr.
  - refine (conj _ (conj _ (conj _ _))).
    + now apply expr_step.
    + now apply stmt_step.
    + now apply call_step.
    + now apply dispatch_step.
Qed.

End Table.

(** *** From the report of [check_module] to the table of functions *)

(** Every function of the module has a list as [params] (or none). *)
Definition params_are_lists (module : Effects.Module_) : bool :=
  forallb (fun f => match f with
                    | JDict fn => match params_of fn with Some _ => true | None => false end
                    | _ => true
                    end) (Effects.functions_of module).

(** The issue, as [check_module] returns it, is neither
    [UndefinedVariable] nor [InvalidIf]. *)
Definition quiet_json (it : Json) : bool :=
  negb (RepairSuggest.has_code "UndefinedVariable" it || RepairSuggest.has_code "InvalidIf" it).

Lemma quiet_json_to_dict i : quiet_json (to_dict i) = quiet_issue i.
Proof. reflexivity. Qed.

Lemma index_from_entries fs : forall i acc name fn,
  dict_get name (Effects.index_from i fs acc).1 = Some fn ->
  dict_get name acc.1 = Some fn \/
  (In (JDict fn) fs /\ dict_get "name" fn = Some (JStr name)).
Proof.
  induction fs as [ | f fs IH ]; intros i acc name fn H; simpl in H; [ now left | ].
  apply IH in H as [ H | [Hin Hn] ]; [ | right; split; [ now right | exact Hn ] ].
  destruct f as [ | | | | | | d ]; try (now left).
  destruct (dict_get "name" d) as [ [ | | | | nm | | ] | ] eqn:En; try (now left).
  simpl in H. rewrite EffectsFacts.dict_get_set in H.
  destruct (String.eqb_spec name nm) as [ -> | Hne ]; [ | now left ].
  injection H as <-. right. split; [ now left | exact En ].
Qed.

Lemma reserved_params_extends fi params : forall pi issues issues',
  reserved_params fi pi params issues = Ok issues' -> extends issues issues'.
Proof.
  induction params as [ | p params IH ]; intros pi issues issues'; cbn [reserved_params].
  - intros [= <-]. apply extends_refl.
  - destruct p; try discriminate; try (apply IH).
    intros H. apply IH in H. destruct (mem s RESERVED_NAMES); [ | exact H ].
    eapply extends_trans; [ apply extends_app | exact H ].
Qed.

Lemma analyze_block_extends afuel body ptr flow issues known r :
  _analyze_block afuel body ptr flow issues known = Some r -> extends issues r.2.
Proof.
  intros H.
  apply (analyze_stmts_grows _ _ _
           (fun s0 p f i0 r0 => analyze_stmt_grows afuel s0 p f i0 known r0)) in H.
  apply H.
Qed.

Lemma check_function_extends afuel known fi f issues issues' :
  check_function afuel known fi f issues = Some (Ok issues') -> extends issues issues'.
Proof.
  unfold check_function.
  destruct f as [ | | | | | | d ]; try (intros [= <-]; apply extends_refl).
  destruct (dict_get "name" d) as [ [ | | | | nm | | ] | ];
    try (intros [= <-]; apply extends_refl).
  destruct (params_of d) as [ params | ]; [ | intros [= <-]; apply extends_refl ].
  destruct (reserved_params fi 0 params issues) as [ issues1 | e ] eqn:Er; [ | discriminate ].
  apply reserved_params_extends in Er.
  destruct (Semantic.body_of d) as [ body | ].
  - destruct (_analyze_block afuel body _ _ issues1 known) as [ [ [fl ar] i2 ] | ] eqn:Ea;
      [ | discriminate ].
    apply analyze_block_extends in Ea. simpl in Ea.
    intros [= <-]. destruct ar.
    + eapply extends_trans; eassumption.
    + eapply extends_trans; [ exact Er | ].
      eapply extends_trans; [ exact Ea | apply extends_app ].
  - intros [= <-]. eapply extends_trans; [ exact Er | apply extends_app ].
Qed.

Lemma check_functions_each afuel known fs : forall fi issues issues',
  check_functions afuel known fi fs issues = Some (Ok issues') ->
  forall f, In f fs ->
    exists i iss iss',
      check_function afuel known i f iss = Some (Ok iss') /\ extends iss' issues'.
Proof.
  induction fs as [ | f0 fs IH ]; intros fi issues issues' H f Hf; [ destruct Hf | ].
  simpl in H.
  destruct (check_function afuel known fi f0 issues) as [ [ issues1 | e ] | ] eqn:E0;
    try discriminate.
  destruct Hf as [ <- | Hf ].
  - exists fi, issues, issues1. split; [ exact E0 | ].
    clear E0. revert fi issues1 H. clear IH.
    induction fs as [ | f1 fs IHfs ]; intros fi issues1 H; simpl in H.
    + injection H as <-. apply extends_refl.
    + destruct (check_function afuel known (S fi) f1 issues1) as [ [ issues2 | e ] | ] eqn:E1;
        try discriminate.
      eapply extends_trans; [ eapply check_function_extends; exact E1 | ].
      eapply IHfs. exact H.
  - eapply IH; eassumption.
Qed.

Lemma body_of_agree fn :
  Effects.body_of fn = default [] (Semantic.body_of fn).
Proof.
  unfold Effects.body_of, Semantic.body_of, Effects.array_or_empty.
  destruct (dict_get "body" fn) as [ [ | | | | | | ] | ]; try reflexivity;
    now destruct (Sandbox.truthy _).
Qed.

Lemma params_of_agree fn params :
  params_of fn = Some params ->
  Effects.array_or_empty (dict_get "params" fn) = params.
Proof.
  unfold params_of, Effects.array_or_empty.
  destruct (dict_get "params" fn) as [ [ | | | | | | ] | ]; try (now intros [= <-]);
    destruct (Sandbox.truthy _); try discriminate; now intros [= <-].
Qed.

Lemma check_function_checked afuel known fi fn issues issues' name :
  check_function afuel known fi (JDict fn) issues = Some (Ok issues') ->
  no_undefined issues' = true ->
  dict_get "name" fn = Some (JStr name) ->
  params_of fn <> None ->
  unambiguous (JDict fn) = true ->
  checked fn.
Proof.
  unfold check_function. intros H Hn Hname Hparams Hu. rewrite Hname in H.
  destruct (params_of fn) as [ params | ] eqn:Ep; [ | congruence ].
  destruct (reserved_params fi 0 params issues) as [ issues1 | e ]; [ | discriminate ].
  split.
  { rewrite body_of_agree. unfold Semantic.body_of.
    destruct (dict_get "body" fn) as [ v | ] eqn:Eb; [ | reflexivity ].
    pose proof (unambiguous_get _ _ _ Hu Eb) as Hv.
    destruct v; try (now destruct (Sandbox.truthy _)). exact Hv. }
  unfold flow_of_params. rewrite (params_of_agree fn params Ep), body_of_agree.
  destruct (Semantic.body_of fn) as [ body | ].
  - destruct (_analyze_block afuel body _ _ issues1 known) as [ [ [fl ar] i2 ] | ] eqn:Ea;
      [ | discriminate ].
    injection H as <-.
    exists afuel, [SegS "functions"; SegI fi; SegS "body"], known, issues1, (fl, ar, i2).
    split; [ exact Ea | ]. simpl.
    destruct ar; [ exact Hn | ].
    rewrite no_undefined_app in Hn. now apply andb_true_iff in Hn as [Hn _].
  - eexists 0%nat, [], known, [], (_, false, []). split; reflexivity.
Qed.


Definition no_builtin (name : string) : bool := false.

Definition null_builtin (allowed : list string)
    (dispatch : string -> list Json -> option (result Json))
    (name : string) (args : list Json) : option (result Json) := Some (Ok JNull).

Definition checked_module : Effects.Module_ :=
  [("module", JStr "m");
   ("functions",
    JList [JDict [("name", JStr "pick");
                  ("params", JList [JStr "c"; JStr "x"]);
                  ("body",
                   JList [JDict [("if", JDict [("cond", JDict [("var", JStr "c")]);
                                               ("then", JList [JDict [("let", JDict [("name", JStr "y"); ("expr", JDict [("var", JStr "x")])])]]);
                                               ("else", JList [JDict [("let", JDict [("name", JStr "y"); ("expr", JInt 0)])]])])];
                          JDict [("return", JDict [("var", JStr "y")])]])]])].


End DefiniteAssignment.


(** ** [propcheck.py]: what the shrinking candidates are, and what the
       minimised arguments satisfy *)

Module ShrinkFacts.
Import Py Typecheck Propcheck PropcheckFacts.

(** *** [shrink_int] *)

Lemma halves_between (rounds : nat) : forall cur c,
  In c (halves rounds cur) -> 0 < Z.abs c < Z.abs cur.
Proof.
  induction rounds as [ | rounds IH ]; intros cur c; simpl; [ tauto | ].
  destruct (Z.eqb_spec (Z.quot cur 2) 0) as [ | Hq ]; [ intros [] | ].
  assert (Hcur : cur <> 0) by (intros ->; now apply Hq).
  pose proof (abs_quot_2_lt cur Hcur) as Hlt.
  apply Nat2Z.inj_lt in Hlt. rewrite !Zabs2Nat.id_abs in Hlt.
  intros [ <- | Hc ]; [ lia | ].
  specialize (IH _ _ Hc). lia.
Qed.

(** X12: the candidates of [shrink_int]. Only zero has none. A candidate
    for [n] is strictly smaller than [n] in absolute value, unless [n] is
    [1] or [-1]; and [n] is among its own candidates exactly when it is
    [1] or [-1]. (For [n] within the range in which the float division
    [cur / 2] of the source is exact.) *)
Theorem shrink_int_candidates (n : Z) :
  Z.abs n <= 2 ^ 53 ->
  (shrink_int n = [] <-> n = 0) /\
  (forall c, In c (shrink_int n) -> Z.abs c < Z.abs n \/ Z.abs n = 1) /\
  (In n (shrink_int n) <-> n = 1 \/ n = -1).
Proof.
  intros _. unfold shrink_int. destruct (Z.eqb_spec n 0) as [ -> | Hn ].
  - split; [ tauto | ]. split; [ intros c [] | ]. split; [ intros [] | lia ].
  - split; [ split; [ discriminate | contradiction ] | ]. split.
    + intros c Hc. apply in_app_iff in Hc as [ Hc | Hc ].
      * simpl in Hc. lia.
      * apply halves_between in Hc. lia.
    + split.
      * intros Hc. apply in_app_iff in Hc as [ Hc | Hc ].
        -- simpl in Hc. lia.
        -- apply halves_between in Hc. lia.
      * intros [ -> | -> ]; simpl; tauto.
Qed.

Lemma shrink_int_candidates_witness :
  (shrink_int 20 = [] <-> 20 = 0) /\
  (forall c, In c (shrink_int 20) -> Z.abs c < Z.abs 20 \/ Z.abs 20 = 1) /\
  (In 20 (shrink_int 20) <-> 20 = 1 \/ 20 = -1).
Proof. apply (shrink_int_candidates 20). vm_compute. discriminate. Defined.

(** *** [shrink_list] *)

(** X13: every candidate of [shrink_list] is strictly shorter than the
    list and is a sublist of it (its elements, in their order); the empty
    list has no candidate. *)
Theorem shrink_list_candidates {A} (xs c : list A) :
  In c (shrink_list xs) -> (length c < length xs)%nat /\ sublist c xs.
Proof.
  unfold shrink_list. rewrite !in_app_iff. intros [ H | [ H | H ] ].
  - destruct xs as [ | x xs ]; [ destruct H | ].
    destruct H as [ <- | [] ]. split; [ simpl; lia | apply sublist_nil_l ].
  - destruct (Nat.leb_spec 2 (length xs)) as [ Hlen | ]; [ | destruct H ].
    assert (Hhalf : (0 < length xs / 2 < length xs)%nat).
    { split; [ apply Nat.div_str_pos; lia | apply Nat.div_lt; lia ]. }
    destruct H as [ <- | [ <- | [] ] ].
    + split; [ rewrite length_take; lia | apply sublist_take ].
    + split; [ rewrite length_drop; lia | apply sublist_drop ].
  - apply in_map_iff in H as (i & <- & Hi). apply in_seq in Hi.
    split.
    + rewrite length_app, length_take, length_drop. lia.
    + rewrite <- delete_take_drop. apply sublist_delete.
Qed.

Lemma shrink_list_candidates_witness :
  (length [1; 3] < length [1; 2; 3])%nat /\ sublist [1; 3] [1; 2; 3].
Proof. apply (shrink_list_candidates [1; 2; 3] [1; 3]). vm_compute. tauto. Defined.

(** *** [minimize_failure] *)

Section Minimized.
Variable fails : list Json -> bool.
Variable param_types : list Ty.
Variable typevar_defaults : list (string * Ty).
Variable shrink_fuel : nat.

#[local] Abbreviation pass := (Propcheck.pass fails param_types typevar_defaults shrink_fuel).
#[local] Abbreviation minimize_loop :=
  (Propcheck.minimize_loop fails param_types typevar_defaults shrink_fuel).

(** The candidates for argument [i] of [cur]. *)
Definition candidates (cur : list Json) (i : nat) : option (list Json) :=
  shrink_value shrink_fuel (default AnyType (param_types !! i)) (default JNull (cur !! i))
    typevar_defaults.

(** No candidate for argument [i] still fails. *)
Definition settled (cur : list Json) (i : nat) : Prop :=
  forall cands c, candidates cur i = Some cands -> In c cands ->
                  fails (<[i := c]> cur) = false.

Lemma first_failing_some cur i cands trial :
  first_failing fails cur i cands = Some trial ->
  fails trial = true /\ length trial = length cur.
Proof.
  induction cands as [ | c cands IH ]; simpl; [ discriminate | ].
  destruct (fails (<[i := c]> cur)) eqn:E; [ | exact IH ].
  intros [= <-]. split; [ exact E | apply length_insert ].
Qed.

Lemma first_failing_none cur i cands :
  first_failing fails cur i cands = None ->
  forall c, In c cands -> fails (<[i := c]> cur) = false.
Proof.
  induction cands as [ | c cands IH ]; simpl; [ intros _ c [] | ].
  destruct (fails (<[i := c]> cur)) eqn:E; [ discriminate | ].
  intros H c' [ <- | Hc ]; [ exact E | now apply IH ].
Qed.

(** One pass over the arguments: the length is kept, a failing case stays
    a failing case, the flag is only ever set, and a pass that leaves it
    unset has changed nothing and found every argument settled. *)
Lemma pass_spec todo : forall i cur changed cur' changed',
  pass todo i cur changed = Some (cur', changed') ->
  length cur' = length cur /\
  (fails cur = true -> fails cur' = true) /\
  (changed' = false ->
   changed = false /\ cur' = cur /\ forall j, (i <= j < i + todo)%nat -> settled cur j).
Proof.
  induction todo as [ | todo IH ]; intros i cur changed cur' changed'; simpl.
  - intros [= <- <-]. repeat split; auto. intros j Hj. lia.
  - destruct (shrink_value shrink_fuel (default AnyType (param_types !! i))
                (default JNull (cur !! i)) typevar_defaults) as [ cands | ] eqn:Ec;
      [ | discriminate ].
    destruct (first_failing fails cur i cands) as [ trial | ] eqn:Ef.
    + intros H. apply IH in H as (Hlen & Hfail & Hsame).
      destruct (first_failing_some _ _ _ _ Ef) as [Ht Hl].
      split; [ congruence | ]. split; [ auto | ].
      intros Hc. destruct (Hsame Hc) as [Hflag _]. discriminate Hflag.
    + intros H. apply IH in H as (Hlen & Hfail & Hsame).
      split; [ exact Hlen | ]. split; [ exact Hfail | ].
      intros Hc. destruct (Hsame Hc) as (Hflag & -> & Hrest).
      split; [ exact Hflag | ]. split; [ reflexivity | ].
      intros j Hj. destruct (Nat.eq_dec j i) as [ -> | Hne ].
      * intros cands' c Hcands Hin. unfold candidates in Hcands.
        rewrite Ec in Hcands. injection Hcands as <-.
        now apply (first_failing_none _ _ _ Ef).
      * apply Hrest. lia.
Qed.

Lemma minimize_loop_spec rounds : forall cur result,
  minimize_loop rounds cur = Minimized result ->
  length result = length cur /\
  (fails cur = true -> fails result = true) /\
  forall i, (i < length result)%nat -> settled result i.
Proof.
  induction rounds as [ | rounds IH ]; intros cur result; simpl; [ discriminate | ].
  destruct (pass (length cur) 0 cur false) as [ [cur' [ | ]] | ] eqn:Ep; [ | | discriminate ].
  - intros H. apply IH in H as (Hlen & Hfail & Hset).
    apply pass_spec in Ep as (Hlen' & Hfail' & _).
    split; [ congruence | ]. split; [ auto | exact Hset ].
  - intros [= <-]. apply pass_spec in Ep as (Hlen' & Hfail' & Hsame).
    destruct (Hsame eq_refl) as (_ & -> & Hset).
    split; [ reflexivity | ]. split; [ auto | ].
    intros i Hi. apply Hset. lia.
Qed.

(** X14: what [minimize_failure] returns. The result has as many
    arguments as the input; if the input fails the postcondition, so does
    the result; and the result is a local minimum: no candidate that
    [shrink_value] offers for any one of its arguments still fails. *)
Theorem minimize_failure_local_minimum (rounds : nat) (args result : list Json) :
  minimize_failure fails param_types typevar_defaults shrink_fuel rounds args
    = Minimized result ->
  length result = length args /\
  (fails args = true -> fails result = true) /\
  forall i cands c, (i < length result)%nat ->
    shrink_value shrink_fuel (default AnyType (param_types !! i))
      (default JNull (result !! i)) typevar_defaults = Some cands ->
    In c cands ->
    fails (<[i := c]> result) = false.
Proof.
  intros H. apply minimize_loop_spec in H as (Hlen & Hfail & Hset).
  split; [ exact Hlen | ]. split; [ exact Hfail | ].
  intros i cands c Hi Hcands Hin. exact (Hset i Hi cands c Hcands Hin).
Qed.

End Minimized.

(** A postcondition that fails on an integer of at least ten. *)
Definition at_least_ten (args : list Json) : bool :=
  match args with
  | [JInt n] => 10 <=? n
  | _ => false
  end.

Lemma minimize_failure_local_minimum_witness :
  length [JInt 10] = length [JInt 20] /\
  (at_least_ten [JInt 20] = true -> at_least_ten [JInt 10] = true) /\
  forall i cands c, (i < length [JInt 10])%nat ->
    shrink_value 3 (default AnyType ([Prim "Int"] !! i))
      (default JNull ([JInt 10] !! i)) [] = Some cands ->
    In c cands ->
    at_least_ten (<[i := c]> [JInt 10]) = false.
Proof.
  apply (minimize_failure_local_minimum at_least_ten [Prim "Int"] [] 3 5 [JInt 20] [JInt 10]).
  vm_compute. reflexivity.
Defined.

End ShrinkFacts.


(** ** [lsp_server.py]: [_no_regression] as an order on issue summaries *)

Module RegressionOrder.
Import Py Lsp.

(** Fewer errors, or the same errors and fewer warnings. *)
Definition improves (base new : IssueSummary) : Prop :=
  errors new ⊂ errors base \/
  (errors new = errors base /\ warnings new ⊂ warnings base).

Lemma same_size_subseteq (a b : gset (string * string)) :
  a ⊆ b -> size a = size b -> a = b.
Proof.
  intros Hsub Hsize. apply set_eq. intros x. split; [ apply Hsub | ]. intros Hx.
  destruct (decide (x ∈ a)) as [ | Hn ]; [ assumption | exfalso ].
  assert (Hlt : a ⊂ b) by set_solver.
  apply subset_size in Hlt. lia.
Qed.

Lemma no_regression_improves (base new : IssueSummary) :
  _no_regression base new = true <-> improves base new.
Proof.
  unfold _no_regression, improves.
  destruct (decide (errors new ⊆ errors base)) as [ Hsub | Hsub ].
  2: { rewrite (bool_decide_eq_false_2 _ Hsub). simpl. split; [ discriminate | ].
       intros [ H | [H _] ]; exfalso; apply Hsub; [ apply H | now rewrite H ]. }
  rewrite (bool_decide_eq_true_2 _ Hsub). simpl.
  destruct (Nat.eqb_spec (size (errors new)) (size (errors base))) as [ Hsize | Hsize ].
  - pose proof (same_size_subseteq _ _ Hsub Hsize) as Heq.
    rewrite (bool_decide_eq_true_2 _ Heq). simpl.
    destruct (decide (warnings new ⊆ warnings base)) as [ Hw | Hw ].
    + rewrite (bool_decide_eq_true_2 _ Hw). simpl.
      destruct (decide (warnings new = warnings base)) as [ Hweq | Hweq ].
      * rewrite (bool_decide_eq_true_2 _ Hweq). split; [ discriminate | ].
        intros [ H | [_ H] ]; exfalso.
        -- rewrite Heq in H. now apply (irreflexivity (⊂) (errors base)).
        -- rewrite Hweq in H. now apply (irreflexivity (⊂) (warnings base)).
      * rewrite (bool_decide_eq_false_2 _ Hweq). split; [ intros _ | reflexivity ].
        right. split; [ exact Heq | ]. set_solver.
    + rewrite (bool_decide_eq_false_2 _ Hw). simpl. split; [ discriminate | ].
      intros [ H | [_ H] ]; exfalso.
      * rewrite Heq in H. now apply (irreflexivity (⊂) (errors base)).
      * apply Hw, H.
  - simpl. assert (Hne : errors new <> errors base) by (intros H; apply Hsize; now rewrite H).
    rewrite (bool_decide_eq_false_2 _ Hne). simpl. split; [ intros _ | reflexivity ].
    left. set_solver.
Qed.

(** X15: [_no_regression] accepts exactly a strict improvement: the new
    errors are a proper subset of the old ones, or the errors are the same
    and the new warnings are a proper subset of the old ones. In
    particular new warnings are accepted when an error goes away. *)
Theorem no_regression_is_strict_improvement (base new : IssueSummary) :
  _no_regression base new = true <->
  errors new ⊂ errors base \/
  (errors new = errors base /\ warnings new ⊂ warnings base).
Proof. exact (no_regression_improves base new). Qed.

Lemma improves_trans (a b c : IssueSummary) :
  improves a b -> improves b c -> improves a c.
Proof.
  unfold improves. intros [ Hab | [Hab Hwab] ] [ Hbc | [Hbc Hwbc] ].
  - left. set_solver.
  - left. now rewrite Hbc.
  - left. now rewrite <- Hab.
  - right. split; [ congruence | set_solver ].
Qed.

Lemma improves_measure (base new : IssueSummary) :
  improves base new ->
  (size (errors new) < size (errors base))%nat \/
  (size (errors new) = size (errors base) /\
   size (warnings new) < size (warnings base))%nat.
Proof.
  intros [ H | [He Hw] ].
  - left. now apply subset_size.
  - right. split; [ now rewrite He | now apply subset_size ].
Qed.

(** X16: accepted quick fixes compose and never cycle. If
    [_no_regression] accepts [mid] against [base] and [new] against [mid],
    it accepts [new] against [base] and refuses [base] against [new]; and
    each accepted step lowers the number of errors, or keeps it and lowers
    the number of warnings. *)
Theorem no_regression_chain (base mid new : IssueSummary) :
  _no_regression base mid = true ->
  _no_regression mid new = true ->
  _no_regression base new = true /\
  _no_regression new base = false /\
  ((size (errors mid) < size (errors base))%nat \/
   (size (errors mid) = size (errors base) /\
    size (warnings mid) < size (warnings base))%nat).
Proof.
  intros H1 H2. apply no_regression_improves in H1, H2.
  pose proof (improves_trans _ _ _ H1 H2) as H3.
  split; [ now apply no_regression_improves | ].
  split; [ | now apply improves_measure ].
  apply not_true_is_false. intros H4. apply no_regression_improves in H4.
  apply improves_measure in H3, H4. lia.
Qed.

Definition two_errors : IssueSummary :=
  mkSummary {[ ("MissingReturn", "/functions/0"); ("UndefinedVariable", "/functions/0/body/0") ]} ∅.
Definition one_error_one_warning : IssueSummary :=
  mkSummary {[ ("MissingReturn", "/functions/0") ]} {[ ("UnreachableStatement", "/functions/0/body/1") ]}.
Definition one_error_left : IssueSummary :=
  mkSummary {[ ("MissingReturn", "/functions/0") ]} ∅.

Lemma no_regression_chain_witness :
  _no_regression two_errors one_error_left = true /\
  _no_regression one_error_left two_errors = false /\
  ((size (errors one_error_one_warning) < size (errors two_errors))%nat \/
   (size (errors one_error_one_warning) = size (errors two_errors) /\
    size (warnings one_error_one_warning) < size (warnings two_errors))%nat).
Proof.
  apply (no_regression_chain two_errors one_error_one_warning one_error_left);
    vm_compute; reflexivity.
Defined.

End RegressionOrder.


(** ** [jsonpos.py]: [position] against a linear scan, and where [offset]
       lands *)

Module TextIndexScan.
Import TextIndex TextIndexFacts.

Local Open Scope nat_scope.

(** Reading a text from its start, counting the lines and keeping the
    code points of the line being read. *)
Fixpoint scan (s : Text) (line : nat) (cur : Text) : nat * Text :=
  match s with
  | [] => (line, cur)
  | ch :: s' =>
      if (ch =? NEWLINE)%Z then scan s' (S line) [] else scan s' line (cur ++ [ch])
  end.

(** The position of [index] by a scan of the text before it. *)
Definition linear_position (text : Text) (index : nat) : result (nat * nat) :=
  let '(line, cur) := scan (take index text) 0 [] in
  try! character <- utf16_len cur; Ok (line, character).

(** [index] brought into [0 .. len(text)], as [position] does. *)
Definition clamp_index (text : Text) (index : Z) : nat :=
  Z.to_nat (Z.max 0 (Z.min index (Z.of_nat (length text)))).

(** [line] brought into [0 .. len(starts) - 1], as [offset] does. *)
Definition clamp_line (idx : Index) (line : Z) : nat :=
  Z.to_nat (Z.max 0 (Z.min line (Z.of_nat (length (starts idx)) - 1))).

Lemma scan_app (pre : Text) : forall seg line cur,
  scan (pre ++ seg) line cur = scan seg (fst (scan pre line cur)) (snd (scan pre line cur)).
Proof.
  induction pre as [ | ch pre IH ]; intros seg line cur; simpl; [ reflexivity | ].
  destruct (ch =? NEWLINE)%Z; apply IH.
Qed.

Lemma scan_one_line (seg : Text) : forall line cur,
  Forall (fun ch => ch <> NEWLINE) seg -> scan seg line cur = (line, cur ++ seg).
Proof.
  induction seg as [ | ch seg IH ]; intros line cur Hseg; simpl.
  - now rewrite app_nil_r.
  - apply Forall_cons in Hseg as [Hch Hseg].
    destruct (Z.eqb_spec ch NEWLINE) as [ | _ ]; [ contradiction | ].
    rewrite IH by exact Hseg. now rewrite <- app_assoc.
Qed.

(** The text before the [k]-th recorded line start holds [k + 1] newlines
    and ends with one. *)
Lemma scan_to_start (text : Text) : forall i line cur k,
  k < length (newline_starts i text) ->
  scan (take (nth k (newline_starts i text) 0 - i) text) line cur = (line + S k, []).
Proof.
  induction text as [ | ch text IH ]; intros i line cur k Hk; simpl in *; [ lia | ].
  destruct (Z.eqb_spec ch NEWLINE) as [ -> | Hne ].
  - destruct k as [ | k ]; simpl in *.
    + replace (S i - i) with 1 by lia. simpl. f_equal. lia.
    + assert (Hin : In (nth k (newline_starts (S i) text) 0) (newline_starts (S i) text))
        by (apply nth_In; lia).
      apply newline_starts_bounds in Hin.
      replace (nth k (newline_starts (S i) text) 0 - i)
        with (S (nth k (newline_starts (S i) text) 0 - S i)) by lia.
      simpl. rewrite IH by lia. f_equal. lia.
  - assert (Hin : In (nth k (newline_starts (S i) text) 0) (newline_starts (S i) text))
      by (apply nth_In; lia).
    apply newline_starts_bounds in Hin.
    replace (nth k (newline_starts (S i) text) 0 - i)
      with (S (nth k (newline_starts (S i) text) 0 - S i)) by lia.
    simpl. destruct (Z.eqb_spec ch NEWLINE) as [ | _ ]; [ contradiction | ].
    now rewrite IH by lia.
Qed.

Lemma scan_to_line_start (text : Text) (line : nat) :
  line < length (starts (make text)) ->
  scan (take (nth line (starts (make text)) 0) text) 0 [] = (line, []).
Proof.
  simpl. intros Hline. destruct line as [ | k ]; [ reflexivity | ].
  pose proof (scan_to_start text 0 0 [] k ltac:(lia)) as H.
  now rewrite Nat.sub_0_r in H.
Qed.

(** No newline between the start of the line found and [index]. *)
Lemma one_line_before (text : Text) (index line : nat) :
  index <= length text ->
  line < length (starts (make text)) ->
  nth line (starts (make text)) 0 <= index ->
  (forall k, line < k -> k < length (starts (make text)) ->
             index < nth k (starts (make text)) 0) ->
  Forall (fun ch => ch <> NEWLINE) (slice (nth line (starts (make text)) 0) index text).
Proof.
  intros Hindex Hline Hle Hlast. set (s := nth line (starts (make text)) 0) in *.
  apply Forall_lookup_2. intros j ch Hj. unfold slice in Hj.
  apply lookup_take_Some in Hj as [Hj Hlt]. rewrite lookup_drop in Hj.
  intros ->. 
  assert (Hp : s + j < length text) by (apply lookup_lt_Some in Hj; exact Hj).
  assert (Hnth : nth (s + j) text 0%Z = NEWLINE) by (now apply nth_lookup_Some with (d := 0%Z) in Hj).
  assert (In (s + j + 1) (starts (make text))) as Hin.
  { simpl. right. exact (newline_starts_after text 0 (s + j) Hp Hnth). }
  apply (In_nth _ _ 0) in Hin as (k' & Hk' & Hk'nth).
  destruct (Nat.le_gt_cases k' line) as [ Hbefore | Hlater ].
  - pose proof (increasing_le _ k' line (starts_increasing text) Hbefore Hline) as H.
    fold s in H. lia.
  - specialize (Hlast k' Hlater Hk'). lia.
Qed.

Lemma position_of_nat (text : Text) (index : nat) :
  index <= length text ->
  position (make text) (Z.of_nat index) = Some (linear_position text index).
Proof.
  intros Hindex. unfold position.
  destruct (Z.ltb_spec (Z.of_nat index) 0) as [ | _ ]; [ lia | ].
  change (TextIndex.text (make text)) with text.
  destruct (Z.ltb_spec (Z.of_nat (length text)) (Z.of_nat index)) as [ | _ ]; [ lia | ].
  rewrite Nat2Z.id.
  destruct (find_line_spec text index) as (line & Hfind & Hline & Hle & Hlast).
  rewrite Hfind. f_equal.
  pose proof (index_on_line text index line Hindex Hline Hle Hlast) as Hon.
  pose proof (one_line_before text index line Hindex Hline Hle Hlast) as Hone.
  pose proof (scan_to_line_start text line Hline) as Hscan.
  unfold line_text. rewrite (ends_nth text line Hline).
  change (TextIndex.text (make text)) with text.
  remember (nth line (starts (make text)) 0) as s eqn:Hs.
  assert (Hprefix : take (index - s) (slice s (line_end text s) text) = slice s index text).
  { unfold slice. rewrite take_take. f_equal. lia. }
  rewrite Hprefix. unfold linear_position.
  assert (Hsplit : take index text = take s text ++ slice s index text).
  { unfold slice. rewrite <- (take_drop s (take index text)) at 1.
    rewrite take_take, skipn_firstn_comm. f_equal. f_equal. lia. }
  rewrite Hsplit, scan_app, Hscan. cbn [fst snd].
  rewrite (scan_one_line _ line [] Hone). reflexivity.
Qed.

(** X17: [position] agrees with a linear scan. For every text and every
    index, brought into [0 .. len(text)] first, the line that the binary
    search over the recorded line starts finds is the number of newlines
    before the index, and the character is the UTF-16 length of the text
    between the last of them and the index (an error if that text cannot
    be encoded). *)
Theorem position_is_linear_scan (text : Text) (index : Z) :
  position (make text) index = Some (linear_position text (clamp_index text index)).
Proof.
  assert (Hclamp : (clamp_index text index <= length text)%nat) by (unfold clamp_index; lia).
  rewrite <- (position_of_nat text _ Hclamp). unfold position, clamp_index.
  change (TextIndex.text (make text)) with text.
  destruct (Z.ltb_spec index 0) as [ Hneg | Hpos ].
  - destruct (Z.ltb_spec (Z.of_nat (length text)) 0) as [ | _ ]; [ lia | ].
    replace (Z.of_nat (Z.to_nat (Z.max 0 (Z.min index (Z.of_nat (length text)))))) with 0%Z by lia.
    simpl. destruct (Z.ltb_spec (Z.of_nat (length text)) 0) as [ | _ ]; [ lia | ]. reflexivity.
  - destruct (Z.ltb_spec (Z.of_nat (length text)) index) as [ Hbig | Hsmall ].
    + replace (Z.of_nat (Z.to_nat (Z.max 0 (Z.min index (Z.of_nat (length text))))))
        with (Z.of_nat (length text)) by lia.
      destruct (Z.ltb_spec (Z.of_nat (length text)) 0) as [ | _ ]; [ lia | ].
      rewrite Z.ltb_irrefl. reflexivity.
    + replace (Z.of_nat (Z.to_nat (Z.max 0 (Z.min index (Z.of_nat (length text)))))) with index by lia.
      destruct (Z.ltb_spec index 0) as [ | _ ]; [ lia | ].
      destruct (Z.ltb_spec (Z.of_nat (length text)) index) as [ | _ ]; [ lia | ]. reflexivity.
Qed.

(** *** Where [offset] lands *)

Lemma offset_loop_bounds (chars : Text) : encodable chars ->
  forall units cp character,
  exists n, offset_loop chars units cp character = Ok (cp + n) /\ n <= length chars.
Proof.
  induction 1 as [ | ch chars Hch _ IH ]; intros units cp character; simpl.
  - exists 0. split; [ f_equal; lia | lia ].
  - destruct (utf16_units_ok ch Hch) as (u & -> & _). simpl.
    destruct (character <? units + u).
    + exists 0. split; [ f_equal; lia | lia ].
    + destruct (IH (units + u) (S cp) character) as (n & -> & Hn).
      exists (S n). split; [ f_equal; lia | lia ].
Qed.

Lemma clamp_line_lt (text : Text) (line : Z) :
  clamp_line (make text) line < length (starts (make text)).
Proof. unfold clamp_line. simpl. lia. Qed.

(** X18: [offset] never leaves the line it is asked for. On a text
    without surrogate code points, for any line and character (also
    negative ones and ones far out of range), [offset] returns an offset
    between the start and the end of the line, the line brought into
    [0 .. len(starts) - 1] first; so the offset is at most [len(text)] and
    no newline lies between the line start and it. *)
Theorem offset_stays_on_line (text : Text) (line character : Z) :
  encodable text ->
  let l := clamp_line (make text) line in
  exists o,
    offset (make text) line character = Ok o /\
    nth l (starts (make text)) 0 <= o <= nth l (ends (make text)) 0 /\
    o <= length text /\
    Forall (fun ch => ch <> NEWLINE) (slice (nth l (starts (make text)) 0) o text).
Proof.
  intros Henc l.
  pose proof (clamp_line_lt text line) as Hl. fold l in Hl.
  pose proof (starts_le_length text l Hl) as Hstart.
  pose proof (line_end_le text _ Hstart) as Hend.
  assert (Hline : Z.to_nat
            (let line := if (line <? 0)%Z then 0%Z else line in
             if (Z.of_nat (length (starts (make text))) <=? line)%Z
             then (Z.of_nat (length (starts (make text))) - 1)%Z else line) = l).
  { unfold l, clamp_line. cbv zeta.
    destruct (Z.ltb_spec line 0);
      match goal with |- context [ (?a <=? ?b)%Z ] => destruct (Z.leb_spec a b) end; lia. }
  unfold offset. cbv zeta in Hline |- *. rewrite Hline.
  assert (Htext : line_text (make text) l
                  = slice (nth l (starts (make text)) 0)
                          (line_end text (nth l (starts (make text)) 0)) text)
    by (unfold line_text; now rewrite ends_nth).
  rewrite (ends_nth text l Hl).
  remember (nth l (starts (make text)) 0) as s eqn:Hs.
  remember (line_text (make text) l) as chars eqn:Hchars.
  assert (Hchars_ok : encodable chars) by (rewrite Htext; now apply encodable_line).
  assert (Hlen : length chars = line_end text s - s).
  { rewrite Htext. unfold slice. rewrite length_take, length_drop. lia. }
  destruct (offset_loop_bounds chars Hchars_ok 0 0
              (Z.to_nat (if (character <? 0)%Z then 0%Z else character)))
    as (n & Hloop & Hn).
  rewrite Hloop. simpl. exists (s + n). split; [ reflexivity | ].
  split; [ lia | ]. split; [ lia | ].
  (* the line text holds no newline *)
  assert (Hno : Forall (fun ch => ch <> NEWLINE) chars).
  { rewrite Htext. unfold slice, line_end.
    destruct (find_newline (drop s text)) as [ k | ] eqn:Hfind.
    - replace (s + k - s) with k by lia. clear -Hfind.
      revert k Hfind. induction (drop s text) as [ | ch rest IH ]; intros k; simpl;
        [ discriminate | ].
      destruct (Z.eqb_spec ch NEWLINE) as [ | Hne ]; [ intros [= <-]; constructor | ].
      destruct (find_newline rest) as [ k' | ]; [ | discriminate ].
      intros [= <-]. simpl. constructor; [ exact Hne | now apply IH ].
    - rewrite take_ge by (rewrite length_drop; lia). clear -Hfind.
      induction (drop s text) as [ | ch rest IH ]; simpl in *; [ constructor | ].
      destruct (Z.eqb_spec ch NEWLINE) as [ | Hne ]; [ discriminate | ].
      destruct (find_newline rest); [ discriminate | ].
      constructor; [ exact Hne | now apply IH ]. }
  replace (slice s (s + n) text) with (take n chars).
  - now apply Forall_take.
  - rewrite Htext. unfold slice. rewrite take_take. f_equal. lia.
Qed.

Lemma offset_stays_on_line_witness :
  encodable sample_text /\
  exists o,
    offset (make sample_text) 1 100 = Ok o /\
    nth 1 (starts (make sample_text)) 0 <= o <= nth 1 (ends (make sample_text)) 0 /\
    o <= length sample_text /\
    Forall (fun ch => ch <> NEWLINE) (slice (nth 1 (starts (make sample_text)) 0) o sample_text).
Proof.
  assert (encodable sample_text) as Henc by (repeat constructor).
  split; [ exact Henc | ].
  exact (offset_stays_on_line sample_text 1 100 Henc).
Defined.

End TextIndexScan.


(** ** [resolve.py]: what [merge_functions] merges, and when it refuses *)

Module ResolveFacts.
Import Py Resolve.

(** The name under which the loop of [merge_functions] takes a function:
    only a dict whose [name] is a string is merged. *)
Definition named (f : Json) : option string :=
  match f with
  | JDict fn => match dict_get "name" fn with
                | Some (JStr name) => Some name
                | _ => None
                end
  | _ => None
  end.

Definition is_named (f : Json) : bool :=
  match named f with Some _ => true | None => false end.

Fixpoint names (fns : list Json) : list string :=
  match fns with
  | [] => []
  | f :: fns' => match named f with
                 | Some name => name :: names fns'
                 | None => names fns'
                 end
  end.

(** The functions of [dst] before the merge: the list under [functions],
    or none when [dst] has no such member. *)
Definition dst_functions (dst : Effects.Module_) : option (list Json) :=
  match dict_get "functions" dst with
  | None => Some []
  | Some (JList fns) => Some fns
  | Some _ => None
  end.

Definition conflict (src_label name : string) : Failure :=
  ResolveError ("Function name conflict while merging " +:+ src_label +:+ ": " +:+ name).

Lemma names_app (a b : list Json) : names (a ++ b) = names a ++ names b.
Proof.
  induction a as [ | f a IH ]; simpl; [ reflexivity | ].
  destruct (named f); simpl; now rewrite IH.
Qed.

Lemma names_filter (a : list Json) : names (List.filter is_named a) = names a.
Proof.
  induction a as [ | f a IH ]; simpl; [ reflexivity | ].
  assert (Hf : is_named f = match named f with Some _ => true | None => false end)
    by reflexivity.
  rewrite Hf. destruct (named f) eqn:E; simpl; rewrite ?E, IH; reflexivity.
Qed.

Lemma has_name_In (name : string) (existing : list Json) :
  has_name name existing = true <-> In (JStr name) existing.
Proof.
  unfold has_name. rewrite existsb_exists. split.
  - intros (n & Hin & Hn). destruct n; try discriminate.
    apply String.eqb_eq in Hn. now subst.
  - intros Hin. exists (JStr name). split; [ exact Hin | apply String.eqb_refl ].
Qed.

Lemma existing_names_In (fns : list Json) : forall existing name,
  existing_names fns = Some existing ->
  (In (JStr name) existing <-> In name (names fns)).
Proof.
  induction fns as [ | f fns IH ]; intros existing name.
  - intros [= <-]. reflexivity.
  - destruct f as [ | | | | | | fn ]; try (exact (IH existing name)).
    cbn [existing_names names named].
    destruct (dict_get "name" fn) as [ [ | | | | n | | ] | ]; cbn [default];
      try discriminate;
      (destruct (existing_names fns) as [ rest | ]; [ | discriminate ]);
      intros [= <-]; specialize (IH rest name eq_refl); cbn [In]; rewrite <- IH;
      try (split; [ intros [ Hd | ? ]; [ discriminate Hd | assumption ] | tauto ]).
    split; [ intros [ [= ->] | ? ]; tauto | intros [ -> | ? ]; tauto ].
Qed.

(** The strings that [existing] holds when the loop has gone through
    [pre]: those it started with and the names of [pre]. *)
Definition seen (existing : list Json) (name : string) : Prop := In (JStr name) existing.

Lemma merge_loop_clean (src_label : string) (src_fns : list Json) :
  forall dst_funcs existing,
    List.NoDup (names src_fns) ->
    (forall n, In n (names src_fns) -> ~ seen existing n) ->
    merge_loop src_label src_fns dst_funcs existing
    = (dst_funcs ++ List.filter is_named src_fns, None).
Proof.
  induction src_fns as [ | f src_fns IH ]; intros dst_funcs existing Hnd Hfresh; simpl.
  - now rewrite app_nil_r.
  - unfold is_named. simpl in Hnd, Hfresh.
    destruct f as [ | | | | | | fn ]; simpl in *; try (now apply IH).
    destruct (dict_get "name" fn) as [ [ | | | | name | | ] | ]; simpl in *; try (now apply IH).
    destruct (has_name name existing) eqn:Hh.
    + exfalso. apply has_name_In in Hh. apply (Hfresh name); [ now left | exact Hh ].
    + apply List.NoDup_cons_iff in Hnd as [Hnot Hnd].
      rewrite IH; [ now rewrite <- app_assoc | exact Hnd | ].
      intros n Hn [ [= ->] | Hs ]; [ contradiction | ].
      apply (Hfresh n); [ now right | exact Hs ].
Qed.

Lemma merge_loop_clash (src_label : string) (pre : list Json) :
  forall f post name dst_funcs existing,
    named f = Some name ->
    List.NoDup (names pre) ->
    (forall n, In n (names pre) -> ~ seen existing n) ->
    seen existing name \/ In name (names pre) ->
    merge_loop src_label (pre ++ f :: post) dst_funcs existing
    = (dst_funcs ++ List.filter is_named pre, Some (conflict src_label name)).
Proof.
  induction pre as [ | g pre IH ]; intros f post name dst_funcs existing Hf Hnd Hfresh Hclash.
  - simpl. destruct Hclash as [ Hclash | [] ].
    destruct f as [ | | | | | | fn ]; try discriminate Hf. simpl in Hf |- *.
    destruct (dict_get "name" fn) as [ [ | | | | name' | | ] | ]; try discriminate Hf.
    injection Hf as ->. apply has_name_In in Hclash. rewrite Hclash.
    now rewrite app_nil_r.
  - simpl in Hnd, Hfresh, Hclash |- *. unfold is_named.
    destruct g as [ | | | | | | gn ]; simpl in *; try (now apply IH).
    destruct (dict_get "name" gn) as [ [ | | | | gname | | ] | ]; simpl in *; try (now apply IH).
    destruct (has_name gname existing) eqn:Hh.
    + exfalso. apply has_name_In in Hh. apply (Hfresh gname); [ now left | exact Hh ].
    + apply List.NoDup_cons_iff in Hnd as [Hnot Hnd].
      rewrite (IH f post name); [ now rewrite <- app_assoc | exact Hf | exact Hnd | | ].
      * intros n Hn [ [= ->] | Hs ]; [ contradiction | ].
        apply (Hfresh n); [ now right | exact Hs ].
      * destruct Hclash as [ Hs | [ -> | Hin ] ]; [ left; now right | left; now left | now right ].
Qed.

Lemma dict_set_twice {V} (k : string) (v w : V) (d : list (string * V)) :
  dict_set k w (dict_set k v d) = dict_set k w d.
Proof.
  induction d as [ | [k' v'] d IH ]; simpl.
  - now rewrite String.eqb_refl.
  - destruct (String.eqb k k') eqn:E; simpl.
    + now rewrite String.eqb_refl.
    + now rewrite E, IH.
Qed.

Lemma dict_get_set_same {V} (k : string) (v : V) (d : list (string * V)) :
  dict_get k (dict_set k v d) = Some v.
Proof.
  induction d as [ | [k' v'] d IH ]; simpl.
  - now rewrite String.eqb_refl.
  - destruct (String.eqb k k') eqn:E; simpl.
    + now rewrite String.eqb_refl.
    + now rewrite E.
Qed.

(** [merge_functions] up to its loop, for a [dst] whose functions are
    [dst_funcs]. *)
Lemma merge_functions_loop (dst src : Effects.Module_) (src_label : string)
    (dst_funcs existing src_fns : list Json) :
  dst_functions dst = Some dst_funcs ->
  existing_names dst_funcs = Some existing ->
  src_functions src = Some src_fns ->
  merge_functions dst src src_label
  = (dict_set "functions"
       (JList (merge_loop src_label src_fns dst_funcs existing).1) dst,
     (merge_loop src_label src_fns dst_funcs existing).2).
Proof.
  unfold dst_functions, merge_functions, dict_has. intros Hdst Hex Hsrc.
  destruct (dict_get "functions" dst) as [ v | ] eqn:Eg.
  - destruct v; try discriminate Hdst. injection Hdst as ->.
    rewrite Eg, Hex, Hsrc. now destruct (merge_loop src_label src_fns dst_funcs existing).
  - injection Hdst as <-. rewrite dict_get_set_same. simpl in Hex. injection Hex as <-.
    cbn [existing_names]. rewrite Hsrc.
    destruct (merge_loop src_label src_fns [] []). now rewrite dict_set_twice.
Qed.

(** X19: a merge without a name clash. When the named functions of [src]
    have pairwise different names, none of which is the name of a
    function of [dst], [merge_functions] raises nothing and leaves [dst]
    with its own functions followed by the named functions of [src], in
    their order; functions of [src] that are no dict or have no string as
    [name] are dropped. The names stay pairwise different if those of
    [dst] were. *)
Theorem merge_functions_without_clash (dst src : Effects.Module_) (src_label : string)
    (dst_funcs existing src_fns : list Json) :
  dst_functions dst = Some dst_funcs ->
  existing_names dst_funcs = Some existing ->
  src_functions src = Some src_fns ->
  List.NoDup (names src_fns) ->
  (forall n, In n (names src_fns) -> ~ In n (names dst_funcs)) ->
  let merged := dst_funcs ++ List.filter is_named src_fns in
  merge_functions dst src src_label = (dict_set "functions" (JList merged) dst, None) /\
  names merged = names dst_funcs ++ names src_fns /\
  (List.NoDup (names dst_funcs) -> List.NoDup (names merged)).
Proof.
  intros Hdst Hex Hsrc Hnd Hfresh merged.
  assert (Hnames : names merged = names dst_funcs ++ names src_fns)
    by (unfold merged; now rewrite names_app, names_filter).
  split; [ | split; [ exact Hnames | ] ].
  - rewrite (merge_functions_loop dst src src_label dst_funcs existing src_fns Hdst Hex Hsrc).
    rewrite merge_loop_clean; [ reflexivity | exact Hnd | ].
    intros n Hn Hs. apply (Hfresh n Hn). now apply (existing_names_In dst_funcs existing n Hex).
  - intros Hd. rewrite Hnames. apply List.NoDup_app; [ exact Hd | exact Hnd | ].
    intros n Hn1 Hn2. exact (Hfresh n Hn2 Hn1).
Qed.

Definition fn_named (name : string) : Json :=
  JDict [("name", JStr name); ("params", JList []); ("body", JList [])].

Definition dst_module : Effects.Module_ :=
  [("module", JStr "main"); ("functions", JList [fn_named "main"; fn_named "helper"])].

Definition src_module : Effects.Module_ :=
  [("module", JStr "lib"); ("functions", JList [fn_named "f"; JInt 3; fn_named "g"])].

Definition src_clashing : Effects.Module_ :=
  [("module", JStr "lib");
   ("functions", JList [fn_named "f"; fn_named "helper"; fn_named "g"])].

Lemma merge_functions_without_clash_witness :
  merge_functions dst_module src_module "lib.json"
  = (dict_set "functions"
       (JList ([fn_named "main"; fn_named "helper"]
               ++ List.filter is_named [fn_named "f"; JInt 3; fn_named "g"])) dst_module,
     None) /\
  names ([fn_named "main"; fn_named "helper"]
         ++ List.filter is_named [fn_named "f"; JInt 3; fn_named "g"])
  = names [fn_named "main"; fn_named "helper"] ++ names [fn_named "f"; JInt 3; fn_named "g"] /\
  (List.NoDup (names [fn_named "main"; fn_named "helper"]) ->
   List.NoDup (names ([fn_named "main"; fn_named "helper"]
                      ++ List.filter is_named [fn_named "f"; JInt 3; fn_named "g"]))).
Proof.
  apply (merge_functions_without_clash dst_module src_module "lib.json"
           [fn_named "main"; fn_named "helper"] [JStr "main"; JStr "helper"]
           [fn_named "f"; JInt 3; fn_named "g"]);
    try reflexivity.
  - vm_compute. repeat constructor; simpl; intuition discriminate.
  - vm_compute. intuition (subst; discriminate).
Defined.

(** X20: a merge with a name clash is refused half way. Let [f] be the
    first named function of [src] whose name is the name of a function of
    [dst] or of an earlier function of [src]. Then [merge_functions]
    raises [ResolveError] naming the merged file and that name, and [dst]
    is left with the named functions of [src] before [f] appended: the
    call is not undone. *)
Theorem merge_functions_clash_leaves_partial_merge (dst src : Effects.Module_)
    (src_label : string) (dst_funcs existing pre post : list Json) (f : Json) (name : string) :
  dst_functions dst = Some dst_funcs ->
  existing_names dst_funcs = Some existing ->
  src_functions src = Some (pre ++ f :: post) ->
  named f = Some name ->
  List.NoDup (names pre) ->
  (forall n, In n (names pre) -> ~ In n (names dst_funcs)) ->
  In name (names dst_funcs) \/ In name (names pre) ->
  merge_functions dst src src_label
  = (dict_set "functions" (JList (dst_funcs ++ List.filter is_named pre)) dst,
     Some (ResolveError ("Function name conflict while merging " +:+ src_label
                         +:+ ": " +:+ name))).
Proof.
  intros Hdst Hex Hsrc Hf Hnd Hfresh Hclash.
  rewrite (merge_functions_loop dst src src_label dst_funcs existing _ Hdst Hex Hsrc).
  rewrite (merge_loop_clash src_label pre f post name dst_funcs existing Hf Hnd).
  - reflexivity.
  - intros n Hn Hs. apply (Hfresh n Hn). now apply (existing_names_In dst_funcs existing n Hex).
  - destruct Hclash as [ Hd | Hp ]; [ left | now right ].
    now apply (existing_names_In dst_funcs existing name Hex).
Qed.

Lemma merge_functions_clash_leaves_partial_merge_witness :
  merge_functions dst_module src_clashing "lib.json"
  = (dict_set "functions"
       (JList ([fn_named "main"; fn_named "helper"] ++ List.filter is_named [fn_named "f"]))
       dst_module,
     Some (ResolveError ("Function name conflict while merging " +:+ "lib.json"
                         +:+ ": " +:+ "helper"))).
Proof.
  apply (merge_functions_clash_leaves_partial_merge dst_module src_clashing "lib.json"
           [fn_named "main"; fn_named "helper"] [JStr "main"; JStr "helper"]
           [fn_named "f"] [fn_named "g"] (fn_named "helper") "helper");
    try reflexivity.
  - vm_compute. repeat constructor; simpl; intuition discriminate.
  - vm_compute. intuition (subst; discriminate).
  - left. vm_compute. tauto.
Defined.

End ResolveFacts.


(** ** [typecheck.py]: the join of two branch types accepts both *)

Module JoinFacts.
Import Py Fmt Typecheck OrderedDictFacts FmtOrder.

Local Open Scope nat_scope.

(** Induction on a type, with the hypothesis for every field of a record. *)
Lemma Ty_ind' (P : Ty -> Prop) :
  P AnyType ->
  (forall name, P (Prim name)) ->
  (forall name, P (Var name)) ->
  (forall elem, P elem -> P (ListT elem)) ->
  (forall fields, Forall (fun kv => P kv.2) fields -> P (RecordT fields)) ->
  forall t, P t.
Proof.
  intros Hany Hprim Hvar Hlist Hrec.
  fix IH 1. intros [ | name | name | elem | fields ].
  - exact Hany.
  - apply Hprim.
  - apply Hvar.
  - apply Hlist, IH.
  - apply Hrec. induction fields as [ | [k v] fields IHf ]; constructor.
    + apply IH.
    + exact IHf.
Qed.

(** The nesting depth of a type: what [_apply] and [unify] recurse
    through. *)
Fixpoint ty_depth (t : Ty) : nat :=
  match t with
  | ListT elem => S (ty_depth elem)
  | RecordT fields => S (fold_right (fun kv m => Nat.max (ty_depth kv.2) m) 0 fields)
  | _ => 1
  end.

(** The fields that [_join] keeps of two records, before they are sorted. *)
Fixpoint shared (jn : Ty -> Ty -> Ty) (f1 f2 : list (string * Ty)) : list (string * Ty) :=
  match f1 with
  | [] => []
  | (k, v1) :: f1' =>
      match dict_get k f2 with
      | Some v2 => (k, jn v1 v2) :: shared jn f1' f2
      | None => shared jn f1' f2
      end
  end.

Lemma join_records (f1 f2 : list (string * Ty)) :
  _join (RecordT f1) (RecordT f2) = RecordT (sorted_items (shared _join f1 f2)).
Proof.
  cbn [_join is_any orb]. f_equal. f_equal.
  induction f1 as [ | [k v1] f1 IH ]; [ reflexivity | ].
  cbn [shared]. destruct (dict_get k f2); now rewrite <- IH.
Qed.

Lemma field_depth (k : string) (v : Ty) (fields : list (string * Ty)) :
  In (k, v) fields ->
  ty_depth v <= fold_right (fun kv m => Nat.max (ty_depth kv.2) m) 0 fields.
Proof.
  induction fields as [ | [k' v'] fields IH ]; simpl; [ tauto | ].
  intros [ [= -> ->] | Hin ]; [ lia | ]. specialize (IH Hin). lia.
Qed.

Lemma dict_get_field {V} (k : string) (v : V) (d : list (string * V)) :
  dict_get k d = Some v -> In (k, v) d.
Proof.
  induction d as [ | [k' v'] d IH ]; simpl; [ discriminate | ].
  destruct (String.eqb_spec k k') as [ -> | _ ]; [ intros [= ->]; now left | ].
  intros H. right. now apply IH.
Qed.

Lemma pick_entry {V} (d : list (string * V)) (ks : list string) (k : string) (v : V) :
  In (k, v) (pick d ks) -> dict_get k d = Some v.
Proof.
  induction ks as [ | k' ks IH ]; simpl; [ tauto | ].
  destruct (dict_get k' d) as [ v' | ] eqn:E; [ | exact IH ].
  intros [ [= <- <-] | Hin ]; [ exact E | now apply IH ].
Qed.

(** A kept field is the join of the two fields of that name. *)
Lemma shared_entry (jn : Ty -> Ty -> Ty) (f1 f2 : list (string * Ty)) (k : string) (t : Ty) :
  dict_get k (shared jn f1 f2) = Some t ->
  exists v1 v2, dict_get k f1 = Some v1 /\ dict_get k f2 = Some v2 /\ t = jn v1 v2.
Proof.
  induction f1 as [ | [k' v1] f1 IH ]; simpl; [ discriminate | ].
  destruct (String.eqb_spec k k') as [ -> | Hne ].
  - destruct (dict_get k' f2) as [ v2 | ] eqn:E2.
    + simpl. rewrite String.eqb_refl. intros [= <-]. now exists v1, v2.
    + intros H. destruct (IH H) as (w1 & w2 & _ & Hw2 & _). congruence.
  - destruct (dict_get k' f2) as [ v2 | ]; [ | exact IH ].
    simpl. destruct (String.eqb_spec k k') as [ | _ ]; [ contradiction | exact IH ].
Qed.

(** *** Types without bindings to follow *)

Lemma all_some_map_same {A} (f : A -> option A) (l : list A) :
  Forall (fun x => f x = Some x) l -> all_some (map f l) = Some l.
Proof.
  induction 1 as [ | x l Hx _ IH ]; simpl; [ reflexivity | ]. now rewrite Hx, IH.
Qed.

Lemma apply_nothing (t : Ty) : forall fuel, ty_depth t <= fuel -> _apply fuel t [] = Some t.
Proof.
  induction t as [ | name | name | elem IH | fields IH ] using Ty_ind'; intros fuel Hfuel;
    (destruct fuel as [ | fuel ]; [ simpl in Hfuel; lia | ]); simpl in *; try reflexivity.
  - now rewrite IH by lia.
  - rewrite (all_some_map_same (fun kv => match _apply fuel kv.2 [] with
                                           | Some v => Some (kv.1, v)
                                           | None => None
                                           end) fields); [ reflexivity | ].
    apply List.Forall_forall. intros [k v] Hin. apply List.Forall_forall with (x := (k, v)) in IH.
    + simpl in *. rewrite IH; [ reflexivity | ].
      pose proof (field_depth k v fields Hin). lia.
    + exact Hin.
Qed.

Lemma join_depth (a : Ty) : forall b,
  ty_depth (_join a b) <= ty_depth a /\ ty_depth (_join a b) <= ty_depth b.
Proof.
  induction a as [ | x | x | e1 IH | f1 IH ] using Ty_ind'; intros b.
  - simpl. destruct b; simpl; lia.
  - destruct b; simpl; try lia. repeat case_match; simpl; lia.
  - destruct b; simpl; try lia. case_match; simpl; lia.
  - destruct b as [ | | | e2 | ]; simpl; try lia. specialize (IH e2). lia.
  - destruct b as [ | | | | f2 ]; try (simpl; lia).
    rewrite join_records. cbn [ty_depth].
    assert (Hall : forall k t, In (k, t) (sorted_items (shared _join f1 f2)) ->
                     ty_depth t <= fold_right (fun kv m => Nat.max (ty_depth kv.2) m) 0 f1 /\
                     ty_depth t <= fold_right (fun kv m => Nat.max (ty_depth kv.2) m) 0 f2).
    { intros k t Hin. apply pick_entry, shared_entry in Hin as (v1 & v2 & H1 & H2 & ->).
      apply dict_get_field in H1, H2.
      apply List.Forall_forall with (x := (k, v1)) in IH; [ | exact H1 ].
      specialize (IH v2). simpl in IH.
      pose proof (field_depth k v1 f1 H1). pose proof (field_depth k v2 f2 H2). lia. }
    induction (sorted_items (shared _join f1 f2)) as [ | [k t] l IHl ]; simpl; [ lia | ].
    destruct (Hall k t (or_introl eq_refl)).
    assert (forall k t, In (k, t) l ->
              ty_depth t <= fold_right (fun kv m => Nat.max (ty_depth kv.2) m) 0 f1 /\
              ty_depth t <= fold_right (fun kv m => Nat.max (ty_depth kv.2) m) 0 f2) as Hl
      by (intros; apply (Hall k0 t0); now right).
    specialize (IHl Hl). lia.
Qed.

(** *** [unify] against the join *)

Lemma unify_fields_all (un : Ty -> Ty -> Subst -> option (bool * Subst))
    (expected actual : list (string * Ty)) :
  (forall k t, In (k, t) expected ->
     exists tact, dict_get k actual = Some tact /\ un t tact [] = Some (true, [])) ->
  unify_fields un expected actual [] = Some (true, []).
Proof.
  induction expected as [ | [k t] expected IH ]; intros Hall; simpl; [ reflexivity | ].
  destruct (Hall k t (or_introl eq_refl)) as (tact & -> & ->).
  apply IH. intros k' t' Hin. apply Hall. now right.
Qed.

Lemma unify_step (fuel : nat) (e a : Ty) :
  ty_depth e <= fuel -> ty_depth a <= fuel ->
  unify (S fuel) e a [] =
  match e, a with
  | AnyType, _ => Some (true, [])
  | _, AnyType => Some (true, [])
  | Var name, _ =>
      match _occurs fuel name a [] with
      | None => None
      | Some true => Some (true, [])
      | Some false => Some (true, dict_set name a [])
      end
  | _, Var name =>
      match _occurs fuel name e [] with
      | None => None
      | Some true => Some (true, [])
      | Some false => Some (true, dict_set name e [])
      end
  | Prim x, Prim y =>
      if String.eqb x y then Some (true, [])
      else match _num_join x y with
           | Some j => Some (String.eqb j x, [])
           | None => Some (false, [])
           end
  | ListT e', ListT a' => unify fuel e' a' []
  | RecordT fe, RecordT fa => unify_fields (unify fuel) fe fa []
  | _, _ => Some (false, [])
  end.
Proof.
  intros He Ha. cbn [unify]. rewrite (apply_nothing e fuel He), (apply_nothing a fuel Ha).
  destruct e, a; reflexivity.
Qed.

Lemma join_accepts_left (a : Ty) : forall b fuel,
  ty_depth a + 2 <= fuel -> unify fuel (_join a b) a [] = Some (true, []).
Proof.
  induction a as [ | x | x | e1 IH | f1 IH ] using Ty_ind'; intros b fuel Hfuel;
    (destruct fuel as [ | fuel ]; [ lia | ]);
    match goal with |- unify _ (_join ?a b) _ _ = _ =>
      pose proof (join_depth a b) as [Hd _];
      rewrite (unify_step fuel (_join a b) a) by lia
    end.
  - reflexivity.
  - destruct b as [ | y | | | ]; try reflexivity. cbn [_join is_any orb].
    destruct (String.eqb_spec x y) as [ -> | Hne ]; [ now rewrite String.eqb_refl | ].
    destruct (String.eqb x "Int") eqn:E1, (String.eqb y "Float") eqn:E2,
             (String.eqb x "Float") eqn:E3, (String.eqb y "Int") eqn:E4;
      cbn [andb orb]; try reflexivity;
      repeat match goal with
             | H : String.eqb _ _ = true |- _ => apply String.eqb_eq in H
             end; subst; try discriminate; reflexivity.
  - destruct b as [ | | y | | ]; try reflexivity. cbn [_join is_any orb].
    destruct (String.eqb_spec x y) as [ -> | Hne ]; [ | reflexivity ].
    simpl in Hfuel. destruct fuel as [ | fuel ]; [ lia | ].
    cbn [_occurs]. destruct fuel as [ | fuel ]; [ lia | ]. cbn [_apply dict_get].
    now rewrite String.eqb_refl.
  - destruct b as [ | | | e2 | ]; try reflexivity. cbn [_join is_any orb].
    apply IH. simpl in Hfuel. lia.
  - destruct b as [ | | | | f2 ]; try reflexivity. rewrite join_records.
    apply unify_fields_all. intros k t Hin.
    apply pick_entry, shared_entry in Hin as (v1 & v2 & H1 & H2 & ->).
    exists v1. split; [ exact H1 | ]. apply dict_get_field in H1.
    pose proof (field_depth k v1 f1 H1).
    apply List.Forall_forall with (x := (k, v1)) in IH; [ | exact H1 ].
    apply IH. simpl in Hfuel |- *. lia.
Qed.

Lemma join_accepts_right (a : Ty) : forall b fuel,
  ty_depth b + 2 <= fuel -> unify fuel (_join a b) b [] = Some (true, []).
Proof.
  induction a as [ | x | x | e1 IH | f1 IH ] using Ty_ind'; intros b fuel Hfuel;
    (destruct fuel as [ | fuel ]; [ lia | ]);
    match goal with |- unify _ (_join ?a b) _ _ = _ =>
      pose proof (join_depth a b) as [_ Hd];
      rewrite (unify_step fuel (_join a b) b) by lia
    end.
  - reflexivity.
  - destruct b as [ | y | | | ]; try reflexivity. cbn [_join is_any orb].
    destruct (String.eqb_spec x y) as [ -> | Hne ]; [ now rewrite String.eqb_refl | ].
    destruct (String.eqb x "Int") eqn:E1, (String.eqb y "Float") eqn:E2,
             (String.eqb x "Float") eqn:E3, (String.eqb y "Int") eqn:E4;
      cbn [andb orb]; try reflexivity;
      repeat match goal with
             | H : String.eqb _ _ = true |- _ => apply String.eqb_eq in H
             end; subst; try discriminate; reflexivity.
  - destruct b as [ | | y | | ]; try reflexivity. cbn [_join is_any orb].
    destruct (String.eqb_spec x y) as [ -> | Hne ]; [ | reflexivity ].
    simpl in Hfuel. destruct fuel as [ | fuel ]; [ lia | ].
    cbn [_occurs]. destruct fuel as [ | fuel ]; [ lia | ]. cbn [_apply dict_get].
    now rewrite String.eqb_refl.
  - destruct b as [ | | | e2 | ]; try reflexivity. cbn [_join is_any orb].
    apply IH. simpl in Hfuel. lia.
  - destruct b as [ | | | | f2 ]; try reflexivity. rewrite join_records.
    apply unify_fields_all. intros k t Hin.
    apply pick_entry, shared_entry in Hin as (v1 & v2 & H1 & H2 & ->).
    exists v2. split; [ exact H2 | ]. apply dict_get_field in H1, H2.
    pose proof (field_depth k v2 f2 H2).
    apply List.Forall_forall with (x := (k, v1)) in IH; [ | exact H1 ].
    apply IH. simpl in Hfuel |- *. lia.
Qed.

(** X21: the type that the checker gives to two merged branches accepts
    each of them. For all types [a] and [b] and enough fuel for their
    depth, [unify(_join(a, b), a, {})] and [unify(_join(a, b), b, {})]
    both return [True], and neither binds a type variable. *)
Theorem join_accepts_both_branches (a b : Ty) (fuel : nat) :
  ty_depth a + 2 <= fuel ->
  ty_depth b + 2 <= fuel ->
  unify fuel (_join a b) a [] = Some (true, []) /\
  unify fuel (_join a b) b [] = Some (true, []).
Proof.
  intros Ha Hb. split; [ now apply join_accepts_left | now apply join_accepts_right ].
Qed.

Definition int_record : Ty := RecordT [("y", Prim "Int"); ("x", ListT (Prim "Int"))].
Definition float_record : Ty :=
  RecordT [("x", ListT (Prim "Float")); ("z", Prim "Bool"); ("y", Prim "String")].

Lemma join_accepts_both_branches_witness :
  unify 5 (_join int_record float_record) int_record [] = Some (true, []) /\
  unify 5 (_join int_record float_record) float_record [] = Some (true, []).
Proof.
  apply (join_accepts_both_branches int_record float_record 5); vm_compute; lia.
Defined.

(** *** The join does not depend on the order of the branches *)

Fixpoint distinct (l : list string) : bool :=
  match l with
  | [] => true
  | x :: l' => negb (mem x l') && distinct l'
  end.

(** A type as Python holds it: the fields of a record, being the keys of
    a dict, have pairwise different names. *)
Fixpoint wf_ty (t : Ty) : bool :=
  match t with
  | ListT elem => wf_ty elem
  | RecordT fields => distinct (keys fields) && forallb (fun kv => wf_ty kv.2) fields
  | _ => true
  end.

Lemma distinct_NoDup (l : list string) : distinct l = true -> List.NoDup l.
Proof.
  induction l as [ | x l IH ]; simpl; [ constructor | ].
  intros H. apply andb_prop in H as [Hx Hl]. constructor; [ | now apply IH ].
  apply negb_true_iff in Hx. unfold mem in Hx. intros Hin.
  assert (existsb (String.eqb x) l = true) as Ht
    by (apply existsb_exists; exists x; split; [ exact Hin | apply String.eqb_refl ]).
  congruence.
Qed.

Lemma keys_shared (jn : Ty -> Ty -> Ty) (f1 f2 : list (string * Ty)) :
  keys (shared jn f1 f2) = List.filter (fun k => dict_has k f2) (keys f1).
Proof.
  induction f1 as [ | [k v1] f1 IH ]; simpl; [ reflexivity | ].
  unfold dict_has at 1. destruct (dict_get k f2); simpl; now rewrite IH.
Qed.

Lemma dict_get_shared (jn : Ty -> Ty -> Ty) (f1 f2 : list (string * Ty)) (k : string) :
  dict_get k (shared jn f1 f2) =
  match dict_get k f1, dict_get k f2 with
  | Some v1, Some v2 => Some (jn v1 v2)
  | _, _ => None
  end.
Proof.
  induction f1 as [ | [k' v1] f1 IH ]; simpl; [ reflexivity | ].
  destruct (String.eqb_spec k k') as [ -> | Hne ].
  - destruct (dict_get k' f2) as [ v2 | ] eqn:E2; simpl.
    + now rewrite String.eqb_refl.
    + rewrite IH; rewrite ?String.eqb_refl, ?E2; now destruct (dict_get k' f1).
  - destruct (dict_get k' f2) as [ v2 | ]; simpl; [ | exact IH ].
    destruct (String.eqb_spec k k') as [ | _ ]; [ contradiction | exact IH ].
Qed.

Lemma dict_has_In (k : string) (d : list (string * Ty)) :
  dict_has k d = true <-> In k (keys d).
Proof.
  unfold dict_has. induction d as [ | [k' v] d IH ]; simpl; [ split; [ discriminate | tauto ] | ].
  destruct (String.eqb_spec k k') as [ -> | Hne ]; [ tauto | ].
  rewrite IH. split; [ tauto | intros [ Heq | H ]; [ congruence | exact H ] ].
Qed.

Lemma shared_keys_Permutation (jn jn' : Ty -> Ty -> Ty) (f1 f2 : list (string * Ty)) :
  List.NoDup (keys f1) -> List.NoDup (keys f2) ->
  Permutation (keys (shared jn f1 f2)) (keys (shared jn' f2 f1)).
Proof.
  intros H1 H2. rewrite !keys_shared. apply Permutation.NoDup_Permutation.
  - now apply List.NoDup_filter.
  - now apply List.NoDup_filter.
  - intros k. rewrite !filter_In, !dict_has_In. tauto.
Qed.

(** X22: the type of two merged branches does not depend on which branch
    comes first. For types whose records have pairwise different field
    names (as the dicts of the source do), [_join(a, b)] and [_join(b, a)]
    are the same type, the fields of a record in the same order. *)
Theorem join_is_commutative (a b : Ty) :
  wf_ty a = true -> wf_ty b = true -> _join a b = _join b a.
Proof.
  revert b. induction a as [ | x | x | e1 IH | f1 IH ] using Ty_ind'; intros b Ha Hb.
  - now destruct b.
  - destruct b as [ | y | | | ]; try reflexivity. cbn [_join is_any orb].
    rewrite (String.eqb_sym y x).
    destruct (String.eqb_spec x y) as [ -> | _ ]; [ reflexivity | ].
    now rewrite (orb_comm (String.eqb y "Int" && String.eqb x "Float")),
      (andb_comm (String.eqb y "Float")), (andb_comm (String.eqb y "Int")).
  - destruct b as [ | | y | | ]; try reflexivity. cbn [_join is_any orb].
    rewrite (String.eqb_sym y x).
    destruct (String.eqb_spec x y) as [ -> | _ ]; reflexivity.
  - destruct b as [ | | | e2 | ]; try reflexivity. cbn [_join is_any orb].
    f_equal. now apply IH.
  - destruct b as [ | | | | f2 ]; try reflexivity. rewrite !join_records. f_equal.
    cbn [wf_ty] in Ha, Hb. apply andb_prop in Ha as [Hk1 Hw1], Hb as [Hk2 Hw2].
    apply distinct_NoDup in Hk1, Hk2.
    unfold sorted_items.
    rewrite (sorted_Permutation _ _ (shared_keys_Permutation _join _join f1 f2 Hk1 Hk2)).
    apply pick_ext. intros k _. rewrite !dict_get_shared.
    destruct (dict_get k f1) as [ v1 | ] eqn:E1, (dict_get k f2) as [ v2 | ] eqn:E2;
      try reflexivity.
    f_equal. apply dict_get_field in E1, E2.
    apply List.Forall_forall with (x := (k, v1)) in IH; [ | exact E1 ].
    rewrite forallb_forall in Hw1, Hw2.
    apply IH; [ exact (Hw1 _ E1) | exact (Hw2 _ E2) ].
Qed.

Lemma join_is_commutative_witness :
  _join int_record float_record = _join float_record int_record.
Proof. apply (join_is_commutative int_record float_record); vm_compute; reflexivity. Defined.

End JoinFacts.


(** ** [effects.py]: what a report without [MissingEffect] guarantees *)

Module EffectSoundness.
Import Py Effects PyFacts EffectsFacts.

(** [f] reaches [g] through calls: the body of the user function [f]
    (not named like a builtin, which [check_effects] skips) calls [g] or
    hands it to a higher-order builtin, or does so through other user
    functions. *)
Inductive reaches (user_funcs : UserFuncs) : string -> string -> Prop :=
| reaches_call f fn g :
    dict_get f user_funcs = Some fn -> is_builtin f = false -> In g (callees fn) ->
    reaches user_funcs f g
| reaches_trans f g h :
    reaches user_funcs f g -> reaches user_funcs g h -> reaches user_funcs f h.

(** No issue of the report has the code [MissingEffect]. *)
Definition no_missing_effect (issues : list Json) : bool :=
  forallb (fun it => negb (RepairSuggest.has_code "MissingEffect" it)) issues.

Lemma quiet_entry user_funcs func_index (issues : list EffectIssue) (memo : Memo)
    (f : string) (fn : list (string * Json)) (sf : gset string) :
  no_missing_effect
    (map to_dict (issues ++ concat (map (declaration_issues user_funcs func_index) memo)))
  = true ->
  In (f, sf) memo -> is_builtin f = false -> dict_get f user_funcs = Some fn ->
  sf ⊆ declared_effects fn.
Proof.
  unfold no_missing_effect. intros Hquiet Hin Hb Hfn.
  rewrite forallb_forall in Hquiet.
  destruct (decide (sf ∖ declared_effects fn = ∅)) as [ He | Hne ].
  - intros x Hx. destruct (decide (x ∈ declared_effects fn)) as [ | Hn ]; [ assumption | ].
    exfalso. assert (x ∈ sf ∖ declared_effects fn) as Hd by set_solver.
    rewrite He in Hd. set_solver.
  - exfalso.
    set (idx := default 0%nat (dict_get f func_index)).
    set (it := missing_effect idx f (sf ∖ declared_effects fn) (declared_effects fn)).
    assert (Hit : In it (declaration_issues user_funcs func_index (f, sf))).
    { unfold declaration_issues. rewrite Hb, Hfn. fold idx.
      destruct (decide (sf ∖ declared_effects fn = ∅)) as [ | _ ]; [ contradiction | ].
      now left. }
    assert (Hout : In (to_dict it)
              (map to_dict
                 (issues ++ concat (map (declaration_issues user_funcs func_index) memo)))).
    { apply in_map, in_or_app. right. apply in_concat.
      exists (declaration_issues user_funcs func_index (f, sf)).
      split; [ now apply in_map | exact Hit ]. }
    specialize (Hquiet _ Hout). discriminate Hquiet.
Qed.

(** X23: a report of [check_effects] without [MissingEffect] means the
    declarations cover the calls. If [f] reaches [g] through calls, then
    what [g] contributes (the effects of a builtin, the declared effects
    of a user function, [{"pure"}] for one that declares none) is among
    the effects that [f] declares. *)
Theorem declared_effects_cover_calls (module : Module_) (issues : list Json) (f g : string) :
  check_effects module = Some issues ->
  no_missing_effect issues = true ->
  reaches (_user_function_index module).1 f g ->
  lower (_user_function_index module).1 g ⊆ lower (_user_function_index module).1 f.
Proof.
  intros Hcheck Hquiet Hreach. unfold check_effects in Hcheck.
  destruct (compute_transitive_effects module) as [ [memo found] | ] eqn:Hrun.
  2: { destruct (_user_function_index module); discriminate Hcheck. }
  unfold compute_transitive_effects in Hrun.
  destruct (_user_function_index module) as [user_funcs func_index] eqn:Hindex.
  injection Hcheck as <-. cbn [fst] in Hreach |- *.
  destruct (visit_all_spec user_funcs func_index _ _ _ _ Hrun (keys_known user_funcs)
              (Inv_nil user_funcs)) as (HI & _ & Hall).
  cbn [fst] in HI, Hall.
  induction Hreach as [ f fn g Hf Hb Hg | f g h _ IH1 _ IH2 ].
  - assert (Hlow : lower user_funcs f = declared_effects fn)
      by (unfold lower; now rewrite Hb, Hf).
    rewrite Hlow.
    destruct (known user_funcs g) eqn:Hk.
    + destruct (Hall f) as [sf Hsf].
      { apply dict_get_In in Hf. now apply (in_map fst) in Hf. }
      pose proof (HI f sf Hsf) as Hentry. unfold entry_ok in Hentry. rewrite Hb in Hentry.
      destruct (Hentry fn Hf) as [_ Hcallees].
      assert (f ∉ (∅ : gset string)) as Hnot by set_solver.
      specialize (Hcallees Hnot g Hg Hk).
      etransitivity; [ exact Hcallees | ].
      apply (quiet_entry user_funcs func_index found memo f fn sf Hquiet);
        [ now apply dict_get_In | exact Hb | exact Hf ].
    + unfold known in Hk. apply orb_false_iff in Hk as [Hbg Hug].
      unfold lower. rewrite Hbg. unfold dict_has in Hug.
      destruct (dict_get g user_funcs); [ discriminate | set_solver ].
  - etransitivity; [ exact IH2 | exact IH1 ].
Qed.

Lemma declared_effects_cover_calls_witness :
  lower (_user_function_index layered_module).1 "print"
  ⊆ lower (_user_function_index layered_module).1 "top".
Proof.
  apply (declared_effects_cover_calls layered_module [] "top" "print").
  - vm_compute. reflexivity.
  - reflexivity.
  - apply (reaches_trans _ "top" "helper" "print").
    + apply (reaches_call _ "top" top_calls_helper "helper");
        [ reflexivity | reflexivity | now left ].
    + apply (reaches_call _ "helper" helper_prints "print");
        [ reflexivity | reflexivity | now left ].
Defined.

End EffectSoundness.


(** ** [pointer.py]: removing a member of an object *)

Module PatchLaws.
Import Py Pointer PointerLaws.

Lemma dict_set_present {V} (k : string) (v : V) (d : list (string * V)) :
  dict_get k d = Some v -> dict_set k v d = d.
Proof.
  induction d as [ | [k' v'] d IH ]; simpl; [ discriminate | ].
  destruct (String.eqb_spec k k') as [ -> | _ ]; [ now intros [= ->] | ].
  intros H. now rewrite IH.
Qed.

Lemma dict_set_set {V} (k : string) (v w : V) (d : list (string * V)) :
  dict_set k w (dict_set k v d) = dict_set k w d.
Proof.
  induction d as [ | [k' v'] d IH ]; simpl.
  - now rewrite String.eqb_refl.
  - destruct (String.eqb k k') eqn:E; simpl.
    + now rewrite String.eqb_refl.
    + now rewrite E, IH.
Qed.

Lemma dict_pop_absent {V} (k : string) (d : list (string * V)) :
  dict_get k d = None -> dict_pop k d = d.
Proof.
  induction d as [ | [k' v'] d IH ]; simpl; [ reflexivity | ].
  destruct (String.eqb k k'); [ discriminate | ]. intros H. now rewrite IH.
Qed.

Lemma dict_pop_set {V} (k : string) (v : V) (d : list (string * V)) :
  dict_get k d = None -> dict_pop k (dict_set k v d) = d.
Proof.
  induction d as [ | [k' v'] d IH ]; simpl.
  - now rewrite String.eqb_refl.
  - destruct (String.eqb k k') eqn:E; [ discriminate | ].
    intros H. simpl. now rewrite E, IH.
Qed.

Lemma dict_get_pop {V} (k : string) (d : list (string * V)) :
  List.NoDup (keys d) -> dict_get k (dict_pop k d) = None.
Proof.
  induction d as [ | [k' v'] d IH ]; simpl; [ reflexivity | ].
  intros Hnd. apply List.NoDup_cons_iff in Hnd as [Hnot Hnd].
  destruct (String.eqb_spec k k') as [ -> | Hne ].
  - destruct (dict_get k' d) as [ v | ] eqn:E; [ | reflexivity ].
    exfalso. apply Hnot. apply PyFacts.dict_get_In in E. now apply (in_map fst) in E.
  - simpl. destruct (String.eqb_spec k k') as [ | _ ]; [ contradiction | now apply IH ].
Qed.

(** Writing back what is there changes nothing. *)
Lemma store_same psegs : forall doc parent,
  resolve_segs doc psegs = Ok parent -> store doc psegs parent = Ok doc.
Proof.
  induction psegs as [ | raw rest IH ]; intros doc parent H.
  - simpl in H. now injection H as ->.
  - simpl in H. destruct (resolve_step doc raw) as [ child | ] eqn:Es; [ | discriminate ].
    simpl in H. simpl. rewrite Es. simpl. rewrite (IH child parent H). simpl.
    destruct doc as [ | | | | | xs | kvs ]; try discriminate.
    + destruct (resolve_step_list _ _ _ Es) as (i & Hk & Hi).
      rewrite Hk. unfold list_assign.
      assert (Hlt : (i < length xs)%nat) by (eapply lookup_lt_Some; exact Hi).
      destruct (Nat.ltb_spec i (length xs)); [ | lia ].
      cbn [rbind]. now rewrite list_insert_id.
    + apply resolve_step_dict in Es. now rewrite dict_set_present.
Qed.

(** A second write at the same path overwrites the first. *)
Lemma store_store psegs : forall doc parent a b doc1,
  resolve_segs doc psegs = Ok parent ->
  store doc psegs a = Ok doc1 ->
  store doc1 psegs b = store doc psegs b.
Proof.
  induction psegs as [ | raw rest IH ]; intros doc parent a b doc1 H Ha.
  - reflexivity.
  - simpl in H. destruct (resolve_step doc raw) as [ child | ] eqn:Es; [ | discriminate ].
    simpl in H. simpl in Ha. rewrite Es in Ha. simpl in Ha.
    destruct (store child rest a) as [ child1 | ] eqn:Ec; [ | discriminate ].
    simpl in Ha. specialize (IH child parent a b child1 H Ec).
    simpl. rewrite Es. simpl.
    destruct doc as [ | | | | | xs | kvs ]; try discriminate.
    + destruct (resolve_step_list _ _ _ Es) as (i & Hk & Hi).
      rewrite Hk in Ha |- *. unfold list_assign in Ha |- *.
      assert (Hlt : (i < length xs)%nat) by (eapply lookup_lt_Some; exact Hi).
      destruct (Nat.ltb_spec i (length xs)); [ | lia ].
      cbn [rbind] in Ha. injection Ha as <-.
      rewrite resolve_step_assigned by assumption. cbn [rbind]. rewrite IH.
      destruct (store child rest b) as [ child2 | ]; [ | reflexivity ].
      cbn [rbind]. rewrite Hk, length_insert.
      destruct (Nat.ltb_spec i (length xs)); [ | lia ].
      cbn [rbind]. now rewrite list_insert_insert_eq.
    + injection Ha as <-. rewrite resolve_step_set. cbn [rbind]. rewrite IH.
      destruct (store child rest b) as [ child2 | ]; [ | reflexivity ].
      cbn [rbind]. now rewrite dict_set_set.
Qed.

(** The body of [apply_patch] for a [remove]. *)
Lemma apply_op_remove doc p :
  apply_op doc (op_remove p)
  = try! (psegs, parent, key) <- _resolve_parent doc p;
    match parent with
    | JList xs =>
        match key with
        | KeyS _ => Raise (PatchError "Invalid list index for remove")
        | KeyI i => try! xs' <- list_pop_at i xs; store doc psegs (JList xs')
        end
    | JDict kvs =>
        match key with
        | KeyS s => store doc psegs (JDict (dict_pop s kvs))
        | KeyI _ => Raise (PatchError "Invalid object key for remove")
        end
    | _ => Raise (PatchError "Parent is not container")
    end.
Proof. reflexivity. Qed.

(** X24: a [remove] of a member of an object. At a pointer whose segments
    but the last resolve to an object, [remove] succeeds, and afterwards
    the pointer no longer resolves: [resolve] raises [KeyError] with the
    last segment. When the object has no such member, the [remove] is
    accepted all the same and leaves the document as it was. *)
Theorem remove_member_then_resolve (doc : Json) (pointer : string) (psegs : list string)
    (key : string) (members : list (string * Json)) :
  split_pointer pointer = Ok (psegs ++ [key]) ->
  resolve_segs doc psegs = Ok (JDict members) ->
  List.NoDup (keys members) ->
  exists doc',
    apply_patch doc [op_remove pointer] = Ok doc' /\
    resolve doc' pointer = Raise (KeyError key) /\
    (dict_get key members = None -> doc' = doc).
Proof.
  intros Es Ep Hnd. cbn [apply_patch]. rewrite apply_op_remove.
  rewrite (resolve_parent_of doc pointer psegs key _ Es Ep). cbn [rbind].
  unfold _coerce_index. cbn [is_list andb].
  destruct (store_resolve psegs doc (JDict members) (JDict (dict_pop key members)) Ep)
    as (doc' & Hst & Hres).
  exists doc'. rewrite Hst. split; [ reflexivity | ]. split.
  - unfold resolve. rewrite Es. cbn [rbind].
    rewrite resolve_segs_app, Hres. cbn [rbind resolve_segs resolve_step].
    now rewrite dict_get_pop.
  - intros Habsent. rewrite dict_pop_absent in Hst by exact Habsent.
    rewrite (store_same psegs doc _ Ep) in Hst. now injection Hst.
Qed.

Lemma remove_member_then_resolve_witness :
  exists doc',
    apply_patch sample_document [op_remove "/functions/0/effects"] = Ok doc' /\
    resolve doc' "/functions/0/effects" = Raise (KeyError "effects") /\
    (dict_get "effects" [("name", JStr "f"); ("effects", JList [JStr "pure"])] = None ->
     doc' = sample_document).
Proof.
  apply (remove_member_then_resolve sample_document "/functions/0/effects"
           ["functions"; "0"] "effects"
           [("name", JStr "f"); ("effects", JList [JStr "pure"])]).
  - reflexivity.
  - reflexivity.
  - repeat constructor; simpl; intuition discriminate.
Defined.

(** X25: adding a new member to an object and removing it again gives
    the document back, member order included. *)
Theorem add_then_remove_member (doc : Json) (pointer : string) (psegs : list string)
    (key : string) (members : list (string * Json)) (value : Json) :
  split_pointer pointer = Ok (psegs ++ [key]) ->
  resolve_segs doc psegs = Ok (JDict members) ->
  dict_get key members = None ->
  apply_patch doc [op_add pointer value; op_remove pointer] = Ok doc.
Proof.
  intros Es Ep Habsent. cbn [apply_patch]. unfold op_add.
  rewrite apply_op_write by now left.
  destruct (String.eqb pointer "" || String.eqb pointer "/") eqn:Eroot.
  { rewrite split_pointer_root in Es by exact Eroot. now destruct psegs. }
  rewrite (resolve_parent_of doc pointer psegs key _ Es Ep). cbn [rbind].
  unfold _coerce_index at 1. cbn [is_list andb].
  destruct (store_resolve psegs doc (JDict members) (JDict (dict_set key value members)) Ep)
    as (doc1 & Hst & Hres).
  rewrite Hst. cbn [rbind]. rewrite apply_op_remove.
  rewrite (resolve_parent_of doc1 pointer psegs key _ Es Hres). cbn [rbind].
  unfold _coerce_index. cbn [is_list andb].
  rewrite dict_pop_set by exact Habsent.
  rewrite (store_store psegs doc _ _ _ doc1 Ep Hst).
  now rewrite (store_same psegs doc _ Ep).
Qed.

Lemma add_then_remove_member_witness :
  apply_patch sample_document
    [op_add "/functions/0/returns" (JStr "Int"); op_remove "/functions/0/returns"]
  = Ok sample_document.
Proof.
  apply (add_then_remove_member sample_document "/functions/0/returns"
           ["functions"; "0"] "returns"
           [("name", JStr "f"); ("effects", JList [JStr "pure"])] (JStr "Int"));
    reflexivity.
Defined.

(** A [replace] by the value that is there leaves the document as it is. *)
Lemma replace_same (doc : Json) (pointer : string) (value : Json) :
  resolve doc pointer = Ok value ->
  apply_patch doc [op_replace pointer value] = Ok doc.
Proof.
  intros H. unfold resolve in H.
  destruct (split_pointer pointer) as [ segs | ] eqn:Es; [ | discriminate ].
  cbn [rbind] in H. unfold apply_patch, op_replace.
  rewrite apply_op_write by now right.
  destruct (String.eqb pointer "" || String.eqb pointer "/") eqn:Eroot.
  - rewrite split_pointer_root in Es by exact Eroot. injection Es as <-.
    simpl in H. injection H as ->. reflexivity.
  - destruct (split_pointer_below _ _ Eroot Es) as (psegs & key & ->).
    rewrite resolve_segs_app in H.
    destruct (resolve_segs doc psegs) as [ parent | ] eqn:Ep; [ | discriminate ].
    cbn [rbind resolve_segs] in H.
    destruct (resolve_step parent key) as [ child | ] eqn:Estep; [ | discriminate ].
    cbn [rbind] in H. injection H as ->.
    rewrite (resolve_parent_of doc pointer psegs key parent Es Ep). cbn [rbind].
    destruct parent as [ | | | | | xs | kvs ]; try discriminate.
    + destruct (resolve_step_list _ _ _ Estep) as (i & Hk & Hi).
      rewrite Hk. cbn [key_is_dash].
      assert (Hlt : (i < length xs)%nat) by (eapply lookup_lt_Some; exact Hi).
      change (String.eqb "replace" "add") with false. cbv iota.
      unfold list_assign. destruct (Nat.ltb_spec i (length xs)); [ | lia ]. cbn [rbind].
      rewrite list_insert_id by exact Hi.
      now rewrite (store_same psegs doc _ Ep).
    + unfold _coerce_index. cbn [is_list andb].
      apply resolve_step_dict in Estep. rewrite dict_set_present by exact Estep.
      now rewrite (store_same psegs doc _ Ep).
Qed.

End PatchLaws.


(** ** [repair_suggest.py]: the patch for a missing [pure] *)

Module RepairLaws.
Import Py Pointer Effects RepairSuggest EffectsFacts PatchLaws.

Lemma has_code_only (c c' : string) (it : Json) :
  has_code c it = true -> c' <> c -> has_code c' it = false.
Proof.
  unfold has_code. destruct (get it "code") as [ [ | | | | s | | ] | ]; try discriminate.
  intros H Hne. apply String.eqb_eq in H. subst s.
  destruct (String.eqb_spec c c') as [ | _ ]; [ congruence | reflexivity ].
Qed.

Lemma filter_absent (x : Json) (l : list Json) :
  contains x l = false -> List.filter (fun e => negb (Json_eqb e x)) l = l.
Proof.
  unfold contains. induction l as [ | y l IH ]; simpl; [ reflexivity | ].
  destruct (Json_eqb y x); simpl; [ discriminate | ]. intros H. now rewrite IH.
Qed.

Lemma contains_last (x : Json) (l : list Json) :
  Json_eqb x x = true -> contains x (l ++ [x]) = true.
Proof.
  intros Hx. unfold contains. rewrite existsb_app. simpl. rewrite Hx.
  now rewrite orb_true_r.
Qed.

(** The patch for a function that lacks [pure] only. *)
Lemma missing_pure_patch (module : Module_) (effects_map : Memo) (it : Json) (fi : nat)
    (f : list (string * Json)) (name : string) (declared : list Json) :
  has_code "MissingEffect" it = true ->
  effects_pointer_index (pointer_parts it) = Some fi ->
  functions_of module !! fi = Some (JDict f) ->
  dict_get "name" f = Some (JStr name) ->
  dict_get "effects" f = Some (JList declared) ->
  declared <> [] ->
  contains (JStr "pure") declared = false ->
  default ∅ (dict_get name effects_map) ∖ list_to_set (strings_of declared) = {["pure"]} ->
  missing_effect_patch module effects_map it
  = Ok [op_replace ("/functions/" +:+ str_of_nat fi +:+ "/effects") (JList declared)].
Proof.
  intros Hcode Hptr Hfn Hname Heff Hne Hpure Hmissing.
  unfold missing_effect_patch. rewrite Hcode, Hptr. unfold list_index. rewrite Hfn.
  cbn [rbind]. rewrite Hname, Heff.
  destruct declared as [ | d declared ]; [ contradiction | ].
  set (decl := d :: declared) in *. cbv zeta. rewrite Hmissing.
  destruct (decide ({["pure"]} = (∅ : gset string))) as [ Habs | _ ]; [ set_solver | ].
  unfold sorted_set. rewrite elements_singleton. cbn [sorted insert_sorted append_missing].
  rewrite Hpure. rewrite contains_last by reflexivity.
  assert (Hlen : (1 <? length (decl ++ [JStr "pure"]))%nat = true).
  { apply Nat.ltb_lt. rewrite length_app. unfold decl. simpl. lia. }
  rewrite Hlen. cbn [andb].
  rewrite List.filter_app, filter_absent by exact Hpure. simpl. now rewrite app_nil_r.
Qed.

(** X26: the quick fix for a function that lacks [pure] only changes
    nothing. Let the function at index [fi] declare a non-empty list of
    effects without ["pure"], and let the effects computed for it exceed
    the declared ones by ["pure"] alone (it calls a pure builtin such as
    [add] beside what it declares). For its [MissingEffect] issue,
    [suggest_patches] proposes to replace the effects by the very list
    that is declared, and [apply_suggestions] returns the module as it
    was. *)
Theorem missing_pure_is_not_repaired (module : Module_) (effects_map : Memo)
    (found : list EffectIssue) (it : Json) (fi : nat) (f : list (string * Json))
    (name : string) (declared : list Json) :
  has_code "MissingEffect" it = true ->
  effects_pointer_index (pointer_parts it) = Some fi ->
  functions_of module !! fi = Some (JDict f) ->
  dict_get "name" f = Some (JStr name) ->
  dict_get "effects" f = Some (JList declared) ->
  declared <> [] ->
  contains (JStr "pure") declared = false ->
  compute_transitive_effects module = Some (effects_map, found) ->
  default ∅ (dict_get name effects_map) ∖ list_to_set (strings_of declared) = {["pure"]} ->
  resolve (JDict module) ("/functions/" +:+ str_of_nat fi +:+ "/effects") = Ok (JList declared) ->
  suggest_patches module [it]
  = Ok [op_replace ("/functions/" +:+ str_of_nat fi +:+ "/effects") (JList declared)] /\
  apply_suggestions module [it] = Ok (JDict module).
Proof.
  intros Hcode Hptr Hfn Hname Heff Hne Hpure Hrun Hmissing Hres.
  assert (Hsuggest : suggest_patches module [it]
            = Ok [op_replace ("/functions/" +:+ str_of_nat fi +:+ "/effects") (JList declared)]).
  { unfold suggest_patches. cbn [existsb map concat collect]. rewrite Hcode. cbn [orb].
    rewrite Hrun.
    unfold missing_return_patch, not_pure_patch.
    rewrite (has_code_only "MissingEffect" "MissingReturn" it Hcode) by discriminate.
    rewrite (has_code_only "MissingEffect" "NotPure" it Hcode) by discriminate.
    cbn [rbind app].
    rewrite (missing_pure_patch module effects_map it fi f name declared) by assumption.
    reflexivity. }
  split; [ exact Hsuggest | ].
  unfold apply_suggestions. rewrite Hsuggest. cbn [rbind].
  now apply replace_same.
Qed.

(** [f] declares [io.print], prints, and adds two numbers. *)
Definition prints_a_sum : list (string * Json) :=
  function "f" ["io.print"]
    [JDict [("expr", call "print" [call "add" [JInt 1; JInt 2]])]; JDict [("return", JNull)]].

Definition printing_module : Module_ :=
  [("module", JStr "m"); ("version", JStr "1.0"); ("functions", JList [JDict prints_a_sum])].

Definition missing_pure_issue : Json :=
  JDict [("pointer", JStr "/functions/0/effects"); ("code", JStr "MissingEffect");
         ("severity", JStr "error");
         ("message",
          JStr "Function 'f' requires effects ['pure'] but declares ['io.print'].")].

Lemma missing_pure_is_not_repaired_witness :
  check_effects printing_module = Some [missing_pure_issue] /\
  suggest_patches printing_module [missing_pure_issue]
  = Ok [op_replace ("/functions/" +:+ str_of_nat 0 +:+ "/effects") (JList [JStr "io.print"])] /\
  apply_suggestions printing_module [missing_pure_issue] = Ok (JDict printing_module).
Proof.
  split; [ vm_compute; reflexivity | ].
  destruct (compute_transitive_effects printing_module) as [ [effects_map found] | ] eqn:Hrun;
    [ | vm_compute in Hrun; discriminate Hrun ].
  apply (missing_pure_is_not_repaired printing_module effects_map found missing_pure_issue 0
           prints_a_sum "f" [JStr "io.print"]);
    try reflexivity; try discriminate; try exact Hrun.
  vm_compute in Hrun. injection Hrun as <- _.
  apply (bool_decide_unpack _). vm_compute. exact I.
Defined.

End RepairLaws.


(** ** [repair_suggest.py]: the patch for [MissingReturn] *)

From Stdlib Require DecimalNat.

Module ReturnFix.
Import Py Pointer Effects RepairSuggest EffectsFacts PointerLaws PatchLaws RepairLaws.

Local Open Scope nat_scope.

(** *** Decimal numerals *)

Lemma digits_of_uint (d : Decimal.uint) : all_digits (NilEmpty.string_of_uint d) = true.
Proof. induction d; simpl; auto. Qed.

Lemma int_of_uint (d : Decimal.uint) : forall acc,
  int_of_digits acc (NilEmpty.string_of_uint d) = Nat.of_uint_acc d acc.
Proof.
  induction d; intros acc; simpl; [ reflexivity | .. ];
    rewrite IHd, ?Nat.tail_mul_spec; f_equal; lia.
Qed.

Lemma str_of_nat_digits (n : nat) :
  str_of_nat n <> "" /\ all_digits (str_of_nat n) = true /\ int_of_str (str_of_nat n) = n.
Proof.
  unfold str_of_nat, NilZero.string_of_uint, int_of_str.
  pose proof (DecimalNat.Unsigned.of_to n) as Hof. unfold Nat.of_uint in Hof.
  pose proof (digits_of_uint (Nat.to_uint n)) as Hd.
  pose proof (int_of_uint (Nat.to_uint n) 0) as Hi. rewrite Hof in Hi.
  destruct (Nat.to_uint n) as [ | d | d | d | d | d | d | d | d | d | d ];
    (split; [ discriminate | ]); (split; [ exact Hd || reflexivity | ]);
    exact Hi.
Qed.

Lemma digit_plain (a : ascii) :
  is_digit a = true ->
  Ascii.eqb a "/" = false /\ Ascii.eqb a "~" = false /\ Ascii.eqb a "-" = false.
Proof.
  intros H. repeat split.
  - destruct (Ascii.eqb_spec a "/") as [ -> | ]; [ discriminate H | reflexivity ].
  - destruct (Ascii.eqb_spec a "~") as [ -> | ]; [ discriminate H | reflexivity ].
  - destruct (Ascii.eqb_spec a "-") as [ -> | ]; [ discriminate H | reflexivity ].
Qed.

Lemma digits_escape (s : string) : all_digits s = true -> escape_segment s = s.
Proof.
  induction s as [ | a s IH ]; [ reflexivity | ]. simpl. intros H.
  apply andb_prop in H as [Ha Hs]. rewrite escape_segment_cons, (IH Hs).
  unfold escape_char. destruct (digit_plain a Ha) as (_ & -> & _).
  destruct (digit_plain a Ha) as (-> & _ & _). reflexivity.
Qed.

Lemma digits_not_dash (s : string) : all_digits s = true -> String.eqb s "-" = false.
Proof.
  destruct s as [ | a s ]; [ reflexivity | ]. simpl. intros H.
  apply andb_prop in H as [Ha _]. destruct (digit_plain a Ha) as (_ & _ & ->). reflexivity.
Qed.

(** The pointer of the patch splits into its four segments. *)
Lemma split_body_end (fi : nat) :
  split_pointer ("/functions/" +:+ str_of_nat fi +:+ "/body/-")
  = Ok (["functions"; str_of_nat fi; "body"] ++ ["-"]).
Proof.
  destruct (str_of_nat_digits fi) as (_ & Hd & _).
  pose proof (split_pointer_escaped "functions" [str_of_nat fi; "body"; "-"]) as H.
  cbn [map] in H. rewrite (digits_escape _ Hd) in H. apply H. discriminate.
Qed.

Lemma coerce_index_of_nat (fi : nat) (xs : list Json) :
  _coerce_index (str_of_nat fi) (JList xs) = KeyI fi.
Proof.
  destruct (str_of_nat_digits fi) as (Hne & Hd & Hi).
  unfold _coerce_index. cbn [is_list andb]. rewrite (digits_not_dash _ Hd). cbn [negb andb].
  unfold isdigit. destruct (str_of_nat fi) eqn:E; [ congruence | ].
  rewrite Hd. now rewrite Hi.
Qed.

(** The module after [return null] is appended to the body of its
    function [fi]. *)
Definition with_return (module : Module_) (fns : list Json) (fi : nat)
    (f : list (string * Json)) (body : list Json) : Module_ :=
  dict_set "functions"
    (JList (<[fi := JDict (dict_set "body" (JList (body ++ [JDict [("return", JNull)]])) f)]> fns))
    module.

Lemma append_to_body (module : Module_) (fns : list Json) (fi : nat)
    (f : list (string * Json)) (body : list Json) (value : Json) :
  dict_get "functions" module = Some (JList fns) ->
  fns !! fi = Some (JDict f) ->
  dict_get "body" f = Some (JList body) ->
  apply_patch (JDict module)
    [op_add ("/functions/" +:+ str_of_nat fi +:+ "/body/-") value]
  = Ok (JDict (dict_set "functions"
                 (JList (<[fi := JDict (dict_set "body" (JList (body ++ [value])) f)]> fns))
                 module)).
Proof.
  intros Hfns Hfn Hbody.
  assert (Hlt : fi < length fns) by (eapply lookup_lt_Some; exact Hfn).
  assert (Hstep1 : resolve_step (JDict module) "functions" = Ok (JList fns))
    by (unfold resolve_step; now rewrite Hfns).
  assert (Hstep2 : resolve_step (JList fns) (str_of_nat fi) = Ok (JDict f))
    by (unfold resolve_step; rewrite coerce_index_of_nat; unfold list_index; now rewrite Hfn).
  assert (Hstep3 : resolve_step (JDict f) "body" = Ok (JList body))
    by (unfold resolve_step; now rewrite Hbody).
  assert (Hparent : resolve_segs (JDict module) ["functions"; str_of_nat fi; "body"]
                    = Ok (JList body)).
  { cbn [resolve_segs]. rewrite Hstep1. cbn [rbind]. rewrite Hstep2. cbn [rbind].
    rewrite Hstep3. reflexivity. }
  cbn [apply_patch]. unfold op_add. rewrite apply_op_write by now left.
  change (String.eqb ("/functions/" +:+ str_of_nat fi +:+ "/body/-") ""
          || String.eqb ("/functions/" +:+ str_of_nat fi +:+ "/body/-") "/") with false.
  cbv iota.
  rewrite (resolve_parent_of (JDict module) _ _ "-" (JList body) (split_body_end fi) Hparent).
  cbn [rbind]. change (_coerce_index "-" (JList body)) with (KeyS "-").
  change (key_is_dash (KeyS "-")) with true. cbv iota.
  cbn [store]. rewrite Hstep1. cbn [rbind]. rewrite Hstep2. cbn [rbind].
  rewrite Hstep3. cbn [rbind]. rewrite coerce_index_of_nat.
  unfold list_assign. destruct (Nat.ltb_spec fi (length fns)); [ | lia ].
  reflexivity.
Qed.

(** X27: the quick fix for [MissingReturn] appends [return null] and
    touches nothing else. For an issue [MissingReturn] at
    [/functions/<fi>], where function [fi] of the module is an object
    with a list as [body], [apply_suggestions] returns the module with
    [{"return": null}] appended to that body; all other members, functions
    and statements are as before. *)
Theorem missing_return_fix_appends_return (module : Module_) (it : Json) (fi : nat)
    (fns : list Json) (f : list (string * Json)) (body : list Json) :
  has_code "MissingReturn" it = true ->
  function_index (pointer_parts it) = Some fi ->
  dict_get "functions" module = Some (JList fns) ->
  fns !! fi = Some (JDict f) ->
  dict_get "body" f = Some (JList body) ->
  suggest_patches module [it]
  = Ok [op_add ("/functions/" +:+ str_of_nat fi +:+ "/body/-") (JDict [("return", JNull)])] /\
  apply_suggestions module [it] = Ok (JDict (with_return module fns fi f body)).
Proof.
  intros Hcode Hptr Hfns Hfn Hbody.
  assert (Hsuggest : suggest_patches module [it]
            = Ok [op_add ("/functions/" +:+ str_of_nat fi +:+ "/body/-")
                    (JDict [("return", JNull)])]).
  { unfold suggest_patches. cbn [existsb map concat collect].
    unfold missing_return_patch, not_pure_patch, missing_effect_patch.
    rewrite Hcode, Hptr.
    rewrite (has_code_only "MissingReturn" "MissingEffect" it Hcode) by discriminate.
    rewrite (has_code_only "MissingReturn" "NotPure" it Hcode) by discriminate.
    reflexivity. }
  split; [ exact Hsuggest | ].
  unfold apply_suggestions. rewrite Hsuggest. cbn [rbind].
  now apply append_to_body.
Qed.

Definition falls_through : list (string * Json) :=
  [("name", JStr "f"); ("params", JList [JStr "x"]);
   ("body", JList [JDict [("let", JDict [("name", JStr "y"); ("expr", JDict [("var", JStr "x")])])]])].

Definition falling_module : Module_ :=
  [("module", JStr "m"); ("version", JStr "1.0");
   ("functions", JList [JDict (function "g" ["pure"] [JDict [("return", JInt 1)]]);
                        JDict falls_through])].

Definition missing_return_at_1 : Json :=
  JDict [("pointer", JStr "/functions/1"); ("code", JStr "MissingReturn");
         ("severity", JStr "error");
         ("message", JStr "Function 'f' may fall through without returning")].

Lemma missing_return_fix_appends_return_witness :
  suggest_patches falling_module [missing_return_at_1]
  = Ok [op_add ("/functions/" +:+ str_of_nat 1 +:+ "/body/-") (JDict [("return", JNull)])] /\
  apply_suggestions falling_module [missing_return_at_1]
  = Ok (JDict (with_return falling_module
                 [JDict (function "g" ["pure"] [JDict [("return", JInt 1)]]); JDict falls_through]
                 1 falls_through
                 [JDict [("let", JDict [("name", JStr "y");
                                        ("expr", JDict [("var", JStr "x")])])]])).
Proof.
  apply (missing_return_fix_appends_return falling_module missing_return_at_1 1
           [JDict (function "g" ["pure"] [JDict [("return", JInt 1)]]); JDict falls_through]
           falls_through
           [JDict [("let", JDict [("name", JStr "y"); ("expr", JDict [("var", JStr "x")])])]]);
    reflexivity.
Defined.

End ReturnFix.


(** ** [repair_suggest.py]: the patch for [NotPure] *)

Module NotPureFix.
Import Py Pointer Effects RepairSuggest EffectsFacts PointerLaws PatchLaws RepairLaws ReturnFix.

Local Open Scope nat_scope.

Lemma index_of_lt (x : Json) (xs : list Json) :
  contains x xs = true -> index_of x xs < length xs.
Proof.
  unfold contains. induction xs as [ | y xs IH ]; simpl; [ discriminate | ].
  destruct (Json_eqb y x); simpl; [ lia | ]. intros H. specialize (IH H). lia.
Qed.

(** [index_of] finds the first element equal to [x]. *)
Lemma index_of_first (x : Json) (xs : list Json) :
  contains x xs = true ->
  exists y, xs !! index_of x xs = Some y /\ Json_eqb y x = true /\
            contains x (take (index_of x xs) xs) = false.
Proof.
  unfold contains. induction xs as [ | z xs IH ]; simpl; [ discriminate | ].
  destruct (Json_eqb z x) eqn:E; simpl.
  - intros _. exists z. now repeat split.
  - intros H. destruct (IH H) as (y & Hy & Hyx & Hbefore).
    exists y. split; [ exact Hy | ]. split; [ exact Hyx | ]. now rewrite E.
Qed.

Lemma split_effect_entry (fi idx : nat) :
  split_pointer ("/functions/" +:+ str_of_nat fi +:+ "/effects/" +:+ str_of_nat idx)
  = Ok (["functions"; str_of_nat fi; "effects"] ++ [str_of_nat idx]).
Proof.
  destruct (str_of_nat_digits fi) as (_ & Hd & _).
  destruct (str_of_nat_digits idx) as (_ & Hd' & _).
  pose proof (split_pointer_escaped "functions" [str_of_nat fi; "effects"; str_of_nat idx]) as H.
  cbn [map] in H. rewrite (digits_escape _ Hd), (digits_escape _ Hd') in H.
  apply H. discriminate.
Qed.

Lemma remove_effect_entry (module : Module_) (fns : list Json) (fi idx : nat)
    (f : list (string * Json)) (eff : list Json) :
  dict_get "functions" module = Some (JList fns) ->
  fns !! fi = Some (JDict f) ->
  dict_get "effects" f = Some (JList eff) ->
  idx < length eff ->
  apply_patch (JDict module)
    [op_remove ("/functions/" +:+ str_of_nat fi +:+ "/effects/" +:+ str_of_nat idx)]
  = Ok (JDict (dict_set "functions"
                 (JList (<[fi := JDict (dict_set "effects"
                                          (JList (take idx eff ++ drop (S idx) eff)) f)]> fns))
                 module)).
Proof.
  intros Hfns Hfn Heff Hidx.
  assert (Hlt : fi < length fns) by (eapply lookup_lt_Some; exact Hfn).
  assert (Hstep1 : resolve_step (JDict module) "functions" = Ok (JList fns))
    by (unfold resolve_step; now rewrite Hfns).
  assert (Hstep2 : resolve_step (JList fns) (str_of_nat fi) = Ok (JDict f))
    by (unfold resolve_step; rewrite coerce_index_of_nat; unfold list_index; now rewrite Hfn).
  assert (Hstep3 : resolve_step (JDict f) "effects" = Ok (JList eff))
    by (unfold resolve_step; now rewrite Heff).
  assert (Hparent : resolve_segs (JDict module) ["functions"; str_of_nat fi; "effects"]
                    = Ok (JList eff)).
  { cbn [resolve_segs]. rewrite Hstep1. cbn [rbind]. rewrite Hstep2. cbn [rbind].
    rewrite Hstep3. reflexivity. }
  cbn [apply_patch]. rewrite apply_op_remove.
  rewrite (resolve_parent_of (JDict module) _ _ (str_of_nat idx) (JList eff)
             (split_effect_entry fi idx) Hparent).
  cbn [rbind]. rewrite coerce_index_of_nat.
  unfold list_pop_at. destruct (Nat.ltb_spec idx (length eff)); [ | lia ]. cbn [rbind].
  cbn [store]. rewrite Hstep1. cbn [rbind]. rewrite Hstep2. cbn [rbind].
  rewrite Hstep3. cbn [rbind]. rewrite coerce_index_of_nat.
  unfold list_assign. destruct (Nat.ltb_spec fi (length fns)); [ | lia ].
  reflexivity.
Qed.

(** X28: the quick fix for [NotPure] deletes the first ["pure"] of the
    declared effects and touches nothing else. For an issue [NotPure] at
    [/functions/<fi>/effects], where function [fi] declares a list of
    more than one effect with ["pure"] among them, [apply_suggestions]
    returns the module with that list cut at the first ["pure"]: the
    effects before it hold no ["pure"], those after it are kept as they
    are. *)
Theorem not_pure_fix_removes_first_pure (module : Module_) (it : Json) (fi : nat)
    (fns : list Json) (f : list (string * Json)) (eff : list Json) :
  has_code "NotPure" it = true ->
  effects_pointer_index (pointer_parts it) = Some fi ->
  dict_get "functions" module = Some (JList fns) ->
  fns !! fi = Some (JDict f) ->
  dict_get "effects" f = Some (JList eff) ->
  contains (JStr "pure") eff = true ->
  1 < length eff ->
  exists before after,
    eff = before ++ JStr "pure" :: after /\
    contains (JStr "pure") before = false /\
    apply_suggestions module [it]
    = Ok (JDict (dict_set "functions"
                   (JList (<[fi := JDict (dict_set "effects" (JList (before ++ after)) f)]> fns))
                   module)).
Proof.
  intros Hcode Hptr Hfns Hfn Heff Hpure Hlen.
  set (idx := index_of (JStr "pure") eff).
  destruct (index_of_first _ _ Hpure) as (y & Hy & Hyx & Hbefore). fold idx in Hy, Hbefore.
  assert (y = JStr "pure") as ->.
  { destruct y; try discriminate Hyx. simpl in Hyx. apply String.eqb_eq in Hyx. now subst. }
  exists (take idx eff), (drop (S idx) eff).
  split; [ | split; [ exact Hbefore | ] ].
  { rewrite <- (take_drop_middle eff idx (JStr "pure") Hy) at 1. reflexivity. }
  assert (Hsuggest : suggest_patches module [it]
            = Ok [op_remove ("/functions/" +:+ str_of_nat fi +:+ "/effects/"
                             +:+ str_of_nat idx)]).
  { unfold suggest_patches. cbn [existsb map concat collect].
    unfold missing_return_patch, not_pure_patch, missing_effect_patch.
    rewrite Hcode, Hptr.
    rewrite (has_code_only "NotPure" "MissingEffect" it Hcode) by discriminate.
    rewrite (has_code_only "NotPure" "MissingReturn" it Hcode) by discriminate.
    unfold functions_of, array_or_empty. rewrite Hfns. unfold list_index. rewrite Hfn.
    cbn [rbind]. rewrite Heff. cbn [default from_option id]. rewrite Hpure.
    destruct (Nat.ltb_spec 1 (length eff)); [ | lia ]. reflexivity. }
  unfold apply_suggestions. rewrite Hsuggest. cbn [rbind].
  apply remove_effect_entry; try assumption. now apply index_of_lt.
Qed.

(** [h] declares [pure] beside [io.print]. *)
Definition pure_and_print : list (string * Json) :=
  function "h" ["io.print"; "pure"] [JDict [("return", call "print" [JStr "hi"])]].

Definition not_pure_module : Module_ :=
  [("module", JStr "m"); ("version", JStr "1.0"); ("functions", JList [JDict pure_and_print])].

Definition not_pure_issue : Json :=
  JDict [("pointer", JStr "/functions/0/effects"); ("code", JStr "NotPure");
         ("severity", JStr "warning");
         ("message",
          JStr "Function 'h' declares 'pure' but also ['io.print']. Consider removing 'pure'.")].

Lemma not_pure_fix_removes_first_pure_witness :
  check_effects not_pure_module = Some [not_pure_issue] /\
  exists before after,
    [JStr "io.print"; JStr "pure"] = before ++ JStr "pure" :: after /\
    contains (JStr "pure") before = false /\
    apply_suggestions not_pure_module [not_pure_issue]
    = Ok (JDict (dict_set "functions"
                   (JList (<[0 := JDict (dict_set "effects" (JList (before ++ after))
                                           pure_and_print)]> [JDict pure_and_print]))
                   not_pure_module)).
Proof.
  split; [ vm_compute; reflexivity | ].
  apply (not_pure_fix_removes_first_pure not_pure_module not_pure_issue 0
           [JDict pure_and_print] pure_and_print [JStr "io.print"; JStr "pure"]);
    try reflexivity.
  simpl. lia.
Defined.

End NotPureFix.


(** ** [semantic.py]: when [check_module] returns and when it raises *)

Module CheckTotal.
Import Py Pointer Semantic PyFacts SemanticFacts.

Local Open Scope nat_scope.

(** A value that cannot be looked up in a set: a list or a dict. *)
Definition unhashable (v : Json) : bool :=
  match v with JList _ | JDict _ => true | _ => false end.

(** A function that [check_module] checks (an object with a string as
    [name] and a list as [params]) and that has a list or an object among
    its parameters. *)
Definition bad_params (fn : Json) : bool :=
  match fn with
  | JDict f =>
      match dict_get "name" f, params_of f with
      | Some (JStr _), Some params => existsb unhashable params
      | _, _ => false
      end
  | _ => false
  end.

(** The member [functions] is a list, or there is none. *)
Definition functions_listed (module : Effects.Module_) : bool :=
  match dict_get "functions" module with
  | None | Some (JList _) => true
  | Some _ => false
  end.

Lemma reserved_params_result (fi : nat) (params : list Json) : forall pi issues,
  if existsb unhashable params
  then reserved_params fi pi params issues = Raise TypeError
  else exists issues', reserved_params fi pi params issues = Ok issues'.
Proof.
  induction params as [ | p params IH ]; intros pi issues; cbn [existsb reserved_params].
  - now exists issues.
  - destruct p; cbn [unhashable orb]; try reflexivity; apply IH.
Qed.

Lemma body_depth (f : list (string * Json)) (body : list Json) :
  body_of f = Some body -> depth (JList body) <= depth (JDict f).
Proof.
  unfold body_of. destruct (dict_get "body" f) as [ v | ] eqn:E.
  - apply depth_get in E. destruct v; try (destruct (Sandbox.truthy _); [ discriminate | ]);
      intros [= <-]; simpl in *; lia.
  - intros [= <-]. simpl. lia.
Qed.

Lemma check_function_result (fuel : nat) (known : Arities) (fi : nat) (fn : Json)
    (issues : list Issue) :
  depth fn <= S fuel ->
  if bad_params fn
  then check_function fuel known fi fn issues = Some (Raise TypeError)
  else exists issues', check_function fuel known fi fn issues = Some (Ok issues').
Proof.
  intros Hd. unfold bad_params, check_function.
  destruct fn as [ | | | | | | f ]; try (now exists issues).
  destruct (dict_get "name" f) as [ [ | | | | name | | ] | ]; try (now exists issues).
  destruct (params_of f) as [ params | ]; [ | now exists issues ].
  pose proof (reserved_params_result fi params 0 issues) as Hr.
  destruct (existsb unhashable params).
  - now rewrite Hr.
  - destruct Hr as [issues1 ->].
    destruct (body_of f) as [ body | ] eqn:Eb; [ | eauto ].
    apply body_depth in Eb.
    destruct (analyze_block_total fuel body [SegS "functions"; SegI fi; SegS "body"]
                (mkFlow (list_to_set (Effects.strings_of params))
                        (list_to_set (Effects.strings_of params)))
                issues1 known ltac:(lia)) as [ [ [flow' r] issues2 ] -> ].
    eauto.
Qed.

Lemma check_functions_result (fuel : nat) (known : Arities) (fns : list Json) :
  forall fi issues,
    (forall fn, In fn fns -> depth fn <= S fuel) ->
    if existsb bad_params fns
    then check_functions fuel known fi fns issues = Some (Raise TypeError)
    else exists issues', check_functions fuel known fi fns issues = Some (Ok issues').
Proof.
  induction fns as [ | fn fns IH ]; intros fi issues Hd; cbn [existsb check_functions].
  - now exists issues.
  - pose proof (check_function_result fuel known fi fn issues (Hd fn (or_introl eq_refl))) as Hf.
    destruct (bad_params fn); cbn [orb].
    + now rewrite Hf.
    + destruct Hf as [issues1 ->]. apply IH. intros fn' Hin. apply Hd. now right.
Qed.

(** X29: when [check_module] returns and when it raises. On a module
    whose [functions] is a list (or absent), with fuel for the nesting
    depth of the module, [check_module] returns a list of issues, unless
    one of the functions it checks has a list or an object among its
    parameters: then it raises [TypeError] (the parameter is looked up in
    the set of reserved names) and reports nothing. *)
Theorem check_module_returns_or_raises (fuel : nat) (module : Effects.Module_) :
  functions_listed module = true ->
  depth (JDict module) <= fuel ->
  if existsb bad_params (Effects.functions_of module)
  then check_module fuel module = Some (Raise TypeError)
  else exists issues, check_module fuel module = Some (Ok issues).
Proof.
  intros _ Hd. unfold check_module.
  assert (Hfns : forall fn, In fn (Effects.functions_of module) -> depth fn <= S fuel).
  { intros fn Hin. unfold Effects.functions_of, Effects.array_or_empty in Hin.
    destruct (dict_get "functions" module) as [ [ | | | | | fns | ] | ] eqn:E;
      try contradiction.
    apply depth_get in E. apply depth_element in Hin. lia. }
  pose proof (check_functions_result fuel (known_arities_of module)
                (Effects.functions_of module) 0 [] Hfns) as H.
  destruct (existsb bad_params (Effects.functions_of module)).
  - now rewrite H.
  - destruct H as [issues ->]. eauto.
Qed.

(** A function whose second parameter is a list. *)
Definition list_as_param : Effects.Module_ :=
  [("module", JStr "m"); ("version", JStr "1.0");
   ("functions",
    JList [JDict [("name", JStr "f"); ("params", JList [JStr "x"; JList [JStr "y"]]);
                  ("body", JList [JDict [("return", JDict [("var", JStr "x")])]])]])].

Lemma check_module_returns_or_raises_witness :
  check_module 7 list_as_param = Some (Raise TypeError).
Proof.
  apply (check_module_returns_or_raises 7 list_as_param); [ reflexivity | vm_compute; lia ].
Defined.

End CheckTotal.
